(** * VOLTTRON agent core: scheduler, handshake, dispatch and peer list

    A shallow embedding of the parts of
    [volttron/platform/vip/agent/core.py] and
    [volttron/platform/vip/agent/subsystems/peerlist.py] that carry the
    agent runtime's contracts: the deadline scheduler of [BasicCore], the
    hello/welcome handshake and the receive loops of [ZMQCore] and
    [RMQCore], the subsystem registry of [Core], and the correlated
    results of [PeerList].  Smaller modules at the end cover the calls
    handed to the hub, the [Periodic] loop, [findsignal],
    [ZMQCore.connect_remote_platform], the end of [ZMQCore.loop], and the
    choice of core and pubsub in [Agent.__init__].

    Python objects that are mutated in place (the core, a scheduled
    event, a received message) are records threaded through the
    functions that mutate them; effects on the outside world (frames
    sent, signals emitted, log lines) are returned as a list of actions
    in program order. *)

From Stdlib Require Import ZArith QArith Lqa List Bool Lia.
From stdpp Require Import base option list sorting gmap strings pretty.

(** ** Python's [heapq]

    The scheduler keeps its callbacks in a list managed by [heapq], a
    module of Python's standard library.  [heappush] and [heappop] and
    the two sifting routines they rest on are transcribed from
    [Lib/heapq.py]; a list is a Python list, [heap[pos] = x] is
    [<[pos := x]> heap], and the item comparison [<] is a parameter. *)

Module Heapq.

Section Heap.

Context {A : Type} (lt : A -> A -> bool).

(** [(pos - 1) >> 1]. *)
Definition parent (pos : nat) : nat := (pos - 1) / 2.

(** [heap[i] < heap[j]]. *)
Definition item_lt (heap : list A) (i j : nat) : bool :=
  match heap !! i, heap !! j with
  | Some a, Some b => lt a b
  | _, _ => false
  end.

(** The loop of [_siftdown(heap, startpos, pos)] followed by its last
    statement, [heap[pos] = newitem].  The position halves at each turn,
    so [pos] turns are enough. *)
Fixpoint _siftdown_loop (fuel : nat) (heap : list A) (startpos pos : nat)
    (newitem : A) : list A :=
  match fuel with
  | O => <[pos := newitem]> heap
  | S fuel' =>
      if (startpos <? pos)%nat then
        let parentpos := parent pos in
        match heap !! parentpos with
        | Some parent =>
            if lt newitem parent
            then _siftdown_loop fuel' (<[pos := parent]> heap) startpos
                   parentpos newitem
            else <[pos := newitem]> heap
        | None => <[pos := newitem]> heap
        end
      else <[pos := newitem]> heap
  end.

(** [_siftdown(heap, startpos, pos)]: [newitem = heap[pos]], then the
    loop. *)
Definition _siftdown (heap : list A) (startpos pos : nat) : list A :=
  match heap !! pos with
  | Some newitem => _siftdown_loop pos heap startpos pos newitem
  | None => heap
  end.

(** The loop of [_siftup(heap, pos)]: the smaller child moves up until
    [pos] is a leaf.  It returns the list and the final [pos]; the
    position grows at each turn, so [len(heap)] turns are enough. *)
Fixpoint _siftup_loop (fuel : nat) (heap : list A) (endpos pos : nat)
    : list A * nat :=
  match fuel with
  | O => (heap, pos)
  | S fuel' =>
      let childpos := (2 * pos + 1)%nat in
      if (childpos <? endpos)%nat then
        let rightpos := (childpos + 1)%nat in
        let childpos :=
          if (rightpos <? endpos)%nat && negb (item_lt heap childpos rightpos)
          then rightpos else childpos in
        match heap !! childpos with
        | Some child =>
            _siftup_loop fuel' (<[pos := child]> heap) endpos childpos
        | None => (heap, pos)
        end
      else (heap, pos)
  end.

(** [_siftup(heap, pos)]: the loop, then [heap[pos] = newitem] and
    [_siftdown(heap, startpos, pos)]. *)
Definition _siftup (heap : list A) (pos : nat) : list A :=
  let endpos := length heap in
  let startpos := pos in
  match heap !! pos with
  | Some newitem =>
      let '(heap, pos) := _siftup_loop (length heap) heap endpos pos in
      _siftdown (<[pos := newitem]> heap) startpos pos
  | None => heap
  end.

(** [heappush(heap, item)]: [heap.append(item)], then
    [_siftdown(heap, 0, len(heap) - 1)]. *)
Definition heappush (heap : list A) (item : A) : list A :=
  _siftdown (heap ++ [item]) 0 (length heap).

(** [heappop(heap)]: [lastelt = heap.pop()], which raises [IndexError]
    on an empty list ([None]); if items are left, the first one is
    returned, [lastelt] takes its place and is sifted. *)
Definition heappop (heap : list A) : option (A * list A) :=
  match last heap with
  | None => None
  | Some lastelt =>
      let heap := removelast heap in
      match heap !! 0%nat with
      | Some returnitem =>
          Some (returnitem, _siftup (<[0%nat := lastelt]> heap) 0)
      | None => Some (lastelt, heap)
      end
  end.

(** [not (b < a)]. *)
Definition item_le (a b : A) : Prop := lt b a = false.

(** The heap invariant: no item is below its parent. *)
Definition heap_ordered (h : list A) : Prop :=
  forall i x y, (0 < i)%nat ->
    h !! i = Some x -> h !! parent i = Some y -> item_le y x.

(** [up_inv v pos]: [v] is ordered except that the item at [pos] may be
    below its parent. *)
Definition up_inv (v : list A) (pos : nat) : Prop :=
  (forall i x y, (0 < i)%nat -> i <> pos ->
     v !! i = Some x -> v !! parent i = Some y -> item_le y x)
  /\ (forall c x y, (0 < pos)%nat -> (0 < c)%nat -> parent c = pos ->
        v !! c = Some x -> v !! parent pos = Some y -> item_le y x).

(** [down_inv h pos]: [h] is ordered except at [pos], whose item is
    stale; the children of [pos] are not below its parent. *)
Definition down_inv (h : list A) (pos : nat) : Prop :=
  (forall i x y, (0 < i)%nat -> i <> pos -> parent i <> pos ->
     h !! i = Some x -> h !! parent i = Some y -> item_le y x)
  /\ (forall c x y, (0 < pos)%nat -> (0 < c)%nat -> parent c = pos ->
        h !! c = Some x -> h !! parent pos = Some y -> item_le y x).

End Heap.

End Heapq.

(** ** The scheduler of [BasicCore] *)

Module Sched.

(** A [ScheduledEvent] is named by its allocation index in the core's
    event store; a user function is named by a number. *)
Abbreviation event_id := nat (only parsing).
Abbreviation fn := nat (only parsing).

(** [class ScheduledEvent]: [__init__] clears both flags. *)
Record ScheduledEvent := {
  function : fn;
  canceled : bool;
  finished : bool
}.

Definition ScheduledEvent_init (f : fn) : ScheduledEvent :=
  {| function := f; canceled := false; finished := false |}.

(** [ScheduledEvent.cancel]: [self.canceled = True]. *)
Definition cancel (ev : ScheduledEvent) : ScheduledEvent :=
  {| function := function ev; canceled := true; finished := finished ev |}.

Definition set_finished (ev : ScheduledEvent) : ScheduledEvent :=
  {| function := function ev; canceled := canceled ev; finished := true |}.

(** Deadlines are seconds since the epoch: the value
    [utils.get_utc_seconds_from_epoch(deadline)] that [_schedule_callback]
    computes on entry.  That function lives in
    [volttron.platform.agent.utils]; the scheduler only compares its
    results, which are finite floats and hence rationals. *)
Abbreviation seconds := Q (only parsing).

(** A Python iterator over deadlines: [next] either yields a deadline
    and advances, or raises [StopIteration] ([None]). *)
Record iterator := {
  it_gen : nat -> option seconds;
  it_pos : nat
}.

Definition next (it : iterator) : option (seconds * iterator) :=
  match it_gen it (it_pos it) with
  | Some d => Some (d, {| it_gen := it_gen it; it_pos := S (it_pos it) |})
  | None => None
  end.

(** The two callables [_schedule_callback] is ever given: a
    [ScheduledEvent] itself (its [__call__]), or the [wrapper] closure of
    [_schedule_iter], which captures the event and the iterator.  Only
    one copy of a given wrapper is in flight at a time, so the iterator
    it captures is carried in the closure. *)
Inductive callback :=
| EventCall (e : event_id)
| wrapper (e : event_id) (it : iterator).

Definition callback_event (cb : callback) : event_id :=
  match cb with EventCall e => e | wrapper e _ => e end.

(** A heap item is the tuple [(deadline, tie_breaker, callback)]. *)
Definition entry : Type := seconds * nat * callback.

Definition entry_deadline (x : entry) : seconds := fst (fst x).
Definition entry_tie (x : entry) : nat := snd (fst x).
Definition entry_callback (x : entry) : callback := snd x.

(** Python's [<] on such tuples: the first component that differs
    decides.  The callbacks are reached only when deadline and
    tie-breaker are both equal, which [get_tie_breaker] rules out (see
    [pushed_ties_fresh]); that case is [false] here. *)
Definition entry_lt (a b : entry) : bool :=
  if Qeq_bool (entry_deadline a) (entry_deadline b)
  then Nat.ltb (entry_tie a) (entry_tie b)
  else negb (Qle_bool (entry_deadline b) (entry_deadline a)).

(** The heap of the scheduler is a [heapq] of such tuples. *)
Definition heappush (heap : list entry) (item : entry) : list entry :=
  Heapq.heappush entry_lt heap item.

Definition heappop (heap : list entry) : option (entry * list entry) :=
  Heapq.heappop entry_lt heap.

Definition heap_top (heap : list entry) : option entry :=
  fst <$> heappop heap.

(** The part of [BasicCore] the scheduler uses.  [events] is the store of
    [ScheduledEvent] objects handed out by [schedule]; [greenlets] are
    the callbacks [schedule_loop] has spawned and the hub has not started
    yet, oldest first; [calls] records every invocation of an event's
    user function, oldest first. *)
Record BasicCore := {
  _schedule : list entry;
  tie_breaker : nat;
  events : list ScheduledEvent;
  greenlets : list callback;
  calls : list event_id
}.

(** [BasicCore.__init__]. *)
Definition BasicCore_init : BasicCore :=
  {| _schedule := []; tie_breaker := 0; events := [];
     greenlets := []; calls := [] |}.

Definition with_schedule (h : list entry) (c : BasicCore) : BasicCore :=
  {| _schedule := h; tie_breaker := tie_breaker c; events := events c;
     greenlets := greenlets c; calls := calls c |}.

Definition with_events (evs : list ScheduledEvent) (c : BasicCore) : BasicCore :=
  {| _schedule := _schedule c; tie_breaker := tie_breaker c; events := evs;
     greenlets := greenlets c; calls := calls c |}.

(** [get_tie_breaker]: increment, then return the new value. *)
Definition get_tie_breaker (c : BasicCore) : nat * BasicCore :=
  (S (tie_breaker c),
   {| _schedule := _schedule c; tie_breaker := S (tie_breaker c);
      events := events c; greenlets := greenlets c; calls := calls c |}).

(** [_schedule_callback(deadline, callback)]. *)
Definition _schedule_callback (deadline : seconds) (cb : callback)
    (c : BasicCore) : BasicCore :=
  let '(t, c1) := get_tie_breaker c in
  with_schedule (heappush (_schedule c1) (deadline, t, cb)) c1.

(** [event.finished = True] on the stored object. *)
Definition finish (e : event_id) (c : BasicCore) : BasicCore :=
  with_events (alter set_finished e (events c)) c.

(** The invocation of [event.function] with the event's arguments is
    recorded. *)
Definition call_function (e : event_id) (c : BasicCore) : BasicCore :=
  {| _schedule := _schedule c; tie_breaker := tie_breaker c;
     events := events c; greenlets := greenlets c;
     calls := calls c ++ [e] |}.

(** [_schedule_iter(it, event)], the part after [wrapper] is defined. *)
Definition _schedule_iter (it : iterator) (e : event_id) (c : BasicCore)
    : BasicCore :=
  match next it with
  | None => finish e c
  | Some (deadline, it') => _schedule_callback deadline (wrapper e it') c
  end.

(** The first argument of [schedule]: [iter(deadline)] either raises
    [TypeError] (a single instant) or gives an iterator. *)
Inductive deadline_arg :=
| Once (d : seconds)
| Iter (it : iterator).

(** [BasicCore.schedule(deadline, func)], returning the new event. *)
Definition schedule (deadline : deadline_arg) (func : fn) (c : BasicCore)
    : event_id * BasicCore :=
  let e := length (events c) in
  let c1 := with_events (events c ++ [ScheduledEvent_init func]) c in
  (e, match deadline with
      | Once d => _schedule_callback d (EventCall e) c1
      | Iter it => _schedule_iter it e c1
      end).

(** [event.cancel()] on the stored object. *)
Definition cancel_event (e : event_id) (c : BasicCore) : BasicCore :=
  with_events (alter cancel e (events c)) c.

(** The body of a spawned callback.  [raises] tells whether the user
    function, if it is invoked, raises; an exception leaves the
    statements after the invocation unexecuted. *)
Definition run_callback (raises : bool) (cb : callback) (c : BasicCore)
    : BasicCore :=
  match cb with
  | EventCall e =>
      (* ScheduledEvent.__call__ *)
      match events c !! e with
      | Some ev =>
          if canceled ev then finish e c
          else let c1 := call_function e c in
               if raises then c1 else finish e c1
      | None => c
      end
  | wrapper e it =>
      match events c !! e with
      | Some ev =>
          if canceled ev then finish e c
          else match next it with
               | None =>
                   let c1 := call_function e c in
                   if raises then c1 else finish e c1
               | Some (deadline, it') =>
                   call_function e
                     (_schedule_callback deadline (wrapper e it') c)
               end
      | None => c
      end
  end.

(** The inner loop of [schedule_loop]:
    [while heap and now >= heap[0][0]: _, _, callback = heappop(heap); spawn(callback)].
    It pops at most [length heap] items, which is the fuel
    [schedule_loop_wake] gives it. *)
Fixpoint drain (fuel : nat) (now : seconds) (heap : list entry)
    : list entry * list entry :=
  match fuel with
  | O => ([], heap)
  | S fuel' =>
      match heappop heap with
      | Some (x, heap') =>
          if Qle_bool (entry_deadline x) now
          then let '(popped, rest) := drain fuel' now heap' in
               (x :: popped, rest)
          else ([], heap)
      | None => ([], heap)
      end
  end.

(** One turn of [schedule_loop] after [event.wait] returns, at time
    [now = time.time()]. *)
Definition schedule_loop_wake (now : seconds) (c : BasicCore) : BasicCore :=
  let '(popped, rest) := drain (length (_schedule c)) now (_schedule c) in
  {| _schedule := rest; tie_breaker := tie_breaker c; events := events c;
     greenlets := greenlets c ++ map entry_callback popped;
     calls := calls c |}.

(** The hub starts the oldest spawned greenlet. *)
Definition start_greenlet (raises : bool) (c : BasicCore) : BasicCore :=
  match greenlets c with
  | [] => c
  | cb :: rest =>
      run_callback raises cb
        {| _schedule := _schedule c; tie_breaker := tie_breaker c;
           events := events c; greenlets := rest; calls := calls c |}
  end.

(** What can happen to a running scheduler: calls from agent code, and
    turns of the hub. *)
Inductive request :=
| ReqSchedule (deadline : deadline_arg) (func : fn)
| ReqCancel (e : event_id).

Inductive tick :=
| Wake (now : seconds)
| Start (raises : bool).

Inductive input :=
| User (r : request)
| Hub (t : tick).

Definition step (c : BasicCore) (i : input) : BasicCore :=
  match i with
  | User (ReqSchedule deadline func) => snd (schedule deadline func c)
  | User (ReqCancel e) => cancel_event e c
  | Hub (Wake now) => schedule_loop_wake now c
  | Hub (Start raises) => start_greenlet raises c
  end.

Definition run (ins : list input) (c : BasicCore) : BasicCore :=
  fold_left step ins c.

(** A batch of one-shot [schedule(deadline, func)] calls. *)
Definition schedule_all (ds : list (seconds * fn)) (c : BasicCore)
    : BasicCore :=
  run (map (fun df => User (ReqSchedule (Once (fst df)) (snd df))) ds) c.

(** ** Invariants of the scheduler *)

Definition entry_ltP (a b : entry) : Prop := entry_lt a b = true.

(** The heap items a batch of one-shot [schedule] calls creates: the
    [k]-th call pushes its deadline with tie-breaker [k + 1] and the
    [k]-th event as callback. *)
Definition entries_of (ds : list (seconds * fn)) : list entry :=
  imap (fun k df => (fst df, S k, EventCall k)) ds.

(** After a batch of one-shot calls and any turns of the hub: the items
    popped so far, [L], are in strictly increasing tuple order and below
    everything still on the heap; together with the heap they are the
    items of the batch; the heap is ordered; their callbacks are the ones already invoked
    followed by the ones spawned; and no event is canceled. *)
Definition fired_inv (ds : list (seconds * fn)) (c : BasicCore) : Prop :=
  exists L : list entry,
    StronglySorted entry_ltP L
    /\ Forall (fun x => Forall (fun y => entry_lt x y = true) (_schedule c)) L
    /\ L ++ _schedule c ≡ₚ entries_of ds
    /\ Heapq.heap_ordered entry_lt (_schedule c)
    /\ map entry_callback L = map EventCall (calls c) ++ greenlets c
    /\ length (events c) = length ds
    /\ Forall (fun ev => canceled ev = false) (events c).

(** [e] names an event whose [canceled] flag is set. *)
Definition canceled_at (e : event_id) (evs : list ScheduledEvent) : Prop :=
  exists ev, evs !! e = Some ev /\ canceled ev = true.

(** From [c] to [c'] the event [e] stays canceled, and [calls] only
    grows by invocations of other events. *)
Definition quiet_for (e : event_id) (c c' : BasicCore) : Prop :=
  canceled_at e (events c')
  /\ exists extra, calls c' = calls c ++ extra /\ ~ In e extra.

(** ** The scheduler in any run *)

(** Python's [min(a, b)] and [max(a, b)] on two numbers: the first
    argument, unless the second is strictly smaller (greater). *)
Definition py_min (a b : Q) : Q := if Qle_bool a b then a else b.

Definition py_max (a b : Q) : Q := if Qle_bool b a then a else b.

(** The head of [schedule_loop]'s outer loop: the argument of
    [event.wait], [min(5.0, max(0.0, heap[0][0] - now))], or [None] for
    an empty heap. *)
Definition wait_timeout (now : seconds) (heap : list entry) : option Q :=
  match heap with
  | [] => None
  | x :: _ => Some (py_min 5 (py_max 0 (entry_deadline x - now)))
  end.

(** The callbacks that will still run: the greenlets spawned and not
    started, and the ones on the heap. *)
Definition pending (c : BasicCore) : list callback :=
  greenlets c ++ map entry_callback (_schedule c).

(** What every run keeps: the heap is ordered; its tie-breakers are
    pairwise distinct and lie between 1 and the counter; every pending
    callback and every recorded invocation is of an event handed out. *)
Definition sched_inv (c : BasicCore) : Prop :=
  Heapq.heap_ordered entry_lt (_schedule c)
  /\ List.NoDup (map entry_tie (_schedule c))
  /\ Forall (fun x => (1 <= entry_tie x <= tie_breaker c)%nat) (_schedule c)
  /\ Forall (fun cb => (callback_event cb < length (events c))%nat) (pending c)
  /\ Forall (fun e => (e < length (events c))%nat) (calls c).

(** How many times the function of event [e] has been invoked. *)
Definition invocations (e : event_id) (c : BasicCore) : nat :=
  count_occ Nat.eq_dec (calls c) e.

(** How many invocations a pending callback can still lead to, when the
    iterator of a wrapper raises [StopIteration] at position [N] at the
    latest: one for an event itself; for a wrapper, one for each
    position it can still reach. *)
Definition weight (N : nat) (cb : callback) : nat :=
  match cb with
  | EventCall _ => 1
  | wrapper _ it => N + 1 - it_pos it
  end.

Definition weight_for (N : nat) (e : event_id) (cb : callback) : nat :=
  if Nat.eqb (callback_event cb) e then weight N cb else 0.

(** A wrapper of event [e] carries the generator [gen], which is
    exhausted at [N], at a position not past [N]. *)
Definition shaped (gen : nat -> option seconds) (N : nat) (e : event_id)
    (cb : callback) : Prop :=
  match cb with
  | EventCall _ => True
  | wrapper e' it => e' = e -> it_gen it = gen /\ (it_pos it <= N)%nat
  end.

(** The invocations of [e] so far and the ones its pending callbacks
    can still lead to. *)
Definition owed (N : nat) (e : event_id) (c : BasicCore) : nat :=
  invocations e c + sum_list_with (weight_for N e) (pending c).

(** ** What a turn of the loop fires *)

(** Whether the function of event [e] is invoked when a callback of the
    event starts: the event has been handed out and is not canceled. *)
Definition is_live (c : BasicCore) (e : event_id) : bool :=
  match events c !! e with
  | Some ev => negb (canceled ev)
  | None => false
  end.

(** The events whose functions the callbacks [cbs] invoke when they are
    started one after the other: those that are not canceled, in the
    order of the callbacks. *)
Definition fired (c : BasicCore) (cbs : list callback) : list event_id :=
  List.filter (is_live c) (map callback_event cbs).

(** The hub starts the greenlets that wait, one for each element of
    [rs], which tells whether the function raises. *)
Definition start_all (rs : list bool) (c : BasicCore) : BasicCore :=
  run (map (fun r => Hub (Start r)) rs) c.

(** ** One-shot events in a run where calls and turns alternate *)

(** An input other than a [schedule] call with an iterator of
    deadlines. *)
Definition one_shot (i : input) : bool :=
  match i with
  | User (ReqSchedule (Iter _) _) => false
  | _ => true
  end.

(** The deadlines and functions of the one-shot [schedule] calls of a
    run, in the order of the calls. *)
Definition requests (ins : list input) : list (seconds * fn) :=
  omap (fun i => match i with
                 | User (ReqSchedule (Once d) f) => Some (d, f)
                 | _ => None
                 end) ins.

(** The event of a heap item. *)
Definition entry_event (x : entry) : event_id :=
  callback_event (entry_callback x).

(** The event [e] has been handed out and no item of the heap is for
    it: it has been taken off the heap. *)
Definition off_heap (e : event_id) (c : BasicCore) : Prop :=
  (e < length (events c))%nat /\ ~ In e (map entry_event (_schedule c)).

(** In the run [ins], [schedule] was called for event [b] only after
    event [a] had been taken off the heap. *)
Definition late (ins : list input) (a b : event_id) : Prop :=
  exists ins1 ins2, ins = ins1 ++ ins2
    /\ off_heap a (run ins1 BasicCore_init)
    /\ (length (events (run ins1 BasicCore_init)) <= b)%nat.

(** The order in which two items leave the heap in the run [ins]: by
    deadline and tie-breaker, unless the second was pushed after the
    first had left. *)
Definition leaves_before (ins : list input) (x y : entry) : Prop :=
  entry_lt x y = true \/ late ins (entry_event x) (entry_event y).

(** After a run of one-shot [schedule] calls, cancels and turns of the
    hub: the items popped so far are [L1], whose callbacks have been
    started, followed by [L2], whose callbacks wait to be started;
    together with the heap they are the items the calls pushed; the
    recorded invocations are those of the started callbacks, without the
    canceled ones; and the popped items left the heap in order. *)
Definition order_inv (ins : list input) (c : BasicCore) : Prop :=
  exists L1 L2 : list entry,
    (L1 ++ L2) ++ _schedule c ≡ₚ entries_of (requests ins)
    /\ Heapq.heap_ordered entry_lt (_schedule c)
    /\ map entry_callback L2 = greenlets c
    /\ sublist (calls c) (map entry_event L1)
    /\ Forall (fun x => is_live c (entry_event x) = true ->
                        In (entry_event x) (calls c)) L1
    /\ StronglySorted (leaves_before ins) (L1 ++ L2)
    /\ Forall (fun x => Forall (leaves_before ins x) (_schedule c)) (L1 ++ L2)
    /\ length (events c) = length (requests ins)
    /\ tie_breaker c = length (requests ins).

End Sched.

(** ** Messages, signals and the [Core] object *)

Module Vip.

(** An element of [Message.args]: text, or a number such as an errno. *)
Inductive value :=
| VStr (s : string)
| VInt (z : Z).

(** [volttron.platform.vip.socket.Message]: a mutable object with the
    VIP fields as attributes. *)
Record Message := {
  peer : string;
  subsystem : string;
  id : string;
  user : string;
  args : list value
}.

(** What [Core.subsystems] maps a name to: the bound method
    [self.handle_error], or a handler registered by a collaborator. *)
Inductive handler :=
| handle_error_method
| Handler (h : nat).

(** The callables connected to the core's signals: the closures [loop]
    and [register] create, [RMQConnection.close_connection], and
    receivers of collaborators. *)
Inductive receiver :=
| Rhello_response
| Rclose_socket
| Rclose_connection
| Ronerror (name_bytes : string) (error_handler : nat)
| Rstart_periodics
| Rscheduler_start
| Receiver (r : nat).

(** [VIPError.from_errno( *args )] is defined in [errors.py]; the error
    it builds is represented by the call and its arguments. *)
Inductive VIPError :=
| from_errno (args : list value).

(** Keyword arguments of a signal emission. *)
Inductive kwargs :=
| NoKw
| KwConnected (version router identity : value)
| KwError (error : VIPError) (message : Message)
| KwEvent (event : Z).

(** Effects, in program order. *)
Inductive action :=
| Log (line : string)
| SendVip (m : Message)
| Handle (h : nat) (m : Message)
| Emit (signal : string) (kw : kwargs)
| Invoke (signal : string) (r : receiver) (kw : kwargs)
| SetRunningEvent
| SpawnCheck
| DisableMonitor
| Stop (timeout : option Q).

(** The class [HelloState] that [loop] creates. *)
Record HelloState := {
  count : nat;
  ident : option string
}.

(** The attributes of a [Core] that the handshake and the dispatch use,
    followed by the variables the closures of [loop] share
    ([state], [hello_response_event], [running_event]), the
    [connection_failed_check] greenlets blocked in [wait(10.0)] (each by
    the time its wait expires), whether the monitor and receive loops are
    still running, and the clock. *)
Record Core := {
  identity : string;
  address : string;
  subsystems : gmap string handler;
  connected : bool;
  _reconnect_attempt : nat;
  signals : gmap string (list receiver);
  _stop_event : bool;
  state : HelloState;
  hello_response_event : bool;
  running_event : option bool;
  waiting_checks : list Q;
  monitor_alive : bool;
  vip_loop_alive : bool;
  now : Q
}.

Definition set_subsystems (v : gmap string handler) (c : Core) : Core :=
  {| identity := identity c; address := address c; subsystems := v;
     connected := connected c; _reconnect_attempt := _reconnect_attempt c;
     signals := signals c; _stop_event := _stop_event c; state := state c;
     hello_response_event := hello_response_event c;
     running_event := running_event c; waiting_checks := waiting_checks c;
     monitor_alive := monitor_alive c; vip_loop_alive := vip_loop_alive c;
     now := now c |}.

Definition set_connected (v : bool) (c : Core) : Core :=
  {| identity := identity c; address := address c; subsystems := subsystems c;
     connected := v; _reconnect_attempt := _reconnect_attempt c;
     signals := signals c; _stop_event := _stop_event c; state := state c;
     hello_response_event := hello_response_event c;
     running_event := running_event c; waiting_checks := waiting_checks c;
     monitor_alive := monitor_alive c; vip_loop_alive := vip_loop_alive c;
     now := now c |}.

Definition set_reconnect_attempt (v : nat) (c : Core) : Core :=
  {| identity := identity c; address := address c; subsystems := subsystems c;
     connected := connected c; _reconnect_attempt := v;
     signals := signals c; _stop_event := _stop_event c; state := state c;
     hello_response_event := hello_response_event c;
     running_event := running_event c; waiting_checks := waiting_checks c;
     monitor_alive := monitor_alive c; vip_loop_alive := vip_loop_alive c;
     now := now c |}.

Definition set_signals (v : gmap string (list receiver)) (c : Core) : Core :=
  {| identity := identity c; address := address c; subsystems := subsystems c;
     connected := connected c; _reconnect_attempt := _reconnect_attempt c;
     signals := v; _stop_event := _stop_event c; state := state c;
     hello_response_event := hello_response_event c;
     running_event := running_event c; waiting_checks := waiting_checks c;
     monitor_alive := monitor_alive c; vip_loop_alive := vip_loop_alive c;
     now := now c |}.

Definition set_stop_event (v : bool) (c : Core) : Core :=
  {| identity := identity c; address := address c; subsystems := subsystems c;
     connected := connected c; _reconnect_attempt := _reconnect_attempt c;
     signals := signals c; _stop_event := v; state := state c;
     hello_response_event := hello_response_event c;
     running_event := running_event c; waiting_checks := waiting_checks c;
     monitor_alive := monitor_alive c; vip_loop_alive := vip_loop_alive c;
     now := now c |}.

Definition set_state (v : HelloState) (c : Core) : Core :=
  {| identity := identity c; address := address c; subsystems := subsystems c;
     connected := connected c; _reconnect_attempt := _reconnect_attempt c;
     signals := signals c; _stop_event := _stop_event c; state := v;
     hello_response_event := hello_response_event c;
     running_event := running_event c; waiting_checks := waiting_checks c;
     monitor_alive := monitor_alive c; vip_loop_alive := vip_loop_alive c;
     now := now c |}.

(** [hello_response_event.set()] wakes every greenlet waiting on the
    event; [hello_response_event = Event()] starts it cleared. *)
Definition set_hello_response_event (v : bool) (c : Core) : Core :=
  {| identity := identity c; address := address c; subsystems := subsystems c;
     connected := connected c; _reconnect_attempt := _reconnect_attempt c;
     signals := signals c; _stop_event := _stop_event c; state := state c;
     hello_response_event := v;
     running_event := running_event c;
     waiting_checks := if v then [] else waiting_checks c;
     monitor_alive := monitor_alive c; vip_loop_alive := vip_loop_alive c;
     now := now c |}.

Definition set_running_event (v : option bool) (c : Core) : Core :=
  {| identity := identity c; address := address c; subsystems := subsystems c;
     connected := connected c; _reconnect_attempt := _reconnect_attempt c;
     signals := signals c; _stop_event := _stop_event c; state := state c;
     hello_response_event := hello_response_event c;
     running_event := v; waiting_checks := waiting_checks c;
     monitor_alive := monitor_alive c; vip_loop_alive := vip_loop_alive c;
     now := now c |}.

Definition set_waiting_checks (v : list Q) (c : Core) : Core :=
  {| identity := identity c; address := address c; subsystems := subsystems c;
     connected := connected c; _reconnect_attempt := _reconnect_attempt c;
     signals := signals c; _stop_event := _stop_event c; state := state c;
     hello_response_event := hello_response_event c;
     running_event := running_event c; waiting_checks := v;
     monitor_alive := monitor_alive c; vip_loop_alive := vip_loop_alive c;
     now := now c |}.

Definition set_monitor_alive (v : bool) (c : Core) : Core :=
  {| identity := identity c; address := address c; subsystems := subsystems c;
     connected := connected c; _reconnect_attempt := _reconnect_attempt c;
     signals := signals c; _stop_event := _stop_event c; state := state c;
     hello_response_event := hello_response_event c;
     running_event := running_event c; waiting_checks := waiting_checks c;
     monitor_alive := v; vip_loop_alive := vip_loop_alive c;
     now := now c |}.

Definition set_vip_loop_alive (v : bool) (c : Core) : Core :=
  {| identity := identity c; address := address c; subsystems := subsystems c;
     connected := connected c; _reconnect_attempt := _reconnect_attempt c;
     signals := signals c; _stop_event := _stop_event c; state := state c;
     hello_response_event := hello_response_event c;
     running_event := running_event c; waiting_checks := waiting_checks c;
     monitor_alive := monitor_alive c; vip_loop_alive := v;
     now := now c |}.

Definition set_now (v : Q) (c : Core) : Core :=
  {| identity := identity c; address := address c; subsystems := subsystems c;
     connected := connected c; _reconnect_attempt := _reconnect_attempt c;
     signals := signals c; _stop_event := _stop_event c; state := state c;
     hello_response_event := hello_response_event c;
     running_event := running_event c; waiting_checks := waiting_checks c;
     monitor_alive := monitor_alive c; vip_loop_alive := vip_loop_alive c;
     now := v |}.

(** [Core.__init__]: the registry starts with the built-in error
    handler, every signal starts without receivers. *)
Definition Core_init (identity address : string) (running : option bool)
    : Core :=
  {| identity := identity; address := address;
     subsystems := {[ "error" := handle_error_method ]};
     connected := false; _reconnect_attempt := 0;
     signals := ∅; _stop_event := false;
     state := {| count := 0; ident := None |};
     hello_response_event := false;
     running_event := running; waiting_checks := [];
     monitor_alive := false; vip_loop_alive := false;
     now := 0%Q |}.

(** Modelled from the spec: [dispatch.Signal] is not among the sources.
    The spec describes it as an observer registry with multiple
    callbacks attached to a named event, where firing invokes all
    callbacks.  A signal is the list of its receivers, named in [signals]
    by the attribute that holds it. *)
Definition Signal := list receiver.

(** Modelled from the spec: the spec's signal is a minimal registry of
    callbacks and is given no truth value of its own; in a condition an
    object whose class defines neither [__bool__] nor [__len__] is
    true. *)
Definition object_truth (s : Signal) : bool := true.

(** The truth value of a container, true when it holds something: the
    one a signal would have if its class answered [__len__] or
    [__bool__] by its receivers. *)
Definition has_receivers (s : Signal) : bool :=
  match s with [] => false | _ :: _ => true end.

Definition signal (name : string) (c : Core) : Signal :=
  signals c !!! name.

Definition Signal_connect (name : string) (r : receiver) (c : Core) : Core :=
  set_signals (<[name := signal name c ++ [r]]> (signals c)) c.

(** [signal.send(self, **kw)] and [signal.sendby(self.link_receiver, self)]
    for receivers whose bodies lie outside the core. *)
Definition Signal_send (name : string) (kw : kwargs) (c : Core)
    : list action :=
  Emit name kw :: map (fun r => Invoke name r kw) (signal name c).

(** [Core.register(name, handler, error_handler=None)]. *)
Definition register (name : string) (h : handler)
    (error_handler : option nat) (c : Core) : Core :=
  let c1 := set_subsystems (<[name := h]> (subsystems c)) c in
  match error_handler with
  | Some eh => Signal_connect "onviperror" (Ronerror name eh) c1
  | None => c1
  end.

Section Router.

(** What Python takes for the truth of a [Signal] object in a condition
    such as [elif self.onviperror:]; it is the class's to define, in
    [dispatch.py]. *)
Variable Signal_bool : Signal -> bool.

(** [router._INVALID_SUBSYSTEM], the errno and message of the
    unknown-subsystem error; [router.py] is not among the sources. *)
Variable _INVALID_SUBSYSTEM : list value.

(** [Core.handle_error(message)]. *)
Definition handle_error (message : Message) (c : Core) : list action :=
  if (length (args message) <? 4)%nat then
    [Log "unhandled VIP error"]
  else if Signal_bool (signal "onviperror" c) then
    let error := from_errno (args message) in
    Signal_send "onviperror" (KwError error message) c
  else [].

(** [Core.stop(timeout, platform_shutdown)]: tell the router, then
    [BasicCore.stop], which sets the stop event [run] is waiting on. *)
Definition stop (timeout : option Q) (platform_shutdown : bool) (c : Core)
    : Core * list action :=
  let frames := [VStr (identity c)] in
  let notice :=
    if connected c && negb platform_shutdown
    then [SendVip {| peer := ""; subsystem := "agentstop"; id := "";
                     user := ""; args := frames |}]
    else [] in
  (set_stop_event true c, notice ++ [Stop timeout]).

(** [connection_failed_check], from the point where
    [hello_response_event.wait(10.0)] has returned [False]. *)
Definition connection_failed_check_timeout (c : Core) : Core * list action :=
  let '(c1, acts) := stop (Some 10%Q) false c in
  (c1,
   [Log "No response to hello message after 10 seconds.";
    Log "Type of message bus used";
    Log "A common reason for this is a conflicting VIP IDENTITY.";
    Log "Another common reason is not having an auth entry onthe target instance.";
    Log "Shutting down agent.";
    Log "Possible conflicting identity is"] ++ acts).

(** [hello]: a fresh correlation id, a spawned [connection_failed_check]
    and the hello frame.  The spawned check calls
    [hello_response_event.wait(10.0)]: with the event set it returns at
    once, otherwise it waits until the event is set or ten seconds have
    passed. *)
Definition hello (c : Core) : Core * list action :=
  let ident := "connect.hello." +:+ pretty (count (state c)) in
  let c1 := set_state {| count := S (count (state c)); ident := Some ident |} c in
  let c2 :=
    if hello_response_event c1 then c1
    else set_waiting_checks (waiting_checks c1 ++ [(now c1 + 10)%Q]) c1 in
  let message := {| peer := ""; subsystem := "hello"; id := ident;
                    user := ""; args := [VStr "hello"] |} in
  (c2, [SpawnCheck; SendVip message]).

(** [hello_response(sender, version, router, identity)]. *)
Definition hello_response (kw : kwargs) (c : Core) : Core * list action :=
  let c1 := set_hello_response_event true c in
  let started :=
    Signal_send "onstart" NoKw c1 ++ Signal_send "configuration" NoKw c1 in
  match running_event c1 with
  | Some _ =>
      (set_running_event (Some true) c1,
       [Log "Connected to platform"; Log "Running onstart methods."]
         ++ started ++ [SetRunningEvent])
  | None =>
      (c1, [Log "Connected to platform"; Log "Running onstart methods."]
             ++ started)
  end.

(** [self.onconnected.send(self, version=..., router=..., identity=...)]:
    the receivers run in turn; [hello_response] is the one [loop]
    connects. *)
Fixpoint onconnected_receivers (rs : list receiver) (kw : kwargs) (c : Core)
    : Core * list action :=
  match rs with
  | [] => (c, [])
  | r :: rs' =>
      let '(c1, a1) :=
        match r with
        | Rhello_response =>
            let '(c1, a) := hello_response kw c in
            (c1, Invoke "onconnected" r kw :: a)
        | _ => (c, [Invoke "onconnected" r kw])
        end in
      let '(c2, a2) := onconnected_receivers rs' kw c1 in
      (c2, a1 ++ a2)
  end.

Definition onconnected_send (kw : kwargs) (c : Core) : Core * list action :=
  let '(c1, a) := onconnected_receivers (signal "onconnected" c) kw c in
  (c1, Emit "onconnected" kw :: a).

(** The test both receive loops apply to a frame before dispatch. *)
Definition is_welcome (st : HelloState) (message : Message) : bool :=
  String.eqb (subsystem message) "hello"
  && match ident st with
     | Some i => String.eqb (id message) i
     | None => false
     end
  && (3 <? length (args message))%nat
  && match args message with
     | VStr s :: _ => String.eqb s "welcome"
     | _ => false
     end.

(** [version, server, identity = message.args[1:4]]. *)
Definition welcome_kwargs (message : Message) : kwargs :=
  match args message with
  | _ :: version :: server :: identity :: _ =>
      KwConnected version server identity
  | _ => NoKw
  end.

(** Assignments to the attributes of a received [Message]. *)
Definition set_user (v : string) (m : Message) : Message :=
  {| peer := peer m; subsystem := subsystem m; id := id m; user := v;
     args := args m |}.

Definition set_args (v : list value) (m : Message) : Message :=
  {| peer := peer m; subsystem := subsystem m; id := id m; user := user m;
     args := v |}.

Definition set_subsystem (v : string) (m : Message) : Message :=
  {| peer := peer m; subsystem := v; id := id m; user := user m;
     args := args m |}.

(** [handle(message)] for a handler found in the registry. *)
Definition call_handler (h : handler) (message : Message) (c : Core)
    : list action :=
  match h with
  | handle_error_method => handle_error message c
  | Handler n => [Handle n message]
  end.

(** How one turn of a loop ends. *)
Inductive flow :=
| Continue
| Break
| Raise.

(** The result of one turn of a receive loop: the core, the effects, how
    the turn ended, and the received [Message] object as the turn left
    it. *)
Record outcome := {
  core_after : Core;
  emitted : list action;
  next_flow : flow;
  message_after : option Message
}.

(** What [sock.recv_vip_object] gives [ZMQCore]'s loop: a message, or a
    [ZMQError] with errno [EAGAIN], [ENOTSOCK] or another one. *)
Inductive zmq_recv :=
| Received (message : Message)
| Eagain
| Enotsock
| ZmqOther.

(** What [self._event_queue.get] gives [RMQCore]'s loop: a message,
    [gevent.Timeout], or another exception. *)
Inductive rmq_recv :=
| Queued (message : Message)
| QueueTimeout
| QueueError.

(** What [recv_monitor_message] gives the monitor: a message with its
    event mask, or a [ZMQError] with errno [ENOTSOCK] or another one. *)
Inductive monitor_recv :=
| MonitorMessage (event : Z)
| MonitorEnotsock
| MonitorOther.

(** libzmq's socket-monitor event masks. *)
Definition EVENT_CONNECTED : Z := 1.
Definition EVENT_CONNECT_RETRIED : Z := 4.
Definition EVENT_DISCONNECTED : Z := 512.
Definition EVENT_MONITOR_STOPPED : Z := 1024.

(** Python's truth value of [event & mask]. *)
Definition masked (event mask : Z) : bool :=
  negb (Z.land event mask =? 0)%Z.

(** One turn of the [while True] in [ZMQCore.loop.monitor]. *)
Definition monitor (r : monitor_recv) (c : Core) : Core * list action :=
  match r with
  | MonitorMessage event =>
      let sockevent := Signal_send "onsockevent" (KwEvent event) c in
      if masked event EVENT_CONNECTED then
        let '(c1, a) := hello c in (c1, sockevent ++ a)
      else if masked event EVENT_DISCONNECTED then
        (set_connected false c, sockevent)
      else if masked event EVENT_CONNECT_RETRIED then
        let c1 := set_reconnect_attempt (_reconnect_attempt c + 1) c in
        if (_reconnect_attempt c1 =? 50)%nat then
          let c2 := set_connected false c1 in
          let '(c3, a) := stop None false c2 in
          (c3, sockevent ++ [DisableMonitor] ++ a
                 ++ Signal_send "ondisconnected" NoKw c3)
        else (c1, sockevent)
      else if masked event EVENT_MONITOR_STOPPED then
        (set_monitor_alive false c, sockevent)
      else (c, sockevent)
  | MonitorEnotsock => (set_monitor_alive false c, [])
  | MonitorOther => (c, [])
  end.

(** [RMQCore.loop.connect_callback]: [router_connected] is overwritten
    with [True] before it is tested, so [hello] is always called. *)
Definition connect_callback (c : Core) : Core * list action :=
  hello c.

(** [RMQCore.loop.connection_error]. *)
Definition connection_error (c : Core) : Core * list action :=
  let c1 := set_connected false c in
  let '(c2, a) := stop None false c1 in
  (c2, a ++ Signal_send "ondisconnected" NoKw c2).

(** The [except KeyError] branch both receive loops share: the received
    object is rewritten into the reply. *)
Definition unknown_subsystem_reply (message : Message) : Message :=
  let message := set_user "" message in
  let message := set_args _INVALID_SUBSYSTEM message in
  let message := set_args (args message ++ [VStr (subsystem message)]) message in
  set_subsystem "error" message.

(** One turn of the [while True] in [ZMQCore.loop.vip_loop]. *)
Definition zmq_vip_loop (r : zmq_recv) (c : Core) : outcome :=
  match r with
  | Eagain =>
      {| core_after := c; emitted := []; next_flow := Continue;
         message_after := None |}
  | Enotsock =>
      {| core_after := set_vip_loop_alive false c; emitted := [];
         next_flow := Break; message_after := None |}
  | ZmqOther =>
      {| core_after := set_vip_loop_alive false c; emitted := [];
         next_flow := Raise; message_after := None |}
  | Received message =>
      if is_welcome (state c) message then
        let c1 := set_connected true c in
        let '(c2, a) := onconnected_send (welcome_kwargs message) c1 in
        {| core_after := c2; emitted := a; next_flow := Continue;
           message_after := Some message |}
      else
        match subsystems c !! subsystem message with
        | None =>
            let reply := unknown_subsystem_reply message in
            {| core_after := c;
               emitted := [Log "peer requested unknown subsystem";
                           SendVip reply];
               next_flow := Continue; message_after := Some reply |}
        | Some handle =>
            {| core_after := c; emitted := call_handler handle message c;
               next_flow := Continue; message_after := Some message |}
        end
  end.

(** One turn of the [while True] in [RMQCore.loop.vip_loop]. *)
Definition rmq_vip_loop (r : rmq_recv) (c : Core) : outcome :=
  match r with
  | QueueTimeout =>
      {| core_after := c; emitted := []; next_flow := Continue;
         message_after := None |}
  | QueueError =>
      {| core_after := set_vip_loop_alive false c;
         emitted := [Log "exc.args"]; next_flow := Raise;
         message_after := None |}
  | Queued message =>
      let dispatch :=
        match subsystems c !! subsystem message with
        | None =>
            let reply := unknown_subsystem_reply message in
            {| core_after := c;
               emitted := [Log "peer requested unknown subsystem";
                           SendVip reply];
               next_flow := Continue; message_after := Some reply |}
        | Some handle =>
            {| core_after := c; emitted := call_handler handle message c;
               next_flow := Continue; message_after := Some message |}
        end in
      if String.eqb (subsystem message) "hello" then
        if is_welcome (state c) message then
          let c1 := set_connected true c in
          let '(c2, a) := onconnected_send (welcome_kwargs message) c1 in
          {| core_after := c2; emitted := a; next_flow := Continue;
             message_after := Some message |}
        else dispatch
      else dispatch
  end.

(** The [connection_failed_check] greenlets whose wait has run out at
    time [t] time out one after the other. *)
Fixpoint time_out (n : nat) (c : Core) : Core * list action :=
  match n with
  | O => (c, [])
  | S n' =>
      let '(c1, a1) := connection_failed_check_timeout c in
      let '(c2, a2) := time_out n' c1 in
      (c2, a1 ++ a2)
  end.

Definition expired (t : Q) (d : Q) : bool := Qle_bool d t.

(** The clock moves on to [t]. *)
Definition elapse (t : Q) (c : Core) : Core * list action :=
  if Qle_bool (now c) t then
    let due := List.filter (expired t) (waiting_checks c) in
    let rest := List.filter (fun d => negb (expired t d)) (waiting_checks c) in
    time_out (length due) (set_waiting_checks rest (set_now t c))
  else (c, []).

(** Everything that can happen to a core whose [run] is waiting for the
    stop event: a turn of a receive loop, a turn of the monitor, a
    callback of the broker connection, the passing of time. *)
Inductive input :=
| ZmqRecv (r : zmq_recv)
| RmqRecv (r : rmq_recv)
| Monitor (r : monitor_recv)
| ConnectCallback
| ConnectionError
| Elapse (t : Q).

Definition step (c : Core) (i : input) : Core * list action :=
  match i with
  | ZmqRecv r =>
      if vip_loop_alive c
      then let o := zmq_vip_loop r c in (core_after o, emitted o)
      else (c, [])
  | RmqRecv r =>
      if vip_loop_alive c
      then let o := rmq_vip_loop r c in (core_after o, emitted o)
      else (c, [])
  | Monitor r => if monitor_alive c then monitor r c else (c, [])
  | ConnectCallback => connect_callback c
  | ConnectionError => connection_error c
  | Elapse t => elapse t c
  end.

(** A run: for every input, the core it met, the input and the effects
    of the turn; and the core at the end. *)
Fixpoint trace (c : Core) (ins : list input)
    : list (Core * input * list action) * Core :=
  match ins with
  | [] => ([], c)
  | i :: ins' =>
      let '(c1, a) := step c i in
      let '(tr, c2) := trace c1 ins' in
      ((c, i, a) :: tr, c2)
  end.

Definition effects (tr : list (Core * input * list action)) : list action :=
  concat (map snd tr).

End Router.

(** The pre-start part of [ZMQCore.loop], up to the spawning of
    [vip_loop]. *)
Definition zmq_loop_start (c : Core) : Core * list action :=
  let c := set_state {| count := 0; ident := None |} c in
  let c := set_hello_response_event false c in
  let c := Signal_connect "onconnected" Rhello_response c in
  let c := Signal_connect "ondisconnected" Rclose_socket c in
  let c :=
    if String.eqb (String.substring 0 4 (address c)) "tcp:"
       || String.eqb (String.substring 0 4 (address c)) "ipc:"
    then set_monitor_alive true c else c in
  let '(c, a) :=
    if String.prefix "inproc:" (address c) then hello c else (c, []) in
  (set_vip_loop_alive true c, a).

(** The pre-start part of [RMQCore.loop]. *)
Definition rmq_loop_start (c : Core) : Core * list action :=
  let c := set_state {| count := 0; ident := None |} c in
  let c := set_hello_response_event false c in
  let c := Signal_connect "onconnected" Rhello_response c in
  let c := Signal_connect "ondisconnected" Rclose_connection c in
  (set_vip_loop_alive true c, []).

(** The class attributes that gate the early [onstart]. *)
Record class_flags := {
  delay_onstart_signal : bool;
  delay_running_event_set : bool
}.

Definition BasicCore_class : class_flags :=
  {| delay_onstart_signal := false; delay_running_event_set := false |}.

Definition Core_class : class_flags :=
  {| delay_onstart_signal := true; delay_running_event_set := true |}.

(** [BasicCore.run] up to the point where it waits for the stop event. *)
Definition run_start (cls : class_flags)
    (loop_start : Core -> Core * list action) (c : Core)
    : Core * list action :=
  let c := Signal_connect "onstart" Rstart_periodics c in
  let c := set_stop_event false c in
  let a1 := Signal_send "onsetup" NoKw c in
  let '(c, a2) := loop_start c in
  let c := Signal_connect "onstart" Rscheduler_start c in
  let a3 :=
    if delay_onstart_signal cls then []
    else Signal_send "onstart" NoKw c in
  let '(c, a4) :=
    if delay_running_event_set cls then (c, [])
    else match running_event c with
         | Some _ => (set_running_event (Some true) c, [SetRunningEvent])
         | None => (c, [])
         end in
  (c, a1 ++ a2 ++ a3 ++ a4).

(** [BasicCore.run] from its wait on: it blocks until the receive loop
    has ended or the stop event is set, raises [RuntimeError] in the
    first case, and otherwise emits [onstop] and [onfinish] and
    returns. *)
Inductive run_result :=
| Blocked
| Returned (a : list action)
| Raised.

Definition run_wait (c : Core) : run_result :=
  if negb (vip_loop_alive c) then Raised
  else if _stop_event c then
    Returned (Signal_send "onstop" NoKw c ++ Signal_send "onfinish" NoKw c)
  else Blocked.

(** The two message buses and the start of their loops. *)
Inductive bus :=
| ZMQ
| RMQ.

Definition loop_start (b : bus) : Core -> Core * list action :=
  match b with
  | ZMQ => zmq_loop_start
  | RMQ => rmq_loop_start
  end.

(** ** Observations on effects *)

(** An effect that starts the agent: [onstart] is emitted, one of its
    receivers is invoked, or the caller's running event is set. *)
Definition starts (a : action) : bool :=
  match a with
  | Emit s _ => String.eqb s "onstart"
  | Invoke s _ _ => String.eqb s "onstart"
  | SetRunningEvent => true
  | _ => false
  end.

(** How many times the signal [name] is emitted. *)
Definition emissions (name : string) (acts : list action) : nat :=
  length (List.filter
            (fun a => match a with
                      | Emit s _ => String.eqb s name
                      | _ => false
                      end) acts).

(** How many times [stop] is called. *)
Definition stops (acts : list action) : nat :=
  length (List.filter
            (fun a => match a with Stop _ => true | _ => false end) acts).

(** The frames sent. *)
Definition sent (acts : list action) : list Message :=
  omap (fun a => match a with SendVip m => Some m | _ => None end) acts.

(** The monitor reports one more connect retry. *)
Definition retry : input :=
  Monitor (MonitorMessage EVENT_CONNECT_RETRIED).

(** A frame that no hello can take for its welcome: it is not of the
    [hello] subsystem, or its first argument is not [welcome]. *)
Definition other_frame (message : Message) : bool :=
  negb (String.eqb (subsystem message) "hello"
        && match args message with
           | VStr s :: _ => String.eqb s "welcome"
           | _ => false
           end).

(** An input that brings no welcome. *)
Definition no_welcome (i : input) : bool :=
  match i with
  | ZmqRecv (Received message) => other_frame message
  | RmqRecv (Queued message) => other_frame message
  | _ => true
  end.

(** ** Invariants of the handshake *)

(** Effects none of which starts the agent. *)
Definition calm (acts : list action) : Prop :=
  Forall (fun a => starts a = false) acts.

(** Where a check that waits until [d] stands during a run without
    welcome: it still waits, with the event clear and the clock short of
    [d]; or it has timed out, logged the hint and called [stop]. *)
Definition check_pending (d : Q) (c : Core) : Prop :=
  hello_response_event c = false /\ In d (waiting_checks c)
  /\ (now c < d)%Q.

Definition check_fired (c : Core) (acts : list action) : Prop :=
  _stop_event c = true
  /\ In (Log "No response to hello message after 10 seconds.") acts
  /\ In (Stop (Some 10%Q)) acts.

(** ** Observations on the frames sent *)

(** The frame the [k]-th [hello] of a loop sends. *)
Definition hello_frame (k : nat) : Message :=
  {| peer := ""; subsystem := "hello";
     id := "connect.hello." +:+ pretty k; user := "";
     args := [VStr "hello"] |}.

(** The frames sent to the subsystem [name]. *)
Definition sent_to (name : string) (acts : list action) : list Message :=
  List.filter (fun m => String.eqb (subsystem m) name) (sent acts).

(** What holds of a core's handshake from the start of its loop on:
    [hello_response] is connected to [onconnected]; the core is not
    connected before the first welcome has set the event; and no check
    waits once the event is set. *)
Definition handshake_inv (c : Core) : Prop :=
  In Rhello_response (signal "onconnected" c)
  /\ (hello_response_event c = false -> connected c = false)
  /\ (hello_response_event c = true -> waiting_checks c = []).


(** The inputs a [ZMQCore] can meet: turns of its receive loop and of
    its monitor, and the passing of time. *)
Definition zmq_input (i : input) : bool :=
  match i with
  | ZmqRecv _ | Monitor _ | Elapse _ => true
  | _ => false
  end.

(** ** Retries in any run *)

(** The turn on [i] at core [c] counts a connect retry: the monitor
    runs, and the event it receives has the retry bit and neither of the
    two bits [monitor] tests before it. *)
Definition counts_retry (c : Core) (i : input) : bool :=
  match i with
  | Monitor (MonitorMessage event) =>
      monitor_alive c
      && negb (masked event EVENT_CONNECTED)
      && negb (masked event EVENT_DISCONNECTED)
      && masked event EVENT_CONNECT_RETRIED
  | _ => false
  end.

(** How many turns of a run count a retry. *)
Definition retries (tr : list (Core * input * list action)) : nat :=
  length (List.filter (fun x => counts_retry (fst (fst x)) (snd (fst x))) tr).

(** How many times [sock.disable_monitor()] is called. *)
Definition give_ups (acts : list action) : nat :=
  length (List.filter
            (fun a => match a with DisableMonitor => true | _ => false end)
            acts).

(** A part of a turn that neither disables the monitor nor touches the
    counter. *)
Definition mild (r : Core * list action) (c : Core) : Prop :=
  give_ups (snd r) = 0%nat /\ _reconnect_attempt (fst r) = _reconnect_attempt c.

(** ** The welcome a loop awaits *)

(** The turn on [i] at core [c] handles a welcome: a receive loop runs,
    and the frame it receives passes the loop's test against the ident
    of the last hello. *)
Definition welcomes (c : Core) (i : input) : bool :=
  match i with
  | ZmqRecv (Received message) | RmqRecv (Queued message) =>
      vip_loop_alive c && is_welcome (state c) message
  | _ => false
  end.

(** What [connection_failed_check] does on a core that is not connected
    once its wait has run out: the six log lines, then
    [stop(timeout=10.0)]. *)
Definition timeout_hints : list action :=
  [Log "No response to hello message after 10 seconds.";
   Log "Type of message bus used";
   Log "A common reason for this is a conflicting VIP IDENTITY.";
   Log "Another common reason is not having an auth entry onthe target instance.";
   Log "Shutting down agent.";
   Log "Possible conflicting identity is";
   Stop (Some 10%Q)].

(** No turn of a run handles a welcome. *)
Definition unwelcomed (tr : list (Core * input * list action)) : bool :=
  forallb (fun x => negb (welcomes (fst (fst x)) (snd (fst x)))) tr.

(** A check has timed out on a core that was not connected: the stop
    event is set, and the effects hold the six log lines and the call of
    [stop], one after the other. *)
Definition check_hinted (c : Core) (acts : list action) : Prop :=
  _stop_event c = true
  /\ exists pre post, acts = pre ++ timeout_hints ++ post.

End Vip.

(** ** The peer list subsystem and its pending results *)

Module Peers.

Import Vip.

#[global] Instance value_eq_dec : EqDecision value.
Proof. solve_decision. Defined.

#[global] Instance value_countable : Countable value.
Proof.
  refine (inj_countable'
            (fun v => match v with VStr s => inl s | VInt z => inr z end)
            (fun x => match x with inl s => VStr s | inr z => VInt z end) _).
  intros []; reflexivity.
Defined.

(** What a gevent [AsyncResult] holds once it is set. *)
Inductive settled :=
| Value (v : list value)
| Loaded (v : value)
| Exception (error : VIPError).

(** An [AsyncResult]: its content, and how many times [set] or
    [set_exception] has been called on it. *)
Record AsyncResult := {
  content : option settled;
  completions : nat
}.

Definition AsyncResult_init : AsyncResult :=
  {| content := None; completions := 0 |}.

Definition AsyncResult_set (v : settled) (r : AsyncResult) : AsyncResult :=
  {| content := Some v; completions := S (completions r) |}.

(** A [PeerList].  The [AsyncResult] objects are named by their
    [ident]; [results] holds every one handed out, and [_results] the
    idents that are keys of the pending-results table.  [counter] is the
    source of idents. *)
Record PeerList := {
  _results : gset string;
  results : gmap string AsyncResult;
  counter : nat;
  peers_list : gset value
}.

Definition PeerList_init : PeerList :=
  {| _results := ∅; results := ∅; counter := 0; peers_list := ∅ |}.

(** Modelled from the spec: [results.ResultsDictionary] is not among the
    sources.  The spec's correlated-result table: [next()] allocates a
    fresh, session-unique identifier and a pending future and keeps the
    future under the identifier; the table is a dictionary, so [pop] of
    a key it does not hold raises [KeyError] ([None]).  The table holds
    its values weakly: an entry goes away when the future is dropped
    ([collect]). *)
Definition ResultsDictionary_next (p : PeerList) : string * PeerList :=
  let ident := pretty (counter p) in
  (ident,
   {| _results := {[ ident ]} ∪ _results p;
      results := <[ident := AsyncResult_init]> (results p);
      counter := S (counter p); peers_list := peers_list p |}).

Definition ResultsDictionary_pop (key : string) (p : PeerList)
    : option (string * PeerList) :=
  if decide (key ∈ _results p) then
    Some (key,
          {| _results := _results p ∖ {[ key ]}; results := results p;
             counter := counter p; peers_list := peers_list p |})
  else None.

Definition collect (key : string) (p : PeerList) : PeerList :=
  {| _results := _results p ∖ {[ key ]}; results := results p;
     counter := counter p; peers_list := peers_list p |}.

(** [result.set(v)] and [result.set_exception(e)] on the object named
    [ident]. *)
Definition result_set (ident : string) (v : settled) (p : PeerList)
    : PeerList :=
  {| _results := _results p;
     results := alter (AsyncResult_set v) ident (results p);
     counter := counter p; peers_list := peers_list p |}.

Definition set_peers_list (v : gset value) (p : PeerList) : PeerList :=
  {| _results := _results p; results := results p; counter := counter p;
     peers_list := v |}.

(** Effects of the peer list: log lines, requests sent to the router,
    and emissions of [onadd] and [ondrop]. *)
Inductive effect :=
| PLog (line : string)
| PSendVip (m : Message)
| PSignal (name : string) (peer : value) (message_bus : option value).

(** How a handler ends: it returns, or an exception leaves it. *)
Inductive status :=
| Returns
| Raises.

(** Python's truth value of an argument. *)
Definition truthy (v : value) : bool :=
  match v with
  | VStr s => negb (String.eqb s "")
  | VInt z => negb (z =? 0)%Z
  end.

Definition is_op (op : value) (name : string) : bool :=
  match op with
  | VStr s => String.eqb s name
  | VInt _ => false
  end.

(** How [connection.send_vip] ends: the frame is sent, or a [ZMQError]
    is raised, with errno [ENOTSOCK] or another one. *)
Inductive send_outcome :=
| Sent
| SendEnotsock
| SendOtherError.

(** The [try] around [connection.send_vip] that the four request
    methods share: a [ZMQError] is caught, and logged when its errno is
    [ENOTSOCK]. *)
Definition send_request (how : send_outcome) (ident : string)
    (request : list value) : list effect :=
  match how with
  | Sent => [PSendVip {| peer := ""; subsystem := "peerlist"; id := ident;
                         user := ""; args := request |}]
  | SendEnotsock => [PLog "Socket send on non socket"]
  | SendOtherError => []
  end.

(** [PeerList.list]: a new pending result, and a [list] request
    carrying its ident handed to [connection.send_vip]; the result is
    returned however the send ends. *)
Definition PeerList_list (how : send_outcome) (p : PeerList)
    : string * PeerList * list effect :=
  let '(ident, p1) := ResultsDictionary_next p in
  (ident, p1, send_request how ident [VStr "list"]).

(** [PeerList.list_with_messagebus]. *)
Definition list_with_messagebus (how : send_outcome) (p : PeerList)
    : string * PeerList * list effect :=
  let '(ident, p1) := ResultsDictionary_next p in
  (ident, p1, send_request how ident [VStr "list_with_messagebus"]).

Section Json.

(** [jsonapi.loads], which raises on malformed text ([None]). *)
Variable jsonapi_loads : value -> option value.

(** [PeerList._handle_subsystem(message)]. *)
Definition _handle_subsystem (message : Message) (p : PeerList)
    : PeerList * list effect * status :=
  match args message with
  | [] => (p, [PLog "missing peerlist subsystem operation"], Returns)
  | op :: rest =>
      if is_op op "add" || is_op op "drop" then
        match rest with
        | [] => (p, [PLog "missing peerlist identity in operation"], Returns)
        | peer :: rest' =>
            let message_bus := head rest' in
            let onop := if is_op op "add" then "onadd" else "ondrop" in
            let sent :=
              match message_bus with
              | Some bus =>
                  if truthy bus then [PSignal onop peer (Some bus)]
                  else [PSignal onop peer None]
              | None => [PSignal onop peer None]
              end in
            if is_op op "add" then
              (set_peers_list ({[ peer ]} ∪ peers_list p) p, sent, Returns)
            else if decide (peer ∈ peers_list p) then
              (set_peers_list (peers_list p ∖ {[ peer ]}) p, sent, Returns)
            else (p, sent, Returns)
        end
      else if is_op op "listing" then
        match ResultsDictionary_pop (id message) p with
        | None => (p, [], Returns)
        | Some (result, p1) =>
            let peers := rest in
            let p2 := result_set result (Value peers) p1 in
            (set_peers_list (list_to_set peers) p2, [], Returns)
        end
      else if is_op op "listing_with_messagebus" then
        match ResultsDictionary_pop (id message) p with
        | None => (p, [], Returns)
        | Some (result, p1) =>
            match rest with
            | [] => (p1, [], Raises)
            | text :: _ =>
                match jsonapi_loads text with
                | Some v => (result_set result (Loaded v) p1, [], Returns)
                | None => (p1, [], Raises)
                end
            end
        end
      else (p, [PLog "unknown peerlist subsystem operation"], Returns)
  end.

(** [PeerList._handle_error(sender, message, error)]. *)
Definition _handle_error (message : Message) (error : VIPError)
    (p : PeerList) : PeerList * status :=
  match ResultsDictionary_pop (id message) p with
  | None => (p, Returns)
  | Some (result, p1) => (result_set result (Exception error) p1, Returns)
  end.

(** What can happen to a peer list: a [list()] request by the agent,
    with the way its send ends; a reply or an error frame handed over by
    the core; a future dropped by its holder. *)
Inductive input :=
| Request (how : send_outcome)
| Reply (message : Message)
| Error (message : Message) (error : VIPError)
| Dropped (ident : string).

Definition step (p : PeerList) (i : input) : PeerList :=
  match i with
  | Request how => snd (fst (PeerList_list how p))
  | Reply message => fst (fst (_handle_subsystem message p))
  | Error message error => fst (_handle_error message error p)
  | Dropped ident => collect ident p
  end.

Definition run (ins : list input) (p : PeerList) : PeerList :=
  fold_left step ins p.

End Json.

(** ** Invariant of the pending results *)

(** Every future handed out has an ident made from an earlier counter
    value, has been completed at most once, and not at all while its
    ident is still a key of the table. *)
Definition results_inv (p : PeerList) : Prop :=
  forall ident r, results p !! ident = Some r ->
    (completions r <= 1)%nat
    /\ (ident ∈ _results p -> completions r = 0%nat)
    /\ exists k, (k < counter p)%nat /\ ident = pretty k.

(** ** Requests and their replies *)

(** Whether an input is about the future named [ident]: a reply or an
    error frame that carries it as id, or the dropping of that future. *)
Definition concerns (ident : string) (i : input) : bool :=
  match i with
  | Request _ => false
  | Reply message => String.eqb (id message) ident
  | Error message _ => String.eqb (id message) ident
  | Dropped key => String.eqb key ident
  end.


End Peers.

(** * Calls handed to the hub: [BasicCore.send] and [handle_async_] *)

Module Async.

(** The part of [BasicCore] that [send] uses.  A call
    [(func, args, kwargs)] is named by a number.  [async_pending] tells
    that [self._async] has been sent and its callback, [handle_async_],
    has not run yet; [spawned] lists the calls spawned as greenlets,
    oldest first. *)
Record BasicCore := {
  _async_calls : list nat;
  async_pending : bool;
  spawned : list nat
}.

(** [BasicCore.__init__]. *)
Definition BasicCore_init : BasicCore :=
  {| _async_calls := []; async_pending := false; spawned := [] |}.

(** [BasicCore.send(func, *args, **kwargs)]: append, then
    [self._async.send()]. *)
Definition send (func : nat) (c : BasicCore) : BasicCore :=
  {| _async_calls := _async_calls c ++ [func]; async_pending := true;
     spawned := spawned c |}.

(** The loop of [handle_async_]:
    [while calls: func, args, kwargs = calls.pop(); gevent.spawn(func, ...)].
    Each turn takes one call off the list, so [len(calls)] turns are
    enough. *)
Fixpoint handle_async_loop (fuel : nat) (calls : list nat)
    (spawned : list nat) : list nat * list nat :=
  match fuel with
  | O => (calls, spawned)
  | S fuel' =>
      match last calls with
      | None => (calls, spawned)
      | Some func =>
          handle_async_loop fuel' (removelast calls) (spawned ++ [func])
      end
  end.

(** [handle_async_]. *)
Definition handle_async_ (c : BasicCore) : BasicCore :=
  let '(calls, greenlets) :=
    handle_async_loop (length (_async_calls c)) (_async_calls c) (spawned c) in
  {| _async_calls := calls; async_pending := async_pending c;
     spawned := greenlets |}.

(** A turn of the hub: the callback of a watcher that has been sent
    runs, once however often it has been sent. *)
Definition hub_turn (c : BasicCore) : BasicCore :=
  if async_pending c then
    handle_async_ {| _async_calls := _async_calls c; async_pending := false;
                     spawned := spawned c |}
  else c.

End Async.

(** * The deprecated periodic callback: [Periodic] *)

Module Periodic.

(** [Periodic]: the period and, as [timeout], the [wait] argument,
    which is a number or [None].  The arguments kept for the method are
    handed to it as they are. *)
Record Periodic := {
  period : Q;
  timeout : option Q
}.

(** [Periodic.__init__(period, args, kwargs, wait)]: [assert period > 0]
    fails on a period that is not positive ([None]). *)
Definition Periodic_init (period : Q) (wait : option Q) : option Periodic :=
  if Qle_bool period 0 then None
  else Some {| period := period; timeout := wait |}.

(** What a greenlet running [_loop] does. *)
Inductive effect :=
| Call
| LogException
| Sleep (seconds : Q).

Section Float.

(** The clock of the hub gives Python floats, which are doubles: [+]
    and [-] on them give the double nearest to the sum and to the
    difference.  A finite double is a rational; [fadd] and [fsub] are
    the two rounded operations on them.  Comparisons of doubles are
    exact. *)
Variable fadd : Q -> Q -> Q.
Variable fsub : Q -> Q -> Q.

(** [_loop] up to the [while]: [deadline = now()], and unless
    [self.timeout] is zero, [timeout = self.timeout or period],
    [deadline += timeout] and the first call waits for [timeout]. *)
Definition _loop_start (p : Periodic) (now : Q) : Q * list effect :=
  match timeout p with
  | Some wait =>
      if Qeq_bool wait 0 then (now, [])
      else (fadd now wait, [Sleep wait])
  | None => (fadd now (period p), [Sleep (period p)])
  end.

(** One turn of the [while True]: the method is called, an exception of
    it is logged; then [deadline += period], [timeout = deadline - now()]
    with the clock read after the call, and the loop sleeps for
    [timeout] when that is positive, and otherwise does
    [deadline -= timeout]. *)
Definition _loop_turn (p : Periodic) (deadline : Q) (raises : bool) (now : Q)
    : Q * list effect :=
  let called := if raises then [Call; LogException] else [Call] in
  let deadline := fadd deadline (period p) in
  let timeout := fsub deadline now in
  if negb (Qle_bool timeout 0) then (deadline, called ++ [Sleep timeout])
  else (fsub deadline timeout, called).

(** The turns of the loop, given for each whether the method raises and
    what the clock reads after it. *)
Fixpoint _loop (p : Periodic) (deadline : Q) (turns : list (bool * Q))
    : Q * list effect :=
  match turns with
  | [] => (deadline, [])
  | (raises, now) :: turns' =>
      let '(deadline1, a1) := _loop_turn p deadline raises now in
      let '(deadline2, a2) := _loop p deadline1 turns' in
      (deadline2, a1 ++ a2)
  end.

(** The deadline after [n] turns none of which was late: [period] added
    [n] times, each sum rounded. *)
Definition on_time (p : Periodic) (deadline : Q) (n : nat) : Q :=
  Nat.iter n (fun d => fadd d (period p)) deadline.

End Float.

(** The sleeps among some effects. *)
Definition sleeps (acts : list effect) : list Q :=
  omap (fun a => match a with Sleep t => Some t | _ => None end) acts.

(** How many times the method is called. *)
Definition calls (acts : list effect) : nat :=
  length (List.filter (fun a => match a with Call => true | _ => false end) acts).

End Periodic.

(** * Connecting to another platform: [ZMQCore.connect_remote_platform] *)

Module Remote.

(** Python's truth value of a string that may be [None]. *)
Definition truthy (s : option string) : bool :=
  match s with
  | Some s => negb (String.eqb s "")
  | None => false
  end.

(** [temp_serverkey != serverkey] on two such values. *)
Definition differ (a b : option string) : bool :=
  match a, b with
  | Some x, Some y => negb (String.eqb x y)
  | None, None => false
  | _, _ => true
  end.

(** The attributes of a [DiscoveryInfo] that the method reads. *)
Record DiscoveryInfo := {
  instance_name : option string;
  vip_address : option string;
  info_serverkey : option string
}.

(** What [DiscoveryInfo.request_discovery_info(address)] does: it
    returns the info, or raises [DiscoveryError]. *)
Inductive discovery :=
| Discovered (info : DiscoveryInfo)
| DiscoveryError.

(** The attributes of the core that the method reads. *)
Record ZMQCore := {
  identity : string;
  publickey : option string;
  secretkey : option string;
  enable_auth : bool
}.

(** The keyword arguments of a call of [build_agent]; [message_bus] is
    [None] where the call does not pass it. *)
Record build_agent := {
  agent_class : nat;
  agent_identity : string;
  agent_address : option string;
  agent_serverkey : option string;
  agent_publickey : option string;
  agent_secretkey : option string;
  message_bus : option string
}.

(** How the method ends: it returns [value], which is [None] or the
    agent that [build_agent] made, or it raises [ValueError]. *)
Inductive result :=
| Returns (value : option build_agent)
| ValueError (message : string).

Section Platform.

(** [urllib.parse.urlparse(address).scheme]. *)
Variable scheme : string -> string.

(** [KnownHostsStore().serverkey(address)]. *)
Variable known_hosts_serverkey : string -> option string.

(** [DiscoveryInfo.request_discovery_info]. *)
Variable request_discovery_info : string -> discovery.

(** [utils.get_fq_identity]. *)
Variable get_fq_identity : string -> string.

(** The class [Agent], the default of [agent_class]. *)
Variable Agent : nat.

(** [ZMQCore.connect_remote_platform(address, serverkey=None, agent_class=None)]. *)
Definition connect_remote_platform (self : ZMQCore) (address : string)
    (serverkey : option string) (agent_class : option nat) : result :=
  let agent_class := default Agent agent_class in
  if String.eqb (scheme address) "tcp" then
    let destination_serverkey :=
      if enable_auth self then
        let temp_serverkey := known_hosts_serverkey address in
        if negb (truthy temp_serverkey) then inl serverkey
        else if negb (truthy serverkey) then inl temp_serverkey
        else if differ temp_serverkey serverkey
             then inr "server_key passed and known hosts serverkey do not match!"
             else inl serverkey
      else inl None in
    match destination_serverkey with
    | inr message => ValueError message
    | inl destination_serverkey =>
        Returns (Some {| agent_class := agent_class;
                         agent_identity := get_fq_identity (identity self);
                         agent_address := Some address;
                         agent_serverkey := destination_serverkey;
                         agent_publickey := publickey self;
                         agent_secretkey := secretkey self;
                         message_bus := Some "zmq" |})
    end
  else if String.eqb (scheme address) "https"
          || String.eqb (scheme address) "http" then
    match request_discovery_info address with
    | DiscoveryError => Returns None
    | Discovered info =>
        if negb (truthy (vip_address info)) then
          ValueError "Discovery did not return vip_address"
        else if enable_auth self && negb (truthy (info_serverkey info)) then
          ValueError "Discovery did not return serverkey"
        else
          Returns (Some {| agent_class := agent_class;
                           agent_identity := get_fq_identity (identity self);
                           agent_address := vip_address info;
                           agent_serverkey := info_serverkey info;
                           agent_publickey := publickey self;
                           agent_secretkey := secretkey self;
                           message_bus := None |})
    end
  else ValueError "Invalid configuration found the address has an invalid scheme".

End Platform.

End Remote.

(** * Which core and which pubsub an [Agent] gets *)

Module AgentInit.

(** [str.lower] on one character of an ASCII string. *)
Definition lower_ascii (c : Ascii.ascii) : Ascii.ascii :=
  let n := Ascii.nat_of_ascii c in
  if (65 <=? n)%nat && (n <=? 90)%nat then Ascii.ascii_of_nat (n + 32) else c.

Fixpoint lower (s : string) : string :=
  match s with
  | EmptyString => EmptyString
  | String c s' => String (lower_ascii c) (lower s')
  end.

Inductive core_class :=
| ZMQCore
| RMQCore.

Inductive pubsub_class :=
| PubSub
| RMQPubSub.

(** The choice in [Agent.__init__]:
    [message_bus is not None and message_bus.lower() == 'rmq']. *)
Definition Agent_core (message_bus : option string) : core_class :=
  match message_bus with
  | Some bus => if String.eqb (lower bus) "rmq" then RMQCore else ZMQCore
  | None => ZMQCore
  end.

(** The subsystems [Agent.Subsystems.__init__] makes besides the ones it
    always makes ([peerlist], [ping], [rpc], [hello], [health],
    [heartbeat]). *)
Record Subsystems := {
  pubsub : pubsub_class;
  channel : bool;
  config : bool;
  web : bool;
  auth : bool;
  fncs : bool
}.

(** [Agent.Subsystems.__init__]: the choice is [message_bus == 'rmq']. *)
Definition Subsystems_init (enable_store enable_web enable_channel enable_fncs
    enable_auth : bool) (message_bus : option string) : Subsystems :=
  let rmq :=
    match message_bus with
    | Some bus => String.eqb bus "rmq"
    | None => false
    end in
  {| pubsub := if rmq then RMQPubSub else PubSub;
     channel := if rmq then false else enable_channel;
     config := enable_store; web := enable_web; auth := enable_auth;
     fncs := enable_fncs |}.

End AgentInit.

(** * Signals by name: [findsignal] *)

Module FindSignal.

(** A Python object as [findsignal] sees it: whether it is a [Signal],
    and which, and its attributes by name. *)
Inductive object :=
| Object (signal : option nat) (attrs : attributes)
with attributes :=
| NoAttribute
| Attribute (name : string) (value : object) (rest : attributes).

Fixpoint lookup_attribute (attrs : attributes) (name : string)
    : option object :=
  match attrs with
  | NoAttribute => None
  | Attribute name' value rest =>
      if String.eqb name' name then Some value
      else lookup_attribute rest name
  end.

(** [getattr(o, name)], which raises [AttributeError] ([None]) when
    there is no such attribute. *)
Definition getattr (o : object) (name : string) : option object :=
  match o with
  | Object _ attrs => lookup_attribute attrs name
  end.

(** The character of [name.split('.')]. *)
Definition dot : Ascii.ascii := Ascii.ascii_of_nat 46.

(** [name.split('.')]: the pieces between the dots; there is always at
    least one. *)
Fixpoint split_dot (name : string) : list string :=
  match name with
  | EmptyString => [EmptyString]
  | String c name' =>
      if Ascii.eqb c dot then EmptyString :: split_dot name'
      else match split_dot name' with
           | part :: parts => String c part :: parts
           | [] => [String c EmptyString]
           end
  end.

(** [for part in parts: signal = getattr(signal, part)]. *)
Fixpoint walk (o : object) (parts : list string) : option object :=
  match parts with
  | [] => Some o
  | part :: parts' =>
      match getattr o part with
      | Some o' => walk o' parts'
      | None => None
      end
  end.

(** How [findsignal] ends: it returns a signal, or [getattr] raises
    [AttributeError], or the [assert isinstance(signal, Signal)]
    fails. *)
Inductive found :=
| Found (signal : nat)
| AttributeError
| AssertionError.

Definition check (looked_up : option object) : found :=
  match looked_up with
  | None => AttributeError
  | Some (Object (Some signal) _) => Found signal
  | Some (Object None _) => AssertionError
  end.

(** [findsignal(obj, owner, name)]. *)
Definition findsignal (obj owner : object) (name : string) : found :=
  let parts := split_dot name in
  check (if Nat.eqb (length parts) 1 then getattr obj name
         else walk owner parts).

(** A name without a dot. *)
Fixpoint dot_free (s : string) : bool :=
  match s with
  | EmptyString => true
  | String c s' => negb (Ascii.eqb c dot) && dot_free s'
  end.

End FindSignal.

(** * The end of [ZMQCore.loop] *)

Module Teardown.

(** What a call can raise there. *)
Inductive raised :=
| AttributeError
| ZMQError (errno : Z)
| OtherError.

Inductive effect :=
| Disconnect
| MonitorOff
| CloseConnection (linger : Z)
| LogException (line : string).

Section Errno.

(** [errno.ENOENT]. *)
Variable ENOENT : Z.

(** What happens to an exception raised in the [try]:
    [AttributeError] is passed over, a [ZMQError] is logged unless its
    errno is [ENOENT], anything else goes on after the [finally]. *)
Definition handle (e : raised) : list effect * option raised :=
  match e with
  | AttributeError => ([], None)
  | ZMQError errno =>
      (if negb (errno =? ENOENT)%Z then [LogException "disconnect error"]
       else [], None)
  | OtherError => ([], Some OtherError)
  end.

(** The pre-finish part of [ZMQCore.loop]:
    [connection.disconnect()], [socket.monitor(None, 0)],
    [connection.close_connection(1)] in a [try], and [self.socket = None]
    in its [finally].  [socket] tells whether [self.socket] is an
    object; on [None] the second call raises [AttributeError].  The
    three arguments give what each call raises when it is reached, if
    anything.  The result is [self.socket] afterwards (always [None],
    written [false]), the effects, and the exception that leaves the
    generator, if any. *)
Definition pre_finish (socket : bool)
    (disconnect monitor close_connection : option raised)
    : bool * list effect * option raised :=
  match disconnect with
  | Some e => let '(acts, out) := handle e in (false, acts, out)
  | None =>
      match (if socket then monitor else Some AttributeError) with
      | Some e =>
          let '(acts, out) := handle e in (false, Disconnect :: acts, out)
      | None =>
          match close_connection with
          | Some e =>
              let '(acts, out) := handle e in
              (false, [Disconnect; MonitorOff] ++ acts, out)
          | None =>
              (false, [Disconnect; MonitorOff; CloseConnection 1], None)
          end
      end
  end.

End Errno.

End Teardown.

Module HeapqFacts.

Import Heapq.

Section Heap.

Context {A : Type} (lt : A -> A -> bool).

Local Abbreviation item_lt := (Heapq.item_lt lt).
Local Abbreviation _siftdown_loop := (Heapq._siftdown_loop lt).
Local Abbreviation _siftdown := (Heapq._siftdown lt).
Local Abbreviation _siftup_loop := (Heapq._siftup_loop lt).
Local Abbreviation _siftup := (Heapq._siftup lt).
Local Abbreviation heappush := (Heapq.heappush lt).
Local Abbreviation heappop := (Heapq.heappop lt).
Local Abbreviation item_le := (Heapq.item_le lt).
Local Abbreviation heap_ordered := (Heapq.heap_ordered lt).
Local Abbreviation up_inv := (Heapq.up_inv lt).
Local Abbreviation down_inv := (Heapq.down_inv lt).

Hypothesis le_trans :
  forall a b c, item_le a b -> item_le b c -> item_le a c.
Hypothesis lt_le : forall a b, lt a b = true -> item_le a b.

Lemma parent_cases i :
  (0 < i)%nat -> (i = 2 * parent i + 1 \/ i = 2 * parent i + 2)%nat.
Proof.
  intros H. unfold parent.
  pose proof (Nat.div_mod_eq (i - 1) 2) as E.
  pose proof (Nat.mod_upper_bound (i - 1) 2) as B. lia.
Qed.

Lemma parent_lt i : (0 < i)%nat -> (parent i < i)%nat.
Proof. intros H. destruct (parent_cases i H); lia. Qed.

Lemma parent_child p i :
  (i = 2 * p + 1 \/ i = 2 * p + 2)%nat -> parent i = p.
Proof.
  intros H. unfold parent.
  destruct H as [-> | ->].
  - replace (2 * p + 1 - 1)%nat with (p * 2)%nat by lia. apply Nat.div_mul. lia.
  - replace (2 * p + 2 - 1)%nat with (1 + p * 2)%nat by lia.
    rewrite Nat.div_add by lia. reflexivity.
Qed.


Lemma up_inv_ordered v pos :
  up_inv v pos ->
  (forall x y, (0 < pos)%nat -> v !! pos = Some x ->
               v !! parent pos = Some y -> item_le y x) ->
  heap_ordered v.
Proof.
  intros [H1 _] Hp i x y Hi Hx Hy.
  destruct (decide (i = pos)) as [-> | Hne]; [apply Hp | eapply H1]; eauto.
Qed.

Lemma siftdown_loop_spec fuel : forall heap pos newitem,
  (pos < length heap)%nat -> (pos <= fuel)%nat ->
  up_inv (<[pos := newitem]> heap) pos ->
  heap_ordered (_siftdown_loop fuel heap 0 pos newitem)
  /\ _siftdown_loop fuel heap 0 pos newitem ≡ₚ <[pos := newitem]> heap.
Proof.
  induction fuel as [|fuel IH]; intros heap pos newitem Hlen Hfuel Hinv.
  - assert (pos = 0%nat) by lia. subst pos. simpl. split; [|reflexivity].
    apply (up_inv_ordered _ 0 Hinv). intros x y Hpos. lia.
  - simpl. destruct (0 <? pos)%nat eqn:Hpos.
    2: { apply Nat.ltb_ge in Hpos. assert (pos = 0%nat) by lia. subst pos.
         split; [|reflexivity].
         apply (up_inv_ordered _ 0 Hinv). intros x y Hp. lia. }
    apply Nat.ltb_lt in Hpos.
    pose proof (parent_lt pos Hpos) as Hpl.
    destruct (heap !! parent pos) as [par|] eqn:Hpar.
    2: { apply lookup_ge_None in Hpar. lia. }
    destruct (lt newitem par) eqn:Hlt.
    2: { split; [|reflexivity].
         apply (up_inv_ordered _ pos Hinv). intros x y _ Hx Hy.
         rewrite list_lookup_insert_eq in Hx by exact Hlen.
         rewrite list_lookup_insert_ne in Hy by lia.
         assert (x = newitem) by congruence. assert (y = par) by congruence.
         subst. exact Hlt. }
    set (p := parent pos) in *.
    assert (Hswap : <[p := newitem]> (<[pos := par]> heap)
                    ≡ₚ <[pos := newitem]> heap).
    { rewrite <- (list_insert_insert_eq heap pos par newitem).
      rewrite list_insert_insert_ne by lia.
      apply Permutation_insert_swap.
      - rewrite list_lookup_insert_ne by lia. exact Hpar.
      - apply list_lookup_insert_eq. exact Hlen. }
    destruct (IH (<[pos := par]> heap) p newitem) as [Ho Hp].
    + rewrite length_insert. lia.
    + lia.
    + destruct Hinv as [H1 H2]. split.
      * intros i x y Hi Hne Hx Hy.
        rewrite list_lookup_insert_ne in Hx by congruence.
        destruct (decide (i = pos)) as [-> | Hne'].
        -- rewrite list_lookup_insert_eq in Hx by exact Hlen.
           fold p in Hy.
           rewrite list_lookup_insert_eq in Hy by (rewrite length_insert; lia).
           assert (x = par) by congruence. assert (y = newitem) by congruence.
           subst. apply lt_le. exact Hlt.
        -- rewrite list_lookup_insert_ne in Hx by congruence.
           destruct (decide (parent i = p)) as [Hpi | Hpi].
           ++ rewrite Hpi in Hy.
              rewrite list_lookup_insert_eq in Hy
                by (rewrite length_insert; lia).
              assert (y = newitem) by congruence. subst y.
              apply le_trans with par; [apply lt_le; exact Hlt|].
              apply (H1 i x par Hi Hne').
              ** rewrite list_lookup_insert_ne by congruence. exact Hx.
              ** rewrite Hpi. rewrite list_lookup_insert_ne by (unfold p; lia).
                 exact Hpar.
           ++ rewrite list_lookup_insert_ne in Hy by congruence.
              destruct (decide (parent i = pos)) as [Hpp | Hpp].
              ** rewrite Hpp in Hy.
                 rewrite list_lookup_insert_eq in Hy by exact Hlen.
                 assert (y = par) by congruence. subst y.
                 apply (H2 i x par Hpos Hi Hpp).
                 --- rewrite list_lookup_insert_ne by congruence. exact Hx.
                 --- rewrite list_lookup_insert_ne by (fold p; lia). exact Hpar.
              ** rewrite list_lookup_insert_ne in Hy by congruence.
                 apply (H1 i x y Hi Hne').
                 --- rewrite list_lookup_insert_ne by congruence. exact Hx.
                 --- rewrite list_lookup_insert_ne by congruence. exact Hy.
      * intros c x y Hp0 Hc Hpc Hx Hy.
        pose proof (parent_lt p Hp0) as Hppl.
        rewrite list_lookup_insert_ne in Hy by lia.
        rewrite list_lookup_insert_ne in Hy by (unfold p in *; lia).
        assert (Hpy : item_le y par).
        { apply (H1 p par y Hp0); [unfold p; lia | |].
          - rewrite list_lookup_insert_ne by (unfold p; lia). exact Hpar.
          - rewrite list_lookup_insert_ne by (unfold p in *; lia). exact Hy. }
        assert (Hcp : c <> p) by (pose proof (parent_lt c Hc); lia).
        rewrite list_lookup_insert_ne in Hx by congruence.
        destruct (decide (c = pos)) as [-> | Hne].
        -- rewrite list_lookup_insert_eq in Hx by exact Hlen.
           assert (x = par) by congruence. subst x. exact Hpy.
        -- rewrite list_lookup_insert_ne in Hx by congruence.
           apply le_trans with par; [exact Hpy|].
           apply (H1 c x par Hc Hne).
           ++ rewrite list_lookup_insert_ne by congruence. exact Hx.
           ++ rewrite Hpc. rewrite list_lookup_insert_ne by (unfold p; lia).
              exact Hpar.
    + split; [exact Ho|]. rewrite Hp. exact Hswap.
Qed.


Lemma down_inv_leaf h pos newitem :
  (length h <= 2 * pos + 1)%nat -> down_inv h pos ->
  up_inv (<[pos := newitem]> h) pos.
Proof.
  intros Hleaf [D1 D2]. split.
  - intros i x y Hi Hne Hx Hy.
    rewrite list_lookup_insert_ne in Hx by congruence.
    destruct (decide (parent i = pos)) as [Hp | Hp].
    + apply lookup_lt_Some in Hx. destruct (parent_cases i Hi); lia.
    + rewrite list_lookup_insert_ne in Hy by congruence.
      apply (D1 i x y); assumption.
  - intros c x y Hpos Hc Hp Hx Hy.
    apply lookup_lt_Some in Hx. rewrite length_insert in Hx.
    destruct (parent_cases c Hc); lia.
Qed.

Lemma siftup_loop_spec newitem fuel : forall h pos,
  (pos < length h)%nat -> (length h - pos <= fuel)%nat ->
  down_inv h pos ->
  let r := _siftup_loop fuel h (length h) pos in
  (snd r < length (fst r))%nat
  /\ up_inv (<[snd r := newitem]> (fst r)) (snd r)
  /\ <[snd r := newitem]> (fst r) ≡ₚ <[pos := newitem]> h.
Proof.
  induction fuel as [|fuel IH]; intros h pos Hlen Hfuel Hinv; [lia|].
  cbn [_siftup_loop].
  destruct (2 * pos + 1 <? length h)%nat eqn:Hchild.
  2: { apply Nat.ltb_ge in Hchild. cbn [fst snd].
       split; [exact Hlen|]. split; [|reflexivity].
       apply down_inv_leaf; assumption. }
  apply Nat.ltb_lt in Hchild.
  set (l := (2 * pos + 1)%nat) in *.
  set (c := if (l + 1 <? length h)%nat && negb (item_lt h l (l + 1))
            then (l + 1)%nat else l).
  assert (Hc : (c = l /\ ((length h <= l + 1)%nat \/ item_lt h l (l + 1) = true))
               \/ (c = (l + 1)%nat /\ (l + 1 < length h)%nat
                   /\ item_lt h l (l + 1) = false)).
  { unfold c. destruct (l + 1 <? length h)%nat eqn:Hr; simpl.
    - apply Nat.ltb_lt in Hr. destruct (item_lt h l (l + 1)); simpl.
      + left. split; [reflexivity|]. right. reflexivity.
      + right. repeat split. exact Hr.
    - apply Nat.ltb_ge in Hr. left. split; [reflexivity|]. left. exact Hr. }
  assert (Hclen : (c < length h)%nat) by (destruct Hc as [[-> _] | (-> & ? & _)]; lia).
  assert (Hcc : (c = 2 * pos + 1 \/ c = 2 * pos + 2)%nat)
    by (destruct Hc as [[-> _] | (-> & _ & _)]; unfold l; lia).
  destruct (h !! c) as [child|] eqn:Hch.
  2: { apply lookup_ge_None in Hch. lia. }
  assert (Hpc : parent c = pos) by (apply parent_child; exact Hcc).
  assert (Hsmall : forall d x, (0 < d)%nat -> parent d = pos -> d <> c ->
                     h !! d = Some x -> item_le child x).
  { intros d x Hd Hpd Hdc Hx.
    pose proof (lookup_lt_Some _ _ _ Hx) as Hdl.
    assert (Ed : d = l \/ d = (l + 1)%nat).
    { destruct (parent_cases d Hd) as [E | E]; rewrite Hpd in E; unfold l; lia. }
    destruct Hc as [[Ec Hl] | (Ec & Hr & Hl)].
    - assert (d = (l + 1)%nat) by (destruct Ed; congruence). subst d.
      destruct Hl as [Hl | Hl]; [lia|].
      unfold item_lt in Hl. rewrite Ec in Hch. rewrite Hch, Hx in Hl.
      apply lt_le. exact Hl.
    - assert (d = l) by (destruct Ed; congruence). subst d.
      unfold item_lt in Hl. rewrite Ec in Hch. rewrite Hx, Hch in Hl.
      exact Hl. }
  assert (Hcpos : (pos < c)%nat) by lia.
  assert (R : let r := _siftup_loop fuel (<[pos := child]> h) (length h) c in
              (snd r < length (fst r))%nat
              /\ up_inv (<[snd r := newitem]> (fst r)) (snd r)
              /\ <[snd r := newitem]> (fst r)
                 ≡ₚ <[c := newitem]> (<[pos := child]> h)).
  { pose proof (IH (<[pos := child]> h) c) as R'.
    rewrite !length_insert in R'. apply R'.
  - exact Hclen.
  - lia.
  - destruct Hinv as [D1 D2]. split.
    + intros i x y Hi Hne Hpne Hx Hy.
      destruct (decide (i = pos)) as [-> | Hip].
      * rewrite list_lookup_insert_eq in Hx by exact Hlen.
        assert (x = child) by congruence. subst x.
        pose proof (parent_lt pos Hi) as Hpl.
        rewrite list_lookup_insert_ne in Hy by lia.
        apply (D2 c child y Hi); [lia | exact Hpc | exact Hch | exact Hy].
      * rewrite list_lookup_insert_ne in Hx by congruence.
        destruct (decide (parent i = pos)) as [Hpp | Hpp].
        -- rewrite Hpp in Hy.
           rewrite list_lookup_insert_eq in Hy by exact Hlen.
           assert (y = child) by congruence. subst y.
           apply (Hsmall i x Hi Hpp Hne Hx).
        -- rewrite list_lookup_insert_ne in Hy by congruence.
           apply (D1 i x y); assumption.
    + intros d x y Hc0 Hd Hpd Hx Hy.
      rewrite Hpc in Hy.
      rewrite list_lookup_insert_eq in Hy by exact Hlen.
      assert (y = child) by congruence. subst y.
      assert (Hdc : (c < d)%nat) by (pose proof (parent_lt d Hd); lia).
      rewrite list_lookup_insert_ne in Hx by lia.
      apply (D1 d x child Hd); [lia | lia | exact Hx |].
      rewrite Hpd. exact Hch.
  }
  cbv zeta in R |- *. destruct R as (R1 & R2 & R3).
  split; [exact R1|]. split; [exact R2|].
  rewrite R3.
  rewrite <- (list_insert_insert_eq h pos child newitem).
  rewrite list_insert_insert_ne by lia.
  apply Permutation_insert_swap.
  - rewrite list_lookup_insert_ne by lia. exact Hch.
  - apply list_lookup_insert_eq. exact Hlen.
Qed.

Hypothesis lt_irrefl : forall a, lt a a = false.

Lemma siftup_spec h newitem :
  h !! 0%nat = Some newitem -> down_inv h 0 ->
  heap_ordered (_siftup h 0) /\ _siftup h 0 ≡ₚ h.
Proof.
  intros H0 Hinv. unfold _siftup. rewrite H0.
  pose proof (lookup_lt_Some _ _ _ H0) as Hlen.
  destruct (siftup_loop_spec newitem (length h) h 0 Hlen ltac:(lia) Hinv)
    as (R1 & R2 & R3).
  destruct (_siftup_loop (length h) h (length h) 0) as [h' pos'].
  cbn [fst snd] in *. unfold _siftdown.
  rewrite list_lookup_insert_eq by exact R1.
  destruct (siftdown_loop_spec pos' (<[pos' := newitem]> h') pos' newitem)
    as [Ho Hp].
  - rewrite length_insert. exact R1.
  - lia.
  - rewrite list_insert_insert_eq. exact R2.
  - split; [exact Ho|].
    rewrite Hp, list_insert_insert_eq, R3.
    rewrite list_insert_id by exact H0. reflexivity.
Qed.

Lemma heap_ordered_prefix h x : heap_ordered (h ++ [x]) -> heap_ordered h.
Proof.
  intros Ho i a b Hi Ha Hb. apply (Ho i a b Hi).
  - apply lookup_app_l_Some. exact Ha.
  - apply lookup_app_l_Some. exact Hb.
Qed.

Lemma heappush_spec h x :
  heap_ordered h ->
  heap_ordered (heappush h x) /\ heappush h x ≡ₚ x :: h.
Proof.
  intros Ho. unfold heappush, _siftdown.
  assert (Hx : (h ++ [x]) !! length h = Some x).
  { rewrite lookup_app_r by lia. rewrite Nat.sub_diag. reflexivity. }
  rewrite Hx.
  destruct (siftdown_loop_spec (length h) (h ++ [x]) (length h) x)
    as [H1 H2].
  - rewrite length_app. simpl. lia.
  - lia.
  - rewrite list_insert_id by exact Hx. split.
    + intros i a b Hi Hne Ha Hb.
      pose proof (lookup_lt_Some _ _ _ Ha) as Hl.
      rewrite length_app in Hl. simpl in Hl.
      pose proof (parent_lt i Hi) as Hpl.
      rewrite lookup_app_l in Ha by lia.
      rewrite lookup_app_l in Hb by lia.
      apply (Ho i a b); assumption.
    + intros c a b Hpos Hc Hpc Ha Hb.
      pose proof (lookup_lt_Some _ _ _ Ha) as Hl.
      rewrite length_app in Hl. simpl in Hl.
      destruct (parent_cases c Hc); lia.
  - split; [exact H1|]. rewrite H2, list_insert_id by exact Hx.
    rewrite Permutation_app_comm. reflexivity.
Qed.

Lemma heappop_None h : heappop h = None -> h = [].
Proof.
  unfold heappop. destruct (last h) as [x|] eqn:E.
  - destruct (removelast h !! 0%nat); discriminate.
  - intros _. apply last_None. exact E.
Qed.

Lemma heappop_spec h m h' :
  heap_ordered h -> heappop h = Some (m, h') ->
  h !! 0%nat = Some m /\ heap_ordered h' /\ h ≡ₚ m :: h'.
Proof.
  intros Ho. unfold heappop.
  destruct (last h) as [lastelt|] eqn:E; [|discriminate].
  apply last_Some in E as [init ->].
  rewrite removelast_last.
  destruct (init !! 0%nat) as [r|] eqn:E0.
  - intros H. inversion H; subst; clear H.
    destruct init as [|r t]; [discriminate|]. simpl in E0.
    assert (r = m) by congruence. subst r.
    destruct (siftup_spec (<[0%nat := lastelt]> (m :: t)) lastelt)
      as [H1 H2].
    + reflexivity.
    + split.
      * intros i a b Hi Hne Hpne Ha Hb.
        rewrite list_lookup_insert_ne in Ha by lia.
        rewrite list_lookup_insert_ne in Hb by lia.
        apply (heap_ordered_prefix _ _ Ho i a b); assumption.
      * intros c a b Hpos. lia.
    + split; [reflexivity|]. split; [exact H1|].
      rewrite H2. simpl.
      rewrite (Permutation_app_comm (m :: t) [lastelt]). simpl.
      apply Permutation_swap.
  - intros H. inversion H; subst; clear H.
    destruct h' as [|a t]; [|discriminate]. simpl.
    split; [reflexivity|]. split; [|reflexivity].
    intros i a b Hi Ha. destruct i; discriminate.
Qed.

Lemma heap_root_least h r :
  heap_ordered h -> h !! 0%nat = Some r ->
  forall i x, h !! i = Some x -> item_le r x.
Proof.
  intros Ho Hr i. induction i as [i IH] using lt_wf_ind. intros x Hx.
  destruct (decide (i = 0%nat)) as [-> | Hne].
  - assert (x = r) by congruence. subst. apply lt_irrefl.
  - assert (Hi : (0 < i)%nat) by lia.
    pose proof (parent_lt i Hi) as Hpl.
    pose proof (lookup_lt_Some _ _ _ Hx) as Hl.
    destruct (lookup_lt_is_Some_2 h (parent i)) as [y Hy]; [lia|].
    apply le_trans with y.
    + apply (IH (parent i) Hpl y Hy).
    + apply (Ho i x y Hi Hx Hy).
Qed.

End Heap.

End HeapqFacts.

Module SchedFacts.

Import Sched.


Lemma entry_lt_spec a b :
  entry_lt a b = true <->
  (entry_deadline a < entry_deadline b)%Q \/
  ((entry_deadline a == entry_deadline b)%Q /\ (entry_tie a < entry_tie b)%nat).
Proof.
  unfold entry_lt.
  destruct (Qeq_bool (entry_deadline a) (entry_deadline b)) eqn:E.
  - apply Qeq_bool_iff in E. rewrite Nat.ltb_lt. split.
    + intros H. right. split; assumption.
    + intros [H | [_ H]]; [|exact H].
      rewrite E in H. exfalso. exact (Qlt_irrefl _ H).
  - apply Qeq_bool_neq in E. rewrite negb_true_iff. split.
    + intros H. left. apply Qnot_le_lt. intros Hle.
      apply Qle_bool_iff in Hle. congruence.
    + intros [H | [H _]]; [|contradiction].
      destruct (Qle_bool (entry_deadline b) (entry_deadline a)) eqn:L; [|reflexivity].
      apply Qle_bool_iff in L. exfalso. exact (Qlt_not_le _ _ H L).
Qed.

Lemma entry_lt_trans a b c :
  entry_lt a b = true -> entry_lt b c = true -> entry_lt a c = true.
Proof.
  rewrite !entry_lt_spec. intros [H1 | [H1 T1]] [H2 | [H2 T2]].
  - left. eapply Qlt_trans; eassumption.
  - left. rewrite <- H2. exact H1.
  - left. rewrite H1. exact H2.
  - right. split; [rewrite H1; exact H2 | lia].
Qed.

Lemma entry_lt_total a b :
  entry_tie a <> entry_tie b -> entry_lt a b = false -> entry_lt b a = true.
Proof.
  intros Hne Hf. apply entry_lt_spec.
  destruct (Q_dec (entry_deadline a) (entry_deadline b)) as [[H | H] | H].
  - exfalso. assert (entry_lt a b = true) by (apply entry_lt_spec; left; exact H). congruence.
  - left. exact H.
  - right. split; [symmetry; exact H|].
    destruct (Nat.lt_total (entry_tie a) (entry_tie b)) as [T | [T | T]]; [|contradiction|exact T].
    exfalso. assert (entry_lt a b = true) by (apply entry_lt_spec; right; split; assumption). congruence.
Qed.

Lemma entry_lt_false a b :
  entry_lt a b = false <->
  (entry_deadline b < entry_deadline a)%Q \/
  ((entry_deadline a == entry_deadline b)%Q /\ (entry_tie b <= entry_tie a)%nat).
Proof.
  split.
  - intros Hf.
    destruct (Q_dec (entry_deadline a) (entry_deadline b)) as [[H | H] | H].
    + exfalso. assert (entry_lt a b = true) by (apply entry_lt_spec; left; exact H).
      congruence.
    + left. exact H.
    + right. split; [exact H|].
      destruct (Nat.le_gt_cases (entry_tie b) (entry_tie a)) as [T | T]; [exact T|].
      exfalso. assert (entry_lt a b = true) by (apply entry_lt_spec; right; split; assumption).
      congruence.
  - intros H. destruct (entry_lt a b) eqn:E; [|reflexivity]. exfalso.
    apply entry_lt_spec in E. destruct H as [H | [H T]], E as [E | [E T']].
    + exact (Qlt_irrefl _ (Qlt_trans _ _ _ H E)).
    + rewrite E in H. exact (Qlt_irrefl _ H).
    + rewrite H in E. exact (Qlt_irrefl _ E).
    + lia.
Qed.

(** The three facts on the comparison that the heap depends on. *)
Lemma entry_le_trans a b c :
  Heapq.item_le entry_lt a b -> Heapq.item_le entry_lt b c ->
  Heapq.item_le entry_lt a c.
Proof.
  unfold Heapq.item_le. rewrite !entry_lt_false.
  intros [H1 | [H1 T1]] [H2 | [H2 T2]].
  - left. eapply Qlt_trans; eassumption.
  - left. rewrite H2. exact H1.
  - left. rewrite <- H1. exact H2.
  - right. split; [rewrite H2; exact H1 | lia].
Qed.

Lemma entry_lt_le a b : entry_lt a b = true -> Heapq.item_le entry_lt a b.
Proof.
  unfold Heapq.item_le. rewrite entry_lt_spec, entry_lt_false.
  intros [H | [H T]]; [left; exact H|].
  right. split; [symmetry; exact H | lia].
Qed.

Lemma entry_le_refl a : Heapq.item_le entry_lt a a.
Proof.
  unfold Heapq.item_le. apply entry_lt_false. right. split; [reflexivity | lia].
Qed.

Lemma push_spec heap x :
  Heapq.heap_ordered entry_lt heap ->
  Heapq.heap_ordered entry_lt (heappush heap x) /\ heappush heap x ≡ₚ x :: heap.
Proof.
  apply HeapqFacts.heappush_spec; [exact entry_le_trans | exact entry_lt_le].
Qed.

Lemma pop_spec heap m r :
  Heapq.heap_ordered entry_lt heap -> heappop heap = Some (m, r) ->
  heap !! 0%nat = Some m /\ Heapq.heap_ordered entry_lt r /\ heap ≡ₚ m :: r.
Proof.
  apply HeapqFacts.heappop_spec; [exact entry_le_trans | exact entry_lt_le].
Qed.

Lemma pop_empty heap : heappop heap = None -> heap = [].
Proof. apply HeapqFacts.heappop_None. Qed.

Lemma pop_length heap m r :
  Heapq.heap_ordered entry_lt heap -> heappop heap = Some (m, r) ->
  length heap = S (length r).
Proof. intros Ho H. apply pop_spec in H as (_ & _ & H); [|exact Ho]. rewrite H. reflexivity. Qed.

Lemma pop_NoDup heap m r :
  Heapq.heap_ordered entry_lt heap ->
  List.NoDup (map entry_tie heap) -> heappop heap = Some (m, r) ->
  ~ In (entry_tie m) (map entry_tie r) /\ List.NoDup (map entry_tie r).
Proof.
  intros Ho Hnd H. apply pop_spec in H as (_ & _ & H); [|exact Ho].
  assert (Hnd' : List.NoDup (map entry_tie (m :: r))).
  { eapply Permutation_NoDup; [|exact Hnd]. apply Permutation_map. exact H. }
  simpl in Hnd'. apply List.NoDup_cons_iff in Hnd'. exact Hnd'.
Qed.

(** The popped item is below every item left, given distinct tie-breakers. *)
Lemma pop_least heap m r :
  Heapq.heap_ordered entry_lt heap ->
  List.NoDup (map entry_tie heap) ->
  heappop heap = Some (m, r) -> Forall (fun y => entry_lt m y = true) r.
Proof.
  intros Ho Hnd H.
  destruct (pop_NoDup _ _ _ Ho Hnd H) as [Hm _].
  destruct (pop_spec _ _ _ Ho H) as (Hroot & _ & Hp).
  apply Forall_forall. intros y Hy.
  assert (Hy' : y ∈ heap).
  { rewrite Hp. apply elem_of_cons. right. exact Hy. }
  apply list_elem_of_lookup in Hy' as [i Hi].
  pose proof (HeapqFacts.heap_root_least entry_lt entry_le_trans entry_le_refl
                heap m Ho Hroot i y Hi) as Hle.
  apply entry_lt_total; [|exact Hle].
  intros Heq. apply Hm. rewrite <- Heq. apply in_map.
  apply list_elem_of_In. exact Hy.
Qed.

Lemma drain_spec fuel now heap popped rest :
  Heapq.heap_ordered entry_lt heap ->
  List.NoDup (map entry_tie heap) ->
  drain fuel now heap = (popped, rest) ->
  heap ≡ₚ popped ++ rest
  /\ StronglySorted entry_ltP popped
  /\ Forall (fun x => Forall (fun y => entry_lt x y = true) rest) popped
  /\ Forall (fun x => (entry_deadline x <= now)%Q) popped
  /\ Heapq.heap_ordered entry_lt rest.
Proof.
  revert heap popped rest.
  induction fuel as [|fuel IH]; intros heap popped rest Ho Hnd H.
  - simpl in H. inversion H; subst.
    split; [reflexivity|]. split; [constructor|]. split; [constructor|].
    split; [constructor | exact Ho].
  - simpl in H. destruct (heappop heap) as [[x heap']|] eqn:E.
    + destruct (Qle_bool (entry_deadline x) now) eqn:D.
      * destruct (drain fuel now heap') as [p r] eqn:Dr. inversion H; subst; clear H.
        destruct (pop_spec _ _ _ Ho E) as (_ & Ho' & Hp).
        pose proof (pop_least _ _ _ Ho Hnd E) as Hl.
        destruct (pop_NoDup _ _ _ Ho Hnd E) as [_ Hnd'].
        destruct (IH _ _ _ Ho' Hnd' Dr) as (P1 & P2 & P3 & P4 & P5).
        rewrite P1 in Hl. apply Forall_app in Hl as [Hl1 Hl2].
        split; [rewrite Hp, P1; reflexivity|].
        split; [constructor; assumption|].
        split; [constructor; assumption|].
        split; [|exact P5].
        constructor; [apply Qle_bool_iff; exact D | assumption].
      * inversion H; subst.
        split; [reflexivity|]. split; [constructor|]. split; [constructor|].
        split; [constructor | exact Ho].
    + inversion H; subst.
      split; [reflexivity|]. split; [constructor|]. split; [constructor|].
      split; [constructor | exact Ho].
Qed.

(** With fuel for every item, what is left is not due yet. *)
Lemma drain_complete fuel now heap popped rest :
  Heapq.heap_ordered entry_lt heap ->
  List.NoDup (map entry_tie heap) ->
  (length heap <= fuel)%nat ->
  drain fuel now heap = (popped, rest) ->
  Forall (fun y => (now < entry_deadline y)%Q) rest.
Proof.
  revert heap popped rest.
  induction fuel as [|fuel IH]; intros heap popped rest Ho Hnd Hlen H.
  - simpl in H. inversion H; subst. destruct rest; [constructor|simpl in Hlen; lia].
  - simpl in H. destruct (heappop heap) as [[x heap']|] eqn:E.
    + destruct (pop_spec _ _ _ Ho E) as (_ & Ho' & Hp).
      pose proof (pop_least _ _ _ Ho Hnd E) as Hl.
      destruct (Qle_bool (entry_deadline x) now) eqn:D.
      * destruct (drain fuel now heap') as [p r] eqn:Dr. inversion H; subst; clear H.
        eapply IH; [exact Ho'| | |exact Dr].
        -- exact (proj2 (pop_NoDup _ _ _ Ho Hnd E)).
        -- apply pop_length in E; [lia | exact Ho].
      * inversion H; subst; clear H.
        assert (Hx : (now < entry_deadline x)%Q).
        { apply Qnot_le_lt. intros Hle. apply Qle_bool_iff in Hle. congruence. }
        rewrite Hp. constructor; [exact Hx|].
        eapply Forall_impl; [exact Hl|]. intros y Hy. simpl in Hy.
        apply entry_lt_spec in Hy as [Hy | [Hy _]].
        -- eapply Qlt_trans; eassumption.
        -- rewrite <- Hy. exact Hx.
    + apply pop_empty in E. inversion H; subst. constructor.
Qed.

Lemma schedule_all_snoc ds d c :
  schedule_all (ds ++ [d]) c =
  snd (schedule (Once (fst d)) (snd d) (schedule_all ds c)).
Proof.
  unfold schedule_all, run. rewrite map_app, fold_left_app. reflexivity.
Qed.

Lemma entries_of_snoc ds d :
  entries_of (ds ++ [d]) =
  entries_of ds ++ [(fst d, S (length ds), EventCall (length ds))].
Proof.
  unfold entries_of. rewrite imap_app. simpl.
  rewrite Nat.add_0_r. reflexivity.
Qed.

Lemma heap_ordered_nil : Heapq.heap_ordered entry_lt [].
Proof. intros i a b _ Hi. destruct i; discriminate. Qed.

(** What [schedule] leaves behind, one call after the other. *)
Lemma schedule_all_init ds :
  let c := schedule_all ds BasicCore_init in
  tie_breaker c = length ds
  /\ events c = map (fun df => ScheduledEvent_init (snd df)) ds
  /\ greenlets c = [] /\ calls c = []
  /\ _schedule c ≡ₚ entries_of ds
  /\ Heapq.heap_ordered entry_lt (_schedule c).
Proof.
  induction ds as [|d ds IH] using rev_ind.
  { simpl. repeat (split; [reflexivity|]). apply heap_ordered_nil. }
  cbv zeta in IH. destruct IH as (Ht & He & Hg & Hc & Hp & Ho).
  cbv zeta. rewrite schedule_all_snoc.
  unfold schedule, _schedule_callback, get_tie_breaker, with_schedule, with_events.
  cbn [fst snd _schedule tie_breaker events greenlets calls].
  destruct (push_spec (_schedule (schedule_all ds BasicCore_init))
              (fst d, S (tie_breaker (schedule_all ds BasicCore_init)),
               EventCall (length (events (schedule_all ds BasicCore_init)))) Ho)
    as [Ho' Hp'].
  split; [rewrite Ht, length_app; simpl; lia|].
  split; [rewrite He, map_app; reflexivity|].
  split; [exact Hg|]. split; [exact Hc|].
  split; [|exact Ho'].
  rewrite Hp', entries_of_snoc, Hp, Ht, He, length_map.
  apply Permutation_cons_append.
Qed.

Lemma entries_of_lookup ds x :
  In x (entries_of ds) ->
  exists k df, ds !! k = Some df /\ x = (fst df, S k, EventCall k).
Proof.
  intros H. apply list_elem_of_In in H.
  apply list_elem_of_lookup in H as [k Hk].
  unfold entries_of in Hk. rewrite list_lookup_imap in Hk.
  destruct (ds !! k) as [df|] eqn:E; simpl in Hk; [|discriminate].
  exists k, df. split; [exact E|]. congruence.
Qed.

Lemma entries_of_ties ds :
  map entry_tie (entries_of ds) = seq 1 (length ds).
Proof.
  induction ds as [|d ds IH] using rev_ind; [reflexivity|].
  rewrite entries_of_snoc, map_app, IH, length_app. simpl.
  rewrite Nat.add_1_r, seq_S. reflexivity.
Qed.

Lemma entries_of_NoDup ds : List.NoDup (map entry_tie (entries_of ds)).
Proof. rewrite entries_of_ties. apply List.seq_NoDup. Qed.

Lemma fired_inv_heap_NoDup ds L h :
  L ++ h ≡ₚ entries_of ds -> List.NoDup (map entry_tie h).
Proof.
  intros Hp. pose proof (entries_of_NoDup ds) as Hnd.
  eapply Permutation_NoDup in Hnd; [|apply Permutation_map; symmetry; exact Hp].
  rewrite map_app in Hnd. eapply List.NoDup_app_remove_l. exact Hnd.
Qed.

Lemma fired_inv_init ds : fired_inv ds (schedule_all ds BasicCore_init).
Proof.
  destruct (schedule_all_init ds) as (Ht & He & Hg & Hc & Hp & Ho).
  exists []. rewrite Hg, Hc, He. simpl.
  split; [constructor|]. split; [constructor|].
  split; [exact Hp|]. split; [exact Ho|].
  split; [reflexivity|]. split; [apply length_map|].
  apply Forall_forall. intros ev Hev.
  apply list_elem_of_In, in_map_iff in Hev as (df & <- & _). reflexivity.
Qed.

Lemma StronglySorted_app_lt (L P : list entry) :
  StronglySorted entry_ltP L -> StronglySorted entry_ltP P ->
  Forall (fun x => Forall (fun y => entry_lt x y = true) P) L ->
  StronglySorted entry_ltP (L ++ P).
Proof.
  intros HL HP H. induction HL as [|x L HL IH Hx]; simpl; [exact HP|].
  apply Forall_cons in H as [Hx' H]. constructor; [apply IH; exact H|].
  apply Forall_app. split; [exact Hx | exact Hx'].
Qed.

Lemma fired_inv_wake ds now c :
  fired_inv ds c -> fired_inv ds (schedule_loop_wake now c).
Proof.
  intros (L & Hs & Hb & Hp & Ho & Hc & Hl & Hn).
  unfold schedule_loop_wake.
  destruct (drain (length (_schedule c)) now (_schedule c)) as [popped rest] eqn:D.
  pose proof (fired_inv_heap_NoDup _ _ _ Hp) as Hnd.
  destruct (drain_spec _ _ _ _ _ Ho Hnd D) as (P1 & P2 & P3 & P4 & P5).
  exists (L ++ popped). simpl.
  split; [|split; [|split; [|split; [|split; [|split]]]]].
  - apply StronglySorted_app_lt; [assumption..|].
    eapply Forall_impl; [exact Hb|]. intros x Hx. simpl in Hx.
    rewrite P1 in Hx. apply Forall_app in Hx. tauto.
  - apply Forall_app. split; [|exact P3].
    eapply Forall_impl; [exact Hb|]. intros x Hx. simpl in Hx.
    rewrite P1 in Hx. apply Forall_app in Hx. tauto.
  - rewrite <- Hp, P1, app_assoc. reflexivity.
  - exact P5.
  - rewrite map_app, Hc, app_assoc. reflexivity.
  - exact Hl.
  - exact Hn.
Qed.

Lemma finish_canceled e evs :
  Forall (fun ev => canceled ev = false) evs ->
  Forall (fun ev => canceled ev = false) (alter set_finished e evs).
Proof.
  intros H. apply Forall_forall. intros ev Hev.
  apply list_elem_of_lookup in Hev as [k Hk].
  destruct (decide (k = e)) as [->|Hne].
  - rewrite list_lookup_alter_eq in Hk.
    destruct (evs !! e) as [ev0|] eqn:E; simpl in Hk; [|discriminate].
    inversion Hk; subst. simpl.
    eapply Forall_lookup_1 in H; [|exact E]. exact H.
  - rewrite list_lookup_alter_ne in Hk by congruence.
    eapply Forall_lookup_1 in H; [|exact Hk]. exact H.
Qed.

Lemma run_callback_EventCall raises k c ev :
  events c !! k = Some ev -> canceled ev = false ->
  run_callback raises (EventCall k) c =
  if raises then call_function k c else finish k (call_function k c).
Proof. intros E H. unfold run_callback. rewrite E, H. reflexivity. Qed.

Lemma fired_inv_start ds raises c :
  fired_inv ds c -> fired_inv ds (start_greenlet raises c).
Proof.
  intros (L & Hs & Hb & Hp & Ho & Hc & Hl & Hn).
  unfold start_greenlet. destruct (greenlets c) as [|cb rest] eqn:G.
  { exists L. rewrite G. repeat split; assumption. }
  assert (Hin : In cb (map entry_callback L)).
  { rewrite Hc. apply in_or_app. right. left. reflexivity. }
  apply in_map_iff in Hin as (x & Hx & HxL).
  assert (Hxe : In x (entries_of ds)).
  { eapply Permutation_in; [exact Hp|]. apply in_or_app. left. exact HxL. }
  apply entries_of_lookup in Hxe as (k & df & Hk & ->). simpl in Hx. subst cb.
  assert (Hlt : (k < length (events c))%nat).
  { rewrite Hl. eapply lookup_lt_Some. exact Hk. }
  destruct (events c !! k) as [ev|] eqn:E;
    [|apply lookup_ge_None in E; lia].
  pose proof (Forall_lookup_1 _ _ _ _ Hn E) as Hcan. simpl in Hcan.
  erewrite run_callback_EventCall; [|exact E|exact Hcan].
  assert (Hc' : map entry_callback L = map EventCall (calls c ++ [k]) ++ rest).
  { rewrite Hc, map_app, <- app_assoc. reflexivity. }
  destruct raises.
  - exists L. simpl. repeat split; assumption.
  - exists L. simpl. repeat split; try assumption.
    + rewrite length_alter. exact Hl.
    + apply finish_canceled. exact Hn.
Qed.

Lemma fired_inv_run ds ts c :
  fired_inv ds c -> fired_inv ds (run (map Hub ts) c).
Proof.
  revert c. induction ts as [|t ts IH]; intros c H; [exact H|].
  simpl. apply IH. destruct t; simpl.
  - apply fired_inv_wake. exact H.
  - apply fired_inv_start. exact H.
Qed.

Lemma StronglySorted_lookup_lt (L : list entry) i j x y :
  StronglySorted entry_ltP L -> (i < j)%nat ->
  L !! i = Some x -> L !! j = Some y -> entry_lt x y = true.
Proof.
  intros HL. revert i j. induction HL as [|z L HL IH Hz]; intros i j Hij Hi Hj.
  - discriminate.
  - destruct j as [|j]; [lia|]. simpl in Hj. destruct i as [|i].
    + simpl in Hi. inversion Hi; subst.
      eapply Forall_lookup_1 in Hz; [|exact Hj]. exact Hz.
    + simpl in Hi. eapply IH; [|exact Hi|exact Hj]. lia.
Qed.

Lemma lookup_map {A B} (f : A -> B) (l : list A) (i : nat) :
  map f l !! i = f <$> (l !! i).
Proof.
  revert i. induction l as [|x l IH]; intros [|i]; simpl; auto.
Qed.

Lemma fired_inv_called ds c L i a :
  L ++ _schedule c ≡ₚ entries_of ds ->
  map entry_callback L = map EventCall (calls c) ++ greenlets c ->
  calls c !! i = Some a ->
  exists df, ds !! a = Some df /\ L !! i = Some (fst df, S a, EventCall a).
Proof.
  intros Hp Hc Hi.
  assert (Hm : map entry_callback L !! i = Some (EventCall a)).
  { rewrite Hc. rewrite lookup_app_l.
    - rewrite lookup_map. rewrite Hi. reflexivity.
    - rewrite length_map. eapply lookup_lt_Some. exact Hi. }
  rewrite lookup_map in Hm.
  destruct (L !! i) as [x|] eqn:E; simpl in Hm; [|discriminate].
  assert (Hx : In x (entries_of ds)).
  { eapply Permutation_in; [exact Hp|]. apply in_or_app. left.
    apply list_elem_of_In. eapply list_elem_of_lookup_2. exact E. }
  apply entries_of_lookup in Hx as (k & df & Hk & ->).
  simpl in Hm. inversion Hm; subst. exists df. split; [exact Hk | reflexivity].
Qed.

Lemma fired_order ds c i j a b :
  fired_inv ds c -> (i < j)%nat ->
  calls c !! i = Some a -> calls c !! j = Some b ->
  exists da db, ds !! a = Some da /\ ds !! b = Some db
    /\ (fst da <= fst db)%Q /\ ((fst da == fst db)%Q -> (a < b)%nat).
Proof.
  intros (L & Hs & _ & Hp & _ & Hc & _) Hij Hi Hj.
  destruct (fired_inv_called _ _ _ _ _ Hp Hc Hi) as (da & Ha & Lx).
  destruct (fired_inv_called _ _ _ _ _ Hp Hc Hj) as (db & Hb & Ly).
  pose proof (StronglySorted_lookup_lt _ _ _ _ _ Hs Hij Lx Ly) as Hlt.
  apply entry_lt_spec in Hlt. unfold entry_deadline, entry_tie in Hlt. simpl in Hlt.
  exists da, db. repeat split; try assumption.
  - destruct Hlt as [H | [H _]]; [apply Qlt_le_weak; exact H|].
    rewrite H. apply Qle_refl.
  - intros Heq. destruct Hlt as [H | [_ H]]; [|lia].
    rewrite Heq in H. exfalso. exact (Qlt_irrefl _ H).
Qed.

Lemma canceled_at_alter f e e' evs :
  (forall ev, canceled ev = true -> canceled (f ev) = true) ->
  canceled_at e evs -> canceled_at e (alter f e' evs).
Proof.
  intros Hf (ev & E & H). destruct (decide (e' = e)) as [->|Hne].
  - exists (f ev). split; [|apply Hf; exact H].
    rewrite list_lookup_alter_eq, E. reflexivity.
  - exists ev. split; [|exact H].
    rewrite list_lookup_alter_ne by exact Hne. exact E.
Qed.

Lemma canceled_at_app e evs more :
  canceled_at e evs -> canceled_at e (evs ++ more).
Proof.
  intros (ev & E & H). exists ev. split; [|exact H].
  rewrite lookup_app_l; [exact E|]. eapply lookup_lt_Some. exact E.
Qed.

Lemma canceled_at_finish e e' c :
  canceled_at e (events c) -> canceled_at e (events (finish e' c)).
Proof. intros H. simpl. apply canceled_at_alter; [|exact H]. intros ev Hev. exact Hev. Qed.

Lemma quiet_refl e c : canceled_at e (events c) -> quiet_for e c c.
Proof.
  intros H. split; [exact H|]. exists []. rewrite app_nil_r. split; [reflexivity|]. intros [].
Qed.

Lemma quiet_same_calls e c c' :
  canceled_at e (events c') -> calls c' = calls c -> quiet_for e c c'.
Proof.
  intros H Hc. split; [exact H|]. exists []. rewrite app_nil_r. split; [exact Hc|]. intros [].
Qed.

Lemma quiet_trans e c1 c2 c3 :
  quiet_for e c1 c2 -> quiet_for e c2 c3 -> quiet_for e c1 c3.
Proof.
  intros (_ & x1 & E1 & N1) (H & x2 & E2 & N2). split; [exact H|].
  exists (x1 ++ x2). split; [rewrite E2, E1, app_assoc; reflexivity|].
  intros Hin. apply in_app_or in Hin. tauto.
Qed.

Lemma run_callback_quiet e raises cb c :
  canceled_at e (events c) -> quiet_for e c (run_callback raises cb c).
Proof.
  intros H. pose proof H as (ev0 & E0 & C0).
  assert (Hcall : forall e' c0, canceled_at e (events c0) -> e' <> e ->
            quiet_for e c0 (call_function e' c0)).
  { intros e' c0 H0 Hne. split; [exact H0|]. exists [e']. split; [reflexivity|].
    intros [Hin|[]]. congruence. }
  assert (Hfin : forall e' c0, canceled_at e (events c0) ->
            quiet_for e c0 (finish e' c0)).
  { intros e' c0 H0. apply quiet_same_calls; [|reflexivity].
    apply canceled_at_finish. exact H0. }
  destruct cb as [e'|e' it]; simpl.
  - destruct (events c !! e') as [ev|] eqn:E; [|apply quiet_refl; exact H].
    destruct (canceled ev) eqn:C; [apply Hfin; exact H|].
    assert (Hne : e' <> e) by (intros ->; congruence).
    destruct raises; [apply Hcall; assumption|].
    eapply quiet_trans; [apply Hcall; eassumption|].
    apply Hfin. exact H.
  - destruct (events c !! e') as [ev|] eqn:E; [|apply quiet_refl; exact H].
    destruct (canceled ev) eqn:C; [apply Hfin; exact H|].
    assert (Hne : e' <> e) by (intros ->; congruence).
    destruct (next it) as [[deadline it']|].
    + eapply quiet_trans; [|apply Hcall; [exact H | exact Hne]].
      apply quiet_same_calls; [exact H | reflexivity].
    + destruct raises; [apply Hcall; assumption|].
      eapply quiet_trans; [apply Hcall; eassumption|].
      apply Hfin. exact H.
Qed.

Lemma step_quiet e c i :
  canceled_at e (events c) -> quiet_for e c (step c i).
Proof.
  intros H. destruct i as [[deadline func | e'] | [now | raises]]; simpl.
  - apply quiet_same_calls.
    + destruct deadline as [d|it]; simpl.
      * apply canceled_at_app. exact H.
      * unfold _schedule_iter. destruct (next it) as [[d it']|]; simpl.
        -- apply canceled_at_app. exact H.
        -- apply canceled_at_alter; [auto|]. apply canceled_at_app. exact H.
    + destruct deadline as [d|it]; simpl; [reflexivity|].
      unfold _schedule_iter. destruct (next it) as [[d it']|]; reflexivity.
  - apply quiet_same_calls; [|reflexivity]. simpl.
    apply canceled_at_alter; [|exact H]. reflexivity.
  - apply quiet_same_calls.
    + unfold schedule_loop_wake.
      destruct (drain _ _ _) as [popped rest]. exact H.
    + unfold schedule_loop_wake.
      destruct (drain _ _ _) as [popped rest]. reflexivity.
  - unfold start_greenlet. destruct (greenlets c) as [|cb rest].
    + apply quiet_refl. exact H.
    + pose proof (run_callback_quiet e raises cb
        {| _schedule := _schedule c; tie_breaker := tie_breaker c;
           events := events c; greenlets := rest; calls := calls c |} H) as Hq.
      exact Hq.
Qed.

Lemma run_quiet e ins c :
  canceled_at e (events c) -> quiet_for e c (run ins c).
Proof.
  revert c. induction ins as [|i ins IH]; intros c H.
  - apply quiet_refl. exact H.
  - simpl. pose proof (step_quiet e c i H) as Hs.
    eapply quiet_trans; [exact Hs|]. apply IH. apply Hs.
Qed.

(** An allocated event stays allocated. *)
Lemma step_allocated e c i :
  (e < length (events c))%nat -> (e < length (events (step c i)))%nat.
Proof.
  intros H. destruct i as [[deadline func | e'] | [now | raises]]; simpl.
  - destruct deadline as [d|it]; simpl.
    + rewrite length_app. lia.
    + unfold _schedule_iter. destruct (next it) as [[d it']|]; simpl.
      * rewrite length_app. lia.
      * rewrite length_alter, length_app. lia.
  - rewrite length_alter. exact H.
  - unfold schedule_loop_wake. destruct (drain _ _ _) as [popped rest]. exact H.
  - unfold start_greenlet. destruct (greenlets c) as [|cb rest]; [exact H|].
    destruct cb as [e'|e' it]; simpl;
      destruct (events c !! e') as [ev|]; simpl; try exact H;
      destruct (canceled ev); simpl; try (rewrite length_alter; exact H).
    + destruct raises; simpl; [exact H | rewrite length_alter; exact H].
    + destruct (next it) as [[d it']|]; simpl; [exact H|].
      destruct raises; simpl; [exact H | rewrite length_alter; exact H].
Qed.

Lemma run_allocated e ins c :
  (e < length (events c))%nat -> (e < length (events (run ins c)))%nat.
Proof.
  revert c. induction ins as [|i ins IH]; intros c H; [exact H|].
  simpl. apply IH, step_allocated, H.
Qed.

Lemma schedule_allocates deadline func c :
  (fst (schedule deadline func c) < length (events (snd (schedule deadline func c))))%nat.
Proof.
  simpl. destruct deadline as [d|it]; simpl.
  - rewrite length_app. simpl. lia.
  - unfold _schedule_iter. destruct (next it) as [[d it']|]; simpl.
    + rewrite length_app. simpl. lia.
    + rewrite length_alter, length_app. simpl. lia.
Qed.

Lemma cancel_event_canceled e c :
  (e < length (events c))%nat -> canceled_at e (events (cancel_event e c)).
Proof.
  intros H. destruct (lookup_lt_is_Some_2 _ _ H) as [ev E].
  exists (cancel ev). split; [|reflexivity].
  simpl. rewrite list_lookup_alter_eq, E. reflexivity.
Qed.

Lemma cancel_event_idempotent e c :
  cancel_event e (cancel_event e c) = cancel_event e c.
Proof.
  unfold cancel_event, with_events. simpl. f_equal.
  apply list_eq. intros i. destruct (decide (i = e)) as [->|Hne].
  - rewrite !list_lookup_alter_eq. destruct (events c !! e); reflexivity.
  - rewrite !list_lookup_alter_ne by congruence. reflexivity.
Qed.

(** C6: let [schedule] return the event [e], let anything happen, then
    cancel [e].  From then on the event's function is never invoked
    again, whatever the scheduler and the agent do: every later
    invocation is of another event.  In particular it is never invoked
    at all if it had not been before the cancel.  The cancel itself
    touches neither the record of invocations nor the heap nor the
    spawned callbacks, and a second cancel changes nothing. *)
Theorem cancel_is_final deadline func c ins1 ins2 :
  let e := fst (schedule deadline func c) in
  let c1 := run ins1 (snd (schedule deadline func c)) in
  let c2 := cancel_event e c1 in
  (exists extra, calls (run ins2 c2) = calls c1 ++ extra /\ ~ In e extra)
  /\ (~ In e (calls c1) -> ~ In e (calls (run ins2 c2)))
  /\ (calls c2 = calls c1 /\ _schedule c2 = _schedule c1
      /\ greenlets c2 = greenlets c1)
  /\ cancel_event e c2 = c2.
Proof.
  intros e c1 c2.
  assert (Halloc : (e < length (events c1))%nat).
  { apply run_allocated, schedule_allocates. }
  pose proof (cancel_event_canceled e c1 Halloc) as Hc.
  destruct (run_quiet e ins2 c2 Hc) as (_ & extra & Hx & Hn).
  split; [exists extra; split; [exact Hx | exact Hn]|].
  split.
  - intros Hnot Hin. rewrite Hx in Hin. apply in_app_or in Hin as [Hin|Hin]; tauto.
  - split; [repeat split|]. apply cancel_event_idempotent.
Qed.

(** C6 on a one-shot event canceled before the loop wakes. *)
Lemma cancel_is_final_witness :
  let scheduled := schedule (Once 5%Q) 1%nat BasicCore_init in
  let c2 := cancel_event (fst scheduled) (run [] (snd scheduled)) in
  exists extra,
    calls (run [Hub (Wake 9%Q); Hub (Start false)] c2)
    = calls (run [] (snd scheduled)) ++ extra
    /\ ~ In (fst scheduled) extra.
Proof.
  cbv zeta.
  exact (proj1 (cancel_is_final (Once 5%Q) 1%nat BasicCore_init []
                  [Hub (Wake 9%Q); Hub (Start false)])).
Defined.

(** A canceled one-shot event is popped and spawned like any other, and
    its function is not invoked. *)
Example canceled_event_not_called :
  let scheduled := schedule (Once 5%Q) 1%nat BasicCore_init in
  let c := run [User (ReqCancel (fst scheduled)); Hub (Wake 9%Q);
                Hub (Start false)] (snd scheduled) in
  calls c = [] /\ _schedule c = [] /\ greenlets c = []
  /\ events c = [{| function := 1%nat; canceled := true; finished := true |}].
Proof. vm_compute. repeat split. Qed.

(** A periodic event canceled after its first invocation is not invoked
    again. *)
Example periodic_event_canceled :
  let every := {| it_gen := fun k => Some (inject_Z (Z.of_nat k)); it_pos := 0 |} in
  let scheduled := schedule (Iter every) 1%nat BasicCore_init in
  let c := run [Hub (Wake 0%Q); Hub (Start false);
                User (ReqCancel (fst scheduled));
                Hub (Wake 1%Q); Hub (Start false);
                Hub (Wake 2%Q); Hub (Start false)] (snd scheduled) in
  calls c = [0%nat] /\ _schedule c = [] /\ greenlets c = [].
Proof. vm_compute. repeat split. Qed.

End SchedFacts.

Module VipFacts.

Import Vip.

(** *** The registry *)

Lemma register_subsystems name h eh c :
  subsystems (register name h eh c) = <[name := h]> (subsystems c).
Proof. unfold register. destruct eh; reflexivity. Qed.

Lemma signal_connect_same name r c :
  signal name (Signal_connect name r c) = signal name c ++ [r].
Proof.
  unfold signal, Signal_connect. simpl.
  rewrite lookup_total_insert_eq. reflexivity.
Qed.

Lemma signal_connect_other name name' r c :
  name <> name' ->
  signal name' (Signal_connect name r c) = signal name' c.
Proof.
  intros Hne. unfold signal, Signal_connect. simpl.
  rewrite lookup_total_insert_ne by exact Hne. reflexivity.
Qed.

(** C8, as the code has it: [register] always installs the handler it is
    given under the name, whatever was there before; every other name
    keeps its handler; a call with an error handler adds one receiver to
    [onviperror]. *)
Theorem register_last_wins (name : string) (h : handler)
    (eh : option nat) (c : Core) :
  subsystems (register name h eh c) !! name = Some h
  /\ (forall other, other <> name ->
        subsystems (register name h eh c) !! other = subsystems c !! other)
  /\ signal "onviperror" (register name h eh c)
     = signal "onviperror" c
       ++ match eh with Some e => [Ronerror name e] | None => [] end.
Proof.
  rewrite register_subsystems. split; [apply lookup_insert_eq|]. split.
  - intros other Hne. apply lookup_insert_ne. congruence.
  - unfold register. destruct eh as [e|].
    + rewrite signal_connect_same. reflexivity.
    + rewrite app_nil_r. reflexivity.
Qed.

(** C8, the claim refuted: registering a second handler under the name
    of the built-in error handler replaces it without any error. *)
Lemma register_duplicate_replaces :
  let c := Core_init "agent" "tcp://127.0.0.1:22916" None in
  subsystems c !! "error" = Some handle_error_method
  /\ subsystems (register "error" (Handler 7) None c) !! "error"
     = Some (Handler 7).
Proof. split; reflexivity. Qed.

(** *** The built-in error handler *)

Lemma emissions_Signal_send name kw c :
  emissions name (Signal_send name kw c) = 1%nat.
Proof.
  unfold emissions, Signal_send. simpl. rewrite String.eqb_refl. simpl.
  f_equal. induction (signal name c) as [|r rs IH]; [reflexivity|exact IH].
Qed.


(** *** Dispatch of a frame *)

Section Dispatch.

Variable truth : Signal -> bool.
Variable INVALID : list value.

Lemma is_welcome_other st message :
  other_frame message = true -> is_welcome st message = false.
Proof.
  unfold other_frame, is_welcome. intros H. apply negb_true_iff in H.
  destruct (String.eqb (subsystem message) "hello"); [|reflexivity].
  simpl in *. rewrite H. apply andb_false_r.
Qed.

(** C5: a frame that is not the awaited welcome and names a subsystem
    without handler makes either receive loop log the condition and send
    exactly one frame, the received one rewritten into an error reply for
    the same peer and correlation id; the turn ends normally and the
    loop goes on. *)
Theorem unknown_subsystem_one_error_reply (message : Message) (c : Core) :
  is_welcome (state c) message = false ->
  subsystems c !! subsystem message = None ->
  let reply :=
    {| peer := peer message; subsystem := "error"; id := id message;
       user := ""; args := INVALID ++ [VStr (subsystem message)] |} in
  let z := zmq_vip_loop truth INVALID (Received message) c in
  let r := rmq_vip_loop truth INVALID (Queued message) c in
  (emitted z = [Log "peer requested unknown subsystem"; SendVip reply]
   /\ next_flow z = Continue /\ core_after z = c)
  /\ (emitted r = [Log "peer requested unknown subsystem"; SendVip reply]
      /\ next_flow r = Continue /\ core_after r = c)
  /\ (vip_loop_alive c = true ->
      vip_loop_alive (fst (step truth INVALID c (ZmqRecv (Received message)))) = true
      /\ vip_loop_alive (fst (step truth INVALID c (RmqRecv (Queued message)))) = true).
Proof.
  intros Hw Hs reply z r. unfold z, r, zmq_vip_loop, rmq_vip_loop.
  rewrite Hw, Hs. simpl.
  split; [repeat split|]. split.
  - destruct (String.eqb (subsystem message) "hello"); simpl; repeat split.
  - intros Ha. simpl. rewrite Ha. simpl. rewrite Hw, Hs.
    destruct (String.eqb (subsystem message) "hello"); split; exact Ha.
Qed.

(** C9, as the code has it: a turn of either receive loop never touches
    the peer and the id of the message it received; it leaves the whole
    message as received when the message is the awaited welcome or its
    subsystem has a handler; otherwise it overwrites [user], [args] and
    [subsystem] of the received object to make the reply. *)
Theorem received_message_after_turn (message : Message) (c : Core) :
  forall o,
    o = zmq_vip_loop truth INVALID (Received message) c
    \/ o = rmq_vip_loop truth INVALID (Queued message) c ->
    exists m', message_after o = Some m'
      /\ peer m' = peer message /\ id m' = id message
      /\ (is_welcome (state c) message = true
          \/ is_Some (subsystems c !! subsystem message) -> m' = message)
      /\ (is_welcome (state c) message = false ->
          subsystems c !! subsystem message = None ->
          user m' = "" /\ subsystem m' = "error"
          /\ args m' = INVALID ++ [VStr (subsystem message)]).
Proof.
  intros o Ho.
  assert (Hcases :
    (message_after o = Some message
     /\ (is_welcome (state c) message = true
         \/ is_Some (subsystems c !! subsystem message)))
    \/ (message_after o = Some (unknown_subsystem_reply INVALID message)
        /\ is_welcome (state c) message = false
        /\ subsystems c !! subsystem message = None)).
  { destruct Ho as [-> | ->]; unfold zmq_vip_loop, rmq_vip_loop.
    - destruct (is_welcome (state c) message) eqn:W.
      + destruct (onconnected_send _ _) as [c2 a]. left. split; [reflexivity|].
        left. reflexivity.
      + destruct (subsystems c !! subsystem message) as [h|] eqn:S.
        * left. split; [reflexivity|]. right. eexists. reflexivity.
        * right. repeat split.
    - destruct (is_welcome (state c) message) eqn:W.
      + assert (Hh : String.eqb (subsystem message) "hello" = true).
        { unfold is_welcome in W.
          destruct (String.eqb (subsystem message) "hello"); [reflexivity|].
          discriminate. }
        rewrite Hh. destruct (onconnected_send _ _) as [c2 a].
        left. split; [reflexivity|]. left. reflexivity.
      + destruct (subsystems c !! subsystem message) as [h|] eqn:S.
        * left. split; [|right; eexists; reflexivity].
          destruct (String.eqb (subsystem message) "hello"); reflexivity.
        * right. split; [|split; reflexivity].
          destruct (String.eqb (subsystem message) "hello"); reflexivity. }
  destruct Hcases as [[Hm Hc] | (Hm & Hw & Hs)].
  - exists message.
    split; [exact Hm|]. split; [reflexivity|]. split; [reflexivity|].
    split; [reflexivity|].
    intros Hw Hs. destruct Hc as [Hc | [h Hc]]; congruence.
  - exists (unknown_subsystem_reply INVALID message).
    split; [exact Hm|]. split; [reflexivity|]. split; [reflexivity|].
    split.
    + intros [Hc | [h Hc]]; congruence.
    + intros _ _. repeat split.
Qed.

End Dispatch.

(** C9, the claim refuted: after a turn of the ZeroMQ loop on a frame
    for an unknown subsystem, the received message object carries the
    reply's user, args and subsystem. *)
Lemma unknown_subsystem_mutates_message :
  let invalid := [VInt 93; VStr "Protocol not supported"] in
  let c := Core_init "agent" "tcp://127.0.0.1:22916" None in
  let message :=
    {| peer := "peer1"; subsystem := "nosuch"; id := "42"; user := "alice";
       args := [VStr "ping"] |} in
  message_after (zmq_vip_loop has_receivers invalid (Received message) c)
  = Some {| peer := "peer1"; subsystem := "error"; id := "42"; user := "";
            args := [VInt 93; VStr "Protocol not supported";
                     VStr "nosuch"] |}
  /\ message_after (zmq_vip_loop has_receivers invalid (Received message) c)
     <> Some message.
Proof. split; [reflexivity | discriminate]. Qed.

(** *** The handshake *)

Lemma is_welcome_spec st message :
  is_welcome st message = true <->
  subsystem message = "hello" /\ ident st = Some (id message)
  /\ (3 < length (args message))%nat
  /\ exists rest, args message = VStr "welcome" :: rest.
Proof.
  unfold is_welcome. rewrite !andb_true_iff, String.eqb_eq, Nat.ltb_lt. split.
  - intros [[[H1 H2] H3] H4]. split; [exact H1|]. split.
    + destruct (ident st) as [i|]; [|discriminate].
      apply String.eqb_eq in H2. congruence.
    + split; [exact H3|].
      destruct (args message) as [|[s|z] rest]; try discriminate.
      apply String.eqb_eq in H4. subst s. eexists. reflexivity.
  - intros (H1 & H2 & H3 & rest & H4). rewrite H2, H4.
    repeat split; try assumption.
    + apply String.eqb_refl.
    + rewrite <- H4. exact H3.
Qed.

Lemma calm_app a b : calm a -> calm b -> calm (a ++ b).
Proof. intros Ha Hb. apply Forall_app. split; assumption. Qed.

Lemma calm_not_Exists acts :
  calm acts -> ~ Exists (fun a => starts a = true) acts.
Proof.
  intros Hc He. apply Exists_exists in He as (a & Hin & Ha).
  eapply Forall_forall in Hc; [|exact Hin]. congruence.
Qed.

Lemma calm_Signal_send name kw c :
  String.eqb name "onstart" = false -> calm (Signal_send name kw c).
Proof.
  intros Hn. unfold Signal_send. constructor; [exact Hn|].
  induction (signal name c) as [|r rs IH]; constructor; [exact Hn | exact IH].
Qed.

Lemma calm_stop timeout shutdown c : calm (snd (stop timeout shutdown c)).
Proof.
  unfold stop. simpl. apply calm_app; [|repeat constructor].
  destruct (connected c && negb shutdown); repeat constructor.
Qed.

Lemma calm_hello c : calm (snd (hello c)).
Proof. repeat constructor. Qed.

Lemma calm_check_timeout c : calm (snd (connection_failed_check_timeout c)).
Proof.
  unfold connection_failed_check_timeout.
  pose proof (calm_stop (Some 10%Q) false c) as H.
  destruct (stop (Some 10%Q) false c) as [c1 a]. simpl in *.
  repeat (constructor; [reflexivity|]). exact H.
Qed.

Lemma time_out_S n c :
  time_out (S n) c =
  let '(c1, a1) := connection_failed_check_timeout c in
  let '(c2, a2) := time_out n c1 in (c2, a1 ++ a2).
Proof. reflexivity. Qed.

Lemma calm_time_out n c : calm (snd (time_out n c)).
Proof.
  revert c. induction n as [|n IH]; intros c; [constructor|].
  rewrite time_out_S.
  pose proof (calm_check_timeout c) as H1.
  destruct (connection_failed_check_timeout c) as [c1 a1].
  pose proof (IH c1) as H2. destruct (time_out n c1) as [c2 a2].
  apply calm_app; assumption.
Qed.

Lemma calm_elapse t c : calm (snd (elapse t c)).
Proof.
  unfold elapse. destruct (Qle_bool (now c) t); [|constructor].
  apply calm_time_out.
Qed.

Lemma calm_handle_error truth message c :
  calm (handle_error truth message c).
Proof.
  unfold handle_error. destruct (length (args message) <? 4)%nat.
  - repeat constructor.
  - destruct (truth (signal "onviperror" c)); [|constructor].
    apply calm_Signal_send. reflexivity.
Qed.

Lemma calm_call_handler truth h message c :
  calm (call_handler truth h message c).
Proof.
  destruct h; simpl; [apply calm_handle_error | repeat constructor].
Qed.

Lemma calm_monitor r c : calm (snd (monitor r c)).
Proof.
  destruct r as [event| |]; [|constructor..]. unfold monitor.
  assert (Hs : calm (Signal_send "onsockevent" (KwEvent event) c))
    by (apply calm_Signal_send; reflexivity).
  destruct (masked event EVENT_CONNECTED).
  { pose proof (calm_hello c) as Hh. destruct (hello c) as [c1 a].
    apply calm_app; assumption. }
  destruct (masked event EVENT_DISCONNECTED); [exact Hs|].
  destruct (masked event EVENT_CONNECT_RETRIED).
  { destruct (_ =? 50)%nat; [|exact Hs].
    match goal with
    | |- context [stop None false ?x] =>
        pose proof (calm_stop None false x) as Hst;
        destruct (stop None false x) as [c3 a]
    end.
    cbn [snd] in *. apply calm_app; [exact Hs|].
    apply calm_app; [repeat constructor|].
    apply calm_app; [exact Hst|].
    apply calm_Signal_send. reflexivity. }
  destruct (masked event EVENT_MONITOR_STOPPED); exact Hs.
Qed.

Lemma calm_connection_error c : calm (snd (connection_error c)).
Proof.
  unfold connection_error.
  match goal with
  | |- context [stop None false ?x] =>
      pose proof (calm_stop None false x) as Hst;
      destruct (stop None false x) as [c3 a]
  end.
  cbn [snd] in *. apply calm_app; [exact Hst|].
  apply calm_Signal_send. reflexivity.
Qed.

Section Handshake.

Variable truth : Signal -> bool.
Variable INVALID : list value.

Lemma calm_dispatch message c :
  calm (match subsystems c !! subsystem message with
        | None => [Log "peer requested unknown subsystem";
                   SendVip (unknown_subsystem_reply INVALID message)]
        | Some handle => call_handler truth handle message c
        end).
Proof.
  destruct (subsystems c !! subsystem message) as [h|].
  - apply calm_call_handler.
  - repeat constructor.
Qed.

(** Only a turn of a receive loop on the awaited welcome starts the
    agent. *)
Lemma step_starts c i :
  Exists (fun a => starts a = true) (snd (step truth INVALID c i)) ->
  exists message,
    (i = ZmqRecv (Received message) \/ i = RmqRecv (Queued message))
    /\ is_welcome (state c) message = true.
Proof.
  intros He. destruct i as [r | r | r | | | t]; simpl in He.
  - destruct (vip_loop_alive c);
      [|exfalso; revert He; apply calm_not_Exists; constructor].
    destruct r as [message| | |]; simpl in He;
      try (exfalso; revert He; apply calm_not_Exists; constructor).
    destruct (is_welcome (state c) message) eqn:W.
    + exists message. split; [left; reflexivity | exact W].
    + exfalso. revert He. apply calm_not_Exists.
      pose proof (calm_dispatch message c) as Hd.
      destruct (subsystems c !! subsystem message); exact Hd.
  - destruct (vip_loop_alive c);
      [|exfalso; revert He; apply calm_not_Exists; constructor].
    destruct r as [message| |]; simpl in He;
      [|exfalso; revert He; apply calm_not_Exists; constructor
       |exfalso; revert He; apply calm_not_Exists; repeat constructor].
    destruct (is_welcome (state c) message) eqn:W.
    + exists message. split; [right; reflexivity | exact W].
    + exfalso. revert He. apply calm_not_Exists.
      pose proof (calm_dispatch message c) as Hd.
      destruct (String.eqb (subsystem message) "hello");
        destruct (subsystems c !! subsystem message); exact Hd.
  - exfalso. revert He. apply calm_not_Exists.
    destruct (monitor_alive c); [apply calm_monitor | constructor].
  - exfalso. revert He. apply calm_not_Exists, calm_hello.
  - exfalso. revert He. apply calm_not_Exists, calm_connection_error.
  - exfalso. revert He. apply calm_not_Exists, calm_elapse.
Qed.

Lemma trace_step c ins c0 i acts :
  In (c0, i, acts) (fst (trace truth INVALID c ins)) ->
  acts = snd (step truth INVALID c0 i).
Proof.
  revert c. induction ins as [|j ins IH]; intros c H; [destruct H|].
  simpl in H. destruct (step truth INVALID c j) as [c1 a] eqn:S.
  specialize (IH c1). destruct (trace truth INVALID c1 ins) as [tr c2].
  simpl in H. destruct H as [H | H].
  - inversion H; subst. rewrite S. reflexivity.
  - apply IH. exact H.
Qed.

Lemma calm_loop_start b c : calm (snd (loop_start b c)).
Proof.
  destruct b; simpl; [|constructor].
  unfold zmq_loop_start.
  match goal with
  | |- context [if String.prefix "inproc:" ?a then _ else _] =>
      destruct (String.prefix "inproc:" a)
  end; simpl; repeat constructor.
Qed.

Lemma calm_run_start b c : calm (snd (run_start Core_class (loop_start b) c)).
Proof.
  unfold run_start.
  pose proof (calm_loop_start b
    (set_stop_event false (Signal_connect "onstart" Rstart_periodics c))) as H.
  destruct (loop_start b _) as [c1 a2]. cbn [snd] in H.
  cbn [Core_class delay_onstart_signal delay_running_event_set snd].
  apply calm_app; [apply calm_Signal_send; reflexivity|].
  apply calm_app; [exact H|]. constructor.
Qed.

(** No turn connects or disconnects a receiver. *)
Lemma signals_hello c : signals (fst (hello c)) = signals c.
Proof. unfold hello. simpl. destruct (hello_response_event c); reflexivity. Qed.

Lemma signals_stop timeout shutdown c :
  signals (fst (stop timeout shutdown c)) = signals c.
Proof. reflexivity. Qed.

Lemma signals_time_out n c : signals (fst (time_out n c)) = signals c.
Proof.
  revert c. induction n as [|n IH]; intros c; [reflexivity|].
  rewrite time_out_S. unfold connection_failed_check_timeout.
  destruct (stop (Some 10%Q) false c) as [c1 a1] eqn:S.
  pose proof (signals_stop (Some 10%Q) false c) as H1. rewrite S in H1.
  specialize (IH c1). destruct (time_out n c1) as [c2 a2].
  cbn [fst] in *. congruence.
Qed.

Lemma signals_elapse t c : signals (fst (elapse t c)) = signals c.
Proof.
  unfold elapse. destruct (Qle_bool (now c) t); [|reflexivity].
  rewrite signals_time_out. reflexivity.
Qed.

Lemma signals_hello_response kw c :
  signals (fst (hello_response kw c)) = signals c.
Proof. unfold hello_response. destruct (running_event _); reflexivity. Qed.

Lemma signals_onconnected_receivers rs kw c :
  signals (fst (onconnected_receivers rs kw c)) = signals c.
Proof.
  revert c. induction rs as [|r rs IH]; intros c; [reflexivity|].
  cbn [onconnected_receivers].
  assert (H1 : signals (fst (match r with
             | Rhello_response =>
                 let '(c1, a) := hello_response kw c in
                 (c1, Invoke "onconnected" r kw :: a)
             | _ => (c, [Invoke "onconnected" r kw])
             end)) = signals c).
  { destruct r; try reflexivity.
    pose proof (signals_hello_response kw c) as H.
    destruct (hello_response kw c). exact H. }
  destruct (match r with Rhello_response => _ | _ => _ end) as [c1 a1].
  specialize (IH c1). destruct (onconnected_receivers rs kw c1) as [c2 a2].
  cbn [fst] in *. congruence.
Qed.

Lemma signals_onconnected_send kw c :
  signals (fst (onconnected_send kw c)) = signals c.
Proof.
  unfold onconnected_send.
  pose proof (signals_onconnected_receivers (signal "onconnected" c) kw c) as H.
  destruct (onconnected_receivers _ kw c). exact H.
Qed.

Lemma signals_monitor r c : signals (fst (monitor r c)) = signals c.
Proof.
  destruct r as [event| |]; [|reflexivity..]. unfold monitor.
  destruct (masked event EVENT_CONNECTED).
  { pose proof (signals_hello c) as H. destruct (hello c). exact H. }
  destruct (masked event EVENT_DISCONNECTED); [reflexivity|].
  destruct (masked event EVENT_CONNECT_RETRIED).
  { destruct (_ =? 50)%nat; reflexivity. }
  destruct (masked event EVENT_MONITOR_STOPPED); reflexivity.
Qed.

Lemma signals_zmq_vip_loop r c :
  signals (core_after (zmq_vip_loop truth INVALID r c)) = signals c.
Proof.
  destruct r as [message| | |]; try reflexivity. unfold zmq_vip_loop.
  destruct (is_welcome (state c) message).
  - pose proof (signals_onconnected_send (welcome_kwargs message)
                  (set_connected true c)) as H.
    destruct (onconnected_send _ _). exact H.
  - destruct (subsystems c !! subsystem message); reflexivity.
Qed.

Lemma signals_rmq_vip_loop r c :
  signals (core_after (rmq_vip_loop truth INVALID r c)) = signals c.
Proof.
  destruct r as [message| |]; try reflexivity. unfold rmq_vip_loop.
  assert (Hd : signals (core_after
            match subsystems c !! subsystem message with
            | None =>
                {| core_after := c;
                   emitted := [Log "peer requested unknown subsystem";
                               SendVip (unknown_subsystem_reply INVALID message)];
                   next_flow := Continue;
                   message_after := Some (unknown_subsystem_reply INVALID message) |}
            | Some handle =>
                {| core_after := c; emitted := call_handler truth handle message c;
                   next_flow := Continue; message_after := Some message |}
            end) = signals c).
  { destruct (subsystems c !! subsystem message); reflexivity. }
  destruct (String.eqb (subsystem message) "hello"); [|exact Hd].
  destruct (is_welcome (state c) message); [|exact Hd].
  pose proof (signals_onconnected_send (welcome_kwargs message)
                (set_connected true c)) as H.
  destruct (onconnected_send _ _). exact H.
Qed.

Lemma signals_step c i : signals (fst (step truth INVALID c i)) = signals c.
Proof.
  destruct i as [r | r | r | | | t]; simpl.
  - destruct (vip_loop_alive c); [apply signals_zmq_vip_loop | reflexivity].
  - destruct (vip_loop_alive c); [apply signals_rmq_vip_loop | reflexivity].
  - destruct (monitor_alive c); [apply signals_monitor | reflexivity].
  - apply signals_hello.
  - reflexivity.
  - apply signals_elapse.
Qed.

Lemma trace_signals c ins c0 i acts :
  In (c0, i, acts) (fst (trace truth INVALID c ins)) -> signals c0 = signals c.
Proof.
  revert c. induction ins as [|j ins IH]; intros c H; [destruct H|].
  simpl in H. pose proof (signals_step c j) as Hs.
  destruct (step truth INVALID c j) as [c1 a].
  specialize (IH c1). destruct (trace truth INVALID c1 ins) as [tr c2].
  simpl in H. destruct H as [H | H].
  - inversion H; subst. reflexivity.
  - rewrite (IH H). exact Hs.
Qed.

(** [hello_response], once invoked, emits [onstart]. *)
Lemma hello_response_starts kw c :
  In (Emit "onstart" NoKw) (snd (hello_response kw c)).
Proof.
  unfold hello_response. destruct (running_event _); simpl; auto.
Qed.

Lemma onconnected_receivers_start rs kw c :
  In Rhello_response rs ->
  In (Emit "onstart" NoKw) (snd (onconnected_receivers rs kw c)).
Proof.
  revert c. induction rs as [|r rs IH]; intros c H; [destruct H|].
  cbn [onconnected_receivers].
  destruct H as [-> | H].
  - pose proof (hello_response_starts kw c) as Hs.
    destruct (hello_response kw c) as [c1 a].
    destruct (onconnected_receivers rs kw c1) as [c2 a2].
    cbn [snd] in *. apply in_or_app. left. right. exact Hs.
  - destruct (match r with Rhello_response => _ | _ => _ end) as [c1 a1].
    specialize (IH c1 H). destruct (onconnected_receivers rs kw c1) as [c2 a2].
    cbn [snd] in *. apply in_or_app. right. exact IH.
Qed.

Lemma welcome_starts c message i :
  i = ZmqRecv (Received message) \/ i = RmqRecv (Queued message) ->
  vip_loop_alive c = true ->
  is_welcome (state c) message = true ->
  In Rhello_response (signal "onconnected" c) ->
  In (Emit "onstart" NoKw) (snd (step truth INVALID c i)).
Proof.
  intros Hi Ha Hw Hr.
  assert (Hh : String.eqb (subsystem message) "hello" = true).
  { apply is_welcome_spec in Hw as [-> _]. reflexivity. }
  pose proof (onconnected_receivers_start _ (welcome_kwargs message)
                (set_connected true c) Hr) as Hs.
  destruct Hi as [-> | ->]; simpl; rewrite Ha;
    unfold zmq_vip_loop, rmq_vip_loop; rewrite ?Hh, Hw;
    unfold onconnected_send;
    change (signal "onconnected" (set_connected true c))
      with (signal "onconnected" c);
    destruct (onconnected_receivers _ _ _) as [c2 a];
    cbn [snd emitted] in *; right; exact Hs.
Qed.

Lemma run_start_connects cls b c :
  In Rhello_response
    (signal "onconnected" (fst (run_start cls (loop_start b) c))).
Proof.
  assert (Hl : forall c0,
            In Rhello_response (signal "onconnected" (fst (loop_start b c0)))).
  { intros c0. destruct b; simpl.
    - unfold zmq_loop_start.
      repeat match goal with
      | |- context [if ?x then _ else _] => destruct x
      end; cbn [fst]; unfold signal; simpl;
        rewrite lookup_total_insert_ne by discriminate;
        rewrite lookup_total_insert_eq;
        apply in_or_app; right; left; reflexivity.
    - unfold rmq_loop_start, signal. simpl.
      rewrite lookup_total_insert_ne by discriminate.
      rewrite lookup_total_insert_eq.
      apply in_or_app; right; left; reflexivity. }
  unfold run_start.
  specialize (Hl (set_stop_event false
                    (Signal_connect "onstart" Rstart_periodics c))).
  destruct (loop_start b _) as [c1 a2]. cbn [fst] in Hl.
  assert (Hc : In Rhello_response
                 (signal "onconnected"
                    (Signal_connect "onstart" Rscheduler_start c1))).
  { rewrite signal_connect_other by discriminate. exact Hl. }
  destruct (delay_running_event_set cls); [exact Hc|].
  destruct (running_event _); exact Hc.
Qed.

(** C1: in a run of a [Core] over either bus, nothing that [run] does
    before it waits starts the agent, and a turn that emits [onstart],
    invokes one of its receivers or sets the running event is a turn of
    the receive loop on a frame of subsystem [hello] whose id is the
    recorded hello ident, with more than three arguments, the first
    being [welcome]; and every such turn of a live receive loop emits
    [onstart]. *)
Theorem onstart_waits_for_welcome (b : bus) (c : Core) (ins : list input) :
  let started := run_start Core_class (loop_start b) c in
  Forall (fun a => starts a = false) (snd started)
  /\ (forall c0 i acts,
        In (c0, i, acts) (fst (trace truth INVALID (fst started) ins)) ->
        Exists (fun a => starts a = true) acts ->
        exists message,
          (i = ZmqRecv (Received message) \/ i = RmqRecv (Queued message))
          /\ subsystem message = "hello"
          /\ ident (state c0) = Some (id message)
          /\ (3 < length (args message))%nat
          /\ exists rest, args message = VStr "welcome" :: rest)
  /\ (forall c0 i acts message,
        In (c0, i, acts) (fst (trace truth INVALID (fst started) ins)) ->
        i = ZmqRecv (Received message) \/ i = RmqRecv (Queued message) ->
        vip_loop_alive c0 = true ->
        is_welcome (state c0) message = true ->
        In (Emit "onstart" NoKw) acts).
Proof.
  intros started. split; [apply calm_run_start|]. split.
  - intros c0 i acts Hin He.
    rewrite (trace_step _ _ _ _ _ Hin) in He.
    destruct (step_starts _ _ He) as (message & Hi & Hw).
    exists message. split; [exact Hi|]. apply is_welcome_spec. exact Hw.
  - intros c0 i acts message Hin Hi Ha Hw.
    rewrite (trace_step _ _ _ _ _ Hin).
    apply (welcome_starts c0 message i Hi Ha Hw).
    unfold signal. rewrite (trace_signals _ _ _ _ _ Hin).
    apply run_start_connects.
Qed.

End Handshake.

(** *** Reconnection *)

Lemma stops_app a b : stops (a ++ b) = (stops a + stops b)%nat.
Proof. unfold stops. rewrite List.filter_app, length_app. reflexivity. Qed.

Lemma emissions_app name a b :
  emissions name (a ++ b) = (emissions name a + emissions name b)%nat.
Proof. unfold emissions. rewrite List.filter_app, length_app. reflexivity. Qed.

Lemma stops_Signal_send name kw c : stops (Signal_send name kw c) = 0%nat.
Proof.
  unfold stops, Signal_send. simpl.
  induction (signal name c) as [|r rs IH]; [reflexivity | exact IH].
Qed.

Lemma emissions_Signal_send_other name name' kw c :
  String.eqb name' name = false ->
  emissions name (Signal_send name' kw c) = 0%nat.
Proof.
  intros Hne. unfold emissions, Signal_send. simpl. rewrite Hne.
  induction (signal name' c) as [|r rs IH]; [reflexivity | exact IH].
Qed.

Lemma monitor_retry c :
  monitor (MonitorMessage EVENT_CONNECT_RETRIED) c =
  let sockevent :=
    Signal_send "onsockevent" (KwEvent EVENT_CONNECT_RETRIED) c in
  let c1 := set_reconnect_attempt (_reconnect_attempt c + 1) c in
  if (_reconnect_attempt c + 1 =? 50)%nat then
    let c3 := set_stop_event true (set_connected false c1) in
    (c3, sockevent ++ [DisableMonitor] ++ [Stop None]
           ++ Signal_send "ondisconnected" NoKw c3)
  else (c1, sockevent).
Proof. reflexivity. Qed.

Section Reconnect.

Variable truth : Signal -> bool.
Variable INVALID : list value.

Lemma trace_app c l1 l2 :
  trace truth INVALID c (l1 ++ l2) =
  let '(tr1, c1) := trace truth INVALID c l1 in
  let '(tr2, c2) := trace truth INVALID c1 l2 in
  (tr1 ++ tr2, c2).
Proof.
  revert c. induction l1 as [|i l1 IH]; intros c; simpl.
  - destruct (trace truth INVALID c l2). reflexivity.
  - destruct (step truth INVALID c i) as [c1 a]. rewrite IH.
    destruct (trace truth INVALID c1 l1) as [tr1 c2].
    destruct (trace truth INVALID c2 l2) as [tr2 c3]. reflexivity.
Qed.

Lemma effects_app (tr1 tr2 : list (Core * input * list action)) :
  effects (tr1 ++ tr2) = effects tr1 ++ effects tr2.
Proof. unfold effects. rewrite map_app, concat_app. reflexivity. Qed.

Lemma step_retry c :
  monitor_alive c = true ->
  step truth INVALID c retry = monitor (MonitorMessage EVENT_CONNECT_RETRIED) c.
Proof. intros H. unfold retry. simpl. rewrite H. reflexivity. Qed.

(** Below the ceiling, retries only count. *)
Lemma retries_below c m :
  monitor_alive c = true ->
  (_reconnect_attempt c + m < 50)%nat ->
  let after := trace truth INVALID c (repeat retry m) in
  _reconnect_attempt (snd after) = (_reconnect_attempt c + m)%nat
  /\ stops (effects (fst after)) = 0%nat
  /\ emissions "ondisconnected" (effects (fst after)) = 0%nat
  /\ _stop_event (snd after) = _stop_event c
  /\ connected (snd after) = connected c
  /\ monitor_alive (snd after) = true.
Proof.
  revert c. induction m as [|m IH]; intros c Ha Hlt.
  - simpl. rewrite Nat.add_0_r. repeat split. exact Ha.
  - cbn [repeat trace]. rewrite (step_retry c Ha), monitor_retry.
    cbv zeta.
    destruct (_reconnect_attempt c + 1 =? 50)%nat eqn:E;
      [apply Nat.eqb_eq in E; lia|].
    specialize (IH (set_reconnect_attempt (_reconnect_attempt c + 1) c) Ha).
    cbn [_reconnect_attempt set_reconnect_attempt] in IH.
    destruct (trace truth INVALID _ (repeat retry m)) as [tr c2].
    cbn [fst snd] in *.
    destruct IH as (H1 & H2 & H3 & H4 & H5 & H6); [lia|].
    split; [lia|].
    unfold effects in *. cbn [map concat snd].
    rewrite stops_app, emissions_app, stops_Signal_send, H2, H3.
    rewrite emissions_Signal_send_other by reflexivity.
    repeat split; assumption.
Qed.

(** At or above the ceiling, retries only count. *)
Lemma retries_above c m :
  monitor_alive c = true ->
  (50 <= _reconnect_attempt c)%nat ->
  let after := trace truth INVALID c (repeat retry m) in
  _reconnect_attempt (snd after) = (_reconnect_attempt c + m)%nat
  /\ stops (effects (fst after)) = 0%nat
  /\ emissions "ondisconnected" (effects (fst after)) = 0%nat
  /\ _stop_event (snd after) = _stop_event c
  /\ connected (snd after) = connected c.
Proof.
  revert c. induction m as [|m IH]; intros c Ha Hge.
  - simpl. rewrite Nat.add_0_r. repeat split.
  - cbn [repeat trace]. rewrite (step_retry c Ha), monitor_retry.
    cbv zeta.
    destruct (_reconnect_attempt c + 1 =? 50)%nat eqn:E;
      [apply Nat.eqb_eq in E; lia|].
    specialize (IH (set_reconnect_attempt (_reconnect_attempt c + 1) c) Ha).
    cbn [_reconnect_attempt set_reconnect_attempt] in IH.
    destruct (trace truth INVALID _ (repeat retry m)) as [tr c2].
    cbn [fst snd] in *.
    destruct IH as (H1 & H2 & H3 & H4 & H5); [lia|].
    split; [lia|].
    unfold effects in *. cbn [map concat snd].
    rewrite stops_app, emissions_app, stops_Signal_send, H2, H3.
    rewrite emissions_Signal_send_other by reflexivity.
    repeat split; assumption.
Qed.

(** The retry that brings the counter to 50. *)
Lemma retries_reach c n :
  monitor_alive c = true ->
  (_reconnect_attempt c + n = 50)%nat -> (0 < n)%nat ->
  let done := trace truth INVALID c (repeat retry n) in
  _reconnect_attempt (snd done) = 50%nat
  /\ connected (snd done) = false
  /\ _stop_event (snd done) = true
  /\ monitor_alive (snd done) = true
  /\ stops (effects (fst done)) = 1%nat
  /\ emissions "ondisconnected" (effects (fst done)) = 1%nat
  /\ In DisableMonitor (effects (fst done))
  /\ In (Stop None) (effects (fst done)).
Proof.
  intros Ha Hn Hpos. destruct n as [|m]; [lia|].
  replace (S m) with (m + 1)%nat by lia.
  rewrite repeat_app, trace_app.
  destruct (retries_below c m Ha) as (H1 & H2 & H3 & H4 & H5 & H6); [lia|].
  destruct (trace truth INVALID c (repeat retry m)) as [tr1 c1].
  cbn [fst snd] in *. cbn [repeat trace].
  rewrite (step_retry c1 H6), monitor_retry. cbv zeta.
  assert (E : (_reconnect_attempt c1 + 1 =? 50)%nat = true)
    by (apply Nat.eqb_eq; lia).
  rewrite E. cbn [fst snd].
  rewrite effects_app. unfold effects at 2 4 6 8. cbn [map concat snd].
  rewrite app_nil_r.
  rewrite !stops_app, !emissions_app, H2, H3, !stops_Signal_send.
  rewrite emissions_Signal_send_other by reflexivity.
  rewrite emissions_Signal_send.
  split; [cbn; lia|]. split; [reflexivity|]. split; [reflexivity|].
  split; [exact H6|]. split; [reflexivity|]. split; [reflexivity|].
  split; apply in_or_app; right; apply in_or_app; right.
  + left. reflexivity.
  + right. left. reflexivity.
Qed.

End Reconnect.

(** *** The handshake timeout *)

Lemma time_out_frame n c :
  let c' := fst (time_out n c) in
  waiting_checks c' = waiting_checks c
  /\ hello_response_event c' = hello_response_event c
  /\ now c' = now c
  /\ (_stop_event c = true -> _stop_event c' = true).
Proof.
  revert c. induction n as [|n IH]; intros c; [repeat split; auto|].
  rewrite time_out_S. unfold connection_failed_check_timeout, stop.
  specialize (IH (set_stop_event true c)).
  destruct (time_out n (set_stop_event true c)) as [c2 a2].
  cbn [fst] in *. destruct IH as (H1 & H2 & H3 & H4).
  repeat split; try assumption. intros _. apply H4. reflexivity.
Qed.

Lemma time_out_stops n c :
  let r := time_out (S n) c in
  _stop_event (fst r) = true
  /\ In (Log "No response to hello message after 10 seconds.") (snd r)
  /\ In (Stop (Some 10%Q)) (snd r).
Proof.
  rewrite time_out_S. unfold connection_failed_check_timeout, stop.
  pose proof (time_out_frame n (set_stop_event true c)) as (_ & _ & _ & H).
  destruct (time_out n (set_stop_event true c)) as [c2 a2].
  cbn [fst snd] in *. split; [apply H; reflexivity|].
  split; rewrite ?in_app_iff; simpl; rewrite ?in_app_iff; simpl; tauto.
Qed.

Section Timeout.

Variable truth : Signal -> bool.
Variable INVALID : list value.

(** While no welcome arrives, a turn other than the passing of time
    keeps the event clear, the clock, and the checks that wait. *)
Lemma step_no_welcome_frame c i :
  no_welcome i = true -> (forall t, i <> Elapse t) ->
  let c' := fst (step truth INVALID c i) in
  hello_response_event c' = hello_response_event c
  /\ now c' = now c
  /\ (forall d, In d (waiting_checks c) -> In d (waiting_checks c')).
Proof.
  intros Hi Ht. destruct i as [r | r | r | | | t]; simpl.
  - destruct (vip_loop_alive c); [|repeat split; auto].
    destruct r as [message| | |]; try (repeat split; auto; fail).
    simpl in Hi. unfold zmq_vip_loop.
    rewrite (is_welcome_other _ _ Hi).
    destruct (subsystems c !! subsystem message); repeat split; auto.
  - destruct (vip_loop_alive c); [|repeat split; auto].
    destruct r as [message| |]; try (repeat split; auto; fail).
    simpl in Hi. unfold rmq_vip_loop.
    rewrite (is_welcome_other _ _ Hi).
    destruct (String.eqb (subsystem message) "hello");
      destruct (subsystems c !! subsystem message); repeat split; auto.
  - destruct (monitor_alive c); [|repeat split; auto].
    destruct r as [event| |]; try (repeat split; auto; fail).
    unfold monitor.
    destruct (masked event EVENT_CONNECTED).
    { unfold hello. cbn [fst]. destruct (hello_response_event c) eqn:E; simpl.
      - rewrite E. repeat split; auto.
      - rewrite E. repeat split; auto. intros d Hd. apply in_or_app. left. exact Hd. }
    destruct (masked event EVENT_DISCONNECTED); [repeat split; auto|].
    destruct (masked event EVENT_CONNECT_RETRIED).
    { destruct (_ =? 50)%nat; repeat split; auto. }
    destruct (masked event EVENT_MONITOR_STOPPED); repeat split; auto.
  - unfold connect_callback, hello. cbn [fst].
    destruct (hello_response_event c) eqn:E; simpl.
    + rewrite E. repeat split; auto.
    + rewrite E. repeat split; auto. intros d Hd. apply in_or_app. left. exact Hd.
  - repeat split; auto.
  - exfalso. apply (Ht t). reflexivity.
Qed.

Lemma stop_event_onconnected_receivers rs kw c :
  _stop_event (fst (onconnected_receivers rs kw c)) = _stop_event c.
Proof.
  revert c. induction rs as [|r rs IH]; intros c; [reflexivity|].
  cbn [onconnected_receivers].
  assert (H1 : _stop_event (fst (match r with
             | Rhello_response =>
                 let '(c1, a) := hello_response kw c in
                 (c1, Invoke "onconnected" r kw :: a)
             | _ => (c, [Invoke "onconnected" r kw])
             end)) = _stop_event c).
  { destruct r; try reflexivity. unfold hello_response.
    destruct (running_event _); reflexivity. }
  destruct (match r with Rhello_response => _ | _ => _ end) as [c1 a1].
  specialize (IH c1). destruct (onconnected_receivers rs kw c1) as [c2 a2].
  cbn [fst] in *. congruence.
Qed.

Lemma stop_event_onconnected_send kw c :
  _stop_event (fst (onconnected_send kw c)) = _stop_event c.
Proof.
  unfold onconnected_send.
  pose proof (stop_event_onconnected_receivers
                (signal "onconnected" c) kw c) as H.
  destruct (onconnected_receivers _ kw c). exact H.
Qed.

Lemma stop_event_hello c : _stop_event (fst (hello c)) = _stop_event c.
Proof. unfold hello. cbn [fst]. destruct (hello_response_event _); reflexivity. Qed.

(** Once set, the stop event stays set. *)
Lemma stop_event_stays c i :
  _stop_event c = true -> _stop_event (fst (step truth INVALID c i)) = true.
Proof.
  intros H. destruct i as [r | r | r | | | t]; cbn [step].
  - destruct (vip_loop_alive c); [|exact H].
    destruct r as [message| | |]; try exact H. unfold zmq_vip_loop.
    destruct (is_welcome (state c) message).
    + pose proof (stop_event_onconnected_send (welcome_kwargs message)
                    (set_connected true c)) as Hs.
      destruct (onconnected_send _ _). cbn [fst core_after] in *.
      rewrite Hs. exact H.
    + destruct (subsystems c !! subsystem message); exact H.
  - destruct (vip_loop_alive c); [|exact H].
    destruct r as [message| |]; try exact H. unfold rmq_vip_loop.
    pose proof (stop_event_onconnected_send (welcome_kwargs message)
                  (set_connected true c)) as Hs.
    destruct (onconnected_send _ _). cbn [fst core_after] in *.
    destruct (String.eqb (subsystem message) "hello");
      [destruct (is_welcome (state c) message)|];
      try (destruct (subsystems c !! subsystem message); exact H).
    cbn [core_after]. rewrite Hs. exact H.
  - destruct (monitor_alive c); [|exact H].
    destruct r as [event| |]; try exact H. unfold monitor.
    destruct (masked event EVENT_CONNECTED).
    { pose proof (stop_event_hello c) as Hh. destruct (hello c).
      cbn [fst] in *. rewrite Hh. exact H. }
    destruct (masked event EVENT_DISCONNECTED); [exact H|].
    destruct (masked event EVENT_CONNECT_RETRIED).
    { destruct (_ =? 50)%nat; [reflexivity | exact H]. }
    destruct (masked event EVENT_MONITOR_STOPPED); exact H.
  - unfold connect_callback. rewrite stop_event_hello. exact H.
  - reflexivity.
  - unfold elapse. destruct (Qle_bool (now c) t); [|exact H].
    apply time_out_frame. exact H.
Qed.

Lemma elapse_fires d t c :
  check_pending d c -> (d <= t)%Q ->
  check_fired (fst (elapse t c)) (snd (elapse t c)).
Proof.
  intros (He & Hd & Hn) Hdt. unfold elapse.
  assert (Hle : Qle_bool (now c) t = true).
  { apply Qle_bool_iff. apply Qlt_le_weak. eapply Qlt_le_trans; eassumption. }
  rewrite Hle.
  assert (Hdue : In d (List.filter (expired t) (waiting_checks c))).
  { apply filter_In. split; [exact Hd|]. apply Qle_bool_iff. exact Hdt. }
  destruct (List.filter (expired t) (waiting_checks c)) as [|d0 due];
    [destruct Hdue|].
  cbn [length]. apply time_out_stops.
Qed.

Lemma elapse_waits d t c :
  check_pending d c -> ~ (d <= t)%Q -> check_pending d (fst (elapse t c)).
Proof.
  intros (He & Hd & Hn) Hdt. unfold elapse.
  destruct (Qle_bool (now c) t) eqn:Hle; [|repeat split; assumption].
  match goal with
  | |- check_pending d (fst (time_out ?n ?x)) =>
      pose proof (time_out_frame n x) as (H1 & H2 & H3 & _)
  end.
  unfold check_pending. rewrite H1, H2, H3. cbn.
  split; [exact He|]. split.
  - apply filter_In. split; [exact Hd|]. apply negb_true_iff.
    unfold expired. destruct (Qle_bool d t) eqn:E; [|reflexivity].
    apply Qle_bool_iff in E. contradiction.
  - apply Qnot_le_lt. exact Hdt.
Qed.

Lemma check_fired_step c acts i :
  check_fired c acts ->
  check_fired (fst (step truth INVALID c i)) (acts ++ snd (step truth INVALID c i)).
Proof.
  intros (H1 & H2 & H3). split; [apply stop_event_stays; exact H1|].
  split; apply in_or_app; left; assumption.
Qed.

(** A run without welcome leaves the check pending or fired. *)
Lemma no_welcome_run d ins : forall c acts,
  Forall (fun i => no_welcome i = true) ins ->
  check_pending d c \/ check_fired c acts ->
  let done := trace truth INVALID c ins in
  check_pending d (snd done)
  \/ check_fired (snd done) (acts ++ effects (fst done)).
Proof.
  induction ins as [|i ins IH]; intros c acts Hall H.
  - simpl. rewrite app_nil_r. exact H.
  - apply Forall_cons in Hall as [Hi Hall]. cbn [trace].
    destruct (step truth INVALID c i) as [c1 a] eqn:S.
    assert (H' : check_pending d c1 \/ check_fired c1 (acts ++ a)).
    { destruct H as [H | H].
      - destruct i as [r | r | r | | | t];
          try (left;
               match type of S with
               | step truth INVALID c ?i = _ =>
                   pose proof (step_no_welcome_frame c i Hi
                                 ltac:(intros; discriminate)) as (F1 & F2 & F3)
               end;
               rewrite S in F1, F2, F3; cbn [fst] in F1, F2, F3;
               destruct H as (He & Hd & Hn);
               unfold check_pending; rewrite F1, F2;
               split; [exact He|]; split; [apply F3; exact Hd | exact Hn]).
        simpl in S. destruct (Qlt_le_dec t d) as [Hdt | Hdt];
          [apply Qlt_not_le in Hdt | ]; [|].
        2: { right. pose proof (elapse_fires d t c H Hdt) as (G1 & G2 & G3).
          rewrite S in G1, G2, G3. cbn [fst snd] in *.
          split; [exact G1|]. split; apply in_or_app; right; assumption. }
        left. pose proof (elapse_waits d t c H Hdt) as G.
        rewrite S in G. exact G.
      - right. pose proof (check_fired_step c acts i H) as G.
        rewrite S in G. exact G. }
    specialize (IH c1 (acts ++ a) Hall H').
    destruct (trace truth INVALID c1 ins) as [tr c2]. cbn [fst snd] in *.
    unfold effects in *. cbn [map concat snd]. rewrite app_assoc. exact IH.
Qed.

(** A hello sent while the event is clear: if no welcome arrives, then
    once ten seconds have passed the check has logged the hint and
    called [stop], the stop event is set and [run] no longer waits. *)
Lemma first_hello_times_out c ins t :
  hello_response_event c = false ->
  Forall (fun i => no_welcome i = true) ins ->
  (now c + 10 <= t)%Q ->
  let done := trace truth INVALID (fst (hello c)) (ins ++ [Elapse t]) in
  In (Log "No response to hello message after 10 seconds.")
     (effects (fst done))
  /\ In (Stop (Some 10%Q)) (effects (fst done))
  /\ _stop_event (snd done) = true
  /\ run_wait (snd done) <> Blocked.
Proof.
  intros He Hall Ht.
  assert (Hp : check_pending (now c + 10)%Q (fst (hello c))).
  { unfold hello. cbn [fst]. simpl. rewrite He. simpl.
    split; [exact He|]. split.
    - apply in_or_app. right. left. reflexivity.
    - cbn [now set_waiting_checks set_state]. lra. }
  assert (Hall' : Forall (fun i => no_welcome i = true) (ins ++ [Elapse t])).
  { apply Forall_app. split; [exact Hall|]. repeat constructor. }
  pose proof (no_welcome_run (now c + 10)%Q ins (fst (hello c)) []
                Hall (or_introl Hp)) as H1.
  rewrite trace_app.
  destruct (trace truth INVALID (fst (hello c)) ins) as [tr1 c1].
  cbn [fst snd app] in H1. cbn [trace step].
  assert (Hf : check_fired (fst (elapse t c1))
                 (effects tr1 ++ snd (elapse t c1))).
  { destruct H1 as [H1 | H1].
    - pose proof (elapse_fires _ t c1 H1 Ht) as (G1 & G2 & G3).
      split; [exact G1|]. split; apply in_or_app; right; assumption.
    - pose proof (check_fired_step c1 (effects tr1) (Elapse t) H1) as G.
      exact G. }
  destruct (elapse t c1) as [c2 a2]. cbn [fst snd] in *.
  rewrite effects_app. unfold effects at 2 4. cbn [map concat snd].
  rewrite app_nil_r. destruct Hf as (G1 & G2 & G3).
  repeat split; try assumption.
  unfold run_wait. rewrite G1. destruct (vip_loop_alive c2); discriminate.
Qed.

End Timeout.

(** C3 on a reconnect: the agent completes a first handshake, loses the
    connection a hundred seconds later and reconnects, so that a second
    hello goes out; no welcome for it ever arrives.  A hundred seconds
    after the second hello, [stop] has not been called, the stop event
    is clear and [run] still waits: the check spawned by the second
    hello found the event still set by the first welcome. *)
Theorem rehello_without_welcome_never_stops :
  let invalid := [VInt 93; VStr "Protocol not supported"] in
  let c0 := Core_init "agent" "tcp://127.0.0.1:22916" (Some false) in
  let started := fst (run_start Core_class zmq_loop_start c0) in
  let hello_frame (ident : string) :=
    {| peer := ""; subsystem := "hello"; id := ident; user := "";
       args := [VStr "hello"] |} in
  let welcome :=
    {| peer := ""; subsystem := "hello"; id := "connect.hello.0"; user := "";
       args := [VStr "welcome"; VStr "1.0"; VStr "router"; VStr "agent"] |} in
  let ins :=
    [Monitor (MonitorMessage EVENT_CONNECTED);
     ZmqRecv (Received welcome);
     Elapse 100;
     Monitor (MonitorMessage EVENT_DISCONNECTED);
     Monitor (MonitorMessage EVENT_CONNECTED);
     Elapse 200] in
  let done := trace has_receivers invalid started ins in
  sent (effects (fst done))
  = [hello_frame "connect.hello.0"; hello_frame "connect.hello.1"]
  /\ ident (state (snd done)) = Some "connect.hello.1"
  /\ connected (snd done) = false
  /\ now (snd done) = 200%Q
  /\ stops (effects (fst done)) = 0%nat
  /\ _stop_event (snd done) = false
  /\ run_wait (snd done) = Blocked.
Proof. vm_compute. repeat split. Qed.

(** The same agent when the first hello is never answered: the check
    times out and stops it. *)
Example first_hello_without_welcome_stops :
  let invalid := [VInt 93; VStr "Protocol not supported"] in
  let c0 := Core_init "agent" "tcp://127.0.0.1:22916" (Some false) in
  let started := fst (run_start Core_class zmq_loop_start c0) in
  let ins := [Monitor (MonitorMessage EVENT_CONNECTED); Elapse 10] in
  let done := trace has_receivers invalid started ins in
  stops (effects (fst done)) = 1%nat
  /\ _stop_event (snd done) = true
  /\ exists a, run_wait (snd done) = Returned a.
Proof. vm_compute. repeat split. eexists. reflexivity. Qed.

(** *** The theorems at concrete cores *)

(** C1 on a handshake over TCP: the turn that starts the agent. *)
Lemma onstart_waits_for_welcome_witness :
  let invalid := [VInt 93; VStr "Protocol not supported"] in
  let c := Core_init "agent" "tcp://127.0.0.1:22916" (Some false) in
  let started := fst (run_start Core_class (loop_start ZMQ) c) in
  let welcome :=
    {| peer := ""; subsystem := "hello"; id := "connect.hello.0"; user := "";
       args := [VStr "welcome"; VStr "1.0"; VStr "router"; VStr "agent"] |} in
  let c0 := snd (trace has_receivers invalid started [Monitor (MonitorMessage EVENT_CONNECTED)]) in
  exists message,
    (ZmqRecv (Received welcome) = ZmqRecv (Received message)
     \/ ZmqRecv (Received welcome) = RmqRecv (Queued message))
    /\ subsystem message = "hello"
    /\ ident (state c0) = Some (id message)
    /\ (3 < length (args message))%nat
    /\ exists rest, args message = VStr "welcome" :: rest.
Proof.
  intros invalid c started welcome c0.
  refine (proj1 (proj2 (onstart_waits_for_welcome has_receivers invalid ZMQ c
                          [Monitor (MonitorMessage EVENT_CONNECTED);
                           ZmqRecv (Received welcome)]))
            c0 (ZmqRecv (Received welcome))
            (snd (step has_receivers invalid c0 (ZmqRecv (Received welcome)))) _ _).
  - vm_compute. right. left. reflexivity.
  - vm_compute. apply Exists_cons_tl, Exists_cons_tl, Exists_cons_tl,
      Exists_cons_tl, Exists_cons_hd. reflexivity.
Defined.

(** C5 on a frame for the subsystem [nosuch]. *)
Lemma unknown_subsystem_one_error_reply_witness :
  let invalid := [VInt 93; VStr "Protocol not supported"] in
  let c := Core_init "agent" "tcp://127.0.0.1:22916" None in
  let message :=
    {| peer := "peer1"; subsystem := "nosuch"; id := "42"; user := "alice";
       args := [VStr "ping"] |} in
  let z := zmq_vip_loop has_receivers invalid (Received message) c in
  emitted z
  = [Log "peer requested unknown subsystem";
     SendVip {| peer := "peer1"; subsystem := "error"; id := "42";
                user := "";
                args := [VInt 93; VStr "Protocol not supported";
                         VStr "nosuch"] |}]
  /\ next_flow z = Continue /\ core_after z = c.
Proof.
  cbv zeta.
  exact (proj1 (unknown_subsystem_one_error_reply has_receivers
                  [VInt 93; VStr "Protocol not supported"]
                  {| peer := "peer1"; subsystem := "nosuch"; id := "42";
                     user := "alice"; args := [VStr "ping"] |}
                  (Core_init "agent" "tcp://127.0.0.1:22916" None)
                  eq_refl eq_refl)).
Defined.

(** C8 on a registration under another name. *)
Lemma register_last_wins_witness :
  let c := Core_init "agent" "tcp://127.0.0.1:22916" None in
  subsystems (register "peerlist" (Handler 1) (Some 2%nat) c) !! "error"
  = subsystems c !! "error".
Proof.
  cbv zeta.
  apply (proj1 (proj2 (register_last_wins "peerlist" (Handler 1) (Some 2%nat)
                         (Core_init "agent" "tcp://127.0.0.1:22916" None)))).
  discriminate.
Defined.

(** C9 on a frame for the registered subsystem [error]. *)
Lemma received_message_after_turn_witness :
  let invalid := [VInt 93; VStr "Protocol not supported"] in
  let c := Core_init "agent" "tcp://127.0.0.1:22916" None in
  let message :=
    {| peer := "peer1"; subsystem := "error"; id := "42"; user := "alice";
       args := [VStr "ping"] |} in
  exists m',
    message_after (zmq_vip_loop has_receivers invalid (Received message) c) = Some m'
    /\ peer m' = peer message /\ id m' = id message
    /\ (is_welcome (state c) message = true
        \/ is_Some (subsystems c !! subsystem message) -> m' = message)
    /\ (is_welcome (state c) message = false ->
        subsystems c !! subsystem message = None ->
        user m' = "" /\ subsystem m' = "error"
        /\ args m' = invalid ++ [VStr (subsystem message)]).
Proof.
  cbv zeta.
  exact (received_message_after_turn has_receivers
           [VInt 93; VStr "Protocol not supported"]
           {| peer := "peer1"; subsystem := "error"; id := "42";
              user := "alice"; args := [VStr "ping"] |}
           (Core_init "agent" "tcp://127.0.0.1:22916" None)
           _ (or_introl eq_refl)).
Defined.


(** A whole handshake over TCP: the connect event sends the first
    hello, its welcome sets [connected], emits [onconnected] and, through
    [hello_response], [onstart] and [configuration], and sets the running
    event. *)
Example handshake_over_tcp :
  let invalid := [VInt 93; VStr "Protocol not supported"] in
  let c := Core_init "agent" "tcp://127.0.0.1:22916" (Some false) in
  let started := run_start Core_class zmq_loop_start c in
  let welcome :=
    {| peer := ""; subsystem := "hello"; id := "connect.hello.0"; user := "";
       args := [VStr "welcome"; VStr "1.0"; VStr "router"; VStr "agent"] |} in
  let done :=
    trace has_receivers invalid (fst started)
      [Monitor (MonitorMessage EVENT_CONNECTED); ZmqRecv (Received welcome)] in
  emissions "onstart" (snd started) = 0%nat
  /\ emissions "onstart" (effects (fst done)) = 1%nat
  /\ connected (snd done) = true
  /\ running_event (snd done) = Some true
  /\ hello_response_event (snd done) = true
  /\ waiting_checks (snd done) = [].
Proof. vm_compute. repeat split. Qed.

(** A [BasicCore], which does not delay, emits [onstart] from [run]. *)
Example basic_core_starts_at_once :
  let c := Core_init "agent" "tcp://127.0.0.1:22916" (Some false) in
  emissions "onstart" (snd (run_start BasicCore_class zmq_loop_start c))
  = 1%nat.
Proof. reflexivity. Qed.

End VipFacts.

Module PeersFacts.

Import Vip Peers.

Lemma pop_unknown key p :
  key ∉ _results p -> ResultsDictionary_pop key p = None.
Proof.
  intros H. unfold ResultsDictionary_pop.
  destruct (decide (key ∈ _results p)); [contradiction | reflexivity].
Qed.

Lemma pop_removes key p ident p' :
  ResultsDictionary_pop key p = Some (ident, p') ->
  key ∈ _results p /\ ident = key
  /\ _results p' = _results p ∖ {[ key ]} /\ results p' = results p
  /\ counter p' = counter p.
Proof.
  unfold ResultsDictionary_pop.
  destruct (decide (key ∈ _results p)) as [Hin|]; [|discriminate].
  intros H. inversion H; subst. repeat split. exact Hin.
Qed.

Lemma is_op_eq op name : is_op op name = true -> op = VStr name.
Proof.
  destruct op as [s|z]; simpl; [|discriminate].
  intros H. apply String.eqb_eq in H. congruence.
Qed.

Section Json.

Variable jsonapi_loads : value -> option value.

Lemma results_inv_init : results_inv PeerList_init.
Proof. intros ident r H. simpl in H. rewrite lookup_empty in H. discriminate. Qed.

Lemma results_inv_next p :
  results_inv p -> results_inv (snd (ResultsDictionary_next p)).
Proof.
  intros Hinv ident r H. simpl in *.
  destruct (decide (ident = pretty (counter p))) as [-> | Hne].
  - rewrite lookup_insert_eq in H. inversion H; subst. simpl.
    split; [lia|]. split; [reflexivity|]. exists (counter p). split; [lia | reflexivity].
  - rewrite lookup_insert_ne in H by congruence.
    destruct (Hinv ident r H) as (H1 & H2 & k & Hk & ->).
    split; [exact H1|]. split.
    + intros Hin. apply H2.
      apply elem_of_union in Hin as [Hin | Hin]; [|exact Hin].
      apply elem_of_singleton in Hin. congruence.
    + exists k. split; [lia | reflexivity].
Qed.

Lemma results_inv_collect key p :
  results_inv p -> results_inv (collect key p).
Proof.
  intros Hinv ident r H. simpl in *.
  destruct (Hinv ident r H) as (H1 & H2 & Hk).
  split; [exact H1|]. split; [|exact Hk].
  intros Hin. apply H2. apply elem_of_difference in Hin as [Hin _]. exact Hin.
Qed.

Lemma results_inv_set key v p ident p1 :
  results_inv p ->
  ResultsDictionary_pop key p = Some (ident, p1) ->
  results_inv p1 /\ results_inv (result_set ident v p1).
Proof.
  intros Hinv Hpop.
  apply pop_removes in Hpop as (Hin & -> & Hr & Hs & Hc).
  split.
  - intros i r H. rewrite Hs in H. destruct (Hinv i r H) as (H1 & H2 & Hk).
    rewrite Hr, Hc. split; [exact H1|]. split; [|exact Hk].
    intros Hi. apply H2. apply elem_of_difference in Hi as [Hi _]. exact Hi.
  - intros i r H. simpl in H. rewrite Hs in H. simpl. rewrite Hr, Hc.
    destruct (decide (i = key)) as [-> | Hne].
    + rewrite lookup_alter_eq in H.
      destruct (results p !! key) as [r0|] eqn:E; simpl in H; [|discriminate].
      inversion H; subst. simpl.
      destruct (Hinv key r0 E) as (_ & H2 & Hk).
      rewrite (H2 Hin). split; [lia|]. split; [|exact Hk].
      intros Hi. apply elem_of_difference in Hi as [_ Hi].
      exfalso. apply Hi. apply elem_of_singleton. reflexivity.
    + rewrite lookup_alter_ne in H by congruence.
      destruct (Hinv i r H) as (H1 & H2 & Hk).
      split; [exact H1|]. split; [|exact Hk].
      intros Hi. apply H2. apply elem_of_difference in Hi as [Hi _]. exact Hi.
Qed.

Lemma results_inv_peers v p :
  results_inv p -> results_inv (set_peers_list v p).
Proof. intros H. exact H. Qed.

Lemma results_inv_handle_subsystem message p :
  results_inv p ->
  results_inv (fst (fst (_handle_subsystem jsonapi_loads message p))).
Proof.
  intros Hinv. unfold _handle_subsystem.
  destruct (args message) as [|op rest]; [exact Hinv|].
  destruct (is_op op "add" || is_op op "drop").
  { destruct rest as [|peer rest']; [exact Hinv|].
    destruct (is_op op "add"); [exact Hinv|].
    destruct (decide (peer ∈ peers_list p)); exact Hinv. }
  destruct (is_op op "listing").
  { destruct (ResultsDictionary_pop (id message) p) as [[result p1]|] eqn:E;
      [|exact Hinv].
    apply (results_inv_set _ (Value rest) _ _ _ Hinv E). }
  destruct (is_op op "listing_with_messagebus"); [|exact Hinv].
  destruct (ResultsDictionary_pop (id message) p) as [[result p1]|] eqn:E;
    [|exact Hinv].
  destruct rest as [|text rest'];
    [apply (results_inv_set _ (Value []) _ _ _ Hinv E)|].
  destruct (jsonapi_loads text) as [v|].
  - apply (results_inv_set _ (Loaded v) _ _ _ Hinv E).
  - apply (results_inv_set _ (Value []) _ _ _ Hinv E).
Qed.

Lemma results_inv_handle_error message error p :
  results_inv p -> results_inv (fst (_handle_error message error p)).
Proof.
  intros Hinv. unfold _handle_error.
  destruct (ResultsDictionary_pop (id message) p) as [[result p1]|] eqn:E;
    [|exact Hinv].
  apply (results_inv_set _ (Exception error) _ _ _ Hinv E).
Qed.

Lemma results_inv_run ins p :
  results_inv p -> results_inv (run jsonapi_loads ins p).
Proof.
  revert p. induction ins as [|i ins IH]; intros p H; [exact H|].
  simpl. apply IH. destruct i as [how | message | message error | ident]; simpl.
  - apply (results_inv_next p H).
  - apply results_inv_handle_subsystem. exact H.
  - apply results_inv_handle_error. exact H.
  - apply results_inv_collect. exact H.
Qed.

(** C7: with a correlation id that is not a key of the pending-results
    table, the reply handler (for a [listing] or
    [listing_with_messagebus] reply) and the error handler return
    without raising and leave the peer list as it was; an id that either
    handler has just handled is no longer a key; and in every run no
    future is set more than once. *)
Theorem unknown_id_is_noop (message : Message) (p : PeerList) :
  id message ∉ _results p ->
  (forall op rest, args message = op :: rest ->
     is_op op "listing" = true \/ is_op op "listing_with_messagebus" = true ->
     _handle_subsystem jsonapi_loads message p = (p, [], Returns))
  /\ (forall error, _handle_error message error p = (p, Returns))
  /\ (forall p0 error,
        id message ∉ _results (fst (_handle_error message error p0)))
  /\ (forall p0 op rest, args message = op :: rest ->
        is_op op "listing" = true \/ is_op op "listing_with_messagebus" = true ->
        id message
          ∉ _results (fst (fst (_handle_subsystem jsonapi_loads message p0))))
  /\ (forall ins ident r,
        results (run jsonapi_loads ins PeerList_init) !! ident = Some r ->
        (completions r <= 1)%nat).
Proof.
  intros Hnot.
  assert (Hgone : forall p0,
            match ResultsDictionary_pop (id message) p0 with
            | Some (_, p1) => id message ∉ _results p1
            | None => id message ∉ _results p0
            end).
  { intros p0. unfold ResultsDictionary_pop.
    destruct (decide (id message ∈ _results p0)) as [Hin | Hin]; simpl;
      [|exact Hin].
    intros Hi. apply elem_of_difference in Hi as [_ Hi].
    apply Hi. apply elem_of_singleton. reflexivity. }
  split; [|split; [|split; [|split]]].
  - intros op rest Ha [Hop | Hop]; apply is_op_eq in Hop; subst op;
      unfold _handle_subsystem; rewrite Ha; simpl;
      rewrite (pop_unknown _ _ Hnot); reflexivity.
  - intros error. unfold _handle_error.
    rewrite (pop_unknown _ _ Hnot). reflexivity.
  - intros p0 error. unfold _handle_error. specialize (Hgone p0).
    destruct (ResultsDictionary_pop (id message) p0) as [[result p1]|];
      exact Hgone.
  - intros p0 op rest Ha [Hop | Hop]; apply is_op_eq in Hop; subst op;
      unfold _handle_subsystem; rewrite Ha; simpl; specialize (Hgone p0);
      destruct (ResultsDictionary_pop (id message) p0) as [[result p1]|];
      try exact Hgone.
    destruct rest as [|text rest']; [exact Hgone|].
    destruct (jsonapi_loads text); exact Hgone.
  - intros ins ident r H.
    apply (results_inv_run ins PeerList_init results_inv_init ident r H).
Qed.

End Json.

(** C7 on a [listing] reply that nobody asked for. *)
Lemma unknown_id_is_noop_witness :
  let message :=
    {| peer := ""; subsystem := "peerlist"; id := "9"; user := "";
       args := [VStr "listing"; VStr "a"; VStr "b"] |} in
  _handle_subsystem (fun _ => None) message PeerList_init
  = (PeerList_init, [], Returns).
Proof.
  cbv zeta.
  apply (proj1 (unknown_id_is_noop (fun _ => None)
                  {| peer := ""; subsystem := "peerlist"; id := "9";
                     user := ""; args := [VStr "listing"; VStr "a"; VStr "b"] |}
                  PeerList_init (not_elem_of_empty _))
           (VStr "listing") [VStr "a"; VStr "b"] eq_refl (or_introl eq_refl)).
Defined.

(** A request, its reply, and the same reply once more: the future is
    set once, and the second reply changes nothing. *)
Example reply_twice :
  let listing :=
    {| peer := ""; subsystem := "peerlist"; id := "0"; user := "";
       args := [VStr "listing"; VStr "a"; VStr "b"] |} in
  let once := run (fun _ => None) [Request Sent; Reply listing] PeerList_init in
  let twice :=
    run (fun _ => None) [Request Sent; Reply listing; Reply listing] PeerList_init in
  results once !! "0"
  = Some {| content := Some (Value [VStr "a"; VStr "b"]); completions := 1 |}
  /\ twice = once.
Proof. split; reflexivity. Qed.

End PeersFacts.

Module SchedLaws.

Import Sched.

Lemma schedule_callback_spec d cb c :
  Heapq.heap_ordered entry_lt (_schedule c) ->
  Heapq.heap_ordered entry_lt (_schedule (_schedule_callback d cb c))
  /\ _schedule (_schedule_callback d cb c)
       ≡ₚ (d, S (tie_breaker c), cb) :: _schedule c
  /\ tie_breaker (_schedule_callback d cb c) = S (tie_breaker c)
  /\ events (_schedule_callback d cb c) = events c
  /\ greenlets (_schedule_callback d cb c) = greenlets c
  /\ calls (_schedule_callback d cb c) = calls c.
Proof.
  intros Ho. unfold _schedule_callback, get_tie_breaker, with_schedule.
  cbn [_schedule tie_breaker events greenlets calls].
  destruct (SchedFacts.push_spec (_schedule c) (d, S (tie_breaker c), cb) Ho)
    as [Ho' Hp'].
  repeat split; assumption.
Qed.

Lemma pending_schedule_callback d cb c :
  Heapq.heap_ordered entry_lt (_schedule c) ->
  pending (_schedule_callback d cb c) ≡ₚ cb :: pending c.
Proof.
  intros Ho.
  destruct (schedule_callback_spec d cb c Ho) as (_ & Hp & _ & _ & Hg & _).
  unfold pending. rewrite Hg, Hp. simpl.
  symmetry. apply Permutation_middle.
Qed.

Lemma sched_inv_init : sched_inv BasicCore_init.
Proof.
  unfold sched_inv, pending. simpl.
  split; [apply SchedFacts.heap_ordered_nil|].
  split; [constructor|]. repeat split; constructor.
Qed.

Lemma sched_inv_schedule_callback d cb c :
  sched_inv c -> (callback_event cb < length (events c))%nat ->
  sched_inv (_schedule_callback d cb c).
Proof.
  intros (Ho & Hnd & Hb & Hpe & Hca) Hcb.
  pose proof (pending_schedule_callback d cb c Ho) as Hpp.
  destruct (schedule_callback_spec d cb c Ho) as (Ho' & Hp & Ht & He & Hg & Hc).
  unfold sched_inv. rewrite Ht, He, Hc.
  split; [exact Ho'|]. split; [|split; [|split]].
  - eapply Permutation_NoDup; [apply Permutation_map; symmetry; exact Hp|].
    simpl. apply List.NoDup_cons_iff. split; [|exact Hnd].
    intros Hin. apply in_map_iff in Hin as (x & Hx & Hin).
    apply list_elem_of_In in Hin.
    eapply Forall_forall in Hb; [|exact Hin]. simpl in Hb.
    unfold entry_tie in Hx at 2. simpl in Hx. lia.
  - rewrite Hp. constructor; [unfold entry_tie; simpl; lia|].
    eapply Forall_impl; [exact Hb|]. intros x Hx. simpl in Hx. lia.
  - rewrite Hpp. constructor; assumption.
  - exact Hca.
Qed.

(** The store of events only grows; what the invariant says of its
    length stays true. *)
Lemma sched_inv_events evs c :
  sched_inv c -> (length (events c) <= length evs)%nat ->
  sched_inv (with_events evs c).
Proof.
  intros (Ho & Hnd & Hb & Hpe & Hca) Hl.
  unfold sched_inv, pending, with_events. simpl.
  split; [exact Ho|]. split; [exact Hnd|]. split; [exact Hb|]. split.
  - eapply Forall_impl; [exact Hpe|]. intros cb H. simpl in H. lia.
  - eapply Forall_impl; [exact Hca|]. intros e H. simpl in H. lia.
Qed.

Lemma sched_inv_finish e c : sched_inv c -> sched_inv (finish e c).
Proof.
  intros H. apply sched_inv_events; [exact H|]. rewrite length_alter. lia.
Qed.

Lemma sched_inv_call e c :
  sched_inv c -> (e < length (events c))%nat -> sched_inv (call_function e c).
Proof.
  intros (Ho & Hnd & Hb & Hpe & Hca) He.
  unfold sched_inv, pending, call_function. simpl.
  split; [exact Ho|]. split; [exact Hnd|]. split; [exact Hb|].
  split; [exact Hpe|]. apply Forall_app. split; [exact Hca|].
  constructor; [exact He | constructor].
Qed.

Lemma sched_inv_schedule deadline func c :
  sched_inv c -> sched_inv (snd (schedule deadline func c)).
Proof.
  intros H. unfold schedule. cbn [snd].
  assert (H1 : sched_inv (with_events (events c ++ [ScheduledEvent_init func]) c)).
  { apply sched_inv_events; [exact H|]. rewrite length_app. lia. }
  destruct deadline as [d|it].
  - apply sched_inv_schedule_callback; [exact H1|].
    simpl. rewrite length_app. simpl. lia.
  - unfold _schedule_iter. destruct (next it) as [[d it']|].
    + apply sched_inv_schedule_callback; [exact H1|].
      simpl. rewrite length_app. simpl. lia.
    + apply sched_inv_finish. exact H1.
Qed.

(** One turn of the scheduler's loop: the items it takes off the heap
    and the ones it leaves. *)
Lemma wake_spec now c :
  sched_inv c ->
  exists popped rest,
    drain (length (_schedule c)) now (_schedule c) = (popped, rest)
    /\ _schedule c ≡ₚ popped ++ rest
    /\ StronglySorted entry_ltP popped
    /\ Forall (fun x => (entry_deadline x <= now)%Q) popped
    /\ Forall (fun y => (now < entry_deadline y)%Q) rest
    /\ Heapq.heap_ordered entry_lt rest.
Proof.
  intros (Ho & Hnd & _).
  destruct (drain (length (_schedule c)) now (_schedule c)) as [popped rest] eqn:D.
  exists popped, rest.
  destruct (SchedFacts.drain_spec _ _ _ _ _ Ho Hnd D) as (P1 & P2 & P3 & P4 & P5).
  pose proof (SchedFacts.drain_complete _ _ _ _ _ Ho Hnd (le_n _) D) as P6.
  repeat split; assumption.
Qed.

Lemma pending_wake now c :
  sched_inv c -> pending (schedule_loop_wake now c) ≡ₚ pending c.
Proof.
  intros H. destruct (wake_spec now c H) as (popped & rest & D & Hp & _).
  unfold schedule_loop_wake, pending. rewrite D. simpl.
  rewrite Hp, map_app, app_assoc. reflexivity.
Qed.

Lemma sched_inv_wake now c : sched_inv c -> sched_inv (schedule_loop_wake now c).
Proof.
  intros H. pose proof (pending_wake now c H) as Hpp.
  destruct (wake_spec now c H) as (popped & rest & D & Hp & _ & _ & _ & Ho').
  destruct H as (Ho & Hnd & Hb & Hpe & Hca).
  unfold sched_inv. rewrite Hpp.
  unfold schedule_loop_wake. rewrite D. simpl.
  split; [exact Ho'|]. split; [|split; [|split; assumption]].
  - eapply Permutation_NoDup in Hnd; [|apply Permutation_map; exact Hp].
    rewrite map_app in Hnd. eapply List.NoDup_app_remove_l. exact Hnd.
  - rewrite Hp in Hb. apply Forall_app in Hb. tauto.
Qed.

Lemma next_spec it d it' :
  next it = Some (d, it') ->
  it_gen it (it_pos it) = Some d
  /\ it' = {| it_gen := it_gen it; it_pos := S (it_pos it) |}.
Proof.
  unfold next. destruct (it_gen it (it_pos it)) as [d0|]; [|discriminate].
  intros H. inversion H; subst. split; reflexivity.
Qed.

Lemma sched_inv_run_callback raises cb c :
  sched_inv c -> (callback_event cb < length (events c))%nat ->
  sched_inv (run_callback raises cb c).
Proof.
  intros H Hcb. destruct cb as [e|e it]; simpl in Hcb; simpl.
  - destruct (events c !! e) as [ev|]; [|exact H].
    destruct (canceled ev); [apply sched_inv_finish; exact H|].
    destruct raises; [apply sched_inv_call; assumption|].
    apply sched_inv_finish, sched_inv_call; assumption.
  - destruct (events c !! e) as [ev|]; [|exact H].
    destruct (canceled ev); [apply sched_inv_finish; exact H|].
    destruct (next it) as [[d it']|].
    + apply sched_inv_call.
      * apply sched_inv_schedule_callback; assumption.
      * destruct H as (Ho & _).
        destruct (schedule_callback_spec d (wrapper e it') c Ho)
          as (_ & _ & _ & He & _).
        rewrite He. exact Hcb.
    + destruct raises; [apply sched_inv_call; assumption|].
      apply sched_inv_finish, sched_inv_call; assumption.
Qed.

Lemma sched_inv_start raises c : sched_inv c -> sched_inv (start_greenlet raises c).
Proof.
  intros H. unfold start_greenlet.
  destruct (greenlets c) as [|cb rest] eqn:G; [exact H|].
  destruct H as (Ho & Hnd & Hb & Hpe & Hca).
  unfold pending in Hpe. rewrite G in Hpe. simpl in Hpe.
  apply Forall_cons in Hpe as [Hcb Hpe].
  apply sched_inv_run_callback; [|exact Hcb].
  unfold sched_inv, pending. simpl. repeat split; assumption.
Qed.

Lemma sched_inv_cancel e c : sched_inv c -> sched_inv (cancel_event e c).
Proof.
  intros H. apply sched_inv_events; [exact H|]. rewrite length_alter. lia.
Qed.

Lemma sched_inv_step c i : sched_inv c -> sched_inv (step c i).
Proof.
  intros H. destruct i as [[deadline func | e] | [now | raises]]; cbn [step].
  - apply sched_inv_schedule. exact H.
  - apply sched_inv_cancel. exact H.
  - apply sched_inv_wake. exact H.
  - apply sched_inv_start. exact H.
Qed.

Lemma sched_inv_run ins c : sched_inv c -> sched_inv (run ins c).
Proof.
  revert c. induction ins as [|i ins IH]; intros c H; [exact H|].
  simpl. apply IH, sched_inv_step, H.
Qed.

Lemma sched_inv_reach ins : sched_inv (run ins BasicCore_init).
Proof. apply sched_inv_run, sched_inv_init. Qed.

(** The first item of an ordered heap with distinct tie-breakers is
    strictly below every other one. *)
Lemma heap_head_least heap m x :
  Heapq.heap_ordered entry_lt heap ->
  List.NoDup (map entry_tie heap) ->
  heap !! 0%nat = Some m -> x ∈ heap -> x = m \/ entry_lt m x = true.
Proof.
  intros Ho Hnd Hm Hx. apply list_elem_of_lookup in Hx as [i Hi].
  destruct (decide (i = 0%nat)) as [-> | Hne]; [left; congruence|].
  right.
  pose proof (HeapqFacts.heap_root_least entry_lt SchedFacts.entry_le_trans
                SchedFacts.entry_le_refl heap m Ho Hm i x Hi) as Hle.
  apply SchedFacts.entry_lt_total; [|exact Hle].
  intros Heq.
  assert (H0 : map entry_tie heap !! 0%nat = Some (entry_tie m)).
  { rewrite SchedFacts.lookup_map, Hm. reflexivity. }
  assert (H1 : map entry_tie heap !! i = Some (entry_tie m)).
  { rewrite SchedFacts.lookup_map, Hi. simpl. congruence. }
  apply NoDup_ListNoDup in Hnd.
  pose proof (NoDup_lookup _ _ _ _ Hnd H0 H1). lia.
Qed.

(** ** Counting invocations *)

Lemma invocations_call e e' c :
  invocations e (call_function e' c)
  = (invocations e c + if Nat.eqb e' e then 1 else 0)%nat.
Proof.
  unfold invocations, call_function. simpl. rewrite count_occ_app. simpl.
  destruct (Nat.eq_dec e' e) as [-> | Hne].
  - rewrite Nat.eqb_refl. reflexivity.
  - apply Nat.eqb_neq in Hne. rewrite Hne. reflexivity.
Qed.

Lemma invocations_fresh e c :
  sched_inv c -> (length (events c) <= e)%nat -> invocations e c = 0%nat.
Proof.
  intros (_ & _ & _ & _ & Hca) Hle. unfold invocations.
  apply count_occ_not_In. intros Hin. apply list_elem_of_In in Hin.
  eapply Forall_forall in Hca; [|exact Hin]. simpl in Hca. lia.
Qed.

Lemma weight_for_fresh N e c :
  sched_inv c -> (length (events c) <= e)%nat ->
  sum_list_with (weight_for N e) (pending c) = 0%nat.
Proof.
  intros (_ & _ & _ & Hpe & _) Hle.
  induction Hpe as [|cb l Hcb _ IH]; [reflexivity|].
  simpl. rewrite IH. unfold weight_for.
  destruct (Nat.eqb_spec (callback_event cb) e); [lia | reflexivity].
Qed.

Lemma shaped_fresh gen N e c :
  sched_inv c -> (length (events c) <= e)%nat ->
  Forall (shaped gen N e) (pending c).
Proof.
  intros (_ & _ & _ & Hpe & _) Hle.
  eapply Forall_impl; [exact Hpe|]. intros cb Hcb. simpl in Hcb.
  destruct cb as [e'|e' it]; simpl; [exact I|].
  simpl in Hcb. intros ->. lia.
Qed.

(** Running one callback never raises what is owed for [e]. *)
Lemma owed_run_callback gen N e raises cb c :
  sched_inv c -> gen N = None ->
  shaped gen N e cb -> Forall (shaped gen N e) (pending c) ->
  (owed N e (run_callback raises cb c)
   <= weight_for N e cb + owed N e c)%nat
  /\ Forall (shaped gen N e) (pending (run_callback raises cb c)).
Proof.
  intros Hinv HN Hcb Hsh.
  assert (Hfin : forall e' c0, owed N e (finish e' c0) = owed N e c0)
    by reflexivity.
  assert (Hcall : forall e' c0,
             owed N e (call_function e' c0)
             = (owed N e c0 + if Nat.eqb e' e then 1 else 0)%nat).
  { intros e' c0. unfold owed. rewrite invocations_call.
    unfold pending. simpl. lia. }
  destruct cb as [e'|e' it]; simpl.
  - destruct (events c !! e') as [ev|]; [|split; [lia | exact Hsh]].
    destruct (canceled ev); [split; [rewrite Hfin; lia | exact Hsh]|].
    assert (Hle : (owed N e (call_function e' c)
                   <= weight_for N e (EventCall e') + owed N e c)%nat).
    { rewrite Hcall. unfold weight_for. simpl.
      destruct (Nat.eqb e' e); lia. }
    destruct raises; [split; [exact Hle | exact Hsh]|].
    split; [rewrite Hfin; exact Hle | exact Hsh].
  - destruct (events c !! e') as [ev|]; [|split; [lia | exact Hsh]].
    destruct (canceled ev); [split; [rewrite Hfin; lia | exact Hsh]|].
    destruct (next it) as [[d it']|] eqn:Enext.
    + apply next_spec in Enext as [Hgen ->].
      destruct Hinv as (Ho & _).
      pose proof (pending_schedule_callback d
                    (wrapper e' {| it_gen := it_gen it; it_pos := S (it_pos it) |})
                    c Ho) as Hpp.
      destruct (schedule_callback_spec d
                  (wrapper e' {| it_gen := it_gen it; it_pos := S (it_pos it) |})
                  c Ho) as (_ & _ & _ & _ & _ & Hc).
      assert (Hpos : e' = e -> (S (it_pos it) <= N)%nat).
      { intros He. destruct (Hcb He) as [Hg Hp].
        destruct (decide (it_pos it = N)) as [Heq | Hne]; [|lia].
        rewrite Hg, Heq, HN in Hgen. discriminate. }
      split.
      * rewrite Hcall. unfold owed, invocations. rewrite Hc, Hpp. simpl.
        unfold weight_for at 1 3. simpl.
        destruct (Nat.eqb_spec e' e) as [He|He]; [|lia].
        specialize (Hpos He). destruct (Hcb He) as [_ Hp]. lia.
      * change (pending (call_function e' ?x)) with (pending x).
        rewrite Hpp. constructor; [|exact Hsh].
        simpl. intros He. split; [apply (Hcb He) | apply (Hpos He)].
    + assert (Hle : (owed N e (call_function e' c)
                     <= weight_for N e (wrapper e' it) + owed N e c)%nat).
      { rewrite Hcall. unfold weight_for. simpl.
        destruct (Nat.eqb_spec e' e) as [He|He]; [|lia].
        destruct (Hcb He) as [_ Hp]. lia. }
      destruct raises; [split; [exact Hle | exact Hsh]|].
      split; [rewrite Hfin; exact Hle | exact Hsh].
Qed.

Lemma owed_step gen N e c i :
  sched_inv c -> (e < length (events c))%nat -> gen N = None ->
  Forall (shaped gen N e) (pending c) ->
  (owed N e (step c i) <= owed N e c)%nat
  /\ Forall (shaped gen N e) (pending (step c i)).
Proof.
  intros Hinv He HN Hsh.
  destruct i as [[deadline func | e'] | [now | raises]]; cbn [step].
  - (* schedule: the new callback is of a new event *)
    unfold schedule. cbn [snd].
    set (c1 := with_events (events c ++ [ScheduledEvent_init func]) c).
    assert (H1 : sched_inv c1).
    { apply sched_inv_events; [exact Hinv|]. rewrite length_app. lia. }
    assert (Hpush : forall d cb, callback_event cb = length (events c) ->
              (owed N e (_schedule_callback d cb c1) <= owed N e c)%nat
              /\ Forall (shaped gen N e) (pending (_schedule_callback d cb c1))).
    { intros d cb Hcb. destruct H1 as (Ho & _).
      pose proof (pending_schedule_callback d cb c1 Ho) as Hpp.
      destruct (schedule_callback_spec d cb c1 Ho) as (_ & _ & _ & _ & _ & Hc).
      split.
      - unfold owed, invocations. rewrite Hc, Hpp. simpl.
        unfold weight_for at 1. rewrite Hcb.
        destruct (Nat.eqb_spec (length (events c)) e); [lia|]. reflexivity.
      - rewrite Hpp. constructor; [|exact Hsh].
        destruct cb as [e0|e0 it0]; simpl; [exact I|].
        simpl in Hcb. intros ->. lia. }
    destruct deadline as [d|it].
    + apply Hpush. reflexivity.
    + unfold _schedule_iter. destruct (next it) as [[d it']|].
      * apply Hpush. reflexivity.
      * split; [reflexivity | exact Hsh].
  - split; [reflexivity | exact Hsh].
  - pose proof (pending_wake now c Hinv) as Hpp.
    split.
    + unfold owed. rewrite Hpp.
      unfold invocations, schedule_loop_wake.
      destruct (drain _ _ _) as [popped rest]. reflexivity.
    + rewrite Hpp. exact Hsh.
  - unfold start_greenlet.
    destruct (greenlets c) as [|cb rest] eqn:G; [split; [lia | exact Hsh]|].
    set (c0 := {| _schedule := _schedule c; tie_breaker := tie_breaker c;
                  events := events c; greenlets := rest; calls := calls c |}).
    assert (Hp0 : pending c = cb :: pending c0).
    { unfold pending. rewrite G. reflexivity. }
    rewrite Hp0 in Hsh. apply Forall_cons in Hsh as [Hcb Hsh0].
    assert (H0 : sched_inv c0).
    { destruct Hinv as (Ho & Hnd & Hb & Hpe & Hca).
      rewrite Hp0 in Hpe. apply Forall_cons in Hpe as [_ Hpe].
      unfold sched_inv. repeat split; assumption. }
    destruct (owed_run_callback gen N e raises cb c0 H0 HN Hcb Hsh0) as [Hle Hsh'].
    split; [|exact Hsh'].
    assert (Hc : owed N e c = (weight_for N e cb + owed N e c0)%nat).
    { unfold owed. rewrite Hp0. simpl. unfold invocations. simpl. lia. }
    lia.
Qed.

Lemma owed_run gen N e ins c :
  sched_inv c -> (e < length (events c))%nat -> gen N = None ->
  Forall (shaped gen N e) (pending c) ->
  (owed N e (run ins c) <= owed N e c)%nat.
Proof.
  revert c. induction ins as [|i ins IH]; intros c Hinv He HN Hsh; [simpl; lia|].
  simpl. destruct (owed_step gen N e c i Hinv He HN Hsh) as [Hle Hsh'].
  etransitivity; [|exact Hle].
  apply IH; [apply sched_inv_step; exact Hinv | | exact HN | exact Hsh'].
  apply SchedFacts.step_allocated. exact He.
Qed.

Lemma invocations_le_owed N e c : (invocations e c <= owed N e c)%nat.
Proof. unfold owed. lia. Qed.

(** What [schedule] owes for the event it returns. *)
Lemma owed_schedule_once N d f c :
  sched_inv c ->
  owed N (length (events c)) (snd (schedule (Once d) f c)) = 1%nat.
Proof.
  intros Hinv. unfold schedule. cbn [snd].
  set (c1 := with_events (events c ++ [ScheduledEvent_init f]) c).
  destruct Hinv as (Ho & Hrest).
  pose proof (pending_schedule_callback d (EventCall (length (events c))) c1 Ho) as Hpp.
  destruct (schedule_callback_spec d (EventCall (length (events c))) c1 Ho)
    as (_ & _ & _ & _ & _ & Hc).
  unfold owed, invocations. rewrite Hc, Hpp. simpl.
  unfold weight_for at 1. simpl. rewrite Nat.eqb_refl. simpl.
  change (pending c1) with (pending c). change (calls c1) with (calls c).
  pose proof (invocations_fresh (length (events c)) c (conj Ho Hrest) (le_n _)) as Hi.
  unfold invocations in Hi. rewrite Hi.
  rewrite (weight_for_fresh N _ c (conj Ho Hrest) (le_n _)). reflexivity.
Qed.

(** ** The flags of an event *)

Section Flags.

(** A property of an event object that neither [cancel] nor the setting
    of [finished] undoes. *)
Variable P : ScheduledEvent -> Prop.
Hypothesis P_cancel : forall ev, P ev -> P (cancel ev).
Hypothesis P_finished : forall ev, P ev -> P (set_finished ev).

Lemma kept_alter (f : ScheduledEvent -> ScheduledEvent) (e e' : nat)
    (evs : list ScheduledEvent) :
  (forall ev, P ev -> P (f ev)) ->
  (exists ev, evs !! e = Some ev /\ P ev) ->
  exists ev, alter f e' evs !! e = Some ev /\ P ev.
Proof.
  intros Hf (ev & Hev & Hfin).
  destruct (decide (e' = e)) as [-> | Hne].
  - exists (f ev). rewrite list_lookup_alter_eq, Hev. split; [reflexivity | auto].
  - exists ev. rewrite list_lookup_alter_ne by exact Hne. split; assumption.
Qed.

Lemma kept_finish e e' c :
  (exists ev, events c !! e = Some ev /\ P ev) ->
  exists ev, events (finish e' c) !! e = Some ev /\ P ev.
Proof. apply kept_alter. exact P_finished. Qed.

Lemma kept_run_callback e raises cb c :
  (exists ev, events c !! e = Some ev /\ P ev) ->
  exists ev, events (run_callback raises cb c) !! e = Some ev /\ P ev.
Proof.
  intros H. destruct cb as [e'|e' it]; simpl.
  - destruct (events c !! e') as [ev'|]; [|exact H].
    destruct (canceled ev'); [apply kept_finish; exact H|].
    destruct raises; [exact H|]. apply kept_finish. exact H.
  - destruct (events c !! e') as [ev'|]; [|exact H].
    destruct (canceled ev'); [apply kept_finish; exact H|].
    destruct (next it) as [[d it']|]; [exact H|].
    destruct raises; [exact H|]. apply kept_finish. exact H.
Qed.

Lemma kept_step e c i :
  (exists ev, events c !! e = Some ev /\ P ev) ->
  exists ev, events (step c i) !! e = Some ev /\ P ev.
Proof.
  intros H.
  assert (Happ : forall x,
             exists ev, (events c ++ [x]) !! e = Some ev /\ P ev).
  { intros x. destruct H as (ev & Hev & Hfin). exists ev.
    split; [|exact Hfin]. apply lookup_app_l_Some. exact Hev. }
  destruct i as [[deadline func | e'] | [now | raises]]; cbn [step].
  - unfold schedule. cbn [snd]. destruct deadline as [d|it].
    + apply Happ.
    + unfold _schedule_iter. destruct (next it) as [[d it']|].
      * apply Happ.
      * apply kept_alter; [exact P_finished | apply Happ].
  - apply kept_alter; [exact P_cancel | exact H].
  - unfold schedule_loop_wake. destruct (drain _ _ _) as [popped rest]. exact H.
  - unfold start_greenlet. destruct (greenlets c) as [|cb rest]; [exact H|].
    apply kept_run_callback. exact H.
Qed.

Lemma kept_run e ins c :
  (exists ev, events c !! e = Some ev /\ P ev) ->
  exists ev, events (run ins c) !! e = Some ev /\ P ev.
Proof.
  revert c. induction ins as [|i ins IH]; intros c H; [exact H|].
  simpl. apply IH, kept_step, H.
Qed.

End Flags.

(** ** The scheduler in any run *)

(** X1: in every run of the scheduler, whatever is scheduled, canceled,
    woken or started, the tie-breakers of the items on the heap are
    pairwise distinct and lie between 1 and the counter; so two items of
    the heap are always strictly ordered by deadline and tie-breaker, and
    the comparison of heap tuples never gets to the callbacks. *)
Theorem pushed_ties_fresh (ins : list input) :
  let c := run ins BasicCore_init in
  (forall i j x y, i <> j ->
     _schedule c !! i = Some x -> _schedule c !! j = Some y ->
     entry_tie x <> entry_tie y
     /\ (entry_lt x y = true \/ entry_lt y x = true))
  /\ (forall x, x ∈ _schedule c -> (1 <= entry_tie x <= tie_breaker c)%nat).
Proof.
  intros c. destruct (sched_inv_reach ins) as (_ & Hnd & Hb & _).
  fold c in Hnd, Hb. split.
  - intros i j x y Hij Hx Hy.
    assert (Hne : entry_tie x <> entry_tie y).
    { intros Heq. apply Hij. apply NoDup_ListNoDup in Hnd.
      eapply (NoDup_lookup _ i j (entry_tie x) Hnd).
      - rewrite SchedFacts.lookup_map, Hx. reflexivity.
      - rewrite SchedFacts.lookup_map, Hy. simpl. congruence. }
    split; [exact Hne|].
    destruct (entry_lt x y) eqn:E; [left; reflexivity|].
    right. apply SchedFacts.entry_lt_total; assumption.
  - intros x Hx. eapply Forall_forall in Hb; [|exact Hx]. exact Hb.
Qed.

(** X2: in every run the heap keeps the heap order, and its first item,
    the one [schedule_loop] looks at, has the earliest deadline of all,
    and among equal deadlines the smallest tie-breaker. *)
Theorem heap_head_is_earliest (ins : list input) :
  let c := run ins BasicCore_init in
  Heapq.heap_ordered entry_lt (_schedule c)
  /\ forall m x, _schedule c !! 0%nat = Some m -> x ∈ _schedule c ->
       (entry_deadline m <= entry_deadline x)%Q
       /\ ((entry_deadline m == entry_deadline x)%Q ->
           (entry_tie m <= entry_tie x)%nat).
Proof.
  intros c. destruct (sched_inv_reach ins) as (Ho & Hnd & _).
  fold c in Ho, Hnd. split; [exact Ho|].
  intros m x Hm Hx.
  destruct (heap_head_least _ m x Ho Hnd Hm Hx) as [-> | Hlt].
  - split; [apply Qle_refl | lia].
  - apply SchedFacts.entry_lt_spec in Hlt. split.
    + destruct Hlt as [H | [H _]]; [apply Qlt_le_weak; exact H|].
      rewrite H. apply Qle_refl.
    + intros Heq. destruct Hlt as [H | [_ H]]; [|lia].
      rewrite Heq in H. exfalso. exact (Qlt_irrefl _ H).
Qed.

(** X3: one turn of [schedule_loop] at time [now], in any run: the
    callbacks it spawns are those of the heap items whose deadline is
    not after [now], in increasing order of deadline and tie-breaker;
    every item it leaves on the heap has a deadline after [now]; no item
    is lost or made up, and nothing is invoked yet. *)
Theorem wake_takes_exactly_due (ins : list input) (now : Q) :
  let c := run ins BasicCore_init in
  let c' := schedule_loop_wake now c in
  exists popped,
    greenlets c' = greenlets c ++ map entry_callback popped
    /\ _schedule c ≡ₚ popped ++ _schedule c'
    /\ StronglySorted entry_ltP popped
    /\ Forall (fun x => (entry_deadline x <= now)%Q) popped
    /\ Forall (fun y => (now < entry_deadline y)%Q) (_schedule c')
    /\ calls c' = calls c /\ events c' = events c.
Proof.
  intros c c'.
  destruct (wake_spec now c (sched_inv_reach ins))
    as (popped & rest & D & Hp & Hs & Hdue & Hrest & _).
  exists popped. unfold c', schedule_loop_wake. rewrite D. simpl.
  repeat split; assumption.
Qed.

(** X4: the time [schedule_loop] waits for, in any run: none is given
    when the heap is empty; otherwise it lies between 0 and 5 seconds,
    it is 0 as soon as some item is due, and it never reaches past the
    deadline of an item that is not due. *)
Theorem wait_timeout_bounds (ins : list input) (now : Q) :
  let c := run ins BasicCore_init in
  match wait_timeout now (_schedule c) with
  | None => _schedule c = []
  | Some t =>
      (0 <= t)%Q /\ (t <= 5)%Q
      /\ (forall x, x ∈ _schedule c ->
            (entry_deadline x <= now)%Q -> (t == 0)%Q)
      /\ (forall x, x ∈ _schedule c ->
            (now <= entry_deadline x)%Q -> (now + t <= entry_deadline x)%Q)
  end.
Proof.
  intros c. destruct (sched_inv_reach ins) as (Ho & Hnd & _).
  fold c in Ho, Hnd. unfold wait_timeout.
  destruct (_schedule c) as [|m rest] eqn:E; [reflexivity|].
  assert (Hmin : forall x, x ∈ m :: rest ->
                   (entry_deadline m <= entry_deadline x)%Q).
  { intros x Hx.
    destruct (heap_head_least _ m x Ho Hnd eq_refl Hx) as [-> | Hlt].
    - apply Qle_refl.
    - apply SchedFacts.entry_lt_spec in Hlt.
      destruct Hlt as [H | [H _]]; [apply Qlt_le_weak; exact H|].
      rewrite H. apply Qle_refl. }
  unfold py_min, py_max.
  destruct (Qle_bool (entry_deadline m - now) 0) eqn:E1.
  - apply Qle_bool_iff in E1.
    assert (E2 : Qle_bool 5 0 = false) by reflexivity. rewrite E2.
    split; [lra|]. split; [lra|]. split.
    + intros x _ _. reflexivity.
    + intros x Hx Hge. lra.
  - assert (H1 : (0 < entry_deadline m - now)%Q).
    { apply Qnot_le_lt. intros Hle. apply Qle_bool_iff in Hle. congruence. }
    destruct (Qle_bool 5 (entry_deadline m - now)) eqn:E2.
    + apply Qle_bool_iff in E2.
      split; [lra|]. split; [lra|]. split.
      * intros x Hx Hdue. specialize (Hmin x Hx). lra.
      * intros x Hx Hge. specialize (Hmin x Hx). lra.
    + assert (H2 : (entry_deadline m - now < 5)%Q).
      { apply Qnot_le_lt. intros Hle. apply Qle_bool_iff in Hle. congruence. }
      split; [lra|]. split; [lra|]. split.
      * intros x Hx Hdue. specialize (Hmin x Hx). lra.
      * intros x Hx Hge. specialize (Hmin x Hx). lra.
Qed.

(** X5: the function of an event scheduled for a single instant is
    invoked at most once, whatever is scheduled, canceled, woken or
    started before and after. *)
Theorem one_shot_runs_at_most_once (ins1 : list input) (d : Q) (f : nat)
    (ins2 : list input) :
  let c := run ins1 BasicCore_init in
  let e := fst (schedule (Once d) f c) in
  let c1 := snd (schedule (Once d) f c) in
  invocations e c1 = 0%nat /\ (invocations e (run ins2 c1) <= 1)%nat.
Proof.
  intros c e c1.
  pose proof (sched_inv_reach ins1) as Hinv. fold c in Hinv.
  pose proof (sched_inv_schedule (Once d) f c Hinv) as Hinv1. fold c1 in Hinv1.
  pose proof (owed_schedule_once 0 d f c Hinv) as Hown.
  change (length (events c)) with e in Hown. fold c1 in Hown.
  assert (Hsh : Forall (shaped (fun _ => None) 0 e) (pending c1)).
  { destruct Hinv as (Ho & Hrest).
    unfold c1, schedule. cbn [snd].
    rewrite pending_schedule_callback by exact Ho.
    constructor; [exact I|].
    apply (shaped_fresh _ _ e c (conj Ho Hrest)). apply le_n. }
  split.
  - pose proof (invocations_fresh e c Hinv (le_n _)) as H0.
    destruct Hinv as (Ho & _).
    assert (Hc : calls c1 = calls c).
    { destruct (schedule_callback_spec d (EventCall e)
                  (with_events (events c ++ [ScheduledEvent_init f]) c) Ho)
        as (_ & _ & _ & _ & _ & Hc). exact Hc. }
    unfold invocations. rewrite Hc. exact H0.
  - etransitivity; [apply (invocations_le_owed 0)|].
    rewrite <- Hown.
    apply (owed_run (fun _ => None) 0 e ins2 c1 Hinv1); [|reflexivity|exact Hsh].
    apply (SchedFacts.schedule_allocates (Once d) f c).
Qed.

(** X6: the function of an event scheduled with an iterator of
    deadlines is invoked at most once for each deadline the iterator
    yields: if the iterator is exhausted after at most [n] more
    deadlines, there are at most [n] invocations in any run. *)
Theorem iterator_event_runs_once_per_deadline (ins1 : list input)
    (it : iterator) (f n : nat) (ins2 : list input) :
  it_gen it (it_pos it + n)%nat = None ->
  let c := run ins1 BasicCore_init in
  let e := fst (schedule (Iter it) f c) in
  let c1 := snd (schedule (Iter it) f c) in
  (invocations e (run ins2 c1) <= n)%nat.
Proof.
  intros HN c e c1.
  pose proof (sched_inv_reach ins1) as Hinv. fold c in Hinv.
  pose proof (sched_inv_schedule (Iter it) f c Hinv) as Hinv1. fold c1 in Hinv1.
  set (N := (it_pos it + n)%nat) in *.
  assert (Hfresh : Forall (shaped (it_gen it) N e) (pending c)).
  { apply shaped_fresh; [exact Hinv | apply le_n]. }
  assert (H0 : owed N e c = 0%nat).
  { unfold owed. rewrite (invocations_fresh e c Hinv (le_n _)).
    rewrite (weight_for_fresh N e c Hinv (le_n _)). reflexivity. }
  assert (Hstart : (owed N e c1 <= n)%nat
                   /\ Forall (shaped (it_gen it) N e) (pending c1)).
  { unfold c1, schedule. cbn [snd]. unfold _schedule_iter.
    destruct (next it) as [[d it']|] eqn:Enext.
    - apply next_spec in Enext as [Hgen ->].
      destruct Hinv as (Ho & Hrest).
      set (c0 := with_events (events c ++ [ScheduledEvent_init f]) c).
      set (cb := wrapper (length (events c))
                   {| it_gen := it_gen it; it_pos := S (it_pos it) |}).
      pose proof (pending_schedule_callback d cb c0 Ho) as Hpp.
      destruct (schedule_callback_spec d cb c0 Ho) as (_ & _ & _ & _ & _ & Hc).
      assert (Hn : n <> 0%nat).
      { intros ->. unfold N in HN. rewrite Nat.add_0_r, Hgen in HN. discriminate. }
      split.
      + unfold owed, invocations. rewrite Hc, Hpp. simpl.
        unfold weight_for at 1. simpl. fold e. rewrite Nat.eqb_refl. simpl.
        change (pending c0) with (pending c). change (calls c0) with (calls c).
        unfold owed, invocations in H0. unfold N in H0 |- *. lia.
      + rewrite Hpp. constructor; [|exact Hfresh].
        simpl. intros _. split; [reflexivity | unfold N; lia].
    - split; [|exact Hfresh].
      change (owed N e (finish (length (events c))
                (with_events (events c ++ [ScheduledEvent_init f]) c)))
        with (owed N e c). lia. }
  destruct Hstart as [Hle Hsh].
  etransitivity; [apply (invocations_le_owed N)|].
  etransitivity; [|exact Hle].
  apply (owed_run (it_gen it) N e ins2 c1 Hinv1); [|exact HN|exact Hsh].
  apply (SchedFacts.schedule_allocates (Iter it) f c).
Qed.

(** X7: [schedule] with an iterator that yields nothing marks the event
    finished at once and pushes nothing; the event stays finished and
    its function is never invoked, whatever happens afterwards. *)
Theorem exhausted_iterator_finishes_at_once (ins1 : list input)
    (it : iterator) (f : nat) (ins2 : list input) :
  next it = None ->
  let c := run ins1 BasicCore_init in
  let e := fst (schedule (Iter it) f c) in
  let c1 := snd (schedule (Iter it) f c) in
  _schedule c1 = _schedule c /\ tie_breaker c1 = tie_breaker c
  /\ (exists ev, events (run ins2 c1) !! e = Some ev
                 /\ finished ev = true /\ function ev = f)
  /\ invocations e (run ins2 c1) = 0%nat.
Proof.
  intros Hnext c e c1.
  pose proof (sched_inv_reach ins1) as Hinv. fold c in Hinv.
  pose proof (sched_inv_schedule (Iter it) f c Hinv) as Hinv1. fold c1 in Hinv1.
  assert (Ec1 : c1 = finish e (with_events (events c ++ [ScheduledEvent_init f]) c)).
  { unfold c1, schedule. cbn [snd]. unfold _schedule_iter. rewrite Hnext.
    reflexivity. }
  split; [rewrite Ec1; reflexivity|]. split; [rewrite Ec1; reflexivity|].
  split.
  - apply (kept_run (fun ev => finished ev = true /\ function ev = f)).
    + intros ev H. exact H.
    + intros ev [_ H]. split; [reflexivity | exact H].
    + exists (set_finished (ScheduledEvent_init f)).
      split; [|split; reflexivity].
      rewrite Ec1. unfold finish, with_events. simpl.
      rewrite list_lookup_alter_eq.
      unfold e. simpl. rewrite lookup_app_r by apply le_n.
      rewrite Nat.sub_diag. reflexivity.
  - assert (Hle : (owed 0 e (run ins2 c1) <= owed 0 e c1)%nat).
    { apply (owed_run (fun _ => None) 0 e ins2 c1 Hinv1); [|reflexivity|].
      - apply (SchedFacts.schedule_allocates (Iter it) f c).
      - rewrite Ec1.
        change (pending (finish e ?x)) with (pending c).
        apply shaped_fresh; [exact Hinv | apply le_n]. }
    assert (H0 : owed 0 e c1 = 0%nat).
    { rewrite Ec1.
      change (owed 0 e (finish e ?x)) with (owed 0 e c).
      unfold owed. rewrite (invocations_fresh e c Hinv (le_n _)).
      rewrite (weight_for_fresh 0 e c Hinv (le_n _)). reflexivity. }
    pose proof (invocations_le_owed 0 e (run ins2 c1)). lia.
Qed.

(** ** A due event is invoked *)

Lemma run_callback_greenlets raises cb c :
  greenlets (run_callback raises cb c) = greenlets c.
Proof.
  destruct cb as [e|e it]; simpl.
  - destruct (events c !! e) as [ev|]; [|reflexivity].
    destruct (canceled ev); [reflexivity|]. destruct raises; reflexivity.
  - destruct (events c !! e) as [ev|]; [|reflexivity].
    destruct (canceled ev); [reflexivity|].
    destruct (next it) as [[d it']|]; [reflexivity|].
    destruct raises; reflexivity.
Qed.

Lemma run_callback_calls raises cb c :
  exists extra, calls (run_callback raises cb c) = calls c ++ extra.
Proof.
  destruct cb as [e|e it]; simpl.
  - destruct (events c !! e) as [ev|]; [|exists []; symmetry; apply app_nil_r].
    destruct (canceled ev); [exists []; symmetry; apply app_nil_r|].
    destruct raises; exists [e]; reflexivity.
  - destruct (events c !! e) as [ev|]; [|exists []; symmetry; apply app_nil_r].
    destruct (canceled ev); [exists []; symmetry; apply app_nil_r|].
    destruct (next it) as [[d it']|]; [exists [e]; reflexivity|].
    destruct raises; exists [e]; reflexivity.
Qed.

Lemma run_callback_invokes raises e c ev :
  events c !! e = Some ev -> canceled ev = false ->
  In e (calls (run_callback raises (EventCall e) c)).
Proof.
  intros He Hc. simpl. rewrite He, Hc.
  destruct raises; simpl; apply in_or_app; right; left; reflexivity.
Qed.

(** Starting as many greenlets as are queued runs every one of them. *)
Lemma starts_invoke e : forall rs c,
  In (EventCall e) (greenlets c) \/ In e (calls c) ->
  (exists ev, events c !! e = Some ev /\ canceled ev = false) ->
  (length (greenlets c) <= length rs)%nat ->
  In e (calls (run (map (fun r => Hub (Start r)) rs) c)).
Proof.
  induction rs as [|r rs IH]; intros c Hin Hev Hlen.
  { simpl in *. destruct Hin as [Hin | Hin]; [|exact Hin].
    destruct (greenlets c); [destruct Hin | simpl in Hlen; lia]. }
  cbn [map run fold_left step]. fold (run (map (fun r => Hub (Start r)) rs)).
  unfold start_greenlet.
  destruct (greenlets c) as [|cb rest] eqn:G.
  { apply IH; [|exact Hev | rewrite G; simpl; lia].
    destruct Hin as [[] | Hin]. right. exact Hin. }
  set (c0 := {| _schedule := _schedule c; tie_breaker := tie_breaker c;
                events := events c; greenlets := rest; calls := calls c |}).
  assert (Hev0 : exists ev, events c0 !! e = Some ev /\ canceled ev = false)
    by exact Hev.
  apply IH.
  - destruct (run_callback_calls r cb c0) as [extra Hx].
    destruct Hin as [[Hin | Hin] | Hin].
    + right. subst cb. destruct Hev0 as (ev & H1 & H2).
      apply (run_callback_invokes r e c0 ev H1 H2).
    + left. rewrite run_callback_greenlets. exact Hin.
    + right. rewrite Hx. apply in_or_app. left. exact Hin.
  - apply (kept_run_callback (fun ev => canceled ev = false)).
    + intros ev H. exact H.
    + exact Hev0.
  - rewrite run_callback_greenlets. simpl in Hlen |- *. lia.
Qed.

(** X26: an event scheduled for a single instant and not canceled is
    invoked exactly once when it is due: after a turn of [schedule_loop]
    at or after its deadline, and the start of the greenlets spawned so
    far, its function has been invoked once, whatever went on before the
    [schedule] call and whether or not callbacks raise. *)
Theorem due_one_shot_runs_once (ins : list input) (d : Q) (f : nat) (now : Q)
    (rs : list bool) :
  let c := run ins BasicCore_init in
  let e := fst (schedule (Once d) f c) in
  let woken := schedule_loop_wake now (snd (schedule (Once d) f c)) in
  (d <= now)%Q ->
  (length (greenlets woken) <= length rs)%nat ->
  invocations e (run (map (fun r => Hub (Start r)) rs) woken) = 1%nat.
Proof.
  intros c e woken Hdue Hlen.
  set (c1 := snd (schedule (Once d) f c)) in *.
  pose proof (sched_inv_reach ins) as Hinv. fold c in Hinv.
  pose proof (sched_inv_schedule (Once d) f c Hinv) as Hinv1. fold c1 in Hinv1.
  (* at most once *)
  assert (Hle : (invocations e (run (map (fun r => Hub (Start r)) rs) woken)
                 <= 1)%nat).
  { pose proof (owed_schedule_once 0 d f c Hinv) as Hown.
    change (length (events c)) with e in Hown. fold c1 in Hown.
    assert (Hsh : Forall (shaped (fun _ => None) 0 e) (pending c1)).
    { destruct Hinv as (Ho & Hrest).
      unfold c1, schedule. cbn [snd].
      rewrite pending_schedule_callback by exact Ho.
      constructor; [exact I|].
      apply (shaped_fresh _ _ e c (conj Ho Hrest)). apply le_n. }
    assert (Hall : (e < length (events c1))%nat)
      by apply (SchedFacts.schedule_allocates (Once d) f c).
    pose proof (owed_run (fun _ => None) 0 e
                  (Hub (Wake now) :: map (fun r => Hub (Start r)) rs)
                  c1 Hinv1 Hall eq_refl Hsh) as H.
    change (run (Hub (Wake now) :: map (fun r => Hub (Start r)) rs) c1)
      with (run (map (fun r => Hub (Start r)) rs) woken) in H.
    pose proof (invocations_le_owed 0 e
                  (run (map (fun r => Hub (Start r)) rs) woken)). lia. }
  (* at least once *)
  assert (Hin : In e (calls (run (map (fun r => Hub (Start r)) rs) woken))).
  { destruct (wake_spec now c1 Hinv1)
      as (popped & rest & D & Hp & _ & _ & Hrest & _).
    assert (Hheap : In (d, S (tie_breaker c), EventCall e) (_schedule c1)).
    { destruct Hinv as (Ho & _).
      destruct (schedule_callback_spec d (EventCall e)
                  (with_events (events c ++ [ScheduledEvent_init f]) c) Ho)
        as (_ & Hperm & _).
      eapply Permutation_in; [symmetry; exact Hperm|]. left. reflexivity. }
    assert (Hpop : In (d, S (tie_breaker c), EventCall e) popped).
    { eapply Permutation_in in Hheap; [|exact Hp].
      apply in_app_or in Hheap as [H | H]; [exact H|].
      exfalso. apply list_elem_of_In in H.
      eapply Forall_forall in Hrest; [|exact H].
      unfold entry_deadline in Hrest. simpl in Hrest.
      exact (Qlt_not_le _ _ Hrest Hdue). }
    apply starts_invoke; [| |exact Hlen].
    - left. unfold woken, schedule_loop_wake. rewrite D. simpl.
      apply in_or_app. right.
      apply in_map_iff. exists (d, S (tie_breaker c), EventCall e).
      split; [reflexivity | exact Hpop].
    - exists (ScheduledEvent_init f). split; [|reflexivity].
      unfold woken, schedule_loop_wake. rewrite D. simpl.
      unfold e. simpl. rewrite lookup_app_r by apply le_n.
      rewrite Nat.sub_diag. reflexivity. }
  assert (Hge : (1 <= invocations e
                        (run (map (fun r => Hub (Start r)) rs) woken))%nat).
  { unfold invocations. apply (count_occ_In Nat.eq_dec) in Hin. lia. }
  lia.
Qed.

(** X6 on an iterator of two deadlines, woken and started three times:
    the third turn finds nothing to run. *)
Lemma iterator_event_runs_once_per_deadline_witness :
  (invocations 0
     (run [Hub (Wake 9%Q); Hub (Start false); Hub (Wake 9%Q);
           Hub (Start false); Hub (Wake 9%Q); Hub (Start false)]
        (snd (schedule
                (Iter {| it_gen := fun k => if (k <? 2)%nat then Some 5%Q else None;
                         it_pos := 0 |})
                7%nat BasicCore_init)))
   <= 2)%nat.
Proof.
  exact (iterator_event_runs_once_per_deadline []
           {| it_gen := fun k => if (k <? 2)%nat then Some 5%Q else None;
              it_pos := 0 |}
           7%nat 2%nat
           [Hub (Wake 9%Q); Hub (Start false); Hub (Wake 9%Q);
            Hub (Start false); Hub (Wake 9%Q); Hub (Start false)]
           eq_refl).
Defined.

(** The two deadlines of that iterator are both used. *)
Example iterator_of_two_runs_twice :
  calls
    (run [Hub (Wake 9%Q); Hub (Start false); Hub (Wake 9%Q);
          Hub (Start false); Hub (Wake 9%Q); Hub (Start false)]
       (snd (schedule
               (Iter {| it_gen := fun k => if (k <? 2)%nat then Some 5%Q else None;
                        it_pos := 0 |})
               7%nat BasicCore_init)))
  = [0%nat; 0%nat].
Proof. vm_compute. reflexivity. Qed.

(** X7 on the iterator of an empty list. *)
Lemma exhausted_iterator_finishes_at_once_witness :
  invocations 0
    (run [Hub (Wake 9%Q); Hub (Start false)]
       (snd (schedule (Iter {| it_gen := fun _ => None; it_pos := 0 |})
               7%nat BasicCore_init)))
  = 0%nat.
Proof.
  exact (proj2 (proj2 (proj2
           (exhausted_iterator_finishes_at_once []
              {| it_gen := fun _ => None; it_pos := 0 |} 7%nat
              [Hub (Wake 9%Q); Hub (Start false)] eq_refl)))).
Defined.

(** X26 on an event among two others, one of them earlier. *)
Lemma due_one_shot_runs_once_witness :
  invocations 2
    (run (map (fun r => Hub (Start r)) [false; true; false])
       (schedule_loop_wake 9%Q
          (snd (schedule (Once 5%Q) 7%nat
                  (run [User (ReqSchedule (Once 3%Q) 1%nat);
                        User (ReqSchedule (Once 8%Q) 2%nat)]
                     BasicCore_init)))))
  = 1%nat.
Proof.
  refine (due_one_shot_runs_once
            [User (ReqSchedule (Once 3%Q) 1%nat);
             User (ReqSchedule (Once 8%Q) 2%nat)]
            5%Q 7%nat 9%Q [false; true; false] _ _);
    [vm_compute; discriminate | vm_compute; lia].
Defined.

End SchedLaws.

Module SchedOrder.

Import Sched.

(** ** What the started callbacks invoke *)

Lemma is_live_alter_finished e' e evs c c' :
  events c = evs -> events c' = alter set_finished e' evs ->
  is_live c' e = is_live c e.
Proof.
  intros H1 H2. unfold is_live. rewrite H1, H2.
  destruct (decide (e' = e)) as [-> | Hne].
  - rewrite list_lookup_alter_eq. destruct (evs !! e); reflexivity.
  - rewrite list_lookup_alter_ne by exact Hne. reflexivity.
Qed.

Lemma is_live_finish e' c e : is_live (finish e' c) e = is_live c e.
Proof. apply (is_live_alter_finished e' e (events c)); reflexivity. Qed.

Lemma is_live_events c c' e : events c' = events c -> is_live c' e = is_live c e.
Proof. intros H. unfold is_live. rewrite H. reflexivity. Qed.

Lemma is_live_run_callback raises cb c e :
  is_live (run_callback raises cb c) e = is_live c e.
Proof.
  destruct cb as [e'|e' it]; cbn [run_callback].
  - destruct (events c !! e') as [ev|]; [|reflexivity].
    destruct (canceled ev); [apply is_live_finish|].
    destruct raises; [reflexivity|]. rewrite is_live_finish. reflexivity.
  - destruct (events c !! e') as [ev|]; [|reflexivity].
    destruct (canceled ev); [apply is_live_finish|].
    destruct (next it) as [[d it']|]; [reflexivity|].
    destruct raises; [reflexivity|]. rewrite is_live_finish. reflexivity.
Qed.

Lemma fired_ext c c' cbs :
  (forall e, is_live c' e = is_live c e) -> fired c' cbs = fired c cbs.
Proof.
  intros H. unfold fired. apply filter_ext. exact H.
Qed.

Lemma fired_app c l1 l2 : fired c (l1 ++ l2) = fired c l1 ++ fired c l2.
Proof. unfold fired. rewrite map_app. apply List.filter_app. Qed.

(** A started callback invokes the function of its event, once, unless
    the event is canceled. *)
Lemma run_callback_fires raises cb c :
  calls (run_callback raises cb c) = calls c ++ fired c [cb].
Proof.
  unfold fired, is_live. cbn [map List.filter].
  destruct cb as [e|e it]; cbn [run_callback callback_event].
  - destruct (events c !! e) as [ev|]; [|symmetry; apply app_nil_r].
    destruct (canceled ev); cbn [negb]; [symmetry; apply app_nil_r|].
    destruct raises; reflexivity.
  - destruct (events c !! e) as [ev|]; [|symmetry; apply app_nil_r].
    destruct (canceled ev); cbn [negb]; [symmetry; apply app_nil_r|].
    destruct (next it) as [[d it']|]; [reflexivity|].
    destruct raises; reflexivity.
Qed.

Lemma start_all_cons r rs c :
  start_all (r :: rs) c = start_all rs (start_greenlet r c).
Proof. reflexivity. Qed.

(** Starting every greenlet that waits invokes, in the order in which
    they were spawned, the functions of those whose events are not
    canceled, and nothing else. *)
Lemma start_all_fires : forall rs c,
  (length (greenlets c) <= length rs)%nat ->
  calls (start_all rs c) = calls c ++ fired c (greenlets c)
  /\ greenlets (start_all rs c) = [].
Proof.
  induction rs as [|r rs IH]; intros c Hlen.
  { destruct (greenlets c) as [|cb rest] eqn:G; [|simpl in Hlen; lia].
    cbn. rewrite G, app_nil_r. split; reflexivity. }
  rewrite start_all_cons. unfold start_greenlet.
  destruct (greenlets c) as [|cb rest] eqn:G.
  { destruct (IH c) as [I1 I2]; [rewrite G; simpl; lia|].
    rewrite G in I1. split; assumption. }
  set (c0 := {| _schedule := _schedule c; tie_breaker := tie_breaker c;
                events := events c; greenlets := rest; calls := calls c |}).
  pose proof (run_callback_fires r cb c0) as Hc.
  pose proof (SchedLaws.run_callback_greenlets r cb c0) as Hg.
  change (greenlets c0) with rest in Hg.
  change (calls c0) with (calls c) in Hc.
  change (fired c0 [cb]) with (fired c [cb]) in Hc.
  assert (Hl : forall e, is_live (run_callback r cb c0) e = is_live c e).
  { intros e. rewrite is_live_run_callback. reflexivity. }
  destruct (IH (run_callback r cb c0)) as [I1 I2].
  { rewrite Hg. simpl in Hlen |- *. lia. }
  split; [|exact I2].
  rewrite I1, Hc, Hg, (fired_ext _ _ rest Hl).
  change (cb :: rest) with ([cb] ++ rest).
  rewrite fired_app, app_assoc. reflexivity.
Qed.

(** ** Runs of one-shot events *)

Lemma run_snoc ins i c : run (ins ++ [i]) c = step (run ins c) i.
Proof. unfold run. rewrite fold_left_app. reflexivity. Qed.

Lemma requests_snoc ins i :
  requests (ins ++ [i])
  = requests ins ++ match i with
                    | User (ReqSchedule (Once d) f) => [(d, f)]
                    | _ => []
                    end.
Proof.
  unfold requests. rewrite omap_app. f_equal.
  destruct i as [[[d|it] f | e] | t]; reflexivity.
Qed.

Lemma late_snoc ins i a b : late ins a b -> late (ins ++ [i]) a b.
Proof.
  intros (ins1 & ins2 & -> & H1 & H2).
  exists ins1, (ins2 ++ [i]). split; [symmetry; apply app_assoc|].
  split; assumption.
Qed.

Lemma leaves_before_snoc ins i x y :
  leaves_before ins x y -> leaves_before (ins ++ [i]) x y.
Proof. intros [H | H]; [left; exact H | right; apply late_snoc; exact H]. Qed.

Lemma StronglySorted_weaken {A} (R R' : A -> A -> Prop) (l : list A) :
  (forall x y, R x y -> R' x y) -> StronglySorted R l -> StronglySorted R' l.
Proof.
  intros H HS. induction HS as [|x l HS IH Hx]; constructor; [exact IH|].
  eapply Forall_impl; [exact Hx|]. intros y. apply H.
Qed.

Lemma StronglySorted_lookup {A} (R : A -> A -> Prop) (l : list A) i j x y :
  StronglySorted R l -> (i < j)%nat ->
  l !! i = Some x -> l !! j = Some y -> R x y.
Proof.
  intros HL. revert i j. induction HL as [|z l HL IH Hz]; intros i j Hij Hi Hj.
  - discriminate.
  - destruct j as [|j]; [lia|]. simpl in Hj. destruct i as [|i].
    + simpl in Hi. inversion Hi; subst.
      eapply Forall_lookup_1 in Hz; [|exact Hj]. exact Hz.
    + simpl in Hi. eapply IH; [|exact Hi|exact Hj]. lia.
Qed.

Lemma StronglySorted_sub {A} (R : A -> A -> Prop) (l1 l2 : list A) :
  sublist l1 l2 -> StronglySorted R l2 -> StronglySorted R l1.
Proof.
  intros Hs. induction Hs as [|x l1 l2 Hs IH|x l1 l2 Hs IH]; intros H.
  - constructor.
  - apply StronglySorted_cons in H as [Hx H]. constructor; [apply IH; exact H|].
    apply Forall_forall. intros y Hy.
    eapply Forall_forall in Hx; [exact Hx|].
    apply (sublist_subseteq _ _ Hs). exact Hy.
  - apply StronglySorted_cons in H as [_ H]. apply IH. exact H.
Qed.

Lemma StronglySorted_map {A B} (f : A -> B) (R : A -> A -> Prop)
    (R' : B -> B -> Prop) (l : list A) :
  (forall x y, In x l -> In y l -> R x y -> R' (f x) (f y)) ->
  StronglySorted R l -> StronglySorted R' (map f l).
Proof.
  intros H HS. induction HS as [|x l HS IH Hx]; [constructor|].
  cbn [map]. constructor.
  - apply IH. intros a b Ha Hb. apply H; right; assumption.
  - apply Forall_forall. intros y Hy.
    apply list_elem_of_In, in_map_iff in Hy as (z & <- & Hz).
    apply H; [left; reflexivity | right; exact Hz|].
    eapply Forall_forall in Hx; [exact Hx|]. apply list_elem_of_In. exact Hz.
Qed.

(** The events of the items a run of one-shot calls pushes are the
    events handed out, each once. *)
Lemma entries_of_events ds :
  map entry_event (entries_of ds) = seq 0 (length ds).
Proof.
  induction ds as [|d ds IH] using rev_ind; [reflexivity|].
  rewrite SchedFacts.entries_of_snoc, map_app, IH, length_app. cbn [map length].
  rewrite Nat.add_1_r, seq_S. reflexivity.
Qed.

Lemma entries_of_shape ds x :
  In x (entries_of ds) ->
  exists k df, ds !! k = Some df /\ x = (fst df, S k, EventCall k)
               /\ entry_event x = k /\ (k < length ds)%nat.
Proof.
  intros H. apply SchedFacts.entries_of_lookup in H as (k & df & Hk & ->).
  exists k, df. repeat split; try assumption.
  eapply lookup_lt_Some. exact Hk.
Qed.

(** An item popped is for another event than any item on the heap. *)
Lemma popped_off_heap ds (L heap : list entry) x :
  L ++ heap ≡ₚ entries_of ds -> In x L ->
  ~ In (entry_event x) (map entry_event heap).
Proof.
  intros Hp Hx Hin.
  assert (Hnd : List.NoDup (map entry_event (L ++ heap))).
  { eapply Permutation_NoDup;
      [apply Permutation_map; symmetry; exact Hp|].
    rewrite entries_of_events. apply List.seq_NoDup. }
  rewrite map_app in Hnd.
  apply NoDup_ListNoDup, NoDup_app in Hnd as (_ & Hdis & _).
  apply (Hdis (entry_event x)).
  - apply list_elem_of_In, in_map. exact Hx.
  - apply list_elem_of_In. exact Hin.
Qed.

Lemma order_inv_init : order_inv [] BasicCore_init.
Proof.
  exists [], []. cbn.
  split; [reflexivity|]. split; [apply SchedFacts.heap_ordered_nil|].
  split; [reflexivity|]. split; [constructor|].
  split; [constructor|]. split; [constructor|].
  split; [constructor|]. split; reflexivity.
Qed.

Lemma is_live_grow c ev e :
  (e < length (events c))%nat ->
  is_live (with_events (events c ++ [ev]) c) e = is_live c e.
Proof.
  intros H. unfold is_live. cbn [events with_events].
  rewrite lookup_app_l by exact H. reflexivity.
Qed.

Lemma is_live_cancel e' c e :
  is_live (cancel_event e' c) e = true -> is_live c e = true.
Proof.
  unfold is_live, cancel_event. cbn [events with_events].
  destruct (decide (e' = e)) as [-> | Hne].
  - rewrite list_lookup_alter_eq. destruct (events c !! e); simpl; discriminate.
  - rewrite list_lookup_alter_ne by exact Hne. auto.
Qed.

(** The invariant holds along every run without iterators. *)
Lemma order_inv_run ins :
  forallb one_shot ins = true -> order_inv ins (run ins BasicCore_init).
Proof.
  induction ins as [|i ins IH] using rev_ind; intros Hall.
  { apply order_inv_init. }
  rewrite forallb_app in Hall. apply andb_true_iff in Hall as [Hall Hi].
  cbn [forallb] in Hi. rewrite andb_true_r in Hi.
  specialize (IH Hall). rewrite run_snoc.
  pose proof (SchedLaws.sched_inv_reach ins) as Hsched.
  set (c := run ins BasicCore_init) in *.
  destruct IH as (L1 & L2 & Hp & Ho & Hg & Hsub & Hlive & Hs & Hb & Hlen & Htb).
  assert (Hshape : forall x, In x (L1 ++ L2) ->
            (entry_event x < length (events c))%nat
            /\ entry_callback x = EventCall (entry_event x)).
  { intros x Hx.
    assert (Hin : In x (entries_of (requests ins))).
    { eapply Permutation_in; [exact Hp|]. apply in_or_app. left. exact Hx. }
    apply entries_of_shape in Hin as (k & df & _ & -> & _ & Hk).
    rewrite Hlen. split; [exact Hk | reflexivity]. }
  assert (Hweak : StronglySorted (leaves_before (ins ++ [i])) (L1 ++ L2)).
  { eapply StronglySorted_weaken; [|exact Hs].
    intros x y. apply leaves_before_snoc. }
  assert (Hbweak : Forall (fun x => Forall (leaves_before (ins ++ [i]) x)
                                      (_schedule c)) (L1 ++ L2)).
  { eapply Forall_impl; [exact Hb|]. intros x Hx. cbn beta in Hx.
    eapply Forall_impl; [exact Hx|]. intros y. apply leaves_before_snoc. }
  destruct i as [[[d|it] f | e] | [now | raises]]; try discriminate;
    unfold order_inv; rewrite requests_snoc; cbn [step].
  - (* schedule(deadline, func) *)
    set (c0 := with_events (events c ++ [ScheduledEvent_init f]) c).
    set (e := length (events c)).
    destruct (SchedLaws.schedule_callback_spec d (EventCall e) c0 Ho)
      as (Ho' & Hp' & Ht' & He' & Hg' & Hc').
    unfold schedule. cbn [snd]. fold c0. fold e.
    exists L1, L2.
    split; [|split; [exact Ho'|split; [|split; [|split; [|split; [exact Hweak|
      split; [|split]]]]]]].
    + rewrite Hp'. cbn [_schedule c0 with_events].
      rewrite SchedFacts.entries_of_snoc. cbn [fst].
      change (tie_breaker c0) with (tie_breaker c). rewrite Htb.
      unfold e. rewrite Hlen, <- Hp, <- Permutation_middle.
      apply Permutation_cons_append.
    + rewrite Hg'. exact Hg.
    + rewrite Hc'. exact Hsub.
    + rewrite Hc'. apply Forall_forall. intros x Hx Hl.
      eapply Forall_forall in Hlive; [|exact Hx]. apply Hlive.
      assert (Hk : (entry_event x < length (events c))%nat).
      { apply Hshape. apply in_or_app. left. apply list_elem_of_In. exact Hx. }
      rewrite <- (is_live_grow c (ScheduledEvent_init f) _ Hk).
      rewrite <- Hl. symmetry. apply is_live_events. exact He'.
    + apply Forall_forall. intros x Hx. rewrite Hp'.
      constructor.
      * right. exists ins, [User (ReqSchedule (Once d) f)].
        split; [reflexivity|]. fold c. split; [split|].
        -- apply Hshape. apply list_elem_of_In. exact Hx.
        -- eapply popped_off_heap; [exact Hp|]. apply list_elem_of_In. exact Hx.
        -- cbn [entry_event entry_callback callback_event snd]. apply le_n.
      * eapply Forall_forall in Hbweak; [exact Hbweak | exact Hx].
    + rewrite He'. cbn [events c0 with_events].
      rewrite !length_app, Hlen. reflexivity.
    + rewrite Ht'. cbn [tie_breaker c0 with_events].
      rewrite length_app, Htb. cbn. lia.
  - (* cancel *)
    rewrite app_nil_r. exists L1, L2.
    unfold cancel_event. cbn [_schedule greenlets calls events tie_breaker with_events].
    split; [exact Hp|]. split; [exact Ho|]. split; [exact Hg|].
    split; [exact Hsub|]. split; [|split; [exact Hweak|split; [exact Hbweak|
      split; [rewrite length_alter; exact Hlen | exact Htb]]]].
    apply Forall_forall. intros x Hx Hl.
    eapply Forall_forall in Hlive; [|exact Hx]. apply Hlive.
    apply (is_live_cancel e c). exact Hl.
  - (* a turn of the loop *)
    rewrite app_nil_r.
    destruct (SchedLaws.wake_spec now c Hsched)
      as (popped & rest & D & Hperm & Hsorted & Hdue & Hrest & Ho').
    unfold schedule_loop_wake. rewrite D.
    cbn [_schedule greenlets calls events tie_breaker].
    assert (Hcross : forall x y, In x popped -> In y rest ->
              entry_lt x y = true).
    { intros x y Hx Hy. apply SchedFacts.entry_lt_spec. left.
      apply list_elem_of_In in Hx, Hy.
      eapply Forall_forall in Hdue; [|exact Hx].
      eapply Forall_forall in Hrest; [|exact Hy].
      cbn beta in Hdue, Hrest. lra. }
    exists L1, (L2 ++ popped).
    split; [|split; [exact Ho'|split; [|split; [exact Hsub|split; [exact Hlive|
      split; [|split; [|split; assumption]]]]]]].
    + rewrite <- Hp, Hperm, !app_assoc. reflexivity.
    + rewrite map_app, Hg. reflexivity.
    + rewrite app_assoc. apply StronglySorted_app_2.
      * intros x y Hx Hy.
        eapply Forall_forall in Hbweak; [|exact Hx]. cbn beta in Hbweak.
        eapply Forall_forall in Hbweak; [exact Hbweak|].
        rewrite Hperm. apply elem_of_app. left. exact Hy.
      * exact Hweak.
      * eapply StronglySorted_weaken; [|exact Hsorted].
        intros x y H. left. exact H.
    + rewrite app_assoc. apply Forall_app. split.
      * eapply Forall_impl; [exact Hbweak|]. intros x Hx. cbn beta in Hx.
        rewrite Hperm in Hx. apply Forall_app in Hx. tauto.
      * apply Forall_forall. intros x Hx. apply Forall_forall. intros y Hy.
        left. apply Hcross; apply list_elem_of_In; assumption.
  - (* a greenlet starts *)
    rewrite app_nil_r. unfold start_greenlet.
    destruct (greenlets c) as [|cb rest] eqn:G.
    { exists L1, L2. rewrite G. repeat (split; [assumption|]). assumption. }
    destruct L2 as [|x L2]; [discriminate|]. cbn [map] in Hg.
    injection Hg as Hx Hg'. subst cb rest.
    destruct (Hshape x) as [Hk Hcb].
    { apply in_or_app. right. left. reflexivity. }
    set (k := entry_event x) in *.
    set (c0 := {| _schedule := _schedule c; tie_breaker := tie_breaker c;
                  events := events c; greenlets := map entry_callback L2;
                  calls := calls c |}).
    assert (Eapp : (L1 ++ [x]) ++ L2 = L1 ++ x :: L2)
      by (rewrite <- app_assoc; reflexivity).
    pose proof (run_callback_fires raises (entry_callback x) c0) as Hc.
    pose proof (SchedLaws.run_callback_greenlets raises (entry_callback x) c0)
      as Hgr.
    assert (Hl : forall e, is_live (run_callback raises (entry_callback x) c0) e
                           = is_live c e).
    { intros e. rewrite is_live_run_callback. reflexivity. }
    assert (Hheap : _schedule (run_callback raises (entry_callback x) c0)
                    = _schedule c
                    /\ length (events (run_callback raises (entry_callback x) c0))
                       = length (events c)
                    /\ tie_breaker (run_callback raises (entry_callback x) c0)
                       = tie_breaker c).
    { rewrite Hcb. cbn [run_callback].
      destruct (events c0 !! k) as [ev|]; [|repeat split].
      destruct (canceled ev);
        [cbn [finish with_events _schedule events tie_breaker];
         rewrite length_alter; repeat split|].
      destruct raises; cbn [finish call_function with_events _schedule events
                            tie_breaker]; rewrite ?length_alter; repeat split. }
    destruct Hheap as (Hh1 & Hh2 & Hh3).
    change (fired c0 [entry_callback x]) with (fired c [entry_callback x]) in Hc.
    change (calls c0) with (calls c) in Hc.
    exists (L1 ++ [x]), L2. rewrite Eapp, Hh1, Hh2, Hh3, Hgr, Hc.
    split; [exact Hp|]. split; [exact Ho|]. split; [reflexivity|].
    split; [|split; [|split; [exact Hweak|split; [exact Hbweak|
      split; assumption]]]].
    + rewrite map_app. cbn [map]. fold k.
      unfold fired. rewrite Hcb. cbn [map callback_event List.filter].
      destruct (is_live c k).
      * apply sublist_app; [exact Hsub | reflexivity].
      * rewrite app_nil_r. apply sublist_inserts_r. exact Hsub.
    + apply Forall_app. split.
      * apply Forall_forall. intros y Hy Hly. rewrite Hl in Hly.
        eapply Forall_forall in Hlive; [|exact Hy].
        apply in_or_app. left. apply Hlive. exact Hly.
      * constructor; [|constructor]. fold k. intros Hlk. rewrite Hl in Hlk.
        apply in_or_app. right. unfold fired. rewrite Hcb.
        cbn [map callback_event List.filter]. rewrite Hlk. left. reflexivity.
Qed.

(** Of two invocations in a run without iterators, the earlier one is
    of the event with the smaller deadline, or with the same deadline
    and the earlier [schedule] call, unless the later event was
    scheduled only after the earlier had left the heap. *)
Lemma order_inv_calls ins c i j a b :
  order_inv ins c -> (i < j)%nat ->
  calls c !! i = Some a -> calls c !! j = Some b ->
  exists da db, requests ins !! a = Some da /\ requests ins !! b = Some db
    /\ (((fst da <= fst db)%Q /\ ((fst da == fst db)%Q -> (a < b)%nat))
        \/ late ins a b).
Proof.
  intros (L1 & L2 & Hp & _ & _ & Hsub & _ & Hs & _) Hij Hi Hj.
  set (Rid := fun a b : nat =>
         exists da db, requests ins !! a = Some da /\ requests ins !! b = Some db
           /\ (((fst da <= fst db)%Q /\ ((fst da == fst db)%Q -> (a < b)%nat))
               \/ late ins a b)).
  apply StronglySorted_app_1_l in Hs.
  assert (Hm : StronglySorted Rid (map entry_event L1)).
  { eapply StronglySorted_map; [|exact Hs].
    intros x y Hx Hy Hxy.
    assert (Hin : forall z, In z L1 -> In z (entries_of (requests ins))).
    { intros z Hz. eapply Permutation_in; [exact Hp|].
      apply in_or_app. left. apply in_or_app. left. exact Hz. }
    destruct (entries_of_shape _ x (Hin x Hx)) as (ka & da & Ha & -> & _ & _).
    destruct (entries_of_shape _ y (Hin y Hy)) as (kb & db & Hb & -> & _ & _).
    cbn [entry_event entry_callback callback_event snd].
    exists da, db. split; [exact Ha|]. split; [exact Hb|].
    destruct Hxy as [Hlt | Hlate]; [left | right; exact Hlate].
    apply SchedFacts.entry_lt_spec in Hlt.
    unfold entry_deadline, entry_tie in Hlt. cbn [fst snd] in Hlt. split.
    - destruct Hlt as [H | [H _]]; [apply Qlt_le_weak; exact H|].
      rewrite H. apply Qle_refl.
    - intros Heq. destruct Hlt as [H | [_ H]]; [|lia].
      rewrite Heq in H. exfalso. exact (Qlt_irrefl _ H). }
  apply (StronglySorted_sub Rid _ _ Hsub) in Hm.
  exact (StronglySorted_lookup Rid (calls c) i j a b Hm Hij Hi Hj).
Qed.

(** Every item of the heap is the one its [schedule] call pushed: the
    deadline of the call, the number of the call as tie-breaker, and
    the event of the call. *)
Lemma order_inv_heap ins c x :
  order_inv ins c -> In x (_schedule c) ->
  exists k df, requests ins !! k = Some df /\ x = (fst df, S k, EventCall k).
Proof.
  intros (L1 & L2 & Hp & _) Hx.
  apply SchedFacts.entries_of_lookup.
  eapply Permutation_in; [exact Hp|]. apply in_or_app. right. exact Hx.
Qed.

(** Where the item of a one-shot call is: among the items whose
    callbacks have been started, and then its function has been invoked
    unless the event is canceled; or among the spawned callbacks; or
    on the heap. *)
Lemma order_inv_where ins c k df :
  order_inv ins c -> requests ins !! k = Some df ->
  (is_live c k = true -> In k (calls c))
  \/ In (EventCall k) (greenlets c)
  \/ In (fst df, S k, EventCall k) (_schedule c).
Proof.
  intros (L1 & L2 & Hp & _ & Hg & _ & Hlive & _) Hk.
  assert (Hin : In (fst df, S k, EventCall k) (entries_of (requests ins))).
  { apply list_elem_of_In, list_elem_of_lookup. exists k.
    unfold entries_of. rewrite list_lookup_imap, Hk. reflexivity. }
  eapply Permutation_in in Hin; [|symmetry; exact Hp].
  apply in_app_or in Hin as [Hin | Hin]; [|right; right; exact Hin].
  apply in_app_or in Hin as [Hin | Hin].
  - left. intros Hl. apply list_elem_of_In in Hin.
    eapply Forall_forall in Hlive; [|exact Hin]. apply Hlive. exact Hl.
  - right. left. rewrite <- Hg.
    apply in_map_iff. eexists. split; [|exact Hin]. reflexivity.
Qed.

Lemma fired_In c cbs k :
  In (EventCall k) cbs -> is_live c k = true -> In k (fired c cbs).
Proof.
  intros Hin Hl. unfold fired. apply filter_In. split; [|exact Hl].
  apply in_map_iff. exists (EventCall k). split; [reflexivity | exact Hin].
Qed.

(** C2: the scheduler fires what is due, in the order of the deadlines,
    and among equal deadlines in the order of the [schedule] calls.

    Let a core run in any way (calls of [schedule] with a deadline or
    with an iterator, cancels, turns of the loop, starts of greenlets),
    let [schedule_loop] then take a turn at time [now], and let the hub
    start the greenlets that wait.

    - The turn takes off the heap exactly the items whose deadline is
      not after [now], in increasing order of deadline and tie-breaker,
      and spawns their callbacks after those that already waited; once
      the greenlets have started, the functions of all these callbacks
      have been invoked, in that very order, except those of canceled
      events, and nothing else has been.
    - A call [schedule(deadline, func)] pushes the deadline with the
      counter as tie-breaker, which is above every tie-breaker on the
      heap: among equal deadlines the earlier call comes first.
    - In a run without iterators, where calls, cancels and turns may
      alternate: every heap item carries the deadline of its call and
      the number of the call as tie-breaker; of two invocations the
      earlier is of the event with the smaller deadline, or with the
      same deadline and the earlier call, unless the later event was
      scheduled only after the earlier one had left the heap; and after
      the turn at [now] and the starts, the function of every event
      whose deadline is not after [now] and that is not canceled has
      been invoked.
    - After a batch of calls on a fresh core followed by turns of the
      hub only, the invocations are in the order of deadline and
      call. *)
Theorem schedule_fires_in_deadline_order (ins : list input) (now : Q)
    (rs : list bool) :
  let c := run ins BasicCore_init in
  let woken := schedule_loop_wake now c in
  let c' := start_all rs woken in
  (exists popped,
     _schedule c ≡ₚ popped ++ _schedule woken
     /\ StronglySorted entry_ltP popped
     /\ Forall (fun x => (entry_deadline x <= now)%Q) popped
     /\ Forall (fun y => (now < entry_deadline y)%Q) (_schedule woken)
     /\ greenlets woken = greenlets c ++ map entry_callback popped
     /\ ((length (greenlets woken) <= length rs)%nat ->
         calls c'
         = calls c ++ fired c (greenlets c ++ map entry_callback popped)
         /\ greenlets c' = []))
  /\ (forall d f,
        let c1 := snd (schedule (Once d) f c) in
        _schedule c1
          ≡ₚ (d, S (tie_breaker c), EventCall (length (events c))) :: _schedule c
        /\ tie_breaker c1 = S (tie_breaker c)
        /\ Forall (fun x => (entry_tie x <= tie_breaker c)%nat) (_schedule c))
  /\ (forallb one_shot ins = true ->
      (forall x, In x (_schedule c) ->
         exists k df, requests ins !! k = Some df
                      /\ x = (fst df, S k, EventCall k))
      /\ (forall i j a b, (i < j)%nat ->
            calls c !! i = Some a -> calls c !! j = Some b ->
            exists da db,
              requests ins !! a = Some da /\ requests ins !! b = Some db
              /\ (((fst da <= fst db)%Q
                   /\ ((fst da == fst db)%Q -> (a < b)%nat))
                  \/ late ins a b))
      /\ (forall k df, requests ins !! k = Some df -> (fst df <= now)%Q ->
            is_live c k = true ->
            (length (greenlets woken) <= length rs)%nat ->
            In k (calls c')))
  /\ (forall (ds : list (Q * nat)) (ts : list tick),
        let batch := run (map Hub ts) (schedule_all ds BasicCore_init) in
        forall i j a b, (i < j)%nat ->
          calls batch !! i = Some a -> calls batch !! j = Some b ->
          exists da db, ds !! a = Some da /\ ds !! b = Some db
            /\ (fst da <= fst db)%Q /\ ((fst da == fst db)%Q -> (a < b)%nat)).
Proof.
  intros c woken c'.
  pose proof (SchedLaws.sched_inv_reach ins) as Hinv. fold c in Hinv.
  destruct (SchedLaws.wake_spec now c Hinv)
    as (popped & rest & D & Hperm & Hsorted & Hdue & Hrest & _).
  assert (Ew : woken
               = {| _schedule := rest; tie_breaker := tie_breaker c;
                    events := events c;
                    greenlets := greenlets c ++ map entry_callback popped;
                    calls := calls c |}).
  { unfold woken, schedule_loop_wake. rewrite D. reflexivity. }
  assert (Hfire : (length (greenlets woken) <= length rs)%nat ->
            calls c'
            = calls c ++ fired c (greenlets c ++ map entry_callback popped)
            /\ greenlets c' = []).
  { intros Hlen. destruct (start_all_fires rs woken Hlen) as [H1 H2].
    fold c' in H1, H2. split; [|exact H2].
    rewrite H1, Ew. reflexivity. }
  split; [|split; [|split]].
  - assert (Hsw : _schedule woken = rest) by (rewrite Ew; reflexivity).
    assert (Hgw : greenlets woken = greenlets c ++ map entry_callback popped)
      by (rewrite Ew; reflexivity).
    exists popped. rewrite Hsw.
    split; [exact Hperm|]. split; [exact Hsorted|]. split; [exact Hdue|].
    split; [exact Hrest|]. split; [exact Hgw | exact Hfire].
  - intros d f c1. destruct Hinv as (Ho & _ & Hb & _).
    destruct (SchedLaws.schedule_callback_spec d (EventCall (length (events c)))
                (with_events (events c ++ [ScheduledEvent_init f]) c) Ho)
      as (_ & Hp1 & Ht1 & _).
    split; [exact Hp1|]. split; [exact Ht1|].
    eapply Forall_impl; [exact Hb|]. intros x Hx. cbn beta in Hx. lia.
  - intros Hall. pose proof (order_inv_run ins Hall) as Hord. fold c in Hord.
    split; [intros x Hx; apply (order_inv_heap ins c x Hord Hx)|].
    split; [intros i j a b; apply (order_inv_calls ins c i j a b Hord)|].
    intros k df Hk Hd Hl Hlen.
    destruct (Hfire Hlen) as [Hc' _]. rewrite Hc'.
    destruct (order_inv_where ins c k df Hord Hk) as [H | [H | H]].
    + apply in_or_app. left. apply H. exact Hl.
    + apply in_or_app. right. apply fired_In; [|exact Hl].
      apply in_or_app. left. exact H.
    + apply in_or_app. right. apply fired_In; [|exact Hl].
      apply in_or_app. right.
      eapply Permutation_in in H; [|exact Hperm].
      apply in_app_or in H as [H | H].
      * apply in_map_iff. eexists. split; [|exact H]. reflexivity.
      * exfalso. apply list_elem_of_In in H.
        eapply Forall_forall in Hrest; [|exact H].
        unfold entry_deadline in Hrest. cbn [fst] in Hrest. lra.
  - intros ds ts batch i j a b Hij Hi Hj.
    eapply SchedFacts.fired_order; [|exact Hij|exact Hi|exact Hj].
    apply SchedFacts.fired_inv_run, SchedFacts.fired_inv_init.
Qed.

(** Deadlines t, t, t + 1 fire in submission order. *)
Example three_callbacks :
  calls (run (map Hub [Wake 7%Q; Start false; Start false; Wake 9%Q; Start false])
           (schedule_all [(7%Q, 10%nat); (7%Q, 11%nat); (8%Q, 12%nat)] BasicCore_init))
  = [0; 1; 2]%nat.
Proof. vm_compute. reflexivity. Qed.

(** A later deadline submitted first fires last. *)
Example later_deadline_first :
  calls (run (map Hub [Wake 9%Q; Start false; Start false; Start false])
           (schedule_all [(8%Q, 10%nat); (7%Q, 11%nat); (7%Q, 12%nat)] BasicCore_init))
  = [1; 2; 0]%nat.
Proof. vm_compute. reflexivity. Qed.

(** A call made between two turns of the loop: the deadline 7, scheduled
    after an idle turn, fires before the deadline 10 scheduled first. *)
Example scheduled_between_turns :
  calls (start_all [false; false]
           (schedule_loop_wake 11%Q
              (run [User (ReqSchedule (Once 10%Q) 1%nat); Hub (Wake 5%Q);
                    User (ReqSchedule (Once 7%Q) 2%nat)] BasicCore_init)))
  = [1; 0]%nat.
Proof. vm_compute. reflexivity. Qed.

(** C2 on that run: both functions have been invoked after the turn at
    11 and the starts. *)
Lemma schedule_fires_in_deadline_order_witness :
  let ins := [User (ReqSchedule (Once 10%Q) 1%nat); Hub (Wake 5%Q);
              User (ReqSchedule (Once 7%Q) 2%nat)] in
  let c' := start_all [false; false]
              (schedule_loop_wake 11%Q (run ins BasicCore_init)) in
  In 0%nat (calls c') /\ In 1%nat (calls c').
Proof.
  cbv zeta.
  pose proof (proj2 (proj2 (proj1 (proj2 (proj2
                (schedule_fires_in_deadline_order
                   [User (ReqSchedule (Once 10%Q) 1%nat); Hub (Wake 5%Q);
                    User (ReqSchedule (Once 7%Q) 2%nat)]
                   11%Q [false; false]))) eq_refl))) as H.
  split.
  - apply (H 0%nat (10%Q, 1%nat)); [reflexivity | vm_compute; discriminate
                                    | reflexivity | vm_compute; lia].
  - apply (H 1%nat (7%Q, 2%nat)); [reflexivity | vm_compute; discriminate
                                   | reflexivity | vm_compute; lia].
Defined.

End SchedOrder.

Module VipLaws.

Import Vip.

Lemma sent_app a b : sent (a ++ b) = sent a ++ sent b.
Proof. unfold sent. apply omap_app. Qed.

Lemma sent_to_app name a b :
  sent_to name (a ++ b) = sent_to name a ++ sent_to name b.
Proof. unfold sent_to. rewrite sent_app. apply List.filter_app. Qed.

Lemma sent_Signal_send name kw c : sent (Signal_send name kw c) = [].
Proof.
  unfold Signal_send. simpl. induction (signal name c) as [|r rs IH];
    [reflexivity | exact IH].
Qed.

Lemma sent_to_Signal_send n name kw c : sent_to n (Signal_send name kw c) = [].
Proof. unfold sent_to. rewrite sent_Signal_send. reflexivity. Qed.

Lemma sent_hello_response kw c : sent (snd (hello_response kw c)) = [].
Proof.
  unfold hello_response.
  destruct (running_event (set_hello_response_event true c)); cbn [snd];
    rewrite !sent_app, !sent_Signal_send; reflexivity.
Qed.

Lemma state_hello_response kw c : state (fst (hello_response kw c)) = state c.
Proof.
  unfold hello_response.
  destruct (running_event (set_hello_response_event true c)); reflexivity.
Qed.

Lemma onconnected_receivers_cons r rs kw c :
  onconnected_receivers (r :: rs) kw c =
  let '(c1, a1) :=
    match r with
    | Rhello_response =>
        let '(c1, a) := hello_response kw c in
        (c1, Invoke "onconnected" r kw :: a)
    | _ => (c, [Invoke "onconnected" r kw])
    end in
  let '(c2, a2) := onconnected_receivers rs kw c1 in
  (c2, a1 ++ a2).
Proof. reflexivity. Qed.

Lemma quiet_onconnected_receivers rs kw c :
  sent (snd (onconnected_receivers rs kw c)) = []
  /\ state (fst (onconnected_receivers rs kw c)) = state c.
Proof.
  revert c. induction rs as [|r rs IH]; intros c; [split; reflexivity|].
  rewrite onconnected_receivers_cons.
  assert (Hr : forall c1 a1,
            sent a1 = [] -> state c1 = state c ->
            sent (snd (let '(c2, a2) := onconnected_receivers rs kw c1 in
                       (c2, a1 ++ a2))) = []
            /\ state (fst (let '(c2, a2) := onconnected_receivers rs kw c1 in
                           (c2, a1 ++ a2))) = state c).
  { intros c1 a1 Ha Hs. destruct (IH c1) as [I1 I2].
    destruct (onconnected_receivers rs kw c1) as [c2 a2]. simpl in *.
    rewrite sent_app, Ha, I1, I2, Hs. split; reflexivity. }
  destruct r; try (apply Hr; reflexivity).
  pose proof (sent_hello_response kw c) as H1.
  pose proof (state_hello_response kw c) as H2.
  destruct (hello_response kw c) as [c1 a]. simpl in H1, H2.
  apply Hr; [exact H1 | exact H2].
Qed.

Lemma quiet_onconnected_send kw c :
  sent (snd (onconnected_send kw c)) = []
  /\ state (fst (onconnected_send kw c)) = state c.
Proof.
  unfold onconnected_send.
  destruct (quiet_onconnected_receivers (signal "onconnected" c) kw c) as [H1 H2].
  destruct (onconnected_receivers (signal "onconnected" c) kw c) as [c1 a].
  simpl in *. split; assumption.
Qed.

Lemma quiet_stop timeout shutdown c :
  sent_to "hello" (snd (stop timeout shutdown c)) = []
  /\ state (fst (stop timeout shutdown c)) = state c.
Proof.
  unfold stop. simpl. split; [|reflexivity].
  destruct (connected c && negb shutdown); reflexivity.
Qed.

Lemma quiet_check_timeout c :
  sent_to "hello" (snd (connection_failed_check_timeout c)) = []
  /\ state (fst (connection_failed_check_timeout c)) = state c.
Proof.
  unfold connection_failed_check_timeout.
  destruct (quiet_stop (Some 10%Q) false c) as [H1 H2].
  destruct (stop (Some 10%Q) false c) as [c1 acts]. simpl in *.
  split; [|exact H2].
  change (sent_to "hello" acts = []). exact H1.
Qed.

Lemma quiet_time_out n c :
  sent_to "hello" (snd (time_out n c)) = []
  /\ state (fst (time_out n c)) = state c.
Proof.
  revert c. induction n as [|n IH]; intros c; [split; reflexivity|].
  rewrite VipFacts.time_out_S.
  destruct (quiet_check_timeout c) as [H1 H2].
  destruct (connection_failed_check_timeout c) as [c1 a1].
  destruct (IH c1) as [I1 I2].
  destruct (time_out n c1) as [c2 a2]. simpl in *.
  rewrite sent_to_app, H1, I1, I2, H2. split; reflexivity.
Qed.

Lemma quiet_elapse t c :
  sent_to "hello" (snd (elapse t c)) = []
  /\ state (fst (elapse t c)) = state c.
Proof.
  unfold elapse. destruct (Qle_bool (now c) t); [|split; reflexivity].
  apply (quiet_time_out _
           (set_waiting_checks
              (List.filter (fun d => negb (expired t d)) (waiting_checks c))
              (set_now t c))).
Qed.

Lemma hello_sends c :
  sent (snd (hello c)) = [hello_frame (count (state c))]
  /\ count (state (fst (hello c))) = S (count (state c))
  /\ ident (state (fst (hello c))) = Some (id (hello_frame (count (state c)))).
Proof.
  unfold hello. simpl.
  destruct (hello_response_event c); simpl; repeat split; reflexivity.
Qed.

Section Frames.

Variable truth : Signal -> bool.
Variable INVALID : list value.

Lemma sent_handle_error message c : sent (handle_error truth message c) = [].
Proof.
  unfold handle_error. destruct (length (args message) <? 4)%nat; [reflexivity|].
  destruct (truth (signal "onviperror" c)); [|reflexivity].
  apply sent_Signal_send.
Qed.

Lemma sent_call_handler h message c :
  sent (call_handler truth h message c) = [].
Proof. destruct h; [apply sent_handle_error | reflexivity]. Qed.

Lemma quiet_dispatch message c :
  sent_to "hello"
    (match subsystems c !! subsystem message with
     | None => [Log "peer requested unknown subsystem";
                SendVip (unknown_subsystem_reply INVALID message)]
     | Some handle => call_handler truth handle message c
     end) = [].
Proof.
  destruct (subsystems c !! subsystem message) as [h|]; [|reflexivity].
  unfold sent_to. rewrite sent_call_handler. reflexivity.
Qed.

Lemma quiet_zmq_vip_loop r c :
  sent_to "hello" (emitted (zmq_vip_loop truth INVALID r c)) = []
  /\ state (core_after (zmq_vip_loop truth INVALID r c)) = state c.
Proof.
  destruct r as [message | | |]; simpl; try (split; reflexivity).
  destruct (is_welcome (state c) message).
  - destruct (quiet_onconnected_send (welcome_kwargs message)
                (set_connected true c)) as [H1 H2].
    destruct (onconnected_send (welcome_kwargs message) (set_connected true c))
      as [c2 a]. simpl in *. unfold sent_to. rewrite H1. split; [reflexivity|].
    exact H2.
  - pose proof (quiet_dispatch message c) as H.
    destruct (subsystems c !! subsystem message); simpl; split;
      first [exact H | reflexivity].
Qed.

Lemma quiet_rmq_vip_loop r c :
  sent_to "hello" (emitted (rmq_vip_loop truth INVALID r c)) = []
  /\ state (core_after (rmq_vip_loop truth INVALID r c)) = state c.
Proof.
  destruct r as [message | |]; simpl; try (split; reflexivity).
  assert (Hd : sent_to "hello"
                 (emitted
                    match subsystems c !! subsystem message with
                    | None =>
                        {| core_after := c;
                           emitted := [Log "peer requested unknown subsystem";
                                       SendVip (unknown_subsystem_reply INVALID message)];
                           next_flow := Continue;
                           message_after := Some (unknown_subsystem_reply INVALID message) |}
                    | Some handle =>
                        {| core_after := c;
                           emitted := call_handler truth handle message c;
                           next_flow := Continue; message_after := Some message |}
                    end) = []
               /\ state (core_after
                    match subsystems c !! subsystem message with
                    | None =>
                        {| core_after := c;
                           emitted := [Log "peer requested unknown subsystem";
                                       SendVip (unknown_subsystem_reply INVALID message)];
                           next_flow := Continue;
                           message_after := Some (unknown_subsystem_reply INVALID message) |}
                    | Some handle =>
                        {| core_after := c;
                           emitted := call_handler truth handle message c;
                           next_flow := Continue; message_after := Some message |}
                    end) = state c).
  { pose proof (quiet_dispatch message c) as H.
    destruct (subsystems c !! subsystem message); simpl; split;
      first [exact H | reflexivity]. }
  destruct (String.eqb (subsystem message) "hello"); [|exact Hd].
  destruct (is_welcome (state c) message); [|exact Hd].
  destruct (quiet_onconnected_send (welcome_kwargs message)
              (set_connected true c)) as [H1 H2].
  destruct (onconnected_send (welcome_kwargs message) (set_connected true c))
    as [c2 a]. simpl in *. unfold sent_to. rewrite H1. split; [reflexivity|].
  exact H2.
Qed.

(** A turn sends no hello and leaves the counter, or sends the next
    hello and moves the counter on. *)
Lemma step_hello c i :
  (sent_to "hello" (snd (step truth INVALID c i)) = []
   /\ state (fst (step truth INVALID c i)) = state c)
  \/ (sent_to "hello" (snd (step truth INVALID c i))
      = [hello_frame (count (state c))]
      /\ count (state (fst (step truth INVALID c i))) = S (count (state c))
      /\ ident (state (fst (step truth INVALID c i)))
         = Some (id (hello_frame (count (state c))))).
Proof.
  assert (Hh : forall pre,
            sent_to "hello" pre = [] ->
            sent_to "hello" (pre ++ snd (hello c)) = [hello_frame (count (state c))]
            /\ count (state (fst (hello c))) = S (count (state c))
            /\ ident (state (fst (hello c)))
               = Some (id (hello_frame (count (state c))))).
  { intros pre Hpre. destruct (hello_sends c) as (H1 & H2 & H3).
    rewrite sent_to_app, Hpre. unfold sent_to at 1. rewrite H1.
    split; [reflexivity|]. split; assumption. }
  destruct i as [r | r | r | | | t]; cbn [step].
  - destruct (vip_loop_alive c); [|left; split; reflexivity].
    left. apply quiet_zmq_vip_loop.
  - destruct (vip_loop_alive c); [|left; split; reflexivity].
    left. apply quiet_rmq_vip_loop.
  - destruct (monitor_alive c); [|left; split; reflexivity].
    destruct r as [event | |]; try (left; split; reflexivity).
    unfold monitor. cbv zeta.
    destruct (masked event EVENT_CONNECTED).
    { right.
      specialize (Hh (Signal_send "onsockevent" (KwEvent event) c)
                    (sent_to_Signal_send _ _ _ _)).
      destruct (hello c) as [c1 a]. exact Hh. }
    destruct (masked event EVENT_DISCONNECTED).
    { left. split; [apply sent_to_Signal_send | reflexivity]. }
    destruct (masked event EVENT_CONNECT_RETRIED).
    { left.
      destruct (_reconnect_attempt
                  (set_reconnect_attempt (_reconnect_attempt c + 1) c) =? 50)%nat.
      - destruct (quiet_stop None false
                    (set_connected false
                       (set_reconnect_attempt (_reconnect_attempt c + 1) c)))
          as [H1 H2].
        destruct (stop None false
                    (set_connected false
                       (set_reconnect_attempt (_reconnect_attempt c + 1) c)))
          as [c3 a]. cbn [fst snd] in *.
        rewrite !sent_to_app, !sent_to_Signal_send, H1.
        split; [reflexivity | exact H2].
      - split; [apply sent_to_Signal_send | reflexivity]. }
    destruct (masked event EVENT_MONITOR_STOPPED);
      left; (split; [apply sent_to_Signal_send | reflexivity]).
  - right. unfold connect_callback.
    specialize (Hh [] eq_refl). exact Hh.
  - left. unfold connection_error.
    destruct (quiet_stop None false (set_connected false c)) as [H1 H2].
    destruct (stop None false (set_connected false c)) as [c2 a]. simpl in *.
    rewrite sent_to_app, H1, sent_to_Signal_send. split; [reflexivity|].
    exact H2.
  - left. apply quiet_elapse.
Qed.

Lemma trace_cons c i ins :
  trace truth INVALID c (i :: ins) =
  ((c, i, snd (step truth INVALID c i))
     :: fst (trace truth INVALID (fst (step truth INVALID c i)) ins),
   snd (trace truth INVALID (fst (step truth INVALID c i)) ins)).
Proof.
  cbn [trace]. destruct (step truth INVALID c i) as [c1 a]. cbn [fst snd].
  destruct (trace truth INVALID c1 ins) as [tr c2]. reflexivity.
Qed.

Lemma effects_cons (x : Core * input * list action) tr :
  effects (x :: tr) = snd x ++ effects tr.
Proof. reflexivity. Qed.

Lemma trace_hellos ins : forall c,
  exists n,
    sent_to "hello" (effects (fst (trace truth INVALID c ins)))
    = map hello_frame (seq (count (state c)) n)
    /\ count (state (snd (trace truth INVALID c ins)))
       = (count (state c) + n)%nat
    /\ (n = 0%nat -> state (snd (trace truth INVALID c ins)) = state c)
    /\ (forall k, n = S k ->
          ident (state (snd (trace truth INVALID c ins)))
          = Some (id (hello_frame (count (state c) + k)))).
Proof.
  induction ins as [|i ins IH]; intros c.
  { exists 0%nat. simpl. repeat split; [lia | discriminate]. }
  rewrite trace_cons. cbn [fst snd]. rewrite effects_cons. cbn [snd].
  rewrite sent_to_app.
  destruct (IH (fst (step truth INVALID c i))) as (n & H1 & H2 & H3 & H4).
  destruct (step_hello c i) as [[S1 S2] | (S1 & S2 & S3)].
  - exists n. rewrite S1, H1, H2, S2. simpl.
    split; [reflexivity|]. split; [reflexivity|]. split.
    + intros Hn. rewrite (H3 Hn). exact S2.
    + intros k Hk. rewrite (H4 k Hk), S2. reflexivity.
  - exists (S n). rewrite S1, H1, H2, S2. simpl.
    split; [reflexivity|]. split; [lia|]. split; [discriminate|].
    intros k Hk. inversion Hk; subst k. destruct n as [|n'].
    + rewrite (H3 eq_refl), S3, Nat.add_0_r. reflexivity.
    + rewrite (H4 n' eq_refl), S2.
      replace (count (state c) + S n')%nat with (S (count (state c)) + n')%nat
        by lia. reflexivity.
Qed.

(** X12: the hellos of a loop are numbered.  In every run the hello
    frames sent carry the ids connect.hello.k for consecutive k, from
    the counter at the start on; no two of them carry the same id; and
    the id the loop holds a welcome against is that of the last hello
    sent. *)
Theorem hello_idents_count_up (c : Core) (ins : list input) :
  let done := trace truth INVALID c ins in
  let hellos := sent_to "hello" (effects (fst done)) in
  hellos = map hello_frame (seq (count (state c)) (length hellos))
  /\ count (state (snd done)) = (count (state c) + length hellos)%nat
  /\ NoDup (map id hellos)
  /\ (forall m, last hellos = Some m ->
        ident (state (snd done)) = Some (id m)).
Proof.
  intros done hellos.
  destruct (trace_hellos ins c) as (n & H1 & H2 & H3 & H4).
  fold done in H1, H2, H3, H4. fold hellos in H1.
  assert (Hlen : length hellos = n).
  { rewrite H1, length_map, length_seq. reflexivity. }
  rewrite Hlen. split; [exact H1|]. split; [exact H2|]. split.
  - rewrite H1, map_map.
    assert (Hinj : Inj (=) (=) (fun k => id (hello_frame k))).
    { intros a b Hab. unfold hello_frame in Hab. simpl in Hab.
      apply (inj (String.app "connect.hello.")) in Hab.
      apply (inj pretty) in Hab. exact Hab. }
    apply (NoDup_fmap_2 (fun k => id (hello_frame k))). apply NoDup_seq.
  - intros m Hm. destruct n as [|k].
    + rewrite H1 in Hm. discriminate.
    + rewrite (H4 k eq_refl). rewrite H1 in Hm.
      rewrite seq_S, map_app in Hm. simpl in Hm.
      rewrite last_snoc in Hm. inversion Hm. reflexivity.
Qed.

(** ** The agentstop notice *)

Lemma flags_stop timeout shutdown c :
  connected (fst (stop timeout shutdown c)) = connected c
  /\ hello_response_event (fst (stop timeout shutdown c)) = hello_response_event c
  /\ waiting_checks (fst (stop timeout shutdown c)) = waiting_checks c.
Proof. repeat split. Qed.

Lemma stop_disconnected timeout shutdown c :
  connected c = false ->
  sent_to "agentstop" (snd (stop timeout shutdown c)) = [].
Proof. intros H. unfold stop. cbn [snd]. rewrite H. reflexivity. Qed.

Lemma time_out_disconnected n c :
  connected c = false ->
  sent_to "agentstop" (snd (time_out n c)) = []
  /\ connected (fst (time_out n c)) = false.
Proof.
  revert c. induction n as [|n IH]; intros c H; [split; [reflexivity | exact H]|].
  rewrite VipFacts.time_out_S.
  unfold connection_failed_check_timeout.
  pose proof (stop_disconnected (Some 10%Q) false c H) as H1.
  destruct (flags_stop (Some 10%Q) false c) as (H2 & _).
  destruct (stop (Some 10%Q) false c) as [c1 a1]. cbn [fst snd] in *.
  destruct (IH c1) as [I1 I2]; [congruence|].
  destruct (time_out n c1) as [c2 a2]. cbn [fst snd] in *.
  split; [|exact I2].
  rewrite sent_to_app, I1, app_nil_r.
  change (sent_to "agentstop" a1 = []). exact H1.
Qed.

Lemma flags_hello_response kw c :
  connected (fst (hello_response kw c)) = connected c
  /\ hello_response_event (fst (hello_response kw c)) = true
  /\ waiting_checks (fst (hello_response kw c)) = [].
Proof.
  unfold hello_response.
  destruct (running_event (set_hello_response_event true c)); repeat split.
Qed.

Lemma flags_onconnected_receivers rs kw c :
  connected (fst (onconnected_receivers rs kw c)) = connected c
  /\ ((hello_response_event (fst (onconnected_receivers rs kw c)) = true
       /\ waiting_checks (fst (onconnected_receivers rs kw c)) = [])
      \/ (~ In Rhello_response rs
          /\ hello_response_event (fst (onconnected_receivers rs kw c))
             = hello_response_event c
          /\ waiting_checks (fst (onconnected_receivers rs kw c))
             = waiting_checks c)).
Proof.
  revert c. induction rs as [|r rs IH]; intros c.
  { split; [reflexivity|]. right. repeat split. intros []. }
  rewrite onconnected_receivers_cons.
  assert (Hother : r <> Rhello_response ->
            connected (fst (let '(c2, a2) := onconnected_receivers rs kw c in
                            (c2, [Invoke "onconnected" r kw] ++ a2))) = connected c
            /\ ((hello_response_event
                   (fst (let '(c2, a2) := onconnected_receivers rs kw c in
                         (c2, [Invoke "onconnected" r kw] ++ a2))) = true
                 /\ waiting_checks
                      (fst (let '(c2, a2) := onconnected_receivers rs kw c in
                            (c2, [Invoke "onconnected" r kw] ++ a2))) = [])
                \/ (~ In Rhello_response (r :: rs)
                    /\ hello_response_event
                         (fst (let '(c2, a2) := onconnected_receivers rs kw c in
                               (c2, [Invoke "onconnected" r kw] ++ a2)))
                       = hello_response_event c
                    /\ waiting_checks
                         (fst (let '(c2, a2) := onconnected_receivers rs kw c in
                               (c2, [Invoke "onconnected" r kw] ++ a2)))
                       = waiting_checks c))).
  { intros Hr. destruct (IH c) as [I1 I2].
    destruct (onconnected_receivers rs kw c) as [c2 a2]. cbn [fst] in *.
    split; [exact I1|]. destruct I2 as [I2 | (I2 & I3 & I4)]; [left; exact I2|].
    right. split; [|split; assumption].
    intros [H | H]; [congruence | contradiction]. }
  destruct r; try (apply Hother; discriminate).
  destruct (flags_hello_response kw c) as (H1 & H2 & H3).
  destruct (hello_response kw c) as [c1 a]. cbn [fst] in *.
  destruct (IH c1) as [I1 I2].
  destruct (onconnected_receivers rs kw c1) as [c2 a2]. cbn [fst] in *.
  split; [congruence|]. left.
  destruct I2 as [I2 | (_ & I3 & I4)]; [exact I2|].
  split; congruence.
Qed.

Lemma flags_onconnected_send kw c :
  In Rhello_response (signal "onconnected" c) ->
  connected (fst (onconnected_send kw c)) = connected c
  /\ hello_response_event (fst (onconnected_send kw c)) = true
  /\ waiting_checks (fst (onconnected_send kw c)) = [].
Proof.
  intros Hin. unfold onconnected_send.
  destruct (flags_onconnected_receivers (signal "onconnected" c) kw c) as [H1 H2].
  destruct (onconnected_receivers (signal "onconnected" c) kw c) as [c1 a].
  cbn [fst] in *. split; [exact H1|].
  destruct H2 as [H2 | [H2 _]]; [exact H2 | contradiction].
Qed.

Lemma handshake_inv_flags c c' :
  signals c' = signals c -> connected c' = connected c ->
  hello_response_event c' = hello_response_event c ->
  waiting_checks c' = waiting_checks c ->
  handshake_inv c -> handshake_inv c'.
Proof.
  intros Hs Hc He Hw (Hin & Ha & Hb).
  unfold handshake_inv, signal. rewrite Hs, Hc, He, Hw.
  split; [exact Hin|]. split; assumption.
Qed.

Lemma handshake_inv_disconnect c c' :
  signals c' = signals c -> connected c' = false ->
  hello_response_event c' = hello_response_event c ->
  waiting_checks c' = waiting_checks c ->
  handshake_inv c -> handshake_inv c'.
Proof.
  intros Hs Hc He Hw (Hin & Ha & Hb).
  unfold handshake_inv, signal. rewrite Hs, Hc, He, Hw.
  split; [exact Hin|]. split; [reflexivity | exact Hb].
Qed.

Lemma handshake_inv_hello c :
  handshake_inv c ->
  handshake_inv (fst (hello c))
  /\ sent_to "agentstop" (snd (hello c)) = [].
Proof.
  intros Hinv. split; [|reflexivity].
  unfold hello. cbn [fst hello_response_event set_state].
  destruct (hello_response_event c) eqn:E.
  - apply (handshake_inv_flags c); [reflexivity.. | exact Hinv].
  - destruct Hinv as (Hin & Ha & Hb).
    unfold handshake_inv. split; [exact Hin|].
    cbn [hello_response_event connected set_waiting_checks set_state].
    rewrite E. split; [intros _; exact (Ha E) | discriminate].
Qed.

Lemma handshake_inv_welcome kw c :
  handshake_inv c ->
  handshake_inv (fst (onconnected_send kw (set_connected true c)))
  /\ sent_to "agentstop" (snd (onconnected_send kw (set_connected true c))) = [].
Proof.
  intros (Hin & Ha & Hb).
  destruct (flags_onconnected_send kw (set_connected true c) Hin) as (H1 & H2 & H3).
  pose proof (VipFacts.signals_onconnected_send kw (set_connected true c)) as Hs.
  destruct (quiet_onconnected_send kw (set_connected true c)) as [Hq _].
  split.
  - unfold handshake_inv, signal. rewrite Hs, H2, H3.
    split; [exact Hin|]. split; [discriminate | reflexivity].
  - unfold sent_to. rewrite Hq. reflexivity.
Qed.

Lemma sent_to_dispatch name message c :
  name <> "error" ->
  sent_to name
    (match subsystems c !! subsystem message with
     | None => [Log "peer requested unknown subsystem";
                SendVip (unknown_subsystem_reply INVALID message)]
     | Some handle => call_handler truth handle message c
     end) = [].
Proof.
  intros Hne. destruct (subsystems c !! subsystem message) as [h|].
  - unfold sent_to. rewrite sent_call_handler. reflexivity.
  - change (sent_to name [Log "peer requested unknown subsystem";
                          SendVip (unknown_subsystem_reply INVALID message)])
      with (if String.eqb "error" name
            then [unknown_subsystem_reply INVALID message] else []).
    destruct (String.eqb_spec "error" name); [congruence | reflexivity].
Qed.

Lemma handshake_inv_step c i :
  handshake_inv c ->
  handshake_inv (fst (step truth INVALID c i))
  /\ sent_to "agentstop" (snd (step truth INVALID c i)) = [].
Proof.
  intros Hinv.
  assert (Hsame : handshake_inv c /\ sent_to "agentstop" [] = [])
    by (split; [exact Hinv | reflexivity]).
  assert (Hne : "agentstop" <> "error") by discriminate.
  destruct i as [r | r | r | | | t]; cbn [step].
  - destruct (vip_loop_alive c); [|exact Hsame].
    destruct r as [message | | |]; cbn [zmq_vip_loop core_after emitted];
      try (split; [|reflexivity];
           apply (handshake_inv_flags c); [reflexivity.. | exact Hinv]).
    destruct (is_welcome (state c) message).
    + pose proof (handshake_inv_welcome (welcome_kwargs message) c Hinv) as H.
      destruct (onconnected_send (welcome_kwargs message) (set_connected true c))
        as [c2 a]. exact H.
    + pose proof (sent_to_dispatch "agentstop" message c Hne) as H.
      destruct (subsystems c !! subsystem message);
        cbn [core_after emitted]; split; first [exact Hinv | exact H].
  - destruct (vip_loop_alive c); [|exact Hsame].
    destruct r as [message | |]; cbn [rmq_vip_loop core_after emitted];
      try (split; [|reflexivity];
           apply (handshake_inv_flags c); [reflexivity.. | exact Hinv]).
    assert (Hd : forall o,
              o = match subsystems c !! subsystem message with
                  | None =>
                      {| core_after := c;
                         emitted := [Log "peer requested unknown subsystem";
                                     SendVip (unknown_subsystem_reply INVALID message)];
                         next_flow := Continue;
                         message_after := Some (unknown_subsystem_reply INVALID message) |}
                  | Some handle =>
                      {| core_after := c;
                         emitted := call_handler truth handle message c;
                         next_flow := Continue; message_after := Some message |}
                  end ->
              handshake_inv (core_after o) /\ sent_to "agentstop" (emitted o) = []).
    { intros o ->.
      pose proof (sent_to_dispatch "agentstop" message c Hne) as H.
      destruct (subsystems c !! subsystem message);
        cbn [core_after emitted]; split; first [exact Hinv | exact H]. }
    destruct (String.eqb (subsystem message) "hello"); [|apply Hd; reflexivity].
    destruct (is_welcome (state c) message); [|apply Hd; reflexivity].
    pose proof (handshake_inv_welcome (welcome_kwargs message) c Hinv) as H.
    destruct (onconnected_send (welcome_kwargs message) (set_connected true c))
      as [c2 a]. exact H.
  - destruct (monitor_alive c); [|exact Hsame].
    destruct r as [event | |];
      try (split; [|reflexivity];
           apply (handshake_inv_flags c); [reflexivity.. | exact Hinv]).
    unfold monitor. cbv zeta.
    destruct (masked event EVENT_CONNECTED).
    { destruct (handshake_inv_hello c Hinv) as [H1 H2].
      destruct (hello c) as [c1 a]. cbn [fst snd] in *.
      split; [exact H1|]. rewrite sent_to_app, sent_to_Signal_send, H2.
      reflexivity. }
    destruct (masked event EVENT_DISCONNECTED).
    { split; [|apply sent_to_Signal_send].
      apply (handshake_inv_disconnect c); [reflexivity.. | exact Hinv]. }
    destruct (masked event EVENT_CONNECT_RETRIED).
    { destruct (_reconnect_attempt
                  (set_reconnect_attempt (_reconnect_attempt c + 1) c) =? 50)%nat.
      - cbn [stop fst snd connected set_connected andb].
        split.
        + apply (handshake_inv_disconnect c); [reflexivity.. | exact Hinv].
        + rewrite !sent_to_app, !sent_to_Signal_send. reflexivity.
      - split; [|apply sent_to_Signal_send].
        apply (handshake_inv_flags c); [reflexivity.. | exact Hinv]. }
    destruct (masked event EVENT_MONITOR_STOPPED);
      (split; [|apply sent_to_Signal_send]);
      [apply (handshake_inv_flags c); [reflexivity.. | exact Hinv]
      | exact Hinv].
  - unfold connect_callback. apply handshake_inv_hello. exact Hinv.
  - unfold connection_error.
    cbn [stop fst snd connected set_connected andb].
    split.
    + apply (handshake_inv_disconnect c); [reflexivity.. | exact Hinv].
    + rewrite !sent_to_app, !sent_to_Signal_send. reflexivity.
  - unfold elapse. destruct (Qle_bool (now c) t); [|exact Hsame].
    set (due := List.filter (expired t) (waiting_checks c)).
    set (rest := List.filter (fun d => negb (expired t d)) (waiting_checks c)).
    set (c1 := set_waiting_checks rest (set_now t c)).
    destruct Hinv as (Hin & Ha & Hb).
    assert (Hinv1 : handshake_inv c1).
    { unfold handshake_inv. split; [exact Hin|]. split; [exact Ha|].
      intros He. unfold c1, rest. cbn. rewrite (Hb He). reflexivity. }
    destruct due as [|d due'] eqn:Edue; [split; [exact Hinv1 | reflexivity]|].
    assert (Hdis : connected c1 = false).
    { apply Ha. destruct (hello_response_event c) eqn:He; [|reflexivity].
      exfalso. unfold due in Edue. rewrite (Hb eq_refl) in Edue. discriminate. }
    destruct (time_out_disconnected (length (d :: due')) c1 Hdis) as [T1 T2].
    destruct (VipFacts.time_out_frame (length (d :: due')) c1) as (F1 & F2 & _).
    pose proof (VipFacts.signals_time_out (length (d :: due')) c1) as F3.
    split; [|exact T1].
    apply (handshake_inv_disconnect c1); assumption.
Qed.

Lemma handshake_inv_trace ins : forall c,
  handshake_inv c ->
  handshake_inv (snd (trace truth INVALID c ins))
  /\ sent_to "agentstop" (effects (fst (trace truth INVALID c ins))) = []
  /\ forall c0 i acts,
       In (c0, i, acts) (fst (trace truth INVALID c ins)) -> handshake_inv c0.
Proof.
  induction ins as [|i ins IH]; intros c Hinv.
  { simpl. split; [exact Hinv|]. split; [reflexivity|]. intros c0 i acts []. }
  rewrite trace_cons. cbn [fst snd]. rewrite effects_cons. cbn [snd].
  destruct (handshake_inv_step c i Hinv) as [H1 H2].
  destruct (IH _ H1) as (I1 & I2 & I3).
  split; [exact I1|]. split.
  - rewrite sent_to_app, H2, I2. reflexivity.
  - intros c0 i0 acts [H | H]; [|apply (I3 c0 i0 acts H)].
    inversion H; subst. exact Hinv.
Qed.

Lemma flags_loop_start b c :
  connected (fst (loop_start b c)) = connected c
  /\ hello_response_event (fst (loop_start b c)) = false
  /\ sent_to "agentstop" (snd (loop_start b c)) = [].
Proof.
  destruct b; unfold loop_start.
  - unfold zmq_loop_start.
    destruct (String.eqb (String.substring 0 4 _) "tcp:"
              || String.eqb (String.substring 0 4 _) "ipc:");
      destruct (String.prefix "inproc:" _); repeat split.
  - repeat split.
Qed.

Lemma handshake_inv_start b identity address running :
  handshake_inv
    (fst (run_start Core_class (loop_start b)
            (Core_init identity address running)))
  /\ sent_to "agentstop"
       (snd (run_start Core_class (loop_start b)
               (Core_init identity address running))) = [].
Proof.
  pose proof (VipFacts.run_start_connects Core_class b
                (Core_init identity address running)) as Hin.
  unfold run_start in *. cbv zeta in *. cbn [delay_onstart_signal delay_running_event_set Core_class] in *.
  destruct (flags_loop_start b
              (set_stop_event false
                 (Signal_connect "onstart" Rstart_periodics
                    (Core_init identity address running)))) as (H1 & H2 & H3).
  destruct (loop_start b _) as [c1 a2]. cbn [fst snd] in *.
  split.
  - unfold handshake_inv. split; [exact Hin|].
    cbn [connected hello_response_event Signal_connect set_signals].
    rewrite H1, H2. split; [reflexivity | discriminate].
  - rewrite !sent_to_app, sent_to_Signal_send, H3. reflexivity.
Qed.

(** X13: a core never sends the agentstop notice on its own account.
    From the start of [run] on, over either bus and whatever comes in,
    the core is connected only after a welcome has set the handshake
    event, and no check waits then; so every [stop] the core calls
    itself (after ten seconds without welcome, at the fiftieth retry, on
    a connection error of the broker) finds it disconnected and sends no
    agentstop frame.  A [stop] on a connected core does send one, with
    the identity as its argument, unless the platform is shutting
    down. *)
Theorem core_gives_up_without_agentstop (b : bus) (identity address : string)
    (running : option bool) (ins : list input) :
  let started :=
    run_start Core_class (loop_start b) (Core_init identity address running) in
  let done := trace truth INVALID (fst started) ins in
  sent_to "agentstop" (snd started ++ effects (fst done)) = []
  /\ (forall c0 i acts, In (c0, i, acts) (fst done) ->
        connected c0 = true ->
        hello_response_event c0 = true /\ waiting_checks c0 = [])
  /\ (forall c timeout,
        sent_to "agentstop" (snd (stop timeout false (set_connected true c)))
        = [{| peer := ""; subsystem := "agentstop"; id := ""; user := "";
              args := [VStr (Vip.identity c)] |}]
        /\ sent_to "agentstop" (snd (stop timeout true (set_connected true c)))
           = []
        /\ sent_to "agentstop" (snd (stop timeout false (set_connected false c)))
           = []).
Proof.
  intros started done.
  destruct (handshake_inv_start b identity address running) as [H1 H2].
  fold started in H1, H2.
  destruct (handshake_inv_trace ins (fst started) H1) as (_ & T2 & T3).
  fold done in T2, T3.
  split; [rewrite sent_to_app, H2, T2; reflexivity|]. split.
  - intros c0 i acts Hin Hc. destruct (T3 c0 i acts Hin) as (_ & Ha & Hb).
    destruct (hello_response_event c0) eqn:E.
    + split; [reflexivity | apply Hb; reflexivity].
    + rewrite (Ha eq_refl) in Hc. discriminate.
  - intros c timeout. repeat split.
Qed.

(** ** The two receive loops *)

(** X14: the receive loops of the two buses treat a frame alike: the
    same welcome test, the same dispatch, the same reply to an unknown
    subsystem, the same effects and the same core afterwards; the test
    on the subsystem that [RMQCore]'s loop makes first changes nothing.
    A timeout of its queue is the [EAGAIN] of the socket. *)
Theorem receive_loops_agree (message : Message) (c : Core) :
  rmq_vip_loop truth INVALID (Queued message) c
  = zmq_vip_loop truth INVALID (Received message) c
  /\ rmq_vip_loop truth INVALID QueueTimeout c
     = zmq_vip_loop truth INVALID Eagain c.
Proof.
  split; [|reflexivity].
  unfold rmq_vip_loop, zmq_vip_loop.
  destruct (String.eqb (subsystem message) "hello") eqn:E.
  - destruct (is_welcome (state c) message); reflexivity.
  - assert (W : is_welcome (state c) message = false).
    { unfold is_welcome. rewrite E. reflexivity. }
    rewrite W. reflexivity.
Qed.

(** ** The monitor and the address *)

Lemma inproc_prefix (a : string) :
  String.prefix "inproc:" a = true -> String.substring 0 4 a = "inpr".
Proof.
  intros H.
  destruct a as [|c1 a]; [discriminate|]. cbn [String.prefix] in H.
  destruct (Ascii.ascii_dec _ c1) as [<-|]; [|discriminate].
  destruct a as [|c2 a]; [discriminate|]. cbn [String.prefix] in H.
  destruct (Ascii.ascii_dec _ c2) as [<-|]; [|discriminate].
  destruct a as [|c3 a]; [discriminate|]. cbn [String.prefix] in H.
  destruct (Ascii.ascii_dec _ c3) as [<-|]; [|discriminate].
  destruct a as [|c4 a]; [discriminate|]. cbn [String.prefix] in H.
  destruct (Ascii.ascii_dec _ c4) as [<-|]; [|discriminate].
  destruct a; reflexivity.
Qed.

Lemma still_zmq_vip_loop r c :
  monitor_alive (core_after (zmq_vip_loop truth INVALID r c)) = monitor_alive c
  /\ _reconnect_attempt (core_after (zmq_vip_loop truth INVALID r c))
     = _reconnect_attempt c.
Proof.
  destruct r as [message | | |]; simpl; try (split; reflexivity).
  destruct (is_welcome (state c) message).
  - assert (H : forall rs kw c0,
              monitor_alive (fst (onconnected_receivers rs kw c0)) = monitor_alive c0
              /\ _reconnect_attempt (fst (onconnected_receivers rs kw c0))
                 = _reconnect_attempt c0).
    { induction rs as [|r rs IH]; intros kw c0; [split; reflexivity|].
      rewrite onconnected_receivers_cons.
      assert (Hr : forall c1 a1,
                monitor_alive c1 = monitor_alive c0 ->
                _reconnect_attempt c1 = _reconnect_attempt c0 ->
                monitor_alive
                  (fst (let '(c2, a2) := onconnected_receivers rs kw c1 in
                        (c2, a1 ++ a2))) = monitor_alive c0
                /\ _reconnect_attempt
                     (fst (let '(c2, a2) := onconnected_receivers rs kw c1 in
                           (c2, a1 ++ a2))) = _reconnect_attempt c0).
      { intros c1 a1 Hm Hr. destruct (IH kw c1) as [I1 I2].
        destruct (onconnected_receivers rs kw c1) as [c2 a2]. cbn [fst] in *.
        split; congruence. }
      destruct r; try (apply Hr; reflexivity).
      unfold hello_response.
      destruct (running_event (set_hello_response_event true c0));
        apply Hr; reflexivity. }
    unfold onconnected_send.
    destruct (H (signal "onconnected" (set_connected true c))
                (welcome_kwargs message) (set_connected true c)) as [H1 H2].
    destruct (onconnected_receivers _ _ _) as [c1 a]. cbn [fst core_after] in *.
    split; assumption.
  - destruct (subsystems c !! subsystem message); split; reflexivity.
Qed.

Lemma still_time_out n c :
  monitor_alive (fst (time_out n c)) = monitor_alive c
  /\ _reconnect_attempt (fst (time_out n c)) = _reconnect_attempt c.
Proof.
  revert c. induction n as [|n IH]; intros c; [split; reflexivity|].
  rewrite VipFacts.time_out_S. unfold connection_failed_check_timeout, stop.
  cbn [fst snd].
  destruct (IH (set_stop_event true c)) as [I1 I2].
  destruct (time_out n (set_stop_event true c)) as [c2 a2]. cbn [fst] in *.
  split; assumption.
Qed.

Lemma still_step c i :
  monitor_alive c = false -> zmq_input i = true ->
  monitor_alive (fst (step truth INVALID c i)) = false
  /\ _reconnect_attempt (fst (step truth INVALID c i)) = _reconnect_attempt c
  /\ sent_to "hello" (snd (step truth INVALID c i)) = [].
Proof.
  intros Hm Hi. destruct i as [r | r | r | | | t]; try discriminate; cbn [step].
  - destruct (vip_loop_alive c); [|repeat split; exact Hm].
    destruct (still_zmq_vip_loop r c) as [H1 H2].
    destruct (quiet_zmq_vip_loop r c) as [H3 _].
    cbn [fst snd]. rewrite H1, H2. repeat split; assumption.
  - rewrite Hm. repeat split; exact Hm.
  - destruct (quiet_elapse t c) as [H3 _].
    split; [|split; [|exact H3]]; unfold elapse;
      destruct (Qle_bool (now c) t); try reflexivity; try exact Hm.
    + rewrite (proj1 (still_time_out _ _)). exact Hm.
    + rewrite (proj2 (still_time_out _ _)). reflexivity.
Qed.

Lemma still_trace ins : forall c,
  monitor_alive c = false -> forallb zmq_input ins = true ->
  monitor_alive (snd (trace truth INVALID c ins)) = false
  /\ _reconnect_attempt (snd (trace truth INVALID c ins)) = _reconnect_attempt c
  /\ sent_to "hello" (effects (fst (trace truth INVALID c ins))) = [].
Proof.
  induction ins as [|i ins IH]; intros c Hm Hall.
  { simpl. repeat split. exact Hm. }
  simpl in Hall. apply andb_true_iff in Hall as [Hi Hall].
  rewrite trace_cons. cbn [fst snd]. rewrite effects_cons. cbn [snd].
  destruct (still_step c i Hm Hi) as (H1 & H2 & H3).
  destruct (IH _ H1 Hall) as (I1 & I2 & I3).
  rewrite sent_to_app, H3, I3, I2, H2. repeat split. exact I1.
Qed.

(** X15: which [ZMQCore] gets a monitor.  With an address that starts
    with tcp: or ipc: the loop starts the monitor and sends no hello
    itself: the hello waits for the monitor to report the connection.
    With an inproc: address there is no monitor and the loop sends the
    hello at once; over such an address no other hello is ever sent and
    the retry counter never moves, whatever the socket delivers. *)
Theorem zmq_monitor_follows_the_address (identity address : string)
    (running : option bool) (ins : list input) :
  let started :=
    run_start Core_class zmq_loop_start (Core_init identity address running) in
  (String.substring 0 4 address = "tcp:"
   \/ String.substring 0 4 address = "ipc:" ->
   monitor_alive (fst started) = true /\ sent (snd started) = []
   /\ sent (snd (step truth INVALID (fst started)
                   (Monitor (MonitorMessage EVENT_CONNECTED))))
      = [hello_frame 0])
  /\ (String.prefix "inproc:" address = true ->
      monitor_alive (fst started) = false
      /\ sent (snd started) = [hello_frame 0]
      /\ (forallb zmq_input ins = true ->
          sent_to "hello" (effects (fst (trace truth INVALID (fst started) ins)))
          = []
          /\ _reconnect_attempt (snd (trace truth INVALID (fst started) ins))
             = 0%nat)).
Proof.
  intros started.
  assert (Hsent : forall name kw c0, sent (Signal_send name kw c0) = [])
    by (intros; apply sent_Signal_send).
  split.
  - intros Htcp.
    assert (E1 : (String.eqb (String.substring 0 4 address) "tcp:"
                  || String.eqb (String.substring 0 4 address) "ipc:") = true).
    { destruct Htcp as [-> | ->]; reflexivity. }
    assert (E2 : String.prefix "inproc:" address = false).
    { destruct (String.prefix "inproc:" address) eqn:E; [|reflexivity].
      apply inproc_prefix in E. destruct Htcp as [H | H];
        rewrite H in E; discriminate. }
    unfold started, run_start, zmq_loop_start. cbv zeta.
    cbn [Vip.address Core_init Signal_connect set_signals set_stop_event
         set_state set_hello_response_event delay_onstart_signal
         delay_running_event_set Core_class].
    rewrite E1.
    repeat match goal with
           | |- context [String.prefix "inproc:" ?x] =>
               progress change x with address
           end.
    rewrite E2. cbn [fst snd].
    split; [reflexivity|]. split.
    + rewrite !sent_app, Hsent. reflexivity.
    + cbn [step monitor_alive set_vip_loop_alive set_monitor_alive
           Signal_connect set_signals].
      unfold monitor.
      change (masked EVENT_CONNECTED EVENT_CONNECTED) with true. cbv iota.
      match goal with
      | |- context [hello ?c0] =>
          destruct (hello_sends c0) as (Hh & _); destruct (hello c0) as [c1 a]
      end.
      cbn [fst snd] in *. rewrite sent_app, Hsent, Hh. reflexivity.
  - intros Hin.
    assert (E1 : (String.eqb (String.substring 0 4 address) "tcp:"
                  || String.eqb (String.substring 0 4 address) "ipc:") = false).
    { rewrite (inproc_prefix _ Hin). reflexivity. }
    assert (Hstart : monitor_alive (fst started) = false
                     /\ sent (snd started) = [hello_frame 0]
                     /\ _reconnect_attempt (fst started) = 0%nat).
    { unfold started, run_start, zmq_loop_start. cbv zeta.
      cbn [Vip.address Core_init Signal_connect set_signals set_stop_event
           set_state set_hello_response_event delay_onstart_signal
           delay_running_event_set Core_class].
      rewrite E1.
      repeat match goal with
             | |- context [String.prefix "inproc:" ?x] =>
                 progress change x with address
             end.
      rewrite Hin.
      lazymatch goal with
      | |- context [hello ?c0] =>
          destruct (hello_sends c0) as (Hh & _);
          assert (Hm : monitor_alive (fst (hello c0)) = false
                       /\ _reconnect_attempt (fst (hello c0)) = 0%nat)
            by (unfold hello; cbn [fst];
                destruct (hello_response_event _); split; reflexivity);
          destruct (hello c0) as [c1 a]
      end.
      cbn [fst snd] in *. destruct Hm as [Hm1 Hm2].
      split; [exact Hm1|]. split; [|exact Hm2].
      rewrite !sent_app, Hsent, Hh. reflexivity. }
    destruct Hstart as (S1 & S2 & S3).
    split; [exact S1|]. split; [exact S2|].
    intros Hall. destruct (still_trace ins (fst started) S1 Hall) as (_ & T2 & T3).
    split; [exact T3 | congruence].
Qed.

(** ** The first hello and the give-up *)

Lemma signals_trace ins : forall c,
  signals (snd (trace truth INVALID c ins)) = signals c.
Proof.
  induction ins as [|i ins IH]; intros c; [reflexivity|].
  rewrite trace_cons. cbn [snd]. rewrite IH.
  apply VipFacts.signals_step.
Qed.

(** While no welcome is handled, a turn other than the passing of time
    keeps the event clear, the clock, and the checks that wait. *)
Lemma unwelcomed_step c i :
  welcomes c i = false -> (forall t, i <> Elapse t) ->
  let c' := fst (step truth INVALID c i) in
  hello_response_event c' = hello_response_event c
  /\ now c' = now c
  /\ (forall d, In d (waiting_checks c) -> In d (waiting_checks c')).
Proof.
  intros Hw Ht.
  destruct i as [[message | | |] | [message | |] | r | | | t];
    try (match type of Ht with
         | forall t, ?i <> _ =>
             exact (VipFacts.step_no_welcome_frame truth INVALID c i eq_refl Ht)
         end).
  - cbn [welcomes] in Hw. cbn [step].
    destruct (vip_loop_alive c); [|repeat split; auto].
    cbn [andb] in Hw. unfold zmq_vip_loop. rewrite Hw.
    destruct (subsystems c !! subsystem message); repeat split; auto.
  - cbn [welcomes] in Hw. cbn [step].
    destruct (vip_loop_alive c); [|repeat split; auto].
    cbn [andb] in Hw. unfold rmq_vip_loop. rewrite Hw.
    destruct (String.eqb (subsystem message) "hello");
      destruct (subsystems c !! subsystem message); repeat split; auto.
Qed.

Lemma unwelcomed_clear c i :
  welcomes c i = false -> hello_response_event c = false ->
  hello_response_event (fst (step truth INVALID c i)) = false.
Proof.
  intros Hw He. destruct i as [r | r | r | | | t];
    try (destruct (unwelcomed_step c _ Hw) as (H & _);
         [discriminate | congruence]).
  cbn [step]. unfold elapse. destruct (Qle_bool (now c) t); [|exact He].
  destruct (VipFacts.time_out_frame
              (length (List.filter (expired t) (waiting_checks c)))
              (set_waiting_checks
                 (List.filter (fun d => negb (expired t d)) (waiting_checks c))
                 (set_now t c))) as (_ & H & _).
  rewrite H. exact He.
Qed.

Lemma unwelcomed_cons (x : Core * input * list action) tr :
  unwelcomed (x :: tr) = true ->
  welcomes (fst (fst x)) (snd (fst x)) = false /\ unwelcomed tr = true.
Proof.
  unfold unwelcomed. cbn [forallb]. intros H.
  apply andb_true_iff in H as [H1 H2]. apply negb_true_iff in H1.
  split; assumption.
Qed.

Lemma unwelcomed_trace_clear ins : forall c,
  unwelcomed (fst (trace truth INVALID c ins)) = true ->
  hello_response_event c = false ->
  hello_response_event (snd (trace truth INVALID c ins)) = false.
Proof.
  induction ins as [|i ins IH]; intros c Hall He; [exact He|].
  rewrite trace_cons in Hall |- *. cbn [fst snd] in *.
  apply unwelcomed_cons in Hall as [Hi Hall]. cbn [fst snd] in Hi.
  apply IH; [exact Hall|]. apply unwelcomed_clear; assumption.
Qed.

(** The checks that time out on a core that is not connected begin with
    the hints. *)
Lemma time_out_hints n c :
  connected c = false ->
  exists post, snd (time_out (S n) c) = timeout_hints ++ post.
Proof.
  intros Hc. rewrite VipFacts.time_out_S.
  unfold connection_failed_check_timeout, stop. rewrite Hc.
  cbn [andb app].
  destruct (time_out n (set_stop_event true c)) as [c2 a2]. cbn [snd].
  exists a2. reflexivity.
Qed.

Lemma elapse_hints d t c :
  check_pending d c -> connected c = false -> (d <= t)%Q ->
  check_hinted (fst (elapse t c)) (snd (elapse t c)).
Proof.
  intros Hp Hc Hdt.
  destruct (VipFacts.elapse_fires d t c Hp Hdt) as (Hs & _).
  split; [exact Hs|].
  destruct Hp as (He & Hd & Hn). unfold elapse.
  assert (Hle : Qle_bool (now c) t = true).
  { apply Qle_bool_iff. apply Qlt_le_weak. eapply Qlt_le_trans; eassumption. }
  rewrite Hle.
  assert (Hdue : In d (List.filter (expired t) (waiting_checks c))).
  { apply filter_In. split; [exact Hd|]. apply Qle_bool_iff. exact Hdt. }
  destruct (List.filter (expired t) (waiting_checks c)) as [|d0 due];
    [destruct Hdue|].
  cbn [length].
  destruct (time_out_hints (length due)
              (set_waiting_checks
                 (List.filter (fun d => negb (expired t d)) (waiting_checks c))
                 (set_now t c)) Hc) as [post Hpost].
  exists [], post. exact Hpost.
Qed.

Lemma check_hinted_step c acts i :
  check_hinted c acts ->
  check_hinted (fst (step truth INVALID c i))
    (acts ++ snd (step truth INVALID c i)).
Proof.
  intros (H1 & pre & post & ->).
  split; [apply VipFacts.stop_event_stays; exact H1|].
  exists pre, (post ++ snd (step truth INVALID c i)).
  rewrite <- !app_assoc. reflexivity.
Qed.

(** A run in which no welcome is handled leaves a check pending or
    timed out. *)
Lemma unwelcomed_run d ins : forall c acts,
  unwelcomed (fst (trace truth INVALID c ins)) = true ->
  handshake_inv c ->
  check_pending d c \/ check_hinted c acts ->
  let done := trace truth INVALID c ins in
  check_pending d (snd done)
  \/ check_hinted (snd done) (acts ++ effects (fst done)).
Proof.
  induction ins as [|i ins IH]; intros c acts Hall Hinv H.
  { cbn [trace fst snd effects map concat]. rewrite app_nil_r. exact H. }
  cbv zeta. rewrite trace_cons in Hall |- *. cbn [fst snd] in *.
  apply unwelcomed_cons in Hall as [Hi Hall]. cbn [fst snd] in Hi.
  rewrite effects_cons. cbn [snd]. rewrite app_assoc.
  apply IH; [exact Hall | apply (handshake_inv_step c i Hinv) |].
  destruct H as [H | H]; [|right; apply check_hinted_step; exact H].
  assert (Hcase : (exists t, i = Elapse t) \/ (forall t, i <> Elapse t)).
  { destruct i; try (right; intros; discriminate). left. eexists. reflexivity. }
  destruct Hcase as [[t ->] | Hne].
  - cbn [step]. destruct (Qlt_le_dec t d) as [Hdt | Hdt].
    + left. apply VipFacts.elapse_waits; [exact H|].
      apply Qlt_not_le. exact Hdt.
    + right.
      assert (Hc : connected c = false).
      { destruct Hinv as (_ & Hc & _). apply Hc. apply H. }
      destruct (elapse_hints d t c H Hc Hdt) as (G1 & pre & post & G2).
      split; [exact G1|]. exists (acts ++ pre), post.
      rewrite G2, <- !app_assoc. reflexivity.
  - left.
    destruct (unwelcomed_step c i Hi Hne) as (F1 & F2 & F3).
    destruct H as (He & Hd & Hn). unfold check_pending.
    rewrite F1, F2. split; [exact He|]. split; [apply F3; exact Hd | exact Hn].
Qed.

(** X24: the handshake times out as long as no welcome has been
    handled.  Let a core run, over either bus, without a turn of a
    receive loop on a frame that passes the welcome test against the
    ident of the last hello; frames that look like a welcome and carry
    another id may come in.  A hello sent then, by whichever route, and
    followed by ten seconds in which still no welcome is handled, ends
    with the six log lines of [connection_failed_check] and
    [stop(timeout=10.0)], one after the other: the stop event is set and
    [run] no longer waits.  No agentstop notice goes out. *)
Theorem hello_without_welcome_times_out (b : bus) (identity address : string)
    (running : option bool) (before after : list input) (t : Q) :
  let started :=
    fst (run_start Core_class (loop_start b)
           (Core_init identity address running)) in
  let ran := trace truth INVALID started before in
  let c := snd ran in
  let done := trace truth INVALID (fst (hello c)) (after ++ [Elapse t]) in
  unwelcomed (fst ran) = true ->
  unwelcomed (fst done) = true ->
  (now c + 10 <= t)%Q ->
  (exists pre post,
     effects (fst done)
     = pre
       ++ [Log "No response to hello message after 10 seconds.";
           Log "Type of message bus used";
           Log "A common reason for this is a conflicting VIP IDENTITY.";
           Log "Another common reason is not having an auth entry onthe target instance.";
           Log "Shutting down agent.";
           Log "Possible conflicting identity is";
           Stop (Some 10%Q)]
       ++ post)
  /\ _stop_event (snd done) = true
  /\ run_wait (snd done) <> Blocked
  /\ sent_to "agentstop" (effects (fst done)) = [].
Proof.
  intros started ran c done Hbefore Hafter Ht.
  destruct (handshake_inv_start b identity address running) as [Hinv _].
  fold started in Hinv.
  assert (He0 : hello_response_event started = false).
  { destruct (flags_loop_start b
                (set_stop_event false
                   (Signal_connect "onstart" Rstart_periodics
                      (Core_init identity address running)))) as (_ & H & _).
    unfold started, run_start. cbv zeta.
    cbn [delay_onstart_signal delay_running_event_set Core_class].
    destruct (loop_start b _) as [c1 a2]. cbn [fst] in *. exact H. }
  pose proof (unwelcomed_trace_clear before started Hbefore He0) as He.
  fold ran in He. fold c in He.
  destruct (handshake_inv_trace before started Hinv) as (Hc & _).
  fold ran in Hc. fold c in Hc.
  destruct (handshake_inv_hello c Hc) as [Hh _].
  destruct (handshake_inv_trace (after ++ [Elapse t]) (fst (hello c)) Hh)
    as (_ & G & _). fold done in G.
  assert (Hp : check_pending (now c + 10)%Q (fst (hello c))).
  { unfold hello. cbn [fst]. simpl. rewrite He. simpl.
    split; [exact He|]. split.
    - apply in_or_app. right. left. reflexivity.
    - cbn [now set_waiting_checks set_state]. lra. }
  pose proof (unwelcomed_run (now c + 10)%Q (after ++ [Elapse t])
                (fst (hello c)) [] Hafter Hh (or_introl Hp)) as H1.
  cbv zeta in H1. fold done in H1. cbn [app] in H1.
  assert (Hf : check_hinted (snd done) (effects (fst done))).
  { destruct H1 as [H1 | H1]; [|exact H1]. exfalso.
    (* the last turn moved the clock to t *)
    assert (Hnow : (t <= now (snd done))%Q).
    { unfold done. rewrite VipFacts.trace_app.
      destruct (trace truth INVALID (fst (hello c)) after) as [tr1 c1].
      cbn [trace step fst snd].
      destruct (elapse t c1) as [c2 a2] eqn:E. cbn [snd].
      assert (Hc2 : c2 = fst (elapse t c1)) by (rewrite E; reflexivity).
      subst c2. clear E. unfold elapse.
      destruct (Qle_bool (now c1) t) eqn:El.
      - destruct (VipFacts.time_out_frame
                    (length (List.filter (expired t) (waiting_checks c1)))
                    (set_waiting_checks
                       (List.filter (fun d => negb (expired t d))
                          (waiting_checks c1))
                       (set_now t c1))) as (_ & _ & H & _).
        rewrite H. cbn [now set_waiting_checks set_now]. apply Qle_refl.
      - cbn [fst]. apply Qlt_le_weak, Qnot_le_lt. intros Hle.
        apply Qle_bool_iff in Hle. congruence. }
    destruct H1 as (_ & _ & Hlt). lra. }
  destruct Hf as (F1 & pre & post & F2).
  split; [exists pre, post; exact F2|]. split; [exact F1|].
  split; [|exact G].
  unfold run_wait. rewrite F1. destruct (vip_loop_alive (snd done)); discriminate.
Qed.

(** X25: giving up takes the transport down.  The close of the socket
    ([ZMQCore]) or of the connection ([RMQCore]) that [loop] connects to
    [ondisconnected] stays connected through any run; so the fiftieth
    retry reported by the monitor, and a connection error reported by
    the broker, each call [stop()] and then invoke that close, and leave
    the core disconnected with the stop event set. *)
Theorem giving_up_closes_the_transport (identity address : string)
    (running : option bool) (ins : list input) :
  let zmq :=
    snd (trace truth INVALID
           (fst (run_start Core_class zmq_loop_start
                   (Core_init identity address running))) ins) in
  let rmq :=
    snd (trace truth INVALID
           (fst (run_start Core_class rmq_loop_start
                   (Core_init identity address running))) ins) in
  (monitor_alive zmq = true -> _reconnect_attempt zmq = 49%nat ->
   exists pre,
     snd (step truth INVALID zmq retry)
     = pre ++ [DisableMonitor; Stop None; Emit "ondisconnected" NoKw;
               Invoke "ondisconnected" Rclose_socket NoKw]
     /\ connected (fst (step truth INVALID zmq retry)) = false
     /\ _stop_event (fst (step truth INVALID zmq retry)) = true)
  /\ (snd (step truth INVALID rmq ConnectionError)
      = [Stop None; Emit "ondisconnected" NoKw;
         Invoke "ondisconnected" Rclose_connection NoKw]
      /\ connected (fst (step truth INVALID rmq ConnectionError)) = false
      /\ _stop_event (fst (step truth INVALID rmq ConnectionError)) = true).
Proof.
  intros zmq rmq.
  assert (Hz : signal "ondisconnected" zmq = [Rclose_socket]).
  { unfold signal, zmq. rewrite signals_trace.
    unfold run_start, zmq_loop_start. cbv zeta.
    cbn [delay_onstart_signal delay_running_event_set Core_class].
    repeat match goal with
           | |- context [if ?x then _ else _] => destruct x
           end; reflexivity. }
  assert (Hr : signal "ondisconnected" rmq = [Rclose_connection]).
  { unfold signal, rmq. rewrite signals_trace. reflexivity. }
  split.
  - intros Hm Hk. unfold retry. cbn [step]. rewrite Hm.
    fold retry. rewrite VipFacts.monitor_retry. cbv zeta.
    rewrite Hk. cbn [Nat.add Nat.eqb fst snd].
    exists (Signal_send "onsockevent" (KwEvent EVENT_CONNECT_RETRIED) zmq).
    split; [|split; reflexivity].
    unfold Signal_send at 2.
    change (signal "ondisconnected" (set_stop_event true _))
      with (signal "ondisconnected" zmq).
    rewrite Hz. reflexivity.
  - cbn [step]. unfold connection_error, stop.
    cbn [connected set_connected andb fst snd app].
    split; [|split; reflexivity].
    unfold Signal_send.
    change (signal "ondisconnected" (set_stop_event true _))
      with (signal "ondisconnected" rmq).
    rewrite Hr. reflexivity.
Qed.

End Frames.

(** X24 on a core over tcp whose first hello is answered by a welcome
    that carries the id of another hello. *)
Lemma hello_without_welcome_times_out_witness :
  let started :=
    fst (run_start Core_class (loop_start ZMQ)
           (Core_init "agent" "tcp://127.0.0.1:22916" None)) in
  let c := snd (trace object_truth [] started []) in
  let stale :=
    {| peer := ""; subsystem := "hello"; id := "connect.hello.7"; user := "";
       args := [VStr "welcome"; VStr "1.0"; VStr "router"; VStr "agent"] |} in
  let done :=
    trace object_truth [] (fst (hello c))
      ([ZmqRecv (Received stale)] ++ [Elapse 10%Q]) in
  _stop_event (snd done) = true.
Proof.
  cbv zeta.
  refine (proj1 (proj2
            (hello_without_welcome_times_out object_truth [] ZMQ "agent"
               "tcp://127.0.0.1:22916" None []
               [ZmqRecv (Received
                  {| peer := ""; subsystem := "hello"; id := "connect.hello.7";
                     user := "";
                     args := [VStr "welcome"; VStr "1.0"; VStr "router";
                              VStr "agent"] |})]
               10%Q _ _ _)));
    [reflexivity | vm_compute; reflexivity | vm_compute; discriminate].
Defined.

End VipLaws.

Module VipRetries.

Import Vip.

(** ** What leaves the retry counter and the monitor alone *)

Lemma give_ups_app a b : give_ups (a ++ b) = (give_ups a + give_ups b)%nat.
Proof. unfold give_ups. rewrite List.filter_app, length_app. reflexivity. Qed.

Lemma give_ups_Signal_send name kw c : give_ups (Signal_send name kw c) = 0%nat.
Proof.
  unfold give_ups, Signal_send. simpl.
  induction (signal name c) as [|r rs IH]; [reflexivity | exact IH].
Qed.

Lemma give_ups_In acts : give_ups acts = 0%nat -> ~ In DisableMonitor acts.
Proof.
  unfold give_ups. intros H Hin.
  assert (Hf : In DisableMonitor
                 (List.filter (fun a => match a with
                                        | DisableMonitor => true
                                        | _ => false
                                        end) acts)).
  { apply filter_In. split; [exact Hin | reflexivity]. }
  destruct (List.filter _ acts); [destruct Hf | discriminate].
Qed.

Lemma mild_hello_response kw c : mild (hello_response kw c) c.
Proof.
  unfold mild, hello_response.
  destruct (running_event (set_hello_response_event true c)); cbn [fst snd];
    rewrite !give_ups_app, !give_ups_Signal_send; split; reflexivity.
Qed.

Lemma mild_onconnected_receivers rs kw : forall c,
  mild (onconnected_receivers rs kw c) c.
Proof.
  induction rs as [|r rs IH]; intros c; [split; reflexivity|].
  rewrite VipLaws.onconnected_receivers_cons.
  assert (Hr : forall c1 a1,
            give_ups a1 = 0%nat ->
            _reconnect_attempt c1 = _reconnect_attempt c ->
            mild (let '(c2, a2) := onconnected_receivers rs kw c1 in
                  (c2, a1 ++ a2)) c).
  { intros c1 a1 Ha Hs. destruct (IH c1) as [I1 I2].
    destruct (onconnected_receivers rs kw c1) as [c2 a2].
    unfold mild. cbn [fst snd] in *.
    rewrite give_ups_app, Ha, I1, I2, Hs. split; reflexivity. }
  destruct r; try (apply Hr; reflexivity).
  destruct (mild_hello_response kw c) as [H1 H2].
  destruct (hello_response kw c) as [c1 a]. cbn [fst snd] in *.
  apply Hr; [exact H1 | exact H2].
Qed.

Lemma mild_onconnected_send kw c : mild (onconnected_send kw c) c.
Proof.
  unfold onconnected_send.
  destruct (mild_onconnected_receivers (signal "onconnected" c) kw c) as [H1 H2].
  destruct (onconnected_receivers (signal "onconnected" c) kw c) as [c1 a].
  unfold mild. cbn [fst snd] in *. split; assumption.
Qed.

Lemma mild_stop timeout shutdown c : mild (stop timeout shutdown c) c.
Proof.
  unfold mild, stop. cbn [fst snd]. split; [|reflexivity].
  destruct (connected c && negb shutdown); reflexivity.
Qed.

Lemma mild_check_timeout c : mild (connection_failed_check_timeout c) c.
Proof.
  unfold connection_failed_check_timeout.
  destruct (mild_stop (Some 10%Q) false c) as [H1 H2].
  destruct (stop (Some 10%Q) false c) as [c1 acts].
  unfold mild. cbn [fst snd] in *. split; [|exact H2].
  change (give_ups acts = 0%nat). exact H1.
Qed.

Lemma mild_time_out n : forall c, mild (time_out n c) c.
Proof.
  induction n as [|n IH]; intros c; [split; reflexivity|].
  rewrite VipFacts.time_out_S.
  destruct (mild_check_timeout c) as [H1 H2].
  destruct (connection_failed_check_timeout c) as [c1 a1].
  destruct (IH c1) as [I1 I2].
  destruct (time_out n c1) as [c2 a2]. unfold mild. cbn [fst snd] in *.
  rewrite give_ups_app, H1, I1, I2, H2. split; reflexivity.
Qed.

Lemma mild_elapse t c : mild (elapse t c) c.
Proof.
  unfold elapse. destruct (Qle_bool (now c) t); [|split; reflexivity].
  apply (mild_time_out _
           (set_waiting_checks
              (List.filter (fun d => negb (expired t d)) (waiting_checks c))
              (set_now t c))).
Qed.

Lemma mild_hello c : mild (hello c) c.
Proof.
  unfold mild, hello. cbn [fst snd].
  destruct (hello_response_event _); split; reflexivity.
Qed.

Section Retries.

Variable truth : Signal -> bool.
Variable INVALID : list value.

Lemma give_ups_call_handler h message c :
  give_ups (call_handler truth h message c) = 0%nat.
Proof.
  destruct h; [|reflexivity]. unfold call_handler, handle_error.
  destruct (length (args message) <? 4)%nat; [reflexivity|].
  destruct (truth (signal "onviperror" c)); [|reflexivity].
  apply give_ups_Signal_send.
Qed.

Lemma mild_zmq_vip_loop r c :
  mild (core_after (zmq_vip_loop truth INVALID r c),
        emitted (zmq_vip_loop truth INVALID r c)) c.
Proof.
  destruct r as [message | | |]; cbn [zmq_vip_loop core_after emitted];
    try (split; reflexivity).
  destruct (is_welcome (state c) message).
  - destruct (mild_onconnected_send (welcome_kwargs message)
                (set_connected true c)) as [H1 H2].
    destruct (onconnected_send (welcome_kwargs message) (set_connected true c))
      as [c2 a]. unfold mild. cbn [fst snd core_after emitted] in *.
    split; assumption.
  - destruct (subsystems c !! subsystem message) as [h|];
      unfold mild; cbn [fst snd core_after emitted];
      [|split; reflexivity].
    split; [apply give_ups_call_handler | reflexivity].
Qed.

Lemma mild_rmq_vip_loop r c :
  mild (core_after (rmq_vip_loop truth INVALID r c),
        emitted (rmq_vip_loop truth INVALID r c)) c.
Proof.
  destruct r as [message | |]; cbn [rmq_vip_loop core_after emitted];
    try (split; reflexivity).
  assert (Hd : forall o,
            o = match subsystems c !! subsystem message with
                | None =>
                    {| core_after := c;
                       emitted := [Log "peer requested unknown subsystem";
                                   SendVip (unknown_subsystem_reply INVALID message)];
                       next_flow := Continue;
                       message_after := Some (unknown_subsystem_reply INVALID message) |}
                | Some handle =>
                    {| core_after := c;
                       emitted := call_handler truth handle message c;
                       next_flow := Continue; message_after := Some message |}
                end ->
            mild (core_after o, emitted o) c).
  { intros o ->. destruct (subsystems c !! subsystem message) as [h|];
      unfold mild; cbn [fst snd core_after emitted];
      [|split; reflexivity].
    split; [apply give_ups_call_handler | reflexivity]. }
  destruct (String.eqb (subsystem message) "hello");
    [|apply Hd; reflexivity].
  destruct (is_welcome (state c) message); [|apply Hd; reflexivity].
  destruct (mild_onconnected_send (welcome_kwargs message)
              (set_connected true c)) as [H1 H2].
  destruct (onconnected_send (welcome_kwargs message) (set_connected true c))
    as [c2 a]. unfold mild. cbn [fst snd core_after emitted] in *.
  split; assumption.
Qed.

(** A turn that counts no retry. *)
Lemma step_uncounted c i :
  counts_retry c i = false -> mild (step truth INVALID c i) c.
Proof.
  intros Hn. destruct i as [r | r | r | | | t]; cbn [step].
  - destruct (vip_loop_alive c); [|split; reflexivity].
    apply mild_zmq_vip_loop.
  - destruct (vip_loop_alive c); [|split; reflexivity].
    apply mild_rmq_vip_loop.
  - cbn [counts_retry] in Hn.
    destruct (monitor_alive c); [|split; reflexivity].
    destruct r as [event | |]; try (split; reflexivity).
    cbn [andb] in Hn. unfold monitor. cbv zeta.
    destruct (masked event EVENT_CONNECTED).
    { destruct (mild_hello c) as [H1 H2]. destruct (hello c) as [c1 a].
      unfold mild. cbn [fst snd] in *.
      rewrite give_ups_app, give_ups_Signal_send, H1. split; [reflexivity|].
      exact H2. }
    destruct (masked event EVENT_DISCONNECTED).
    { split; [apply give_ups_Signal_send | reflexivity]. }
    destruct (masked event EVENT_CONNECT_RETRIED); [discriminate|].
    destruct (masked event EVENT_MONITOR_STOPPED);
      (split; [apply give_ups_Signal_send | reflexivity]).
  - apply mild_hello.
  - unfold connection_error.
    destruct (mild_stop None false (set_connected false c)) as [H1 H2].
    destruct (stop None false (set_connected false c)) as [c2 a].
    unfold mild. cbn [fst snd] in *.
    rewrite give_ups_app, H1, give_ups_Signal_send. split; [reflexivity|].
    exact H2.
  - apply mild_elapse.
Qed.

(** A turn that counts a retry is a turn of the monitor on an event
    that gets to the third test. *)
Lemma step_counted c i :
  counts_retry c i = true ->
  exists event,
    i = Monitor (MonitorMessage event)
    /\ step truth INVALID c i
       = (let sockevent := Signal_send "onsockevent" (KwEvent event) c in
          let c1 := set_reconnect_attempt (_reconnect_attempt c + 1) c in
          if (_reconnect_attempt c + 1 =? 50)%nat then
            let c3 := set_stop_event true (set_connected false c1) in
            (c3, sockevent ++ [DisableMonitor; Stop None]
                   ++ Signal_send "ondisconnected" NoKw c3)
          else (c1, sockevent)).
Proof.
  intros Hc. destruct i as [r | r | r | | | t]; try discriminate.
  destruct r as [event | |]; try discriminate.
  cbn [counts_retry] in Hc.
  apply andb_true_iff in Hc as [Hc H3].
  apply andb_true_iff in Hc as [Hc H2].
  apply andb_true_iff in Hc as [H0 H1].
  apply negb_true_iff in H1, H2.
  exists event. split; [reflexivity|].
  cbn [step]. rewrite H0. unfold monitor. cbv zeta. rewrite H1, H2, H3.
  reflexivity.
Qed.

Lemma step_attempt c i :
  _reconnect_attempt (fst (step truth INVALID c i))
  = (_reconnect_attempt c + if counts_retry c i then 1 else 0)%nat.
Proof.
  destruct (counts_retry c i) eqn:E.
  - destruct (step_counted c i E) as (event & _ & ->). cbv zeta.
    destruct (_reconnect_attempt c + 1 =? 50)%nat; reflexivity.
  - rewrite (proj2 (step_uncounted c i E)). lia.
Qed.

Lemma step_give_ups c i :
  give_ups (snd (step truth INVALID c i))
  = if counts_retry c i && (_reconnect_attempt c =? 49)%nat then 1%nat
    else 0%nat.
Proof.
  destruct (counts_retry c i) eqn:E; cbn [andb].
  - destruct (step_counted c i E) as (event & _ & ->). cbv zeta.
    destruct (_reconnect_attempt c =? 49)%nat eqn:E49.
    + apply Nat.eqb_eq in E49. rewrite E49. cbn [Nat.add Nat.eqb snd].
      rewrite !give_ups_app, !give_ups_Signal_send. reflexivity.
    + apply Nat.eqb_neq in E49.
      destruct (_reconnect_attempt c + 1 =? 50)%nat eqn:E50;
        [apply Nat.eqb_eq in E50; lia|].
      apply give_ups_Signal_send.
  - apply (step_uncounted c i E).
Qed.

Lemma retries_cons (x : Core * input * list action) tr :
  retries (x :: tr)
  = ((if counts_retry (fst (fst x)) (snd (fst x)) then 1 else 0)
     + retries tr)%nat.
Proof.
  unfold retries. cbn [List.filter].
  destruct (counts_retry (fst (fst x)) (snd (fst x))); reflexivity.
Qed.

(** Over a run the counter grows by the retries counted, and the
    monitor is disabled when the counter passes from 49 to 50. *)
Lemma trace_attempts ins : forall c,
  let done := trace truth INVALID c ins in
  _reconnect_attempt (snd done)
  = (_reconnect_attempt c + retries (fst done))%nat
  /\ give_ups (effects (fst done))
     = (if (_reconnect_attempt c <? 50)%nat
           && (50 <=? _reconnect_attempt (snd done))%nat
        then 1 else 0)%nat
  /\ ((_reconnect_attempt c < 50)%nat ->
      (50 <= _reconnect_attempt (snd done))%nat ->
      _stop_event (snd done) = true).
Proof.
  induction ins as [|i ins IH]; intros c.
  { cbn [trace fst snd retries List.filter length effects map concat give_ups].
    split; [lia|]. split; [|intros; lia].
    destruct (_reconnect_attempt c <? 50)%nat eqn:E; [|reflexivity].
    apply Nat.ltb_lt in E.
    destruct (50 <=? _reconnect_attempt c)%nat eqn:E'; [|reflexivity].
    apply Nat.leb_le in E'. lia. }
  cbv zeta. rewrite VipLaws.trace_cons. cbn [fst snd].
  rewrite VipLaws.effects_cons, retries_cons. cbn [fst snd].
  rewrite give_ups_app, step_give_ups.
  pose proof (step_attempt c i) as Ha.
  destruct (IH (fst (step truth INVALID c i))) as (I1 & I2 & I3).
  cbv zeta in I1, I2, I3.
  set (c1 := fst (step truth INVALID c i)) in *.
  set (c2 := snd (trace truth INVALID c1 ins)) in *.
  assert (Hmono : (_reconnect_attempt c1 <= _reconnect_attempt c2)%nat)
    by lia.
  split; [lia|]. split.
  - rewrite I2.
    destruct (counts_retry c i); cbn [andb] in *.
    + destruct (_reconnect_attempt c =? 49)%nat eqn:E49.
      * apply Nat.eqb_eq in E49.
        assert (E1 : (_reconnect_attempt c1 <? 50)%nat = false)
          by (apply Nat.ltb_ge; lia).
        assert (E2 : (_reconnect_attempt c <? 50)%nat = true)
          by (apply Nat.ltb_lt; lia).
        assert (E3 : (50 <=? _reconnect_attempt c2)%nat = true)
          by (apply Nat.leb_le; lia).
        rewrite E1, E2, E3. reflexivity.
      * apply Nat.eqb_neq in E49.
        assert (E1 : (_reconnect_attempt c1 <? 50)%nat
                     = (_reconnect_attempt c <? 50)%nat).
        { destruct (_reconnect_attempt c <? 50)%nat eqn:E.
          - apply Nat.ltb_lt in E. apply Nat.ltb_lt. lia.
          - apply Nat.ltb_ge in E. apply Nat.ltb_ge. lia. }
        rewrite E1. reflexivity.
    + replace (_reconnect_attempt c1) with (_reconnect_attempt c) by lia.
      reflexivity.
  - intros Hlt Hge.
    destruct (Nat.lt_ge_cases (_reconnect_attempt c1) 50) as [H1 | H1].
    + apply I3; assumption.
    + (* this turn brought the counter to 50 *)
      assert (Hstop : _stop_event c1 = true).
      { destruct (counts_retry c i) eqn:E; [|lia].
        unfold c1. destruct (step_counted c i E) as (event & _ & ->).
        cbv zeta.
        assert (E50 : (_reconnect_attempt c + 1 =? 50)%nat = true)
          by (apply Nat.eqb_eq; lia).
        rewrite E50. reflexivity. }
      clear -Hstop. unfold c2. revert Hstop. generalize c1.
      induction ins as [|j ins IHins]; intros c0 Hs; [exact Hs|].
      rewrite VipLaws.trace_cons. cbn [snd]. apply IHins.
      apply VipFacts.stop_event_stays. exact Hs.
Qed.

(** C4: the retry counter in any run of a core.  Whatever the monitor,
    the receive loops, the broker and the clock bring, in whatever
    order: a turn adds one to the counter exactly when it is a turn of
    the running monitor on an event with the retry bit and without the
    connected and disconnected bits, and nothing ever takes the counter
    down, a welcome included; so the counter is the number of retries
    since the core was made.  The retry that brings it to 50 clears
    [connected], disables the monitor, calls [stop()], which sets the
    stop event, and emits [ondisconnected]; every other retry only
    counts, and no other turn disables the monitor.  So a core gives up
    once, when the fiftieth retry of its life is reported, and its stop
    event stays set; in particular after at most fifty retries in a
    row. *)
Theorem reconnect_attempts_bounded (c : Core) (ins : list input) :
  let done := trace truth INVALID c ins in
  _reconnect_attempt (snd done)
  = (_reconnect_attempt c + retries (fst done))%nat
  /\ give_ups (effects (fst done))
     = (if (_reconnect_attempt c <? 50)%nat
           && (50 <=? _reconnect_attempt (snd done))%nat
        then 1 else 0)%nat
  /\ ((_reconnect_attempt c < 50)%nat ->
      (50 <= _reconnect_attempt (snd done))%nat ->
      _stop_event (snd done) = true)
  /\ (forall c0 i acts, In (c0, i, acts) (fst done) ->
        let c1 := fst (step truth INVALID c0 i) in
        _reconnect_attempt c1
        = (_reconnect_attempt c0 + if counts_retry c0 i then 1 else 0)%nat
        /\ (counts_retry c0 i = true -> _reconnect_attempt c0 = 49%nat ->
            connected c1 = false /\ _stop_event c1 = true
            /\ exists event,
                 i = Monitor (MonitorMessage event)
                 /\ acts = Signal_send "onsockevent" (KwEvent event) c0
                           ++ [DisableMonitor; Stop None]
                           ++ Signal_send "ondisconnected" NoKw c1)
        /\ (counts_retry c0 i = true -> _reconnect_attempt c0 <> 49%nat ->
            c1 = set_reconnect_attempt (_reconnect_attempt c0 + 1) c0
            /\ exists event,
                 i = Monitor (MonitorMessage event)
                 /\ acts = Signal_send "onsockevent" (KwEvent event) c0)
        /\ (counts_retry c0 i = false -> ~ In DisableMonitor acts))
  /\ (monitor_alive c = true -> (_reconnect_attempt c < 50)%nat ->
      let row := trace truth INVALID c (repeat retry 50) in
      connected (snd row) = false
      /\ _stop_event (snd row) = true
      /\ stops (effects (fst row)) = 1%nat
      /\ emissions "ondisconnected" (effects (fst row)) = 1%nat).
Proof.
  intros done.
  destruct (trace_attempts ins c) as (H1 & H2 & H3). fold done in H1, H2, H3.
  split; [exact H1|]. split; [exact H2|]. split; [exact H3|]. split.
  - intros c0 i acts Hin c1.
    pose proof (VipFacts.trace_step truth INVALID c ins c0 i acts Hin) as Hacts.
    split; [apply step_attempt|]. split; [|split].
    + intros Hc H49. destruct (step_counted c0 i Hc) as (event & Hi & Hs).
      cbv zeta in Hs. rewrite H49 in Hs. cbn [Nat.add Nat.eqb] in Hs.
      unfold c1. rewrite Hacts, Hs. cbn [fst snd].
      split; [reflexivity|]. split; [reflexivity|].
      exists event. split; [exact Hi | reflexivity].
    + intros Hc H49. destruct (step_counted c0 i Hc) as (event & Hi & Hs).
      cbv zeta in Hs.
      destruct (_reconnect_attempt c0 + 1 =? 50)%nat eqn:E50;
        [apply Nat.eqb_eq in E50; lia|].
      unfold c1. rewrite Hacts, Hs. cbn [fst snd].
      split; [reflexivity|]. exists event. split; [exact Hi | reflexivity].
    + intros Hc. rewrite Hacts. apply give_ups_In.
      apply (step_uncounted c0 i Hc).
  - intros Ha Hlt. cbv zeta.
    pose (n := (50 - _reconnect_attempt c)%nat).
    assert (Hsplit : repeat retry 50
                     = repeat retry n ++ repeat retry (_reconnect_attempt c)).
    { rewrite <- repeat_app. f_equal. unfold n. lia. }
    rewrite Hsplit, VipFacts.trace_app.
    destruct (VipFacts.retries_reach truth INVALID c n Ha)
      as (R1 & R2 & R3 & R4 & R5 & R6 & _);
      [unfold n; lia | unfold n; lia |].
    destruct (trace truth INVALID c (repeat retry n)) as [tr1 c1].
    cbn [fst snd] in *.
    destruct (VipFacts.retries_above truth INVALID c1 (_reconnect_attempt c) R4)
      as (_ & G2 & G3 & G4 & G5); [lia|].
    destruct (trace truth INVALID c1 (repeat retry (_reconnect_attempt c)))
      as [tr2 c2].
    cbn [fst snd] in *.
    rewrite VipFacts.effects_app, VipFacts.stops_app, VipFacts.emissions_app,
      R5, R6, G2, G3, G4, G5.
    repeat split; assumption.
Qed.

End Retries.

(** C4, the claim refuted: the retries need not be consecutive.  A core
    over tcp sees 49 retries, then connects and is welcomed; when the
    connection is lost later, the first retry makes the core give
    up. *)
Lemma one_retry_after_a_welcome_gives_up :
  let started :=
    fst (run_start Core_class zmq_loop_start
           (Core_init "agent" "tcp://127.0.0.1:22916" None)) in
  let welcome :=
    {| peer := ""; subsystem := "hello"; id := "connect.hello.0"; user := "";
       args := [VStr "welcome"; VStr "1.0"; VStr "router"; VStr "agent"] |} in
  let failing := trace object_truth [] started (repeat retry 49) in
  let linked :=
    trace object_truth [] (snd failing)
      [Monitor (MonitorMessage EVENT_CONNECTED); ZmqRecv (Received welcome)] in
  let lost :=
    trace object_truth [] (snd linked)
      [Monitor (MonitorMessage EVENT_DISCONNECTED); retry] in
  (connected (snd linked) = true /\ _stop_event (snd linked) = false
   /\ give_ups (effects (fst failing) ++ effects (fst linked)) = 0%nat
   /\ stops (effects (fst failing) ++ effects (fst linked)) = 0%nat)
  /\ retries (fst lost) = 1%nat
  /\ (connected (snd lost) = false /\ _stop_event (snd lost) = true
      /\ give_ups (effects (fst lost)) = 1%nat
      /\ stops (effects (fst lost)) = 1%nat
      /\ emissions "ondisconnected" (effects (fst lost)) = 1%nat).
Proof. vm_compute. repeat split. Qed.

(** C4 on a run in which a welcome comes between the retries. *)
Lemma reconnect_attempts_bounded_witness :
  let started :=
    fst (run_start Core_class zmq_loop_start
           (Core_init "agent" "tcp://127.0.0.1:22916" None)) in
  let welcome :=
    {| peer := ""; subsystem := "hello"; id := "connect.hello.0"; user := "";
       args := [VStr "welcome"; VStr "1.0"; VStr "router"; VStr "agent"] |} in
  let ins :=
    repeat retry 30
      ++ [Monitor (MonitorMessage EVENT_CONNECTED); ZmqRecv (Received welcome);
          Elapse 60%Q; Monitor (MonitorMessage EVENT_DISCONNECTED)]
      ++ repeat retry 25 in
  let done := trace object_truth [] started ins in
  _reconnect_attempt (snd done) = (0 + retries (fst done))%nat
  /\ give_ups (effects (fst done)) = 1%nat
  /\ _stop_event (snd done) = true.
Proof.
  cbv zeta.
  pose proof (reconnect_attempts_bounded object_truth []
                (fst (run_start Core_class zmq_loop_start
                        (Core_init "agent" "tcp://127.0.0.1:22916" None)))
                (repeat retry 30
                   ++ [Monitor (MonitorMessage EVENT_CONNECTED);
                       ZmqRecv (Received
                         {| peer := ""; subsystem := "hello";
                            id := "connect.hello.0"; user := "";
                            args := [VStr "welcome"; VStr "1.0";
                                     VStr "router"; VStr "agent"] |});
                       Elapse 60%Q;
                       Monitor (MonitorMessage EVENT_DISCONNECTED)]
                   ++ repeat retry 25)) as (H1 & H2 & H3 & _).
  split; [exact H1|]. split.
  - rewrite H2. vm_compute. reflexivity.
  - apply H3; vm_compute; lia.
Defined.

End VipRetries.

Module PeersLaws.

Import Vip Peers.

Section Json.

Variable jsonapi_loads : value -> option value.

Local Ltac same := repeat split; first [reflexivity | tauto | lia].

(** What a turn leaves alone: the future of an ident handed out
    earlier, when the input is not about it or it is no longer
    pending. *)
Lemma step_frame (ident : string) (k : nat) (p : PeerList) (i : input) :
  ident = pretty k -> (k < counter p)%nat ->
  concerns ident i = false \/ ident ∉ _results p ->
  results (step jsonapi_loads p i) !! ident = results p !! ident
  /\ (ident ∈ _results (step jsonapi_loads p i) <-> ident ∈ _results p)
  /\ (counter p <= counter (step jsonapi_loads p i))%nat.
Proof.
  intros Hid Hk Hcase.
  assert (Hpop : forall key p1 r v,
            ResultsDictionary_pop key p = Some (r, p1) ->
            (key <> ident \/ ident ∉ _results p) ->
            results (result_set r v p1) !! ident = results p !! ident
            /\ (ident ∈ _results (result_set r v p1) <-> ident ∈ _results p)
            /\ results p1 !! ident = results p !! ident
            /\ (ident ∈ _results p1 <-> ident ∈ _results p)
            /\ counter p1 = counter p).
  { intros key p1 r v Hp Hor.
    apply PeersFacts.pop_removes in Hp as (Hin & -> & Hr & Hs & Hc).
    assert (Hne : key <> ident).
    { destruct Hor as [H | H]; [exact H|]. intros ->. contradiction. }
    simpl. rewrite Hr, Hs, Hc.
    rewrite lookup_alter_ne by exact Hne.
    assert (Hiff : ident ∈ _results p ∖ {[key]} <-> ident ∈ _results p).
    { rewrite elem_of_difference, elem_of_singleton. split; [tauto|].
      intros H. split; [exact H | congruence]. }
    repeat split; try reflexivity; apply Hiff. }
  destruct i as [how | message | message error | key]; simpl in *.
  - assert (Hne : pretty (counter p) <> ident).
    { rewrite Hid. intros Heq. apply (inj pretty) in Heq. lia. }
    rewrite lookup_insert_ne by exact Hne.
    split; [reflexivity|]. split; [|lia].
    rewrite elem_of_union, elem_of_singleton. split; [|tauto].
    intros [H | H]; [congruence | exact H].
  - assert (Hor : id message <> ident \/ ident ∉ _results p).
    { destruct Hcase as [H | H]; [left | right; exact H].
      apply String.eqb_neq. exact H. }
    unfold _handle_subsystem.
    destruct (args message) as [|op rest]; [same|].
    destruct (is_op op "add" || is_op op "drop").
    { destruct rest as [|peer rest']; [same|].
      destruct (is_op op "add"); [same|].
      destruct (decide (peer ∈ peers_list p)); same. }
    destruct (is_op op "listing").
    { destruct (ResultsDictionary_pop (id message) p) as [[r p1]|] eqn:E;
        [|same].
      destruct (Hpop _ _ _ (Value rest) E Hor) as (H1 & H2 & _ & _ & H5).
      simpl. simpl in H1, H2. rewrite H5. split; [exact H1|].
      split; [exact H2 | lia]. }
    destruct (is_op op "listing_with_messagebus");
      [|same].
    destruct (ResultsDictionary_pop (id message) p) as [[r p1]|] eqn:E;
      [|same].
    destruct (Hpop _ _ _ (Value []) E Hor) as (_ & _ & H3 & H4 & H5).
    destruct rest as [|text rest'].
    { simpl. rewrite H5. split; [exact H3|]. split; [exact H4 | lia]. }
    destruct (jsonapi_loads text) as [v|].
    + destruct (Hpop _ _ _ (Loaded v) E Hor) as (H1 & H2 & _).
      simpl. simpl in H1, H2. rewrite H5. split; [exact H1|].
      split; [exact H2 | lia].
    + simpl. rewrite H5. split; [exact H3|]. split; [exact H4 | lia].
  - assert (Hor : id message <> ident \/ ident ∉ _results p).
    { destruct Hcase as [H | H]; [left | right; exact H].
      apply String.eqb_neq. exact H. }
    unfold _handle_error.
    destruct (ResultsDictionary_pop (id message) p) as [[r p1]|] eqn:E;
      [|same].
    destruct (Hpop _ _ _ (Exception error) E Hor) as (H1 & H2 & _ & _ & H5).
    simpl. simpl in H1, H2. rewrite H5. split; [exact H1|].
    split; [exact H2 | lia].
  - split; [reflexivity|]. split; [|lia].
    rewrite elem_of_difference, elem_of_singleton. split; [tauto|].
    intros H. split; [exact H|]. intros ->.
    destruct Hcase as [Hc | Hc]; [|contradiction].
    rewrite String.eqb_refl in Hc. discriminate.
Qed.

(** Traffic that is not about a future leaves it as it is. *)
Lemma run_frame (ident : string) (k : nat) (ins : list input) (p : PeerList) :
  ident = pretty k -> (k < counter p)%nat ->
  forallb (fun i => negb (concerns ident i)) ins = true ->
  results (run jsonapi_loads ins p) !! ident = results p !! ident
  /\ (ident ∈ _results (run jsonapi_loads ins p) <-> ident ∈ _results p)
  /\ (counter p <= counter (run jsonapi_loads ins p))%nat.
Proof.
  intros Hid. revert p. induction ins as [|i ins IH]; intros p Hk Hall.
  { simpl. same. }
  simpl in Hall. apply andb_true_iff in Hall as [Hi Hall].
  apply negb_true_iff in Hi.
  destruct (step_frame ident k p i Hid Hk (or_introl Hi)) as (H1 & H2 & H3).
  simpl.
  destruct (IH (step jsonapi_loads p i)) as (G1 & G2 & G3); [lia | exact Hall|].
  rewrite G1, G2, H1, H2. same.
Qed.

(** A future that is no longer pending is never touched again. *)
Lemma run_settled (ident : string) (k : nat) (ins : list input) (p : PeerList) :
  ident = pretty k -> (k < counter p)%nat -> ident ∉ _results p ->
  results (run jsonapi_loads ins p) !! ident = results p !! ident
  /\ ident ∉ _results (run jsonapi_loads ins p).
Proof.
  intros Hid. revert p. induction ins as [|i ins IH]; intros p Hk Hnot.
  { simpl. split; [reflexivity | exact Hnot]. }
  destruct (step_frame ident k p i Hid Hk (or_intror Hnot)) as (H1 & H2 & H3).
  simpl.
  destruct (IH (step jsonapi_loads p i)) as (G1 & G2); [lia | tauto|].
  rewrite G1, H1. split; [reflexivity | exact G2].
Qed.

Lemma is_op_spec (op : value) (name : string) :
  is_op op name = true <-> op = VStr name.
Proof.
  split; [apply PeersFacts.is_op_eq|]. intros ->. simpl.
  apply String.eqb_refl.
Qed.

Lemma pop_pending (key : string) (p : PeerList) :
  key ∈ _results p ->
  ResultsDictionary_pop key p
  = Some (key, {| _results := _results p ∖ {[ key ]}; results := results p;
                  counter := counter p; peers_list := peers_list p |}).
Proof.
  intros H. unfold ResultsDictionary_pop.
  destruct (decide (key ∈ _results p)); [reflexivity | contradiction].
Qed.

(** X8: an [add] or [drop] frame that names a peer: the handler returns,
    emits [onadd] (or [ondrop]) once, with the message bus only when the
    frame carries a non-empty one, and leaves the pending results alone;
    after [add] the peer is in [peers_list], after [drop] it is not, and
    no other peer comes or goes; [drop] after [add] leaves the list
    without the peer. *)
Theorem peers_list_tracks_add_and_drop (m : Message) (peer : value)
    (rest : list value) (p : PeerList) :
  let bus :=
    match rest with
    | b :: _ => if truthy b then Some b else None
    | [] => None
    end in
  let added :=
    _handle_subsystem jsonapi_loads (set_args (VStr "add" :: peer :: rest) m) p in
  let dropped :=
    _handle_subsystem jsonapi_loads (set_args (VStr "drop" :: peer :: rest) m) p in
  let both :=
    _handle_subsystem jsonapi_loads (set_args (VStr "drop" :: peer :: rest) m)
      (fst (fst added)) in
  (added.2 = Returns /\ added.1.2 = [PSignal "onadd" peer bus]
   /\ (forall q, q ∈ peers_list added.1.1 <-> q = peer \/ q ∈ peers_list p)
   /\ _results added.1.1 = _results p /\ results added.1.1 = results p)
  /\ (dropped.2 = Returns /\ dropped.1.2 = [PSignal "ondrop" peer bus]
      /\ (forall q, q ∈ peers_list dropped.1.1
                    <-> q <> peer /\ q ∈ peers_list p)
      /\ _results dropped.1.1 = _results p /\ results dropped.1.1 = results p)
  /\ peers_list both.1.1 = peers_list p ∖ {[ peer ]}.
Proof.
  intros bus added dropped both.
  assert (Hbus : forall onop,
            match head rest with
            | Some b => if truthy b then [PSignal onop peer (Some b)]
                        else [PSignal onop peer None]
            | None => [PSignal onop peer None]
            end = [PSignal onop peer bus]).
  { intros onop. unfold bus. destruct rest as [|b rest']; [reflexivity|].
    simpl. destruct (truthy b); reflexivity. }
  assert (Ea : added = (set_peers_list ({[ peer ]} ∪ peers_list p) p,
                        [PSignal "onadd" peer bus], Returns)).
  { unfold added, _handle_subsystem. simpl. rewrite Hbus. reflexivity. }
  assert (Ed : forall p0,
            _handle_subsystem jsonapi_loads
              (set_args (VStr "drop" :: peer :: rest) m) p0
            = (if decide (peer ∈ peers_list p0)
               then set_peers_list (peers_list p0 ∖ {[ peer ]}) p0 else p0,
               [PSignal "ondrop" peer bus], Returns)).
  { intros p0. unfold _handle_subsystem. simpl. rewrite Hbus.
    destruct (decide (peer ∈ peers_list p0)); reflexivity. }
  split; [|split].
  - rewrite Ea. simpl. repeat split; try reflexivity.
    + intros H. apply elem_of_union in H as [H | H]; [|right; exact H].
      left. apply elem_of_singleton in H. exact H.
    + intros [-> | H]; apply elem_of_union; [left | right; exact H].
      apply elem_of_singleton. reflexivity.
  - unfold dropped. rewrite Ed. simpl.
    destruct (decide (peer ∈ peers_list p)) as [Hin | Hin]; simpl;
      repeat split; try reflexivity.
    + apply elem_of_difference in H as [_ H]. intros ->. apply H.
      apply elem_of_singleton. reflexivity.
    + apply elem_of_difference in H as [H _]. exact H.
    + intros [Hne H]. apply elem_of_difference. split; [exact H|].
      intros Hq. apply elem_of_singleton in Hq. contradiction.
    + intros ->. contradiction.
    + exact H.
    + tauto.
  - unfold both. rewrite Ed, Ea. simpl.
    destruct (decide (peer ∈ {[ peer ]} ∪ peers_list p)) as [Hin | Hin]; simpl.
    + apply set_eq. intros q.
      rewrite !elem_of_difference, elem_of_union, elem_of_singleton. tauto.
    + exfalso. apply Hin. apply elem_of_union. left.
      apply elem_of_singleton. reflexivity.
Qed.

(** X9: the reply handler lets an exception out in one case only: a
    [listing_with_messagebus] frame whose id is pending and whose
    payload is missing or is not JSON.  The pending result has then been
    taken out of the table and has not been set.  The error handler
    always returns. *)
Theorem reply_handler_raises_only_on_bad_payload (message : Message)
    (p : PeerList) :
  (snd (_handle_subsystem jsonapi_loads message p) = Raises <->
   exists rest,
     args message = VStr "listing_with_messagebus" :: rest
     /\ id message ∈ _results p
     /\ match rest with
        | [] => True
        | text :: _ => jsonapi_loads text = None
        end)
  /\ (snd (_handle_subsystem jsonapi_loads message p) = Raises ->
      _results (fst (fst (_handle_subsystem jsonapi_loads message p)))
      = _results p ∖ {[ id message ]}
      /\ results (fst (fst (_handle_subsystem jsonapi_loads message p)))
         = results p)
  /\ (forall error, snd (_handle_error message error p) = Returns).
Proof.
  assert (Hmain :
    (snd (_handle_subsystem jsonapi_loads message p) = Raises ->
     (exists rest,
        args message = VStr "listing_with_messagebus" :: rest
        /\ id message ∈ _results p
        /\ match rest with
           | [] => True
           | text :: _ => jsonapi_loads text = None
           end)
     /\ _results (fst (fst (_handle_subsystem jsonapi_loads message p)))
        = _results p ∖ {[ id message ]}
     /\ results (fst (fst (_handle_subsystem jsonapi_loads message p)))
        = results p)
    /\ ((exists rest,
           args message = VStr "listing_with_messagebus" :: rest
           /\ id message ∈ _results p
           /\ match rest with
              | [] => True
              | text :: _ => jsonapi_loads text = None
              end) ->
        snd (_handle_subsystem jsonapi_loads message p) = Raises)).
  { split.
    - unfold _handle_subsystem.
      destruct (args message) as [|op rest]; [discriminate|].
      destruct (is_op op "add" || is_op op "drop").
      { destruct rest as [|peer rest']; [discriminate|].
        destruct (is_op op "add"); [discriminate|].
        destruct (decide (peer ∈ peers_list p)); discriminate. }
      destruct (is_op op "listing").
      { destruct (ResultsDictionary_pop (id message) p) as [[r p1]|];
          discriminate. }
      destruct (is_op op "listing_with_messagebus") eqn:Eop; [|discriminate].
      apply is_op_spec in Eop. subst op.
      destruct (ResultsDictionary_pop (id message) p) as [[r p1]|] eqn:E;
        [|discriminate].
      apply PeersFacts.pop_removes in E as (Hin & -> & Hr & Hs & Hc).
      destruct rest as [|text rest'].
      + intros _. simpl. split; [|split; assumption].
        exists []. repeat split. exact Hin.
      + destruct (jsonapi_loads text) as [v|] eqn:El; [discriminate|].
        intros _. simpl. split; [|split; assumption].
        exists (text :: rest'). repeat split; assumption.
    - intros (rest & Ha & Hin & Hrest).
      unfold _handle_subsystem. rewrite Ha. simpl.
      rewrite (pop_pending _ _ Hin).
      destruct rest as [|text rest']; [reflexivity|].
      rewrite Hrest. reflexivity. }
  destruct Hmain as [H1 H2].
  split; [split; [intros H; apply (H1 H) | exact H2]|].
  split; [intros H; apply (H1 H)|].
  intros error. unfold _handle_error.
  destruct (ResultsDictionary_pop (id message) p) as [[r p1]|]; reflexivity.
Qed.

(** X10: [list()] and its answer.  [list()] hands out a new future and
    gives [send_vip] a [list] frame that carries the future's ident:
    the frame goes out when the send succeeds; a [ZMQError] with errno
    [ENOTSOCK] leaves a log line instead, any other [ZMQError] nothing;
    the future is returned in every case.  When the [listing] frame with
    that id comes in, after any traffic that is not about this future,
    the handler returns, the future is set, once, to the peers the frame
    lists, [peers_list] becomes the set of those peers, and the id is no
    longer pending. *)
Theorem list_is_answered_by_its_listing (how : send_outcome) (p : PeerList)
    (ins : list input) (peers : list value) :
  let ident := fst (fst (PeerList_list how p)) in
  let p1 := snd (fst (PeerList_list how p)) in
  forallb (fun i => negb (concerns ident i)) ins = true ->
  let listing :=
    {| peer := ""; subsystem := "peerlist"; id := ident; user := "";
       args := VStr "listing" :: peers |} in
  let r := _handle_subsystem jsonapi_loads listing (run jsonapi_loads ins p1) in
  snd (PeerList_list how p)
  = match how with
    | Sent => [PSendVip {| peer := ""; subsystem := "peerlist"; id := ident;
                           user := ""; args := [VStr "list"] |}]
    | SendEnotsock => [PLog "Socket send on non socket"]
    | SendOtherError => []
    end
  /\ (ident ∈ _results p1 /\ results p1 !! ident = Some AsyncResult_init
      /\ ident = fst (fst (PeerList_list Sent p))
      /\ p1 = snd (fst (PeerList_list Sent p)))
  /\ snd r = Returns
  /\ results (fst (fst r)) !! ident
     = Some {| content := Some (Value peers); completions := 1 |}
  /\ peers_list (fst (fst r)) = list_to_set peers
  /\ ident ∉ _results (fst (fst r)).
Proof.
  intros ident p1 Hall listing r.
  split; [destruct how; reflexivity|].
  split.
  { split; [|split; [|split; reflexivity]].
    - simpl. apply elem_of_union. left. apply elem_of_singleton. reflexivity.
    - simpl. apply lookup_insert_eq. }
  destruct (run_frame ident (counter p) ins p1 eq_refl) as (H1 & H2 & _);
    [simpl; lia | exact Hall|].
  assert (Hin : ident ∈ _results (run jsonapi_loads ins p1)).
  { apply H2. simpl. apply elem_of_union. left.
    apply elem_of_singleton. reflexivity. }
  assert (Hres : results (run jsonapi_loads ins p1) !! ident
                 = Some AsyncResult_init).
  { rewrite H1. simpl. apply lookup_insert_eq. }
  assert (Er : r = (set_peers_list (list_to_set peers)
                      (result_set ident (Value peers)
                         {| _results := _results (run jsonapi_loads ins p1) ∖ {[ ident ]};
                            results := results (run jsonapi_loads ins p1);
                            counter := counter (run jsonapi_loads ins p1);
                            peers_list := peers_list (run jsonapi_loads ins p1) |}),
                    [], Returns)).
  { unfold r, _handle_subsystem. simpl.
    change (ResultsDictionary_pop (pretty (counter p)))
      with (ResultsDictionary_pop ident).
    rewrite (pop_pending _ _ Hin). reflexivity. }
  rewrite Er. simpl. split; [reflexivity|]. split; [|split; [reflexivity|]].
  - rewrite lookup_alter_eq, Hres. reflexivity.
  - intros H. apply elem_of_difference in H as [_ H]. apply H.
    apply elem_of_singleton. reflexivity.
Qed.

(** X11: a [listing_with_messagebus] frame that answers a pending
    [list_with_messagebus()] with no payload, or with one that is not
    JSON, makes the handler raise after the future has left the table:
    the future is not set then, and nothing that comes in later, a
    well-formed answer included, sets it. *)
Theorem bad_payload_loses_the_reply (how : send_outcome) (p : PeerList)
    (ins : list input) (rest : list value) (later : list input) :
  let ident := fst (fst (list_with_messagebus how p)) in
  let p1 := snd (fst (list_with_messagebus how p)) in
  forallb (fun i => negb (concerns ident i)) ins = true ->
  match rest with
  | [] => True
  | text :: _ => jsonapi_loads text = None
  end ->
  let reply :=
    {| peer := ""; subsystem := "peerlist"; id := ident; user := "";
       args := VStr "listing_with_messagebus" :: rest |} in
  let r := _handle_subsystem jsonapi_loads reply (run jsonapi_loads ins p1) in
  snd r = Raises
  /\ (ident ∉ _results (fst (fst r)))
  /\ results (run jsonapi_loads later (fst (fst r))) !! ident
     = Some AsyncResult_init.
Proof.
  intros ident p1 Hall Hrest reply r.
  destruct (run_frame ident (counter p) ins p1 eq_refl) as (H1 & H2 & H3);
    [simpl; lia | exact Hall|].
  assert (Hin : ident ∈ _results (run jsonapi_loads ins p1)).
  { apply H2. simpl. apply elem_of_union. left.
    apply elem_of_singleton. reflexivity. }
  assert (Hres : results (run jsonapi_loads ins p1) !! ident
                 = Some AsyncResult_init).
  { rewrite H1. simpl. apply lookup_insert_eq. }
  assert (Er : r = ({| _results := _results (run jsonapi_loads ins p1) ∖ {[ ident ]};
                       results := results (run jsonapi_loads ins p1);
                       counter := counter (run jsonapi_loads ins p1);
                       peers_list := peers_list (run jsonapi_loads ins p1) |},
                    [], Raises)).
  { unfold r, _handle_subsystem. simpl.
    change (ResultsDictionary_pop (pretty (counter p)))
      with (ResultsDictionary_pop ident).
    rewrite (pop_pending _ _ Hin).
    destruct rest as [|text rest']; [reflexivity|].
    rewrite Hrest. reflexivity. }
  rewrite Er. simpl.
  assert (Hnot : ident ∉ _results (run jsonapi_loads ins p1) ∖ {[ ident ]}).
  { intros H. apply elem_of_difference in H as [_ H]. apply H.
    apply elem_of_singleton. reflexivity. }
  split; [reflexivity|]. split; [exact Hnot|].
  destruct (run_settled ident (counter p) later
              {| _results := _results (run jsonapi_loads ins p1) ∖ {[ ident ]};
                 results := results (run jsonapi_loads ins p1);
                 counter := counter (run jsonapi_loads ins p1);
                 peers_list := peers_list (run jsonapi_loads ins p1) |}
              eq_refl) as [G1 _]; [simpl in *; lia | exact Hnot|].
  rewrite G1. exact Hres.
Qed.

End Json.

(** X10 with another request, whose send fails, and a stray error frame
    in between. *)
Lemma list_is_answered_by_its_listing_witness :
  results
    (fst (fst (_handle_subsystem (fun _ => None)
                 {| peer := ""; subsystem := "peerlist"; id := "0"; user := "";
                    args := [VStr "listing"; VStr "a"; VStr "b"] |}
                 (run (fun _ => None)
                    [Request SendEnotsock;
                     Error {| peer := ""; subsystem := "error"; id := "7";
                              user := ""; args := [] |} (from_errno [])]
                    (snd (fst (PeerList_list Sent PeerList_init))))))) !! "0"
  = Some {| content := Some (Value [VStr "a"; VStr "b"]); completions := 1 |}.
Proof.
  exact (proj1 (proj2 (proj2 (proj2
           (list_is_answered_by_its_listing (fun _ => None) Sent PeerList_init
              [Request SendEnotsock;
               Error {| peer := ""; subsystem := "error"; id := "7";
                        user := ""; args := [] |} (from_errno [])]
              [VStr "a"; VStr "b"] eq_refl))))).
Defined.

(** X11 on an answer without payload, followed by a well-formed one. *)
Lemma bad_payload_loses_the_reply_witness :
  results
    (run (fun _ => Some (VStr "peers"))
       [Reply {| peer := ""; subsystem := "peerlist"; id := "0"; user := "";
                 args := [VStr "listing_with_messagebus"; VStr "{}"] |}]
       (fst (fst (_handle_subsystem (fun _ => Some (VStr "peers"))
                    {| peer := ""; subsystem := "peerlist"; id := "0";
                       user := "";
                       args := [VStr "listing_with_messagebus"] |}
                    (run (fun _ => Some (VStr "peers")) []
                       (snd (fst (list_with_messagebus Sent PeerList_init)))))))) !! "0"
  = Some AsyncResult_init.
Proof.
  exact (proj2 (proj2
           (bad_payload_loses_the_reply (fun _ => Some (VStr "peers")) Sent
              PeerList_init [] []
              [Reply {| peer := ""; subsystem := "peerlist"; id := "0";
                        user := "";
                        args := [VStr "listing_with_messagebus"; VStr "{}"] |}]
              eq_refl I))).
Defined.

End PeersLaws.

Module AsyncFacts.

Import Async.

Lemma handle_async_loop_spec (fuel : nat) : forall calls greenlets,
  (length calls <= fuel)%nat ->
  handle_async_loop fuel calls greenlets = ([], greenlets ++ rev calls).
Proof.
  induction fuel as [|fuel IH]; intros calls greenlets Hlen.
  - destruct calls; [|simpl in Hlen; lia]. simpl. rewrite app_nil_r. reflexivity.
  - destruct calls as [|x l _] using rev_ind.
    + simpl. rewrite app_nil_r. reflexivity.
    + simpl. rewrite last_snoc, removelast_last.
      rewrite length_app in Hlen. simpl in Hlen.
      rewrite IH by lia. rewrite rev_unit, <- app_assoc. reflexivity.
Qed.

Lemma handle_async_spec c :
  handle_async_ c
  = {| _async_calls := []; async_pending := async_pending c;
       spawned := spawned c ++ rev (_async_calls c) |}.
Proof.
  unfold handle_async_. rewrite handle_async_loop_spec by apply le_n.
  reflexivity.
Qed.

Lemma sends_spec (fs : list nat) : forall c,
  _async_calls (fold_left (fun c f => send f c) fs c) = _async_calls c ++ fs
  /\ spawned (fold_left (fun c f => send f c) fs c) = spawned c
  /\ async_pending (fold_left (fun c f => send f c) fs c)
     = (async_pending c || negb (Nat.eqb (length fs) 0)).
Proof.
  induction fs as [|f fs IH]; intros c.
  - simpl. rewrite app_nil_r, orb_false_r. repeat split.
  - simpl. destruct (IH (send f c)) as (H1 & H2 & H3).
    rewrite H1, H2, H3. simpl. rewrite <- app_assoc, orb_true_r.
    repeat split.
Qed.

(** X16: calls handed to the hub with [send] are spawned newest first.
    [handle_async_] empties the list of pending calls from its end:
    every call sent is spawned once, in the reverse of the order of the
    [send]s.  One run of the callback serves all the [send]s made before
    it, and a turn of the hub after it does nothing. *)
Theorem async_calls_spawn_newest_first (c : BasicCore) (f : nat)
    (fs : list nat) :
  let sent := fold_left (fun c f => send f c) (f :: fs) c in
  let c' := hub_turn sent in
  _async_calls c' = []
  /\ spawned c' = spawned c ++ rev (_async_calls c ++ f :: fs)
  /\ async_pending c' = false
  /\ hub_turn c' = c'
  /\ handle_async_ c
     = {| _async_calls := []; async_pending := async_pending c;
          spawned := spawned c ++ rev (_async_calls c) |}.
Proof.
  intros sent c'.
  destruct (sends_spec (f :: fs) c) as (H1 & H2 & H3). fold sent in H1, H2, H3.
  simpl in H3. rewrite orb_true_r in H3.
  assert (Ec : c' = {| _async_calls := []; async_pending := false;
                       spawned := spawned c ++ rev (_async_calls c ++ f :: fs) |}).
  { unfold c', hub_turn. rewrite H3, handle_async_spec. simpl.
    rewrite H1, H2. reflexivity. }
  rewrite Ec. repeat split. apply handle_async_spec.
Qed.

End AsyncFacts.

Module PeriodicFacts.

Import Periodic.

Lemma Periodic_init_spec period0 wait p :
  Periodic_init period0 wait = Some p ->
  (0 < period p)%Q /\ period p = period0 /\ timeout p = wait.
Proof.
  unfold Periodic_init. destruct (Qle_bool period0 0) eqn:E; [discriminate|].
  intros H. inversion H; subst. simpl. split; [|split; reflexivity].
  apply Qnot_le_lt. intros Hle. apply Qle_bool_iff in Hle. congruence.
Qed.

Lemma sleeps_app a b : sleeps (a ++ b) = sleeps a ++ sleeps b.
Proof. apply omap_app. Qed.

Lemma calls_app a b : calls (a ++ b) = (calls a + calls b)%nat.
Proof. unfold calls. rewrite List.filter_app, length_app. reflexivity. Qed.

Section Float.

Variable fadd : Q -> Q -> Q.
Variable fsub : Q -> Q -> Q.

(** The finite doubles among the rationals; the sums and differences
    the loop computes are taken not to overflow. *)
Variable double : Q -> Prop.

Hypothesis fadd_double : forall a b, double a -> double b -> double (fadd a b).
Hypothesis fsub_double : forall a b, double a -> double b -> double (fsub a b).

(** The rounded difference of two doubles has the sign of their
    difference: a difference of doubles that is not zero does not round
    to zero. *)
Hypothesis fsub_sign : forall a b,
  double a -> double b -> (fsub a b <= 0)%Q <-> (a <= b)%Q.

(** Rounding is monotone: what is left of a double after a double that
    is not positive is subtracted is not below it, and a rounded sum
    grows with its first term. *)
Hypothesis fsub_grows : forall a t,
  double a -> double t -> (t <= 0)%Q -> (a <= fsub a t)%Q.
Hypothesis fadd_mono : forall a b p,
  double a -> double b -> double p -> (a <= b)%Q -> (fadd a p <= fadd b p)%Q.

Lemma loop_cons p deadline raises now turns :
  _loop fadd fsub p deadline ((raises, now) :: turns) =
  (fst (_loop fadd fsub p
          (fst (_loop_turn fadd fsub p deadline raises now)) turns),
   snd (_loop_turn fadd fsub p deadline raises now)
     ++ snd (_loop fadd fsub p
               (fst (_loop_turn fadd fsub p deadline raises now)) turns)).
Proof.
  cbn [_loop]. destruct (_loop_turn fadd fsub p deadline raises now) as [d1 a1].
  cbn [fst snd]. destruct (_loop fadd fsub p d1 turns) as [d2 a2]. reflexivity.
Qed.

(** One turn: either the clock is short of the new deadline, and the
    loop sleeps until then; or it is not, the loop does not sleep and
    the deadline moves on by what the clock is ahead. *)
Lemma loop_turn_spec p deadline raises now :
  double (period p) -> double deadline -> double now ->
  let d1 := fadd deadline (period p) in
  let r := _loop_turn fadd fsub p deadline raises now in
  calls (snd r) = 1%nat /\ double (fst r)
  /\ ((d1 <= now)%Q
      /\ fst r = fsub d1 (fsub d1 now) /\ sleeps (snd r) = []
      /\ (d1 <= fst r)%Q
      \/ (now < d1)%Q
         /\ fst r = d1 /\ sleeps (snd r) = [fsub d1 now]
         /\ (0 < fsub d1 now)%Q).
Proof.
  intros Hp Hd Hn d1 r.
  assert (Hd1 : double d1) by (apply fadd_double; assumption).
  assert (Ht : double (fsub d1 now)) by (apply fsub_double; assumption).
  unfold r, _loop_turn. cbv zeta. fold d1.
  destruct (Qle_bool (fsub d1 now) 0) eqn:E; cbn [negb fst snd].
  - apply Qle_bool_iff in E.
    split; [destruct raises; reflexivity|].
    split; [apply fsub_double; assumption|].
    left. split; [apply (fsub_sign d1 now Hd1 Hn); exact E|].
    split; [reflexivity|]. split; [destruct raises; reflexivity|].
    apply fsub_grows; assumption.
  - assert (H : (0 < fsub d1 now)%Q).
    { apply Qnot_le_lt. intros Hle. apply Qle_bool_iff in Hle. congruence. }
    split; [destruct raises; reflexivity|]. split; [exact Hd1|].
    right. split.
    + apply Qnot_le_lt. intros Hle.
      apply (fsub_sign d1 now Hd1 Hn) in Hle. lra.
    + split; [reflexivity|].
      split; [destruct raises; reflexivity | exact H].
Qed.

(** A turn that finds the clock short of the new deadline. *)
Lemma loop_turn_on_time p deadline raises now :
  double (period p) -> double deadline -> double now ->
  (now < fadd deadline (period p))%Q ->
  let r := _loop_turn fadd fsub p deadline raises now in
  fst r = fadd deadline (period p)
  /\ sleeps (snd r) = [fsub (fadd deadline (period p)) now]
  /\ (0 < fsub (fadd deadline (period p)) now)%Q.
Proof.
  intros Hp Hd Hn Hlt r.
  assert (Hd1 : double (fadd deadline (period p)))
    by (apply fadd_double; assumption).
  assert (H : (0 < fsub (fadd deadline (period p)) now)%Q).
  { apply Qnot_le_lt. intros Hle.
    apply (fsub_sign _ now Hd1 Hn) in Hle. lra. }
  unfold r, _loop_turn. cbv zeta.
  destruct (Qle_bool (fsub (fadd deadline (period p)) now) 0) eqn:E.
  - apply Qle_bool_iff in E. lra.
  - cbn [negb fst snd]. split; [reflexivity|].
    split; [destruct raises; reflexivity | exact H].
Qed.

Lemma on_time_double p deadline n :
  double (period p) -> double deadline -> double (on_time fadd p deadline n).
Proof.
  intros Hp Hd. induction n as [|n IH]; [exact Hd|].
  unfold on_time in *. cbn [Nat.iter]. apply fadd_double; assumption.
Qed.

Lemma on_time_mono p n : forall a b,
  double (period p) -> double a -> double b -> (a <= b)%Q ->
  (on_time fadd p a n <= on_time fadd p b n)%Q.
Proof.
  intros a b Hp Ha Hb Hab. induction n as [|n IH]; [exact Hab|].
  unfold on_time in *. cbn [Nat.iter].
  apply fadd_mono; try assumption; apply on_time_double; assumption.
Qed.

Lemma on_time_S p deadline n :
  on_time fadd p deadline (S n) = on_time fadd p (fadd deadline (period p)) n.
Proof.
  unfold on_time.
  exact (Nat.iter_succ_r n (fun d => fadd d (period p)) deadline).
Qed.

Lemma loop_never_behind p : double (period p) -> forall turns deadline,
  double deadline -> Forall (fun x => double (snd x)) turns ->
  let r := _loop fadd fsub p deadline turns in
  (on_time fadd p deadline (length turns) <= fst r)%Q
  /\ Forall (fun t => (0 < t)%Q) (sleeps (snd r))
  /\ calls (snd r) = length turns.
Proof.
  intros Hp. induction turns as [|[raises now] turns IH]; intros deadline Hd Hall.
  { simpl. split; [apply Qle_refl|]. split; [constructor | reflexivity]. }
  apply Forall_cons in Hall as [Hn Hall]. cbn [snd] in Hn.
  cbv zeta. rewrite loop_cons. cbn [fst snd length].
  destruct (loop_turn_spec p deadline raises now Hp Hd Hn) as (Hc & Hdd & Ht).
  cbv zeta in Hc, Hdd, Ht.
  destruct (IH (fst (_loop_turn fadd fsub p deadline raises now)) Hdd Hall)
    as (I1 & I2 & I3).
  cbv zeta in I1, I2, I3.
  set (d1 := fst (_loop_turn fadd fsub p deadline raises now)) in *.
  assert (Hd1 : (fadd deadline (period p) <= d1)%Q).
  { destruct Ht as [(_ & _ & _ & H) | (_ & H & _)]; [exact H|].
    rewrite H. apply Qle_refl. }
  split; [|split].
  - rewrite on_time_S. eapply Qle_trans; [|exact I1].
    apply on_time_mono; try assumption. apply fadd_double; assumption.
  - rewrite sleeps_app. apply Forall_app. split; [|exact I2].
    destruct Ht as [(_ & _ & H3 & _) | (_ & _ & H3 & H4)]; rewrite H3;
      [constructor|]. constructor; [exact H4 | constructor].
  - rewrite calls_app, Hc, I3. reflexivity.
Qed.

(** X17: a [Periodic] does not make up for lost time.  For a period
    that [__init__] accepts and whatever the clock reads after each
    call: the method is called once a turn, an exception of it or not;
    the loop only ever sleeps for a positive time; a turn that finds the
    clock short of the deadline moved on by a period sleeps until then;
    a turn that finds the clock at or past it does not sleep and moves
    the deadline further, by what the clock is ahead, instead of calling
    the method again for the periods missed; so after [n] turns the
    deadline is not before the first one moved on by [n] periods.  The
    first call waits for [wait], for a period when [wait] is [None], and
    not at all when [wait] is zero. *)
Theorem periodic_never_catches_up (period0 : Q) (wait : option Q)
    (p : Periodic) (deadline now0 : Q) (turns : list (bool * Q)) :
  Periodic_init period0 wait = Some p ->
  double period0 -> double deadline ->
  Forall (fun x => double (snd x)) turns ->
  let r := _loop fadd fsub p deadline turns in
  (on_time fadd p deadline (length turns) <= fst r)%Q
  /\ Forall (fun t => (0 < t)%Q) (sleeps (snd r))
  /\ calls (snd r) = length turns
  /\ (forall d raises now, double d -> double now ->
        let d1 := fadd d period0 in
        let turn := _loop_turn fadd fsub p d raises now in
        calls (snd turn) = 1%nat
        /\ ((now < d1)%Q ->
            fst turn = d1 /\ sleeps (snd turn) = [fsub d1 now]
            /\ (0 < fsub d1 now)%Q)
        /\ ((d1 <= now)%Q ->
            fst turn = fsub d1 (fsub d1 now) /\ sleeps (snd turn) = []
            /\ (d1 <= fst turn)%Q))
  /\ _loop_start fadd p now0
     = match wait with
       | Some w => if Qeq_bool w 0 then (now0, [])
                   else (fadd now0 w, [Sleep w])
       | None => (fadd now0 period0, [Sleep period0])
       end.
Proof.
  intros Hinit Hp0 Hd Hall r.
  apply Periodic_init_spec in Hinit as (Hp & Hper & Hw).
  assert (Hpd : double (period p)) by (rewrite Hper; exact Hp0).
  destruct (loop_never_behind p Hpd turns deadline Hd Hall) as (H1 & H2 & H3).
  fold r in H1, H2, H3.
  split; [exact H1|]. split; [exact H2|]. split; [exact H3|]. split.
  - intros d raises now Hdd Hn d1 turn.
    destruct (loop_turn_spec p d raises now Hpd Hdd Hn) as (Hc & _ & Ht).
    cbv zeta in Hc, Ht. rewrite Hper in Ht. fold d1 in Ht. fold turn in Hc, Ht.
    split; [exact Hc|]. split.
    + intros Hlt. destruct Ht as [(Hge & _) | (_ & G1 & G2 & G3)]; [lra|].
      repeat split; assumption.
    + intros Hge. destruct Ht as [(_ & G1 & G2 & G3) | (Hlt & _)]; [|lra].
      repeat split; assumption.
  - unfold _loop_start. rewrite Hw, Hper. reflexivity.
Qed.

(** X18: a [Periodic] keeps its phase.  As long as the clock, read after
    each call, is short of the next deadline, the loop sleeps every
    turn, until that deadline, and the deadlines are the first one with
    the period added once for each turn: they do not depend on what the
    clock read, so that the time the method takes does not add up. *)
Theorem periodic_keeps_its_phase (p : Periodic) (turns : list (bool * Q)) :
  forall deadline : Q,
  double (period p) -> double deadline ->
  Forall (fun x => double (snd x)) turns ->
  (forall k raises now, turns !! k = Some (raises, now) ->
     (now < on_time fadd p deadline (S k))%Q) ->
  let r := _loop fadd fsub p deadline turns in
  fst r = on_time fadd p deadline (length turns)
  /\ length (sleeps (snd r)) = length turns
  /\ (forall k raises now, turns !! k = Some (raises, now) ->
        sleeps (snd r) !! k = Some (fsub (on_time fadd p deadline (S k)) now)
        /\ (0 < fsub (on_time fadd p deadline (S k)) now)%Q).
Proof.
  induction turns as [|[raises now] turns IH]; intros deadline Hp Hd Hall Hon.
  { simpl. split; [reflexivity|]. split; [reflexivity|].
    intros k raises now H. destruct k; discriminate. }
  apply Forall_cons in Hall as [Hn Hall]. cbn [snd] in Hn.
  cbv zeta. rewrite loop_cons. cbn [fst snd length].
  pose proof (Hon 0%nat raises now eq_refl) as H0.
  change (on_time fadd p deadline 1) with (fadd deadline (period p)) in H0.
  destruct (loop_turn_on_time p deadline raises now Hp Hd Hn H0)
    as (Hd1 & Hs1 & Hpos).
  cbv zeta in Hd1, Hs1, Hpos.
  assert (Hdd : double (fadd deadline (period p)))
    by (apply fadd_double; assumption).
  assert (Hon' : forall k raises' now', turns !! k = Some (raises', now') ->
            (now' < on_time fadd p (fadd deadline (period p)) (S k))%Q).
  { intros k raises' now' Hk. rewrite <- on_time_S.
    apply (Hon (S k) raises' now' Hk). }
  rewrite Hd1.
  destruct (IH (fadd deadline (period p)) Hp Hdd Hall Hon') as (I1 & I2 & I3).
  cbv zeta in I1, I2, I3.
  split; [|split].
  - rewrite I1, <- on_time_S. reflexivity.
  - rewrite sleeps_app, length_app, Hs1, I2. reflexivity.
  - intros k raises' now' Hk. rewrite sleeps_app, Hs1.
    destruct k as [|k].
    + simpl in Hk. inversion Hk; subst. split; [reflexivity | exact Hpos].
    + simpl in Hk. destruct (I3 k raises' now' Hk) as (G1 & G2).
      rewrite (on_time_S p deadline (S k)). split; [exact G1 | exact G2].
Qed.

End Float.

(** X17 where the sums and differences are exact: a period of five
    seconds and a call that takes twelve. *)
Lemma periodic_never_catches_up_witness :
  let r := _loop Qplus Qminus {| period := 5%Q; timeout := Some 0%Q |} 0%Q
             [(false, 12%Q)] in
  (on_time Qplus {| period := 5%Q; timeout := Some 0%Q |} 0%Q 1 <= fst r)%Q
  /\ Forall (fun t => (0 < t)%Q) (sleeps (snd r))
  /\ calls (snd r) = 1%nat.
Proof.
  cbv zeta.
  pose proof (periodic_never_catches_up Qplus Qminus (fun _ => True)
                (fun _ _ _ _ => I) (fun _ _ _ _ => I)
                ltac:(intros a b _ _; split; intros H; lra)
                ltac:(intros a t _ _ H; lra)
                ltac:(intros a b q _ _ _ H; lra)
                5%Q (Some 0%Q) {| period := 5%Q; timeout := Some 0%Q |}
                0%Q 0%Q [(false, 12%Q)] eq_refl I I
                ltac:(repeat constructor)) as (H1 & H2 & H3 & _).
  split; [exact H1|]. split; [exact H2 | exact H3].
Defined.

(** X18 where the sums and differences are exact: three calls of one,
    two and one seconds with a period of five. *)
Lemma periodic_keeps_its_phase_witness :
  fst (_loop Qplus Qminus {| period := 5%Q; timeout := Some 0%Q |} 0%Q
         [(false, 1%Q); (true, 7%Q); (false, 11%Q)])
  = on_time Qplus {| period := 5%Q; timeout := Some 0%Q |} 0%Q 3.
Proof.
  refine (proj1 (periodic_keeps_its_phase Qplus Qminus (fun _ => True)
                   (fun _ _ _ _ => I)
                   ltac:(intros a b _ _; split; intros H; lra)
                   {| period := 5%Q; timeout := Some 0%Q |}
                   [(false, 1%Q); (true, 7%Q); (false, 11%Q)] 0%Q I I
                   ltac:(repeat constructor) _)).
  intros k raises now H.
  destruct k as [|[|[|k]]]; inversion H; subst; reflexivity.
Defined.

End PeriodicFacts.

Module RemoteFacts.

Import Remote.

Lemma differ_spec a b : differ a b = false <-> a = b.
Proof.
  destruct a as [x|], b as [y|]; simpl; split; try discriminate; try reflexivity.
  - intros H. apply negb_false_iff, String.eqb_eq in H. congruence.
  - intros H. inversion H; subst. rewrite String.eqb_refl. reflexivity.
Qed.

Section Platform.

Variable scheme : string -> string.
Variable known_hosts_serverkey : string -> option string.
Variable request_discovery_info : string -> discovery.
Variable get_fq_identity : string -> string.
Variable Agent : nat.

Local Abbreviation connect :=
  (connect_remote_platform scheme known_hosts_serverkey
     request_discovery_info get_fq_identity Agent).

(** X19: over tcp, a server key that the known-hosts file holds for
    the address is never overridden.  With authentication the agent is
    built with that key, and a different key passed by the caller makes
    the method raise [ValueError]; the caller's key is used only when
    the file holds none; without authentication no server key is used
    at all.  The method never returns [None] over tcp. *)
Theorem known_hosts_key_wins (self : ZMQCore) (address : string)
    (serverkey : option string) (agent_class : option nat) :
  scheme address = "tcp" ->
  match connect self address serverkey agent_class with
  | Returns (Some a) =>
      agent_address a = Some address /\ message_bus a = Some "zmq"
      /\ Remote.agent_class a = default Agent agent_class
      /\ agent_serverkey a
         = (if enable_auth self then
              if truthy (known_hosts_serverkey address)
              then known_hosts_serverkey address else serverkey
            else None)
  | Returns None => False
  | ValueError _ =>
      enable_auth self = true
      /\ truthy (known_hosts_serverkey address) = true
      /\ truthy serverkey = true
      /\ known_hosts_serverkey address <> serverkey
  end.
Proof.
  intros Htcp. unfold connect_remote_platform. rewrite Htcp. simpl.
  destruct (enable_auth self); [|repeat split].
  destruct (truthy (known_hosts_serverkey address)) eqn:Ek; simpl;
    [|repeat split].
  destruct (truthy serverkey) eqn:Es; simpl; [|repeat split].
  destruct (differ (known_hosts_serverkey address) serverkey) eqn:Ed.
  - repeat split. intros Heq. apply differ_spec in Heq. congruence.
  - apply differ_spec in Ed. repeat split. symmetry. exact Ed.
Qed.

(** X20: what the scheme of the address decides.  Any scheme but tcp,
    https and http makes the method raise [ValueError].  It returns
    [None] in one case only, a [DiscoveryError] over http or https.
    Over http or https an agent is built only from a discovery that
    gives a vip address and, with authentication, a server key; it gets
    that address and that key, whatever server key the caller passed,
    and no message bus is named. *)
Theorem remote_platform_by_scheme (self : ZMQCore) (address : string)
    (serverkey : option string) (agent_class : option nat) :
  (scheme address <> "tcp" -> scheme address <> "https" ->
   scheme address <> "http" ->
   exists message,
     connect self address serverkey agent_class = ValueError message)
  /\ (connect self address serverkey agent_class = Returns None <->
      (scheme address = "https" \/ scheme address = "http")
      /\ request_discovery_info address = DiscoveryError)
  /\ (scheme address = "https" \/ scheme address = "http" ->
      forall a,
        connect self address serverkey agent_class = Returns (Some a) ->
        exists info,
          request_discovery_info address = Discovered info
          /\ truthy (vip_address info) = true
          /\ (enable_auth self = true -> truthy (info_serverkey info) = true)
          /\ agent_address a = vip_address info
          /\ agent_serverkey a = info_serverkey info
          /\ message_bus a = None).
Proof.
  unfold connect_remote_platform.
  destruct (String.eqb_spec (scheme address) "tcp") as [Et | Et].
  { split; [intros H; contradiction|]. split.
    - split.
      + intros H. exfalso.
        destruct (if enable_auth self then _ else _) as [k | m]; discriminate.
      + intros [[H | H] _]; rewrite Et in H; discriminate.
    - intros [H | H]; rewrite Et in H; discriminate. }
  destruct (String.eqb_spec (scheme address) "https") as [Es | Es];
    [|destruct (String.eqb_spec (scheme address) "http") as [Eh | Eh]].
  - simpl. split; [intros _ H; contradiction|].
    destruct (request_discovery_info address) as [info|].
    + split.
      * split; [|intros [_ H]; discriminate].
        destruct (truthy (vip_address info)); simpl; [|discriminate].
        destruct (enable_auth self && negb (truthy (info_serverkey info)));
          discriminate.
      * intros _ a.
        destruct (truthy (vip_address info)) eqn:Ev; simpl; [|discriminate].
        destruct (enable_auth self) eqn:Ea; simpl.
        -- destruct (truthy (info_serverkey info)) eqn:Ek; simpl; [|discriminate].
           intros H. inversion H; subst. exists info.
           repeat split; first [reflexivity | discriminate | auto].
        -- intros H. inversion H; subst. exists info.
           repeat split; first [reflexivity | discriminate | auto].
    + split; [split; [intros _; split; [left; exact Es | reflexivity]
                     | reflexivity]|].
      intros _ a H. discriminate.
  - simpl. split; [intros _ _ H; contradiction|].
    destruct (request_discovery_info address) as [info|].
    + split.
      * split; [|intros [_ H]; discriminate].
        destruct (truthy (vip_address info)); simpl; [|discriminate].
        destruct (enable_auth self && negb (truthy (info_serverkey info)));
          discriminate.
      * intros _ a.
        destruct (truthy (vip_address info)) eqn:Ev; simpl; [|discriminate].
        destruct (enable_auth self) eqn:Ea; simpl.
        -- destruct (truthy (info_serverkey info)) eqn:Ek; simpl; [|discriminate].
           intros H. inversion H; subst. exists info.
           repeat split; first [reflexivity | discriminate | auto].
        -- intros H. inversion H; subst. exists info.
           repeat split; first [reflexivity | discriminate | auto].
    + split; [split; [intros _; split; [right; exact Eh | reflexivity]
                     | reflexivity]|].
      intros _ a H. discriminate.
  - simpl. split; [intros _ _ _; eexists; reflexivity|]. split.
    + split; [discriminate | intros [[H | H] _]; contradiction].
    + intros [H | H]; contradiction.
Qed.

End Platform.

(** X19 on a core with authentication, a known key and a caller that
    passes another one: the method raises. *)
Lemma known_hosts_key_wins_witness :
  match
    connect_remote_platform (fun _ => "tcp") (fun _ => Some "KEY-A")
      (fun _ => DiscoveryError) (fun i => i) 0
      {| identity := "platform.agent"; publickey := None; secretkey := None;
         enable_auth := true |}
      "tcp://10.0.0.2:22916" (Some "KEY-B") None
  with
  | ValueError _ => Some "KEY-A" <> Some "KEY-B"
  | Returns _ => False
  end.
Proof.
  exact (proj2 (proj2 (proj2
           (known_hosts_key_wins (fun _ => "tcp") (fun _ => Some "KEY-A")
              (fun _ => DiscoveryError) (fun i => i) 0
              {| identity := "platform.agent"; publickey := None;
                 secretkey := None; enable_auth := true |}
              "tcp://10.0.0.2:22916" (Some "KEY-B") None eq_refl)))).
Defined.

End RemoteFacts.

Module AgentInitFacts.

Import AgentInit.

Lemma lower_ascii_inv (c : Ascii.ascii) :
  (lower_ascii c = Ascii.ascii_of_nat 114 ->
   c = Ascii.ascii_of_nat 114 \/ c = Ascii.ascii_of_nat 82)
  /\ (lower_ascii c = Ascii.ascii_of_nat 109 ->
      c = Ascii.ascii_of_nat 109 \/ c = Ascii.ascii_of_nat 77)
  /\ (lower_ascii c = Ascii.ascii_of_nat 113 ->
      c = Ascii.ascii_of_nat 113 \/ c = Ascii.ascii_of_nat 81).
Proof.
  destruct c as [[] [] [] [] [] [] [] []];
    (split; [|split]); intros H; vm_compute in H; try discriminate H;
    first [left; reflexivity | right; reflexivity].
Qed.

Lemma lower_rmq (s : string) :
  lower s = "rmq" <->
  In s ["rmq"; "rmQ"; "rMq"; "rMQ"; "Rmq"; "RmQ"; "RMq"; "RMQ"].
Proof.
  split.
  - intros H.
    destruct s as [|c1 [|c2 [|c3 [|c4 s]]]]; try discriminate H.
    simpl in H. inversion H as [[H1 H2 H3]].
    apply (proj1 (lower_ascii_inv c1)) in H1.
    apply (proj1 (proj2 (lower_ascii_inv c2))) in H2.
    apply (proj2 (proj2 (lower_ascii_inv c3))) in H3.
    destruct H1 as [-> | ->], H2 as [-> | ->], H3 as [-> | ->]; simpl; tauto.
  - intros H. simpl in H.
    repeat (destruct H as [<- | H]; [reflexivity|]). destruct H.
Qed.

(** X21: the core and the pubsub of an [Agent] are chosen by two
    different tests on [message_bus].  They agree on the RabbitMQ side
    for the spelling rmq alone; with RMQ or any other mix of cases the
    agent gets an [RMQCore] together with the ZeroMQ [PubSub]; with
    anything else, or no message bus, both are the ZeroMQ ones.  A
    channel is made when it is asked for and the message bus is not
    spelled rmq. *)
Theorem agent_bus_spelling (enable_store enable_web enable_channel enable_fncs
    enable_auth : bool) (message_bus : option string) :
  let core := Agent_core message_bus in
  let subsystems :=
    Subsystems_init enable_store enable_web enable_channel enable_fncs
      enable_auth message_bus in
  (core = RMQCore /\ pubsub subsystems = RMQPubSub <-> message_bus = Some "rmq")
  /\ (core = RMQCore /\ pubsub subsystems = PubSub <->
      exists bus, message_bus = Some bus
        /\ In bus ["rmQ"; "rMq"; "rMQ"; "Rmq"; "RmQ"; "RMq"; "RMQ"])
  /\ (core = ZMQCore -> pubsub subsystems = PubSub)
  /\ (channel subsystems = true <->
      enable_channel = true /\ message_bus <> Some "rmq").
Proof.
  intros core subsystems. unfold core, subsystems, Agent_core, Subsystems_init.
  destruct message_bus as [bus|]; simpl.
  2:{ split; [split; [intros [H _]; discriminate | discriminate]|].
      split; [split; [intros [H _]; discriminate
                     | intros (bus & H & _); discriminate]|].
      split; [reflexivity|].
      split; [intros H; split; [exact H | discriminate] | tauto]. }
  destruct (String.eqb_spec bus "rmq") as [-> | Hne].
  - simpl. split; [split; [reflexivity | split; reflexivity]|].
    split.
    + split; [intros [_ H]; discriminate|].
      intros (bus & H & Hin). inversion H; subst bus. simpl in Hin.
      repeat (destruct Hin as [Hin | Hin]; [discriminate Hin|]). destruct Hin.
    + split; [discriminate|].
      split; [discriminate | intros [_ H]; contradiction].
  - split; [split; [intros [_ H]; discriminate | congruence]|].
    split; [|split; [reflexivity|]].
    + destruct (String.eqb_spec (lower bus) "rmq") as [Hl | Hl].
      * apply lower_rmq in Hl. simpl in Hl.
        destruct Hl as [Hl | Hl]; [congruence|].
        split; [intros _; exists bus; split; [reflexivity | exact Hl]
               | intros _; split; reflexivity].
      * split; [intros [H _]; discriminate|].
        intros (bus' & H & Hin). inversion H; subst bus'. exfalso. apply Hl.
        apply lower_rmq. right. exact Hin.
    + split; [intros H; split; [exact H | congruence] | tauto].
Qed.

End AgentInitFacts.

Module FindSignalFacts.

Import FindSignal.

Lemma split_dot_free (s : string) : dot_free s = true -> split_dot s = [s].
Proof.
  induction s as [|c s IH]; [reflexivity|]. simpl.
  intros H. apply andb_true_iff in H as [Hc Hs].
  apply negb_true_iff in Hc. rewrite Hc, (IH Hs). reflexivity.
Qed.

Lemma split_dot_app (s t : string) :
  dot_free s = true ->
  split_dot (s +:+ String dot t) = s :: split_dot t.
Proof.
  induction s as [|c s IH]; intros H.
  - reflexivity.
  - simpl in H. apply andb_true_iff in H as [Hc Hs].
    apply negb_true_iff in Hc.
    change (String c s +:+ String dot t) with (String c (s +:+ String dot t)).
    cbn [split_dot]. rewrite Hc, (IH Hs). reflexivity.
Qed.

Lemma split_dot_concat (parts : list string) :
  parts <> [] -> forallb dot_free parts = true ->
  split_dot (String.concat (String dot EmptyString) parts) = parts.
Proof.
  induction parts as [|p parts IH]; intros Hne Hall; [contradiction|].
  simpl in Hall. apply andb_true_iff in Hall as [Hp Hall].
  destruct parts as [|q parts].
  - simpl. apply split_dot_free. exact Hp.
  - change (String.concat (String dot EmptyString) (p :: q :: parts))
      with (p +:+ String dot (String.concat (String dot EmptyString) (q :: parts))).
    rewrite split_dot_app by exact Hp.
    rewrite IH; [reflexivity | discriminate | exact Hall].
Qed.

(** X22: where [findsignal] looks a name up.  A name without a dot is an
    attribute of the first object, the core, and the owner plays no
    part; a name of two or more pieces joined by dots is followed piece
    by piece from the owner, and the first object plays no part.  In
    both cases a missing attribute raises [AttributeError] and a result
    that is not a [Signal] fails the assertion. *)
Theorem findsignal_resolves_by_dots (obj owner : object) (name : string)
    (parts : list string) :
  (dot_free name = true ->
   findsignal obj owner name = check (getattr obj name))
  /\ ((2 <= length parts)%nat -> forallb dot_free parts = true ->
      findsignal obj owner (String.concat (String dot EmptyString) parts)
      = check (walk owner parts)).
Proof.
  split.
  - intros H. unfold findsignal. rewrite (split_dot_free _ H). reflexivity.
  - intros Hlen Hall. unfold findsignal.
    rewrite split_dot_concat; [|destruct parts; [simpl in Hlen; lia | discriminate]
                               |exact Hall].
    destruct (Nat.eqb_spec (length parts) 1) as [E|E]; [lia | reflexivity].
Qed.

End FindSignalFacts.

Module TeardownFacts.

Import Teardown.

(** X23: the end of [ZMQCore.loop].  Whatever the three calls do,
    [self.socket] is [None] afterwards, and neither an [AttributeError]
    nor a [ZMQError] leaves the generator.  The calls stop at the first
    one that raises: the connection is closed only if the core still
    holds its socket and both [disconnect] and [monitor] went through.
    A line is logged only for a [ZMQError] whose errno is not
    [ENOENT]. *)
Theorem pre_finish_stops_at_first_failure (ENOENT : Z) (socket : bool)
    (disconnect monitor close_connection : option raised) :
  let r := pre_finish ENOENT socket disconnect monitor close_connection in
  fst (fst r) = false
  /\ (snd r = None \/ snd r = Some OtherError)
  /\ (snd r = Some OtherError ->
      disconnect = Some OtherError \/ monitor = Some OtherError
      \/ close_connection = Some OtherError)
  /\ (In (CloseConnection 1) (snd (fst r)) <->
      socket = true /\ disconnect = None /\ monitor = None
      /\ close_connection = None)
  /\ (In MonitorOff (snd (fst r)) <->
      socket = true /\ disconnect = None /\ monitor = None)
  /\ (forall line, In (LogException line) (snd (fst r)) ->
      exists errno, errno <> ENOENT
        /\ (disconnect = Some (ZMQError errno)
            \/ monitor = Some (ZMQError errno)
            \/ close_connection = Some (ZMQError errno))).
Proof.
  intros r. unfold r, pre_finish, handle.
  destruct disconnect as [[| e1 |]|];
    [..| destruct socket;
         [destruct monitor as [[| e2 |]|];
            [..| destruct close_connection as [[| e3 |]|]] |]];
    cbn [fst snd app];
    (split; [reflexivity|]);
    (split; [first [left; reflexivity | right; reflexivity]|]);
    (split; [intros H; first [discriminate H | tauto]|]);
    (split; [|split]);
    try (split; intros H);
    try (intros line H);
    repeat match goal with
           | H : In _ (_ :: _) |- _ => destruct H as [H | H]
           | H : In _ [] |- _ => destruct H
           | H : In _ (if negb (?e =? ENOENT)%Z then _ else _) |- _ =>
               destruct (Z.eqb_spec e ENOENT); cbn [negb] in H
           | H : _ /\ _ |- _ => destruct H
           end;
    try discriminate;
    try (simpl; tauto);
    try (eexists; split; [eassumption|]; tauto).
Qed.

End TeardownFacts.
